(** * The back-ldbm entry cache (servers/slapd/back-ldbm/cache.c)

    A shallow embedding of the entry cache of the LDBM backend and the
    proofs of its specification.  The C code works on a heap of [Entry]
    structures that carry a private [EntryInfo] block (state, reference
    count, reader/writer lock and the links of the LRU queue) and on one
    [Cache] structure (two AVL indexes, the ends of the LRU queue, the
    sizes and the cache mutex).  The embedding keeps that shape: a heap
    of records addressed by pointers, and every C function as a
    computation in a small state-and-failure monad. *)

From stdpp Require Import gmap strings list fin_maps.
From Stdlib Require Import ZArith Lia.

Open Scope Z_scope.

(** ** Data model *)

(** An [Entry *]; [None : option ptr] is the NULL pointer. *)
Abbreviation ptr := positive (only parsing).

(** [ID] is the entry identifier of slap.h. *)
Abbreviation ID := Z (only parsing).

(** Modelled from the spec: slap.h is not part of the sources; NOID is
    the reserved identifier that means "no such entry".  Its value (the
    all-ones 64-bit pattern) plays no role below. *)
Definition NOID : Z := Z.ones 64.

(** Modelled from the spec: the reader/writer lock of the thread
    library (ldap_pvt_thread_rdwr_t), "many readers xor one writer".
    The blocking acquisitions return [None] where the caller would have
    to wait; the try variants report [LDAP_PVT_THREAD_EBUSY] instead. *)
Record rdwr : Type := Rdwr { rw_readers : nat; rw_writer : bool }.

Definition rdwr_unlocked : rdwr := Rdwr 0 false.

Definition LDAP_PVT_THREAD_EBUSY : Z := 16.

Definition ldap_pvt_thread_rdwr_rlock (l : rdwr) : option rdwr :=
  if rw_writer l then None else Some (Rdwr (S (rw_readers l)) false).

Definition ldap_pvt_thread_rdwr_wlock (l : rdwr) : option rdwr :=
  if rw_writer l then None
  else match rw_readers l with
       | O => Some (Rdwr 0 true)
       | S _ => None
       end.

Definition ldap_pvt_thread_rdwr_rtrylock (l : rdwr) : Z * rdwr :=
  match ldap_pvt_thread_rdwr_rlock l with
  | Some l' => (0, l')
  | None => (LDAP_PVT_THREAD_EBUSY, l)
  end.

Definition ldap_pvt_thread_rdwr_wtrylock (l : rdwr) : Z * rdwr :=
  match ldap_pvt_thread_rdwr_wlock l with
  | Some l' => (0, l')
  | None => (LDAP_PVT_THREAD_EBUSY, l)
  end.

Definition ldap_pvt_thread_rdwr_runlock (l : rdwr) : rdwr :=
  Rdwr (Nat.pred (rw_readers l)) (rw_writer l).

Definition ldap_pvt_thread_rdwr_wunlock (l : rdwr) : rdwr :=
  Rdwr (rw_readers l) false.

(** The values of [lei_state]. *)
Definition CACHE_ENTRY_UNDEFINED : Z := 0.
Definition CACHE_ENTRY_CREATING : Z := 1.
Definition CACHE_ENTRY_READY : Z := 2.
Definition CACHE_ENTRY_DELETED : Z := 3.
Definition CACHE_ENTRY_COMMITTED : Z := 4.

(** The C type [int] of [lei_refcnt]: 32 bits, two's complement.
    [int_wrap z] is the value such an [int] holds once the result [z] of
    an addition or a subtraction has been stored in it. *)
Definition INT_MAX : Z := 2147483647.
Definition INT_MIN : Z := -2147483648.

Definition int_wrap (z : Z) : Z :=
  (z - INT_MIN) mod (INT_MAX - INT_MIN + 1) + INT_MIN.
Arguments int_wrap : simpl never.

(** [struct ldbm_entry_info].  [lei_refcnt] holds the value of the C
    [int]; the routines that count with it, [cache_find_entry_id] with
    [++] and [cache_return_entry_rw] with [--], store the result
    through [int_wrap]. *)
Record EntryInfo : Type := mkEntryInfo {
  lei_rdwr : rdwr;
  lei_state : Z;
  lei_refcnt : Z;
  lei_lrunext : option ptr;
  lei_lruprev : option ptr
}.

(** The part of [Entry] the cache reads: the identifier, the normalized
    name that [entry_dn_cmp] compares, and the private pointer. *)
Record Entry : Type := mkEntry {
  e_id : ID;
  e_nname : string;
  e_private : option EntryInfo
}.

(** [Cache] (back-ldbm.h).  Modelled from the spec: the two AVL trees of
    the index library are finite maps from the key their comparison
    function reads ([entry_dn_cmp]: the normalized name, [entry_id_cmp]:
    the identifier) to the stored entry pointer; [c_mutex] holds whether
    the cache mutex is taken.  The header that declares [c_maxsize] and
    [c_cursize] is not part of the sources: the two sizes are kept as
    mathematical integers, [c_cursize] being the length of the LRU
    queue wherever the invariant of the cache holds. *)
Record Cache : Type := mkCache {
  c_maxsize : Z;
  c_cursize : Z;
  c_dntree : gmap string ptr;
  c_idtree : gmap Z ptr;
  c_lruhead : option ptr;
  c_lrutail : option ptr;
  c_mutex : bool
}.

Record State : Type := mkState {
  heap : gmap positive Entry;
  cache : Cache
}.

(** ** The monad of cache routines

    A routine either returns a value and a new state, stops on a failed
    assertion or an invalid memory access ([Fault]), would wait for a
    lock ([Block]), or has used up the iterations it was given
    ([OutOfFuel]). *)
Inductive Res (A : Type) : Type :=
| Done (a : A) (s : State)
| Fault
| Block
| OutOfFuel.
Arguments Done {A} a s.
Arguments Fault {A}.
Arguments Block {A}.
Arguments OutOfFuel {A}.

Definition M (A : Type) : Type := State → Res A.

Definition ret {A} (a : A) : M A := λ s, Done a s.

Definition bind {A B} (m : M A) (k : A → M B) : M B :=
  λ s, match m s with
       | Done a s' => k a s'
       | Fault => Fault
       | Block => Block
       | OutOfFuel => OutOfFuel
       end.

Notation "'do' x <- m 'in' k" := (bind m (λ x, k))
  (at level 10, x name, m at level 100, k at level 200, only parsing).
Notation "m ;;; k" := (bind m (λ _, k))
  (at level 100, k at level 200, right associativity, only parsing).

Definition fault {A} : M A := λ _, Fault.
Definition block {A} : M A := λ _, Block.
Definition get_cache : M Cache := λ s, Done (cache s) s.
Definition set_cache (f : Cache → Cache) : M unit :=
  λ s, Done tt (mkState (heap s) (f (cache s))).

(** [*e]: reading through a pointer that is not allocated is a fault. *)
Definition load (e : ptr) : M Entry :=
  λ s, match heap s !! e with Some x => Done x s | None => Fault end.

Definition store (e : ptr) (x : Entry) : M unit :=
  λ s, match heap s !! e with
       | Some _ => Done tt (mkState (<[e := x]> (heap s)) (cache s))
       | None => Fault
       end.

(** [LEI(e)], dereferenced. *)
Definition LEI (e : ptr) : M EntryInfo :=
  do x <- load e in
  match e_private x with Some i => ret i | None => fault end.

(** An assignment to one field of [LEI(e)]. *)
Definition set_LEI (e : ptr) (f : EntryInfo → EntryInfo) : M unit :=
  do x <- load e in
  match e_private x with
  | Some i => store e (mkEntry (e_id x) (e_nname x) (Some (f i)))
  | None => fault
  end.

Definition with_rdwr (l : rdwr) (i : EntryInfo) : EntryInfo :=
  mkEntryInfo l (lei_state i) (lei_refcnt i) (lei_lrunext i) (lei_lruprev i).
Definition with_state (st : Z) (i : EntryInfo) : EntryInfo :=
  mkEntryInfo (lei_rdwr i) st (lei_refcnt i) (lei_lrunext i) (lei_lruprev i).
Definition with_refcnt (n : Z) (i : EntryInfo) : EntryInfo :=
  mkEntryInfo (lei_rdwr i) (lei_state i) n (lei_lrunext i) (lei_lruprev i).
Definition with_lrunext (p : option ptr) (i : EntryInfo) : EntryInfo :=
  mkEntryInfo (lei_rdwr i) (lei_state i) (lei_refcnt i) p (lei_lruprev i).
Definition with_lruprev (p : option ptr) (i : EntryInfo) : EntryInfo :=
  mkEntryInfo (lei_rdwr i) (lei_state i) (lei_refcnt i) (lei_lrunext i) p.

Definition with_cursize (n : Z) (c : Cache) : Cache :=
  mkCache (c_maxsize c) n (c_dntree c) (c_idtree c) (c_lruhead c)
    (c_lrutail c) (c_mutex c).
Definition with_dntree (t : gmap string ptr) (c : Cache) : Cache :=
  mkCache (c_maxsize c) (c_cursize c) t (c_idtree c) (c_lruhead c)
    (c_lrutail c) (c_mutex c).
Definition with_idtree (t : gmap Z ptr) (c : Cache) : Cache :=
  mkCache (c_maxsize c) (c_cursize c) (c_dntree c) t (c_lruhead c)
    (c_lrutail c) (c_mutex c).
Definition with_lruhead (p : option ptr) (c : Cache) : Cache :=
  mkCache (c_maxsize c) (c_cursize c) (c_dntree c) (c_idtree c) p
    (c_lrutail c) (c_mutex c).
Definition with_lrutail (p : option ptr) (c : Cache) : Cache :=
  mkCache (c_maxsize c) (c_cursize c) (c_dntree c) (c_idtree c) (c_lruhead c)
    p (c_mutex c).
Definition with_mutex (b : bool) (c : Cache) : Cache :=
  mkCache (c_maxsize c) (c_cursize c) (c_dntree c) (c_idtree c) (c_lruhead c)
    (c_lrutail c) b.

(** Modelled from the spec: the cache mutex of the thread library, not
    recursive; locking it while it is taken waits. *)
Definition ldap_pvt_thread_mutex_lock : M unit :=
  do c <- get_cache in
  if c_mutex c then block else set_cache (with_mutex true).

Definition ldap_pvt_thread_mutex_unlock : M unit :=
  set_cache (with_mutex false).

(** Modelled from the spec: [entry_free] of the host releases the
    payload; the entry is no longer allocated afterwards. *)
Definition entry_free (e : ptr) : M unit :=
  do _ <- load e in
  λ s, Done tt (mkState (delete e (heap s)) (cache s)).

(** Modelled from the spec: the ordered-index primitive.  [avl_insert]
    with [avl_dup_error] refuses a key that is present (result -1);
    [avl_delete] removes the node whose key compares equal and returns
    its data, or NULL when there is none; [avl_find] returns the data.
    The key of an entry is read through the pointer, as the comparison
    functions do. *)
Definition avl_insert_dn (e : ptr) : M Z :=
  do x <- load e in
  do c <- get_cache in
  match c_dntree c !! e_nname x with
  | Some _ => ret (-1)
  | None => set_cache (with_dntree (<[e_nname x := e]> (c_dntree c))) ;;; ret 0
  end.

Definition avl_insert_id (e : ptr) : M Z :=
  do x <- load e in
  do c <- get_cache in
  match c_idtree c !! e_id x with
  | Some _ => ret (-1)
  | None => set_cache (with_idtree (<[e_id x := e]> (c_idtree c))) ;;; ret 0
  end.

Definition avl_delete_dn (e : ptr) : M (option ptr) :=
  do x <- load e in
  do c <- get_cache in
  match c_dntree c !! e_nname x with
  | Some d => set_cache (with_dntree (delete (e_nname x) (c_dntree c))) ;;;
              ret (Some d)
  | None => ret None
  end.

Definition avl_delete_id (e : ptr) : M (option ptr) :=
  do x <- load e in
  do c <- get_cache in
  match c_idtree c !! e_id x with
  | Some d => set_cache (with_idtree (delete (e_id x) (c_idtree c))) ;;;
              ret (Some d)
  | None => ret None
  end.

Definition avl_find_dn (ndn : string) : M (option ptr) :=
  do c <- get_cache in ret (c_dntree c !! ndn).

Definition avl_find_id (id : ID) : M (option ptr) :=
  do c <- get_cache in ret (c_idtree c !! id).

(** ** The routines of cache.c *)

(** [rw] is the C flag: [true] for the writer side. *)
Definition cache_entry_rdwr_lock (e : ptr) (rw : bool) : M Z :=
  do i <- LEI e in
  match (if rw then ldap_pvt_thread_rdwr_wlock (lei_rdwr i)
         else ldap_pvt_thread_rdwr_rlock (lei_rdwr i)) with
  | Some l => set_LEI e (with_rdwr l) ;;; ret 0
  | None => block
  end.

Definition cache_entry_rdwr_trylock (e : ptr) (rw : bool) : M Z :=
  do i <- LEI e in
  let r := if rw then ldap_pvt_thread_rdwr_wtrylock (lei_rdwr i)
           else ldap_pvt_thread_rdwr_rtrylock (lei_rdwr i) in
  set_LEI e (with_rdwr (snd r)) ;;; ret (fst r).

Definition cache_entry_rdwr_unlock (e : ptr) (rw : bool) : M Z :=
  do i <- LEI e in
  set_LEI e (with_rdwr (if rw then ldap_pvt_thread_rdwr_wunlock (lei_rdwr i)
                        else ldap_pvt_thread_rdwr_runlock (lei_rdwr i))) ;;;
  ret 0.

(** The block [ch_calloc] returns: every field zero. *)
Definition calloc_EntryInfo : EntryInfo :=
  mkEntryInfo rdwr_unlocked CACHE_ENTRY_UNDEFINED 0 None None.

(** [init_rc] is the result of [ldap_pvt_thread_rdwr_init], which the
    thread library decides. *)
Definition cache_entry_private_init (init_rc : Z) (e : ptr) : M Z :=
  do x <- load e in
  match e_private x with
  | Some _ => fault
  | None =>
      store e (mkEntry (e_id x) (e_nname x) (Some calloc_EntryInfo)) ;;;
      if negb (init_rc =? 0) then
        store e (mkEntry (e_id x) (e_nname x) None) ;;; ret 1
      else ret 0
  end.

Definition cache_entry_commit (e : ptr) : M unit :=
  do i <- LEI e in
  if negb (lei_state i =? CACHE_ENTRY_CREATING) then fault
  else set_LEI e (with_state CACHE_ENTRY_COMMITTED).

Definition cache_entry_private_destroy (e : ptr) : M Z :=
  do x <- load e in
  match e_private x with
  | None => fault
  | Some _ => store e (mkEntry (e_id x) (e_nname x) None) ;;; ret 0
  end.

(** The macro [LRU_DELETE]; [LEI(e)] is read again at each use, as the
    expansion does. *)
Definition LRU_DELETE (e : ptr) : M unit :=
  do i <- LEI e in
  (match lei_lruprev i with
   | Some p => set_LEI p (with_lrunext (lei_lrunext i))
   | None => set_cache (with_lruhead (lei_lrunext i))
   end) ;;;
  do i <- LEI e in
  match lei_lrunext i with
  | Some n => set_LEI n (with_lruprev (lei_lruprev i))
  | None => set_cache (with_lrutail (lei_lruprev i))
  end.

(** The macro [LRU_ADD]. *)
Definition LRU_ADD (e : ptr) : M unit :=
  do c <- get_cache in
  set_LEI e (with_lrunext (c_lruhead c)) ;;;
  do i <- LEI e in
  (match lei_lrunext i with
   | Some n => set_LEI n (with_lruprev (Some e))
   | None => ret tt
   end) ;;;
  set_cache (with_lruhead (Some e)) ;;;
  set_LEI e (with_lruprev None) ;;;
  do c <- get_cache in
  match c_lrutail c with
  | None => set_cache (with_lrutail (Some e))
  | Some _ => ret tt
  end.

Definition cache_delete_entry_internal (e : ptr) : M Z :=
  do d <- avl_delete_dn e in
  let rc := match d with None => -1 | Some _ => 0 end in
  do d <- avl_delete_id e in
  let rc := match d with None => -1 | Some _ => rc end in
  if negb (rc =? 0) then ret rc
  else
    LRU_DELETE e ;;;
    do c <- get_cache in
    set_cache (with_cursize (c_cursize c - 1)) ;;;
    set_LEI e (with_state CACHE_ENTRY_DELETED) ;;;
    ret 0.

Definition cache_return_entry_rw (e : ptr) (rw : bool) : M unit :=
  ldap_pvt_thread_mutex_lock ;;;
  do _ <- LEI e in
  cache_entry_rdwr_unlock e rw ;;;
  do i <- LEI e in
  let refcnt := int_wrap (lei_refcnt i - 1) in
  set_LEI e (with_refcnt refcnt) ;;;
  do i <- LEI e in
  do freeit <- (if lei_state i =? CACHE_ENTRY_CREATING
                then cache_delete_entry_internal e ;;; ret false
                else ret true) in
  do i <- LEI e in
  if lei_state i =? CACHE_ENTRY_COMMITTED then
    set_LEI e (with_state CACHE_ENTRY_READY) ;;;
    ldap_pvt_thread_mutex_unlock
  else if lei_state i =? CACHE_ENTRY_DELETED then
    if 0 <? refcnt then ldap_pvt_thread_mutex_unlock
    else
      cache_entry_private_destroy e ;;;
      (if freeit : bool then entry_free e else ret tt) ;;;
      ldap_pvt_thread_mutex_unlock
  else ldap_pvt_thread_mutex_unlock.

(** The two loops that [cache_add_entry_rw] and [cache_update_entry]
    run, in the same words, once [c_cursize] has passed [c_maxsize].

    First loop: entries in use at the tail of the queue are moved to its
    front.  The count [n] is what is left of the bound [i < 10]; the
    reference count of the tail is read before the bound is tested, as
    the C condition does. *)
Fixpoint lru_requeue_inuse (n : nat) : M unit :=
  do c <- get_cache in
  match c_lrutail c with
  | None => ret tt
  | Some ee =>
      do i <- LEI ee in
      if negb (lei_refcnt i =? 0) then
        match n with
        | O => ret tt
        | S n' => LRU_DELETE ee ;;; LRU_ADD ee ;;; lru_requeue_inuse n'
        end
      else ret tt
  end.

(** Second loop: the tail is deleted, its private block destroyed and
    the entry freed while the tail is unused and the cache is over its
    size.  Every round frees one allocated entry, which bounds the
    rounds by the size of the heap (see [lru_make_room_Done]). *)
Fixpoint lru_evict_unused (fuel : nat) : M unit :=
  do c <- get_cache in
  match c_lrutail c with
  | None => ret tt
  | Some e =>
      do i <- LEI e in
      if (lei_refcnt i =? 0) && (c_maxsize c <? c_cursize c) then
        match fuel with
        | O => λ _, OutOfFuel
        | S fuel' =>
            cache_delete_entry_internal e ;;;
            cache_entry_private_destroy e ;;;
            entry_free e ;;;
            lru_evict_unused fuel'
        end
      else ret tt
  end.

Definition lru_make_room : M unit :=
  do c <- get_cache in
  if c_maxsize c <? c_cursize c then
    lru_requeue_inuse 10 ;;;
    λ s, lru_evict_unused (S (size (heap s))) s
  else ret tt.

(** [cache_add_entry_rw]: 0 when the entry has been created and locked,
    1 when it already existed, -1 when something bad happened. *)
Definition cache_add_entry_rw (init_rc : Z) (e : ptr) (rw : bool) : M Z :=
  ldap_pvt_thread_mutex_lock ;;;
  do x <- load e in
  if bool_decide (e_private x = None) then
    do rc <- cache_entry_private_init init_rc e in
    if negb (rc =? 0) then
      ldap_pvt_thread_mutex_unlock ;;; ret (-1)
    else
      do rc <- avl_insert_dn e in
      if negb (rc =? 0) then
        ldap_pvt_thread_mutex_unlock ;;;
        cache_entry_private_destroy e ;;;
        ret 1
      else
        do rc <- avl_insert_id e in
        if negb (rc =? 0) then
          avl_delete_dn e ;;;
          cache_entry_private_destroy e ;;;
          ldap_pvt_thread_mutex_unlock ;;;
          ret (-1)
        else
          cache_entry_rdwr_lock e rw ;;;
          set_LEI e (with_state CACHE_ENTRY_CREATING) ;;;
          set_LEI e (with_refcnt 1) ;;;
          LRU_ADD e ;;;
          do c <- get_cache in
          set_cache (with_cursize (c_cursize c + 1)) ;;;
          lru_make_room ;;;
          ldap_pvt_thread_mutex_unlock ;;;
          ret 0
  else fault.

(** [cache_update_entry]: puts a locked entry that has been deleted back
    into the cache; same results as [cache_add_entry_rw]. *)
Definition cache_update_entry (e : ptr) : M Z :=
  ldap_pvt_thread_mutex_lock ;;;
  do _ <- LEI e in
  do rc <- avl_insert_dn e in
  if negb (rc =? 0) then
    ldap_pvt_thread_mutex_unlock ;;; ret 1
  else
    do rc <- avl_insert_id e in
    if negb (rc =? 0) then
      avl_delete_dn e ;;;
      ldap_pvt_thread_mutex_unlock ;;;
      ret (-1)
    else
      set_LEI e (with_state CACHE_ENTRY_CREATING) ;;;
      LRU_ADD e ;;;
      do c <- get_cache in
      set_cache (with_cursize (c_cursize c + 1)) ;;;
      lru_make_room ;;;
      ldap_pvt_thread_mutex_unlock ;;;
      ret 0.

(** One pass of a lookup, from the label [try_again] to either a
    [return] or the [goto try_again] that follows
    [ldap_pvt_thread_yield]. *)
Inductive pass (A : Type) : Type :=
| Return (a : A)
| TryAgain.
Arguments Return {A} a.
Arguments TryAgain {A}.

Definition cache_find_entry_ndn2id_pass (ndn : string) : M (pass ID) :=
  ldap_pvt_thread_mutex_lock ;;;
  do found <- avl_find_dn ndn in
  match found with
  | Some ep =>
      do i <- LEI ep in
      do x <- load ep in
      let id := e_id x in
      let state := lei_state i in
      if negb (state =? CACHE_ENTRY_READY) then
        if state =? CACHE_ENTRY_UNDEFINED then fault
        else ldap_pvt_thread_mutex_unlock ;;; ret TryAgain
      else
        LRU_DELETE ep ;;;
        LRU_ADD ep ;;;
        ldap_pvt_thread_mutex_unlock ;;;
        ret (Return id)
  | None =>
      ldap_pvt_thread_mutex_unlock ;;; ret (Return NOID)
  end.

Definition cache_find_entry_id_pass (id : ID) (rw : bool)
  : M (pass (option ptr)) :=
  ldap_pvt_thread_mutex_lock ;;;
  do found <- avl_find_id id in
  match found with
  | Some ep =>
      do i <- LEI ep in
      let state := lei_state i in
      if negb (state =? CACHE_ENTRY_READY) then
        if state =? CACHE_ENTRY_UNDEFINED then fault
        else ldap_pvt_thread_mutex_unlock ;;; ret TryAgain
      else
        do rc <- cache_entry_rdwr_trylock ep rw in
        if rc =? LDAP_PVT_THREAD_EBUSY then
          ldap_pvt_thread_mutex_unlock ;;; ret TryAgain
        else
          LRU_DELETE ep ;;;
          LRU_ADD ep ;;;
          do i <- LEI ep in
          set_LEI ep (with_refcnt (int_wrap (lei_refcnt i + 1))) ;;;
          ldap_pvt_thread_mutex_unlock ;;;
          ret (Return (Some ep))
  | None =>
      ldap_pvt_thread_mutex_unlock ;;; ret (Return None)
  end.

(** The lookups themselves: passes separated by
    [ldap_pvt_thread_yield], during which the other threads run
    ([yield] is what they do to the state).  [fuel] bounds the number of
    passes; the C loop has no bound. *)
Fixpoint cache_find_entry_ndn2id (yield : M unit) (fuel : nat) (ndn : string)
  : M ID :=
  match fuel with
  | O => λ _, OutOfFuel
  | S fuel' =>
      do r <- cache_find_entry_ndn2id_pass ndn in
      match r with
      | Return id => ret id
      | TryAgain => yield ;;; cache_find_entry_ndn2id yield fuel' ndn
      end
  end.

Fixpoint cache_find_entry_id (yield : M unit) (fuel : nat) (id : ID)
  (rw : bool) : M (option ptr) :=
  match fuel with
  | O => λ _, OutOfFuel
  | S fuel' =>
      do r <- cache_find_entry_id_pass id rw in
      match r with
      | Return ep => ret ep
      | TryAgain => yield ;;; cache_find_entry_id yield fuel' id rw
      end
  end.

(** [cache_delete_entry]: 0 when [e] was deleted, otherwise the error of
    [cache_delete_entry_internal]. *)
Definition cache_delete_entry (e : ptr) : M Z :=
  ldap_pvt_thread_mutex_lock ;;;
  do _ <- LEI e in
  do rc <- cache_delete_entry_internal e in
  ldap_pvt_thread_mutex_unlock ;;;
  ret rc.

(** The loop of [cache_release_all]. *)
Fixpoint cache_release_all_loop (fuel : nat) : M unit :=
  do c <- get_cache in
  match c_lrutail c with
  | None => ret tt
  | Some e =>
      do i <- LEI e in
      if lei_refcnt i =? 0 then
        match fuel with
        | O => λ _, OutOfFuel
        | S fuel' =>
            cache_delete_entry_internal e ;;;
            cache_entry_private_destroy e ;;;
            entry_free e ;;;
            cache_release_all_loop fuel'
        end
      else ret tt
  end.

Definition cache_release_all : M unit :=
  ldap_pvt_thread_mutex_lock ;;;
  (λ s, cache_release_all_loop (S (size (heap s))) s) ;;;
  ldap_pvt_thread_mutex_unlock.

(** ** The host side *)

(** A cache that has just been set up: nothing resident, mutex free. *)
Definition cache_open (maxsize : Z) : Cache :=
  mkCache maxsize 0 ∅ ∅ None None false.

(** The host allocates an entry at a fresh address; its private pointer
    is NULL until the cache attaches a block. *)
Definition host_new_entry (e : ptr) (id : ID) (ndn : string) : M unit :=
  λ s, match heap s !! e with
       | Some _ => Fault
       | None => Done tt (mkState (<[e := mkEntry id ndn None]> (heap s))
                            (cache s))
       end.

(** ** The LRU queue as a list

    The queue that the [lei_lrunext] and [lei_lruprev] links thread
    through the heap is described by the list of its entries, head
    first.  [succ_in] and [pred_in] give the neighbours an entry has in
    such a list. *)
Section queue.
Implicit Types (l : list positive) (p q e : positive).

Fixpoint succ_in l p : option positive :=
  match l with
  | [] => None
  | x :: l' => if decide (x = p) then head l' else succ_in l' p
  end.

Fixpoint pred_in l p : option positive :=
  match l with
  | [] => None
  | x :: l' =>
      match l' with
      | [] => None
      | y :: _ => if decide (y = p) then Some x else pred_in l' p
      end
  end.

Definition lru_del e l : list positive := filter (λ x, x ≠ e) l.

Lemma head_elem l p : head l = Some p → p ∈ l.
Proof. destruct l; simpl; [done|]. intros [= ->]. left. Qed.

Lemma succ_in_elem l p q : succ_in l p = Some q → p ∈ l ∧ q ∈ l.
Proof.
  induction l as [|x l IH]; simpl; [done|].
  case_decide as Hx.
  - subst x. intros Hh. split; [left|]. right. by apply head_elem.
  - intros [??]%IH. split; by right.
Qed.

Lemma pred_in_elem l p q : pred_in l p = Some q → p ∈ l ∧ q ∈ l.
Proof.
  induction l as [|x l IH]; simpl; [done|].
  destruct l as [|y l]; [done|].
  case_decide as Hy.
  - subst y. intros [= ->]. split; [right; left | left].
  - intros [??]%IH. split; by right.
Qed.

Lemma succ_in_notin l p : p ∉ l → succ_in l p = None.
Proof.
  intros Hp. destruct (succ_in l p) eqn:E; [|done].
  by apply succ_in_elem in E as [??].
Qed.

Lemma pred_in_notin l p : p ∉ l → pred_in l p = None.
Proof.
  intros Hp. destruct (pred_in l p) eqn:E; [|done].
  by apply pred_in_elem in E as [??].
Qed.

Lemma last_cons_cons x y l : last (x :: y :: l) = last (y :: l).
Proof. done. Qed.

Lemma last_elem l p : last l = Some p → p ∈ l.
Proof.
  induction l as [|x l IH]; [done|].
  destruct l as [|y l]; [intros [= ->]; left|].
  rewrite last_cons_cons. intros ?%IH. by right.
Qed.

Lemma succ_in_last l p :
  NoDup l → p ∈ l → succ_in l p = None ↔ last l = Some p.
Proof.
  induction l as [|x l IH]; [by intros _ ?%elem_of_nil|].
  intros [Hx Hl]%NoDup_cons Hp. simpl succ_in.
  destruct l as [|y l].
  - apply list_elem_of_singleton in Hp as ->. by rewrite decide_True.
  - rewrite last_cons_cons. case_decide as Hxp.
    + subst x. simpl. split; [done|]. intros ?%last_elem. done.
    + apply IH; [done|]. by apply elem_of_cons in Hp as [->|?].
Qed.

Lemma pred_in_head l p :
  NoDup l → p ∈ l → pred_in l p = None ↔ head l = Some p.
Proof.
  induction l as [|x l IH]; [by intros _ ?%elem_of_nil|].
  intros [Hx Hl]%NoDup_cons Hp. simpl.
  destruct l as [|y l].
  - apply list_elem_of_singleton in Hp as ->. done.
  - case_decide as Hyp.
    + subst y. split; [done|]. intros [= ->]. exfalso. apply Hx. left.
    + apply elem_of_cons in Hp as [->|Hp].
      * split; [done|]. intros _. apply pred_in_notin. done.
      * etrans; [apply IH; done|]. simpl. split; [congruence|].
        intros [= ->]. done.
Qed.

Lemma succ_in_not_first x l p : NoDup (x :: l) → succ_in (x :: l) p ≠ Some x.
Proof.
  intros [Hx Hl]%NoDup_cons. simpl. case_decide.
  - intros ?%head_elem. done.
  - intros [_ ?]%succ_in_elem. done.
Qed.

Lemma succ_pred l p q :
  NoDup l → succ_in l p = Some q ↔ pred_in l q = Some p.
Proof.
  induction l as [|x l IH]; [done|].
  intros Hxl. pose proof Hxl as [Hx Hl]%NoDup_cons.
  destruct l as [|y l].
  - simpl. by case_decide.
  - change (pred_in (x :: y :: l) q)
      with (if decide (y = q) then Some x else pred_in (y :: l) q).
    change (succ_in (x :: y :: l) p)
      with (if decide (x = p) then Some y else succ_in (y :: l) p).
    destruct (decide (x = p)) as [->|Hxp], (decide (y = q)) as [->|Hyq].
    + done.
    + split; [congruence|]. intros [_ Hp]%pred_in_elem. done.
    + split; [|congruence]. intros Hs. by apply succ_in_not_first in Hs.
    + by apply IH.
Qed.

Lemma pred_in_cons x l p :
  pred_in (x :: l) p = if decide (head l = Some p) then Some x else pred_in l p.
Proof.
  destruct l as [|y l]; [done|]. simpl head.
  change (pred_in (x :: y :: l) p)
    with (if decide (y = p) then Some x else pred_in (y :: l) p).
  destruct (decide (y = p)) as [->|Hy].
  - by rewrite decide_True.
  - rewrite decide_False; [done|]. by intros [= ?].
Qed.

Lemma succ_in_not_self l p : NoDup l → succ_in l p ≠ Some p.
Proof.
  induction l as [|x l IH]; [done|].
  intros Hxl. pose proof Hxl as [Hx Hl]%NoDup_cons. simpl.
  case_decide as Hxp.
  - subst x. intros ?%head_elem. done.
  - by apply IH.
Qed.

Lemma pred_in_not_self l p : NoDup l → pred_in l p ≠ Some p.
Proof. intros Hl ?%succ_pred; [|done]. by eapply succ_in_not_self. Qed.

Lemma lru_del_notin e l : e ∉ l → lru_del e l = l.
Proof.
  induction l as [|x l IH]; [done|].
  intros [Hx Hl]%not_elem_of_cons. unfold lru_del.
  rewrite filter_cons_True by done. f_equal. by apply IH.
Qed.

Lemma lru_del_cons_eq e l : lru_del e (e :: l) = lru_del e l.
Proof. unfold lru_del. by rewrite filter_cons_False by (intros ?; done). Qed.

Lemma lru_del_cons_ne e x l : x ≠ e → lru_del e (x :: l) = x :: lru_del e l.
Proof. intros. unfold lru_del. by rewrite filter_cons_True. Qed.

Lemma elem_of_lru_del e l q : q ∈ lru_del e l ↔ q ∈ l ∧ q ≠ e.
Proof. unfold lru_del. rewrite list_elem_of_filter. tauto. Qed.

Lemma NoDup_lru_del e l : NoDup l → NoDup (lru_del e l).
Proof. apply NoDup_filter. Qed.

Lemma length_lru_del e l :
  NoDup l → e ∈ l → S (length (lru_del e l)) = length l.
Proof.
  induction l as [|x l IH]; [by intros _ ?%elem_of_nil|].
  intros [Hx Hl]%NoDup_cons He. destruct (decide (x = e)) as [->|Hxe].
  - rewrite lru_del_cons_eq, lru_del_notin by done. done.
  - rewrite lru_del_cons_ne by done. simpl. f_equal. apply IH; [done|].
    apply elem_of_cons in He as [->|?]; done.
Qed.

Lemma lru_del_snoc l t : NoDup (l ++ [t]) → lru_del t (l ++ [t]) = l.
Proof.
  intros [Hl [Hd _]]%NoDup_app. unfold lru_del.
  rewrite filter_app. fold (lru_del t l). rewrite lru_del_notin.
  - rewrite filter_cons_False by (intros ?; done). simpl. apply app_nil_r.
  - intros Ht. apply (Hd t Ht). left.
Qed.

Lemma head_lru_del e l :
  NoDup l →
  head (lru_del e l) = if decide (head l = Some e) then succ_in l e else head l.
Proof.
  destruct l as [|x l]; [done|].
  intros [Hx Hl]%NoDup_cons. simpl. destruct (decide (x = e)) as [->|Hxe].
  - rewrite lru_del_cons_eq, lru_del_notin by done.
    by rewrite decide_True.
  - rewrite lru_del_cons_ne by done. rewrite decide_False; [done|congruence].
Qed.

Lemma succ_lru_del e l q :
  NoDup l → q ≠ e →
  succ_in (lru_del e l) q =
    if decide (succ_in l q = Some e) then succ_in l e else succ_in l q.
Proof.
  induction l as [|x l IH]; [done|].
  intros Hxl Hq. pose proof Hxl as [Hx Hl]%NoDup_cons.
  destruct (decide (x = e)) as [->|Hxe].
  - rewrite lru_del_cons_eq, lru_del_notin by done. simpl.
    rewrite !(decide_False (P := e = q)) by done.
    rewrite decide_False; [done|].
    intros [_ ?]%succ_in_elem. done.
  - rewrite lru_del_cons_ne by done. simpl.
    rewrite (decide_False (P := x = e)) by done.
    destruct (decide (x = q)) as [->|Hxq].
    + by apply head_lru_del.
    + by apply IH.
Qed.

Lemma pred_lru_del e l q :
  NoDup l → q ≠ e →
  pred_in (lru_del e l) q =
    if decide (pred_in l q = Some e) then pred_in l e else pred_in l q.
Proof.
  induction l as [|x l IH]; [done|].
  intros Hxl Hq. pose proof Hxl as [Hx Hl]%NoDup_cons.
  destruct (decide (x = e)) as [->|Hxe].
  - rewrite lru_del_cons_eq, lru_del_notin by done.
    rewrite !pred_in_cons. destruct (decide (head l = Some q)) as [Hh|Hh].
    + rewrite decide_True by done.
      rewrite decide_False by (intros ?%head_elem; done).
      rewrite (pred_in_notin l e) by done.
      apply pred_in_head; [done|by apply head_elem|done].
    + rewrite decide_False; [done|]. intros [_ ?]%pred_in_elem. done.
  - rewrite lru_del_cons_ne by done. rewrite !pred_in_cons.
    rewrite head_lru_del by done. specialize (IH Hl Hq).
    assert (head l = Some e → pred_in l e = None) as Hpe.
    { intros Hh. apply pred_in_head; [done|by apply head_elem|done]. }
    pose proof (succ_pred l e q Hl) as Hsp.
    repeat case_decide; simplify_eq; try done; try tauto; try congruence.
Qed.

Lemma last_lru_del e l :
  NoDup l →
  last (lru_del e l) = if decide (last l = Some e) then pred_in l e else last l.
Proof.
  induction l as [|x l IH]; [done|].
  intros Hxl. pose proof Hxl as [Hx Hl]%NoDup_cons. specialize (IH Hl).
  rewrite last_cons, pred_in_cons.
  pose proof (pred_in_head l e Hl) as Hph.
  pose proof (last_elem l e) as Hle. pose proof (head_elem l e) as Hhe.
  destruct (decide (x = e)) as [->|Hxe].
  - rewrite lru_del_cons_eq, lru_del_notin by done.
    destruct (last l) as [y|] eqn:El.
    + rewrite decide_False; [done|]. intros [= ->]. tauto.
    + apply last_None in El. subst l. simpl. by rewrite decide_True.
  - rewrite lru_del_cons_ne by done. rewrite last_cons, IH.
    destruct (last l) as [y|] eqn:El.
    + repeat case_decide; simplify_eq; try done.
      * assert (pred_in l e = None) as -> by (apply Hph; auto). done.
      * destruct (pred_in l e) eqn:Ep; [done|].
        exfalso. destruct Hph as [Hph _]; auto.
    + repeat case_decide; simplify_eq; done.
Qed.

Lemma succ_in_antisym l a b :
  NoDup l → succ_in l a = Some b → succ_in l b ≠ Some a.
Proof.
  induction l as [|x l IH]; [done|].
  intros [Hx Hl]%NoDup_cons. simpl.
  destruct (decide (x = a)) as [->|Hxa].
  - intros Hb%head_elem. rewrite decide_False by (by intros ->).
    intros [_ ?]%succ_in_elem. done.
  - intros Hab. destruct (decide (x = b)) as [->|Hxb].
    + by apply succ_in_elem in Hab as [_ ?].
    + by apply IH.
Qed.

Lemma pred_in_cons_fresh e l : e ∉ l → pred_in (e :: l) e = None.
Proof.
  intros He. rewrite pred_in_cons, decide_False.
  - by apply pred_in_notin.
  - intros ?%head_elem. done.
Qed.

End queue.

(** ** What a state says about an entry

    The private block of an entry, the part of it the LRU macros leave
    alone ([view]) and the part they own ([links]). *)
Definition slot (s : State) (p : positive) : option EntryInfo :=
  heap s !! p ≫= e_private.

Definition slot_core (i : EntryInfo) : rdwr * Z * Z :=
  (lei_rdwr i, lei_state i, lei_refcnt i).

Definition view (s : State) (p : positive)
  : option (Z * string * option (rdwr * Z * Z)) :=
  (λ x, (e_id x, e_nname x, slot_core <$> e_private x)) <$> heap s !! p.

Definition links (s : State) (p : positive)
  : option (option positive * option positive) :=
  (λ i, (lei_lrunext i, lei_lruprev i)) <$> slot s p.

Definition id_at (s : State) (p : positive) : option Z :=
  e_id <$> heap s !! p.
Definition name_at (s : State) (p : positive) : option string :=
  e_nname <$> heap s !! p.
Definition state_at (s : State) (p : positive) : option Z :=
  lei_state <$> slot s p.
Definition refcnt_at (s : State) (p : positive) : option Z :=
  lei_refcnt <$> slot s p.
Definition rdwr_at (s : State) (p : positive) : option rdwr :=
  lei_rdwr <$> slot s p.

(** The states the primitive assignments lead to. *)
Definition upd_slot (e : positive) (f : EntryInfo → EntryInfo) (s : State)
  : State :=
  mkState
    (alter (λ x, mkEntry (e_id x) (e_nname x) (f <$> e_private x)) e (heap s))
    (cache s).

Definition upd_cache (g : Cache → Cache) (s : State) : State :=
  mkState (heap s) (g (cache s)).

Definition clear_slot (e : positive) (s : State) : State :=
  mkState (alter (λ x, mkEntry (e_id x) (e_nname x) None) e (heap s)) (cache s).

Definition free_entry (e : positive) (s : State) : State :=
  mkState (delete e (heap s)) (cache s).

Section primitives.
Implicit Types (s : State) (e p : positive) (f : EntryInfo → EntryInfo).

Lemma bind_Done {A B} (m : M A) (k : A → M B) s a s' :
  m s = Done a s' → bind m k s = k a s'.
Proof. unfold bind. by intros ->. Qed.

Lemma bind_assoc {A B C} (m : M A) (k : A → M B) (k' : B → M C) s :
  bind (bind m k) k' s = bind m (λ a, bind (k a) k') s.
Proof. unfold bind. by destruct (m s). Qed.

Lemma bind_ret {A B} (a : A) (k : A → M B) s : bind (ret a) k s = k a s.
Proof. done. Qed.

Lemma slot_Some s e i :
  slot s e = Some i ↔ ∃ x, heap s !! e = Some x ∧ e_private x = Some i.
Proof.
  unfold slot. destruct (heap s !! e) as [x|]; simpl; [|naive_solver].
  split; [eauto|]. by intros (? & [= <-] & ?).
Qed.

Lemma LEI_Done s e i : slot s e = Some i → LEI e s = Done i s.
Proof.
  intros (x & Hx & Hi)%slot_Some. unfold LEI, bind, load.
  by rewrite Hx, Hi.
Qed.

Lemma LEI_None s e : slot s e = None → LEI e s = Fault.
Proof.
  unfold slot, LEI, bind, load. destruct (heap s !! e) as [x|]; [|done].
  simpl. by intros ->.
Qed.

Lemma set_LEI_Done s e f :
  is_Some (slot s e) → set_LEI e f s = Done tt (upd_slot e f s).
Proof.
  intros [i (x & Hx & Hi)%slot_Some]. unfold set_LEI, bind, load, store.
  rewrite Hx, Hi, Hx. unfold upd_slot. do 2 f_equal.
  apply map_eq. intros p. rewrite lookup_alter, lookup_insert.
  case_decide; subst; [|done]. by rewrite Hx; simpl; rewrite Hi.
Qed.

Lemma set_cache_Done s g : set_cache g s = Done tt (upd_cache g s).
Proof. done. Qed.

Lemma get_cache_Done s : get_cache s = Done (cache s) s.
Proof. done. Qed.

Lemma load_Done s e x : heap s !! e = Some x → load e s = Done x s.
Proof. unfold load. by intros ->. Qed.

Lemma cache_entry_private_destroy_Done s e :
  is_Some (slot s e) →
  cache_entry_private_destroy e s = Done 0 (clear_slot e s).
Proof.
  intros [i (x & Hx & Hi)%slot_Some].
  unfold cache_entry_private_destroy, bind, load, store.
  rewrite Hx, Hi, Hx. unfold clear_slot, ret. do 2 f_equal.
  apply map_eq. intros p. rewrite lookup_alter, lookup_insert.
  case_decide; subst; [|done]. by rewrite Hx.
Qed.

Lemma entry_free_Done s e :
  is_Some (heap s !! e) → entry_free e s = Done tt (free_entry e s).
Proof. intros [x Hx]. unfold entry_free, bind, load. by rewrite Hx. Qed.

(** Reading the new state. *)
Lemma slot_upd_slot s e f p :
  slot (upd_slot e f s) p = if decide (p = e) then f <$> slot s e else slot s p.
Proof.
  unfold slot, upd_slot. simpl. rewrite lookup_alter.
  case_decide as H; [subst p; rewrite decide_True by done|
                     by rewrite decide_False by done].
  by destruct (heap s !! e) as [x|].
Qed.

Lemma slot_upd_cache s g p : slot (upd_cache g s) p = slot s p.
Proof. done. Qed.

Lemma slot_clear_slot s e p :
  slot (clear_slot e s) p = if decide (p = e) then None else slot s p.
Proof.
  unfold slot, clear_slot. simpl. rewrite lookup_alter.
  case_decide as H; [subst p; rewrite decide_True by done|
                     by rewrite decide_False by done].
  by destruct (heap s !! e) as [x|].
Qed.

Lemma slot_free_entry s e p :
  slot (free_entry e s) p = if decide (p = e) then None else slot s p.
Proof.
  unfold slot, free_entry. simpl. rewrite lookup_delete.
  case_decide as H; [subst p; by rewrite decide_True by done|
                     by rewrite decide_False by done].
Qed.

Lemma view_upd_slot s e f p :
  view (upd_slot e f s) p =
    if decide (p = e)
    then (λ '(i, n, c), (i, n, slot_core <$> (f <$> slot s e))) <$> view s e
    else view s p.
Proof.
  unfold view, slot, upd_slot. simpl. rewrite lookup_alter.
  case_decide as H; [subst p; rewrite decide_True by done|
                     by rewrite decide_False by done].
  by destruct (heap s !! e) as [x|].
Qed.

Lemma view_upd_slot_links s e f p :
  (∀ i, slot_core (f i) = slot_core i) →
  view (upd_slot e f s) p = view s p.
Proof.
  intros Hf. rewrite view_upd_slot. case_decide; [subst p|done].
  unfold view, slot. destruct (heap s !! e) as [x|]; [|done]. simpl.
  destruct (e_private x); simpl; [|done]. by rewrite Hf.
Qed.

Lemma view_upd_cache s g p : view (upd_cache g s) p = view s p.
Proof. done. Qed.

Lemma links_upd_slot s e f p :
  links (upd_slot e f s) p =
    if decide (p = e)
    then (λ i, (lei_lrunext (f i), lei_lruprev (f i))) <$> slot s e
    else links s p.
Proof.
  unfold links. rewrite slot_upd_slot. case_decide; [|done].
  by destruct (slot s e).
Qed.

Lemma links_upd_slot_core s e f p :
  (∀ i, lei_lrunext (f i) = lei_lrunext i) →
  (∀ i, lei_lruprev (f i) = lei_lruprev i) →
  links (upd_slot e f s) p = links s p.
Proof.
  intros Hn Hp. rewrite links_upd_slot. case_decide; [subst p|done].
  unfold links. destruct (slot s e); simpl; [|done]. by rewrite Hn, Hp.
Qed.

Lemma links_upd_cache s g p : links (upd_cache g s) p = links s p.
Proof. done. Qed.

Lemma view_slot_core s p :
  slot_core <$> slot s p = view s p ≫= snd.
Proof.
  unfold view, slot. by destruct (heap s !! p) as [x|].
Qed.

Lemma view_id_at s p : id_at s p = (λ v, v.1.1) <$> view s p.
Proof. unfold id_at, view. by destruct (heap s !! p). Qed.

Lemma view_name_at s p : name_at s p = (λ v, v.1.2) <$> view s p.
Proof. unfold name_at, view. by destruct (heap s !! p). Qed.

Lemma view_state_at s p : state_at s p = (λ c, c.1.2) <$> (view s p ≫= snd).
Proof. rewrite <- view_slot_core. unfold state_at. by destruct (slot s p). Qed.

Lemma view_refcnt_at s p : refcnt_at s p = (λ c, c.2) <$> (view s p ≫= snd).
Proof. rewrite <- view_slot_core. unfold refcnt_at. by destruct (slot s p). Qed.

Lemma view_rdwr_at s p : rdwr_at s p = (λ c, c.1.1) <$> (view s p ≫= snd).
Proof. rewrite <- view_slot_core. unfold rdwr_at. by destruct (slot s p). Qed.

Lemma view_heap_None s p : heap s !! p = None ↔ view s p = None.
Proof. unfold view. by destruct (heap s !! p). Qed.

Lemma view_slot_is_Some s s' p :
  view s' p = view s p → is_Some (slot s' p) ↔ is_Some (slot s p).
Proof.
  intros Hv. rewrite <- !(fmap_is_Some slot_core), !view_slot_core.
  by rewrite Hv.
Qed.
End primitives.

(** ** The well-formed LRU queue *)

(** [lru_wf s l]: the links of [s] thread exactly the list [l] from
    [c_lruhead] to [c_lrutail]. *)
Definition lru_wf (s : State) (l : list positive) : Prop :=
  NoDup l ∧
  c_lruhead (cache s) = head l ∧
  c_lrutail (cache s) = last l ∧
  ∀ p, p ∈ l → links s p = Some (succ_in l p, pred_in l p).

(** What the LRU macros do not touch. *)
Definition same_view (s s' : State) : Prop := ∀ p, view s' p = view s p.

Definition same_index (s s' : State) : Prop :=
  c_maxsize (cache s') = c_maxsize (cache s) ∧
  c_cursize (cache s') = c_cursize (cache s) ∧
  c_dntree (cache s') = c_dntree (cache s) ∧
  c_idtree (cache s') = c_idtree (cache s) ∧
  c_mutex (cache s') = c_mutex (cache s).

Section lru_macros.
Implicit Types (s : State) (e p q : positive) (l : list positive).

Lemma links_Some_slot s p a b :
  links s p = Some (a, b) →
  ∃ i, slot s p = Some i ∧ lei_lrunext i = a ∧ lei_lruprev i = b.
Proof.
  unfold links. destruct (slot s p) as [i|]; [|done].
  intros [= <- <-]. eauto.
Qed.

Lemma links_set_next s p a b x :
  links s p = Some (a, b) →
  links (upd_slot p (with_lrunext x) s) p = Some (x, b).
Proof.
  intros (i & Hi & _ & <-)%links_Some_slot.
  rewrite links_upd_slot, decide_True by done. by rewrite Hi.
Qed.

Lemma links_set_prev s p a b x :
  links s p = Some (a, b) →
  links (upd_slot p (with_lruprev x) s) p = Some (a, x).
Proof.
  intros (i & Hi & <- & _)%links_Some_slot.
  rewrite links_upd_slot, decide_True by done. by rewrite Hi.
Qed.

Lemma links_upd_ne s p f q : q ≠ p → links (upd_slot p f s) q = links s q.
Proof. intros. by rewrite links_upd_slot, decide_False. Qed.

Lemma links_is_Some_slot s p : is_Some (links s p) → is_Some (slot s p).
Proof. unfold links. by rewrite fmap_is_Some. Qed.

Lemma lru_wf_slot s l p : lru_wf s l → p ∈ l → is_Some (slot s p).
Proof.
  intros (_ & _ & _ & Hl) Hp. apply links_is_Some_slot. by rewrite Hl.
Qed.

(** The state [LRU_DELETE] leaves when [e] is on the queue [l]. *)
Definition lru_delete_state l e s : State :=
  let s1 := match pred_in l e with
            | Some p => upd_slot p (with_lrunext (succ_in l e)) s
            | None => upd_cache (with_lruhead (succ_in l e)) s
            end in
  match succ_in l e with
  | Some n => upd_slot n (with_lruprev (pred_in l e)) s1
  | None => upd_cache (with_lrutail (pred_in l e)) s1
  end.

Lemma LRU_DELETE_Done s l e :
  lru_wf s l → e ∈ l → LRU_DELETE e s = Done tt (lru_delete_state l e s).
Proof.
  intros Hwf He. pose proof Hwf as (Hnd & Hh & Ht & Hl).
  destruct (links_Some_slot _ _ _ _ (Hl e He)) as (i & Hi & Hn & Hp).
  unfold LRU_DELETE, lru_delete_state.
  rewrite (bind_Done _ _ _ _ _ (LEI_Done _ _ _ Hi)). rewrite Hn, Hp.
  destruct (pred_in l e) as [p|] eqn:Ep.
  - apply pred_in_elem in Ep as Hpl. destruct Hpl as [_ Hpl].
    assert (p ≠ e) as Hpe.
    { intros ->. by eapply pred_in_not_self. }
    rewrite (bind_Done _ _ _ _ _
               (set_LEI_Done _ _ _ (lru_wf_slot _ _ _ Hwf Hpl))).
    assert (slot (upd_slot p (with_lrunext (succ_in l e)) s) e = Some i)
      as Hi1 by (by rewrite slot_upd_slot, decide_False).
    rewrite (bind_Done _ _ _ _ _ (LEI_Done _ _ _ Hi1)). rewrite Hn, Hp.
    destruct (succ_in l e) as [n|] eqn:En; [|done].
    apply succ_in_elem in En as [_ Hnl].
    apply set_LEI_Done. rewrite slot_upd_slot.
    pose proof (lru_wf_slot _ _ _ Hwf Hnl) as [j Hj].
    case_decide; [subst n; apply fmap_is_Some|]; eauto.
  - rewrite (bind_Done _ _ _ _ _ (set_cache_Done _ _)).
    assert (slot (upd_cache (with_lruhead (succ_in l e)) s) e = Some i)
      as Hi1 by done.
    rewrite (bind_Done _ _ _ _ _ (LEI_Done _ _ _ Hi1)). rewrite Hn, Hp.
    destruct (succ_in l e) as [n|] eqn:En; [|done].
    apply succ_in_elem in En as [_ Hnl].
    apply set_LEI_Done. rewrite slot_upd_cache.
    by eapply lru_wf_slot.
Qed.

Lemma lru_delete_state_view s l e : same_view s (lru_delete_state l e s).
Proof.
  intros p. unfold lru_delete_state.
  destruct (succ_in l e), (pred_in l e);
    rewrite ?view_upd_slot_links, ?view_upd_cache, ?view_upd_slot_links;
    done.
Qed.

Lemma lru_delete_state_index s l e : same_index s (lru_delete_state l e s).
Proof.
  unfold lru_delete_state, same_index.
  by destruct (succ_in l e), (pred_in l e).
Qed.

Lemma lru_delete_state_wf s l e :
  lru_wf s l → e ∈ l → lru_wf (lru_delete_state l e s) (lru_del e l).
Proof.
  intros Hwf He. pose proof Hwf as (Hnd & Hh & Ht & Hl).
  split; [by apply NoDup_lru_del|].
  pose proof (pred_in_head l e Hnd He) as Hph.
  pose proof (succ_in_last l e Hnd He) as Hsl.
  split; [|split].
  - rewrite head_lru_del by done. unfold lru_delete_state.
    destruct (pred_in l e) as [p|] eqn:Ep.
    + rewrite decide_False.
      * by destruct (succ_in l e).
      * intros Hhe. apply Hph in Hhe. done.
    + rewrite decide_True by (by apply Hph).
      by destruct (succ_in l e).
  - rewrite last_lru_del by done. unfold lru_delete_state.
    destruct (succ_in l e) as [n|] eqn:En.
    + rewrite decide_False.
      * by destruct (pred_in l e).
      * intros Hle. apply Hsl in Hle. done.
    + rewrite decide_True by (by apply Hsl).
      by destruct (pred_in l e).
  - intros q [Hq Hqe]%elem_of_lru_del.
    rewrite succ_lru_del, pred_lru_del by done.
    pose proof (Hl q Hq) as Hlq.
    pose proof (succ_pred l q e Hnd) as Hqe1.
    pose proof (succ_pred l e q Hnd) as Hqe2.
    unfold lru_delete_state.
    destruct (pred_in l e) as [p|] eqn:Ep, (succ_in l e) as [n|] eqn:En.
    + assert (n ≠ p) as Hnp.
      { intros ->. apply succ_pred in Ep; [|done].
        by eapply succ_in_antisym. }
      destruct (decide (q = n)) as [->|Hqn].
      * erewrite links_set_prev by (by rewrite links_upd_ne).
        rewrite (decide_True (P := pred_in l n = Some e)) by (by apply Hqe2).
        rewrite decide_False; [done|].
        intros Hx. apply Hqe1 in Hx. congruence.
      * rewrite links_upd_ne by done.
        rewrite (decide_False (P := pred_in l q = Some e)); last first.
        { intros Hx. apply Hqe2 in Hx. congruence. }
        destruct (decide (q = p)) as [->|Hqp].
        -- erewrite links_set_next by done.
           rewrite decide_True; [done|]. by apply Hqe1.
        -- rewrite links_upd_ne by done. rewrite decide_False; [done|].
           intros Hx. apply Hqe1 in Hx. congruence.
    + rewrite links_upd_cache.
      rewrite (decide_False (P := pred_in l q = Some e)); last first.
      { intros Hx. apply Hqe2 in Hx. congruence. }
      destruct (decide (q = p)) as [->|Hqp].
      * erewrite links_set_next by done.
        rewrite decide_True; [done|]. by apply Hqe1.
      * rewrite links_upd_ne by done. rewrite decide_False; [done|].
        intros Hx. apply Hqe1 in Hx. congruence.
    + rewrite (decide_False (P := succ_in l q = Some e)); last first.
      { intros Hx. apply Hqe1 in Hx. congruence. }
      destruct (decide (q = n)) as [->|Hqn].
      * erewrite links_set_prev by (by rewrite links_upd_cache).
        rewrite decide_True; [done|]. by apply Hqe2.
      * rewrite links_upd_ne, links_upd_cache by done.
        rewrite decide_False; [done|].
        intros Hx. apply Hqe2 in Hx. congruence.
    + rewrite !links_upd_cache.
      rewrite (decide_False (P := succ_in l q = Some e)); last first.
      { intros Hx. apply Hqe1 in Hx. congruence. }
      rewrite decide_False; [done|].
      intros Hx. apply Hqe2 in Hx. congruence.
Qed.

(** The state [LRU_ADD] leaves when [e] is put in front of [l]. *)
Definition lru_add_state l e s : State :=
  let s1 := upd_slot e (with_lrunext (head l)) s in
  let s2 := match head l with
            | Some n => upd_slot n (with_lruprev (Some e)) s1
            | None => s1
            end in
  let s3 := upd_slot e (with_lruprev None)
              (upd_cache (with_lruhead (Some e)) s2) in
  match last l with
  | None => upd_cache (with_lrutail (Some e)) s3
  | Some _ => s3
  end.

Lemma LRU_ADD_Done s l e :
  lru_wf s l → e ∉ l → is_Some (slot s e) →
  LRU_ADD e s = Done tt (lru_add_state l e s).
Proof.
  intros Hwf He [i Hi]. pose proof Hwf as (Hnd & Hh & Ht & Hl).
  unfold LRU_ADD, lru_add_state.
  rewrite (bind_Done _ _ _ _ _ (get_cache_Done _)).
  rewrite (bind_Done _ _ _ _ _ (set_LEI_Done _ _ _ (mk_is_Some _ _ Hi))).
  rewrite Hh.
  assert (slot (upd_slot e (with_lrunext (head l)) s) e
          = Some (with_lrunext (head l) i)) as Hi1.
  { by rewrite slot_upd_slot, decide_True, Hi. }
  rewrite (bind_Done _ _ _ _ _ (LEI_Done _ _ _ Hi1)). simpl lei_lrunext.
  set (s1 := upd_slot e (with_lrunext (head l)) s) in *.
  assert (∃ s2, (match head l with
                 | Some n => set_LEI n (with_lruprev (Some e))
                 | None => ret tt
                 end) s1 = Done tt s2 ∧
                s2 = match head l with
                     | Some n => upd_slot n (with_lruprev (Some e)) s1
                     | None => s1
                     end ∧ is_Some (slot s2 e)) as (s2 & Hs2 & -> & Hs2e).
  { destruct (head l) as [n|] eqn:En.
    - eexists. split; [|split; [done|]].
      + apply set_LEI_Done. apply head_elem in En.
        assert (n ≠ e) by (by intros ->).
        unfold s1. rewrite slot_upd_slot, decide_False by done.
        by eapply lru_wf_slot.
      + rewrite slot_upd_slot. case_decide; [subst n; apply fmap_is_Some|];
          eauto.
    - eexists. split; [done|]. split; [done|]. eauto. }
  rewrite (bind_Done _ _ _ _ _ Hs2).
  rewrite (bind_Done _ _ _ _ _ (set_cache_Done _ _)).
  rewrite (bind_Done _ _ _ _ _
             (set_LEI_Done (upd_cache (with_lruhead (Some e)) _) _ _ Hs2e)).
  rewrite (bind_Done _ _ _ _ _ (get_cache_Done _)).
  assert (c_lrutail (cache (upd_slot e (with_lruprev None)
            (upd_cache (with_lruhead (Some e))
               match head l with
               | Some n => upd_slot n (with_lruprev (Some e)) s1
               | None => s1
               end))) = last l) as ->.
  { rewrite <- Ht. by destruct (head l). }
  by destruct (last l).
Qed.

Lemma lru_add_state_view s l e : same_view s (lru_add_state l e s).
Proof.
  intros p. unfold lru_add_state.
  destruct (head l), (last l);
    rewrite ?view_upd_cache, ?view_upd_slot_links, ?view_upd_cache,
      ?view_upd_slot_links; done.
Qed.

Lemma lru_add_state_index s l e : same_index s (lru_add_state l e s).
Proof.
  unfold lru_add_state, same_index. by destruct (head l), (last l).
Qed.

Lemma lru_add_state_wf s l e :
  lru_wf s l → e ∉ l → is_Some (slot s e) →
  lru_wf (lru_add_state l e s) (e :: l).
Proof.
  intros Hwf He [i Hi]. pose proof Hwf as (Hnd & Hh & Ht & Hl).
  split; [by apply NoDup_cons|]. split; [|split].
  - unfold lru_add_state. by destruct (last l).
  - unfold lru_add_state. rewrite last_cons.
    destruct (last l) eqn:El; [|done]. simpl. rewrite <- Ht.
    by destruct (head l).
  - assert (links s e = Some (lei_lrunext i, lei_lruprev i)) as Hle.
    { unfold links. by rewrite Hi. }
    assert (∀ s', links (match last l with
                         | None => upd_cache (with_lrutail (Some e)) s'
                         | Some _ => s'
                         end) = links s') as Hlast.
    { intros s'. by destruct (last l). }
    intros q Hq. unfold lru_add_state. rewrite Hlast.
    rewrite pred_in_cons. simpl succ_in.
    apply elem_of_cons in Hq as [->|Hq].
    + rewrite decide_True by done.
      rewrite (decide_False (P := head l = Some e))
        by (by intros ?%head_elem).
      rewrite (pred_in_notin l e) by done.
      erewrite links_set_prev; [done|]. rewrite links_upd_cache.
      destruct (head l) as [n|] eqn:En.
      * apply head_elem in En. assert (n ≠ e) by (by intros ->).
        rewrite links_upd_ne by done. by eapply links_set_next.
      * by eapply links_set_next.
    + assert (q ≠ e) as Hqe by (by intros ->).
      rewrite (decide_False (P := e = q)) by done.
      rewrite links_upd_ne, links_upd_cache by done.
      destruct (head l) as [n|] eqn:En.
      * destruct (decide (n = q)) as [->|Hnq].
        -- rewrite decide_True by done.
           erewrite links_set_prev by (by rewrite links_upd_ne; auto).
           f_equal.
        -- rewrite decide_False by (by intros [= ?]).
           rewrite !links_upd_ne by done. by apply Hl.
      * rewrite decide_False by done. rewrite links_upd_ne by done.
        by apply Hl.
Qed.
End lru_macros.

(** ** Counting in a C [int] *)

(** Every reference count of the state is a value of the type [int]. *)
Definition counts_typed (s : State) : Prop :=
  ∀ p n, refcnt_at s p = Some n → INT_MIN ≤ n ≤ INT_MAX.

Section ints.
Implicit Types (s : State) (p : positive) (z n : Z).

Lemma int_wrap_range z : INT_MIN ≤ int_wrap z ≤ INT_MAX.
Proof.
  unfold int_wrap, INT_MIN, INT_MAX.
  pose proof (Z.mod_pos_bound (z - -2147483648) 4294967296 ltac:(lia)).
  change (2147483647 - -2147483648 + 1) with 4294967296. lia.
Qed.

Lemma int_wrap_id z : INT_MIN ≤ z ≤ INT_MAX → int_wrap z = z.
Proof.
  unfold int_wrap, INT_MIN, INT_MAX. intros Hz.
  change (2147483647 - -2147483648 + 1) with 4294967296.
  rewrite Z.mod_small by lia. lia.
Qed.

Lemma int_wrap_succ_max : int_wrap (INT_MAX + 1) = INT_MIN.
Proof. reflexivity. Qed.

Lemma int_wrap_pred_min : int_wrap (INT_MIN - 1) = INT_MAX.
Proof. reflexivity. Qed.

(** [--] then [++], and [++] then [--], give the count back. *)
Lemma int_wrap_pred_succ n :
  INT_MIN ≤ n ≤ INT_MAX → int_wrap (int_wrap (n - 1) + 1) = n.
Proof.
  intros Hn. destruct (decide (n = INT_MIN)) as [->|Hne].
  - reflexivity.
  - rewrite (int_wrap_id (n - 1)) by (unfold INT_MIN, INT_MAX in *; lia).
    rewrite int_wrap_id; [lia|]. unfold INT_MIN, INT_MAX in *. lia.
Qed.

Lemma int_wrap_succ_pred n :
  INT_MIN ≤ n ≤ INT_MAX → int_wrap (int_wrap (n + 1) - 1) = n.
Proof.
  intros Hn. destruct (decide (n = INT_MAX)) as [->|Hne].
  - reflexivity.
  - rewrite (int_wrap_id (n + 1)) by (unfold INT_MIN, INT_MAX in *; lia).
    rewrite int_wrap_id; [lia|]. unfold INT_MIN, INT_MAX in *. lia.
Qed.

Lemma counts_typed_views s s' :
  counts_typed s →
  (∀ p, refcnt_at s' p = None ∨ refcnt_at s' p = refcnt_at s p ∨
        ∃ z, refcnt_at s' p = Some (int_wrap z)) →
  counts_typed s'.
Proof.
  intros Hs Hv p n Hn. destruct (Hv p) as [H|[H|[z H]]].
  - congruence.
  - apply (Hs p). congruence.
  - rewrite H in Hn. injection Hn as <-. apply int_wrap_range.
Qed.

Lemma counts_typed_same_view s s' :
  counts_typed s → (∀ p, view s' p = view s p) → counts_typed s'.
Proof.
  intros Hs Hv. apply (counts_typed_views s); [done|]. intros p.
  right. left. by rewrite !view_refcnt_at, Hv.
Qed.
End ints.

(** ** The invariant of the cache *)

Definition live (st : Z) : Prop :=
  st = CACHE_ENTRY_CREATING ∨ st = CACHE_ENTRY_READY ∨
  st = CACHE_ENTRY_COMMITTED.

(** [cache_wf s l]: the queue of [s] is [l]; both indexes hold exactly
    the entries of [l], each under its own key; [c_cursize] counts them;
    an entry on the queue has a private block in a live state, a
    private block off the queue is a tombstone, and every reference
    count is a value of the C type [int]. *)
Record cache_wf (s : State) (l : list positive) : Prop := mk_cache_wf {
  wf_lru : lru_wf s l;
  wf_size : c_cursize (cache s) = Z.of_nat (length l);
  wf_dn : ∀ k p,
    c_dntree (cache s) !! k = Some p ↔ p ∈ l ∧ name_at s p = Some k;
  wf_id : ∀ k p,
    c_idtree (cache s) !! k = Some p ↔ p ∈ l ∧ id_at s p = Some k;
  wf_live : ∀ p, p ∈ l → ∃ st, state_at s p = Some st ∧ live st;
  wf_dead : ∀ p st,
    state_at s p = Some st → p ∉ l → st = CACHE_ENTRY_DELETED;
  wf_count : counts_typed s
}.

(** The invariant at a quiescent point: nobody is inside the cache. *)
Definition cache_inv (s : State) (l : list positive) : Prop :=
  c_mutex (cache s) = false ∧ cache_wf s l.

Section frames.
Implicit Types (s : State) (e p q : positive) (l : list positive).

Lemma same_view_id_at s s' p : view s' p = view s p → id_at s' p = id_at s p.
Proof. intros H. by rewrite !view_id_at, H. Qed.
Lemma same_view_name_at s s' p :
  view s' p = view s p → name_at s' p = name_at s p.
Proof. intros H. by rewrite !view_name_at, H. Qed.
Lemma same_view_state_at s s' p :
  view s' p = view s p → state_at s' p = state_at s p.
Proof. intros H. by rewrite !view_state_at, H. Qed.
Lemma same_view_refcnt_at s s' p :
  view s' p = view s p → refcnt_at s' p = refcnt_at s p.
Proof. intros H. by rewrite !view_refcnt_at, H. Qed.
Lemma same_view_rdwr_at s s' p :
  view s' p = view s p → rdwr_at s' p = rdwr_at s p.
Proof. intros H. by rewrite !view_rdwr_at, H. Qed.
Lemma same_view_heap s s' p :
  view s' p = view s p → is_Some (heap s' !! p) ↔ is_Some (heap s !! p).
Proof.
  intros H. rewrite <- !not_eq_None_Some, !view_heap_None. by rewrite H.
Qed.

Lemma lru_wf_ext s s' l :
  lru_wf s l →
  c_lruhead (cache s') = c_lruhead (cache s) →
  c_lrutail (cache s') = c_lrutail (cache s) →
  (∀ p, p ∈ l → links s' p = links s p) →
  lru_wf s' l.
Proof.
  intros (Hnd & Hh & Ht & Hl) Hh' Ht' Hl'.
  split; [done|]. split; [congruence|]. split; [congruence|].
  intros p Hp. rewrite Hl' by done. by apply Hl.
Qed.

(** A state that agrees with a well-formed one on everything the
    invariant reads is well-formed. *)
Lemma cache_wf_ext s s' l :
  cache_wf s l → lru_wf s' l →
  (∀ p, view s' p = view s p) →
  c_cursize (cache s') = c_cursize (cache s) →
  c_dntree (cache s') = c_dntree (cache s) →
  c_idtree (cache s') = c_idtree (cache s) →
  cache_wf s' l.
Proof.
  intros [Hlru Hsz Hdn Hid Hlive Hdead Hcnt] Hlru' Hv Hc Hd Hi.
  split; [done|congruence|..].
  - intros k p. rewrite Hd, (same_view_name_at s s') by done. apply Hdn.
  - intros k p. rewrite Hi, (same_view_id_at s s') by done. apply Hid.
  - intros p Hp. rewrite (same_view_state_at s s') by done. by apply Hlive.
  - intros p st. rewrite (same_view_state_at s s') by done. apply Hdead.
  - by apply (counts_typed_same_view s).
Qed.

Lemma cache_wf_slot s l p : cache_wf s l → p ∈ l → is_Some (slot s p).
Proof. intros [Hlru _ _ _ _ _ _] Hp. by eapply lru_wf_slot. Qed.

Lemma slot_heap s p i :
  slot s p = Some i →
  ∃ x, heap s !! p = Some x ∧ e_private x = Some i ∧
       id_at s p = Some (e_id x) ∧ name_at s p = Some (e_nname x).
Proof.
  intros (x & Hx & Hi)%slot_Some. exists x. unfold id_at, name_at.
  by rewrite Hx.
Qed.

Lemma cache_wf_resident s l p x :
  cache_wf s l → p ∈ l → heap s !! p = Some x →
  c_dntree (cache s) !! e_nname x = Some p ∧
  c_idtree (cache s) !! e_id x = Some p.
Proof.
  intros [_ _ Hdn Hid _ _] Hp Hx. split.
  - apply Hdn. split; [done|]. unfold name_at. by rewrite Hx.
  - apply Hid. split; [done|]. unfold id_at. by rewrite Hx.
Qed.

Lemma state_at_slot s p i : slot s p = Some i → state_at s p = Some (lei_state i).
Proof. unfold state_at. by intros ->. Qed.
Lemma refcnt_at_slot s p i :
  slot s p = Some i → refcnt_at s p = Some (lei_refcnt i).
Proof. unfold refcnt_at. by intros ->. Qed.
Lemma rdwr_at_slot s p i : slot s p = Some i → rdwr_at s p = Some (lei_rdwr i).
Proof. unfold rdwr_at. by intros ->. Qed.
End frames.

(** ** The internal delete *)

Definition vmap (g : rdwr * Z * Z → rdwr * Z * Z)
  (v : Z * string * option (rdwr * Z * Z)) : Z * string * option (rdwr * Z * Z) :=
  (v.1, g <$> v.2).

Definition core_state (st : Z) (c : rdwr * Z * Z) : rdwr * Z * Z :=
  (c.1.1, st, c.2).
Definition core_refcnt (n : Z) (c : rdwr * Z * Z) : rdwr * Z * Z :=
  (c.1.1, c.1.2, n).
Definition core_rdwr (r : rdwr) (c : rdwr * Z * Z) : rdwr * Z * Z :=
  (r, c.1.2, c.2).

Ltac step H := rewrite (bind_Done _ _ _ _ _ H).

Section delete.
Implicit Types (s : State) (e p q : positive) (l : list positive).

Lemma refcnt_at_vmap s s' p g :
  (∀ c, (g c).2 = c.2) →
  view s' p = vmap g <$> view s p → refcnt_at s' p = refcnt_at s p.
Proof.
  intros Hg Hv. rewrite !view_refcnt_at, Hv.
  destruct (view s p) as [[[id nm] [c|]]|]; simpl; [|done..].
  by rewrite Hg.
Qed.

Lemma view_upd_slot_core s e f g p :
  (∀ i, slot_core (f i) = g (slot_core i)) →
  view (upd_slot e f s) p =
    if decide (p = e) then vmap g <$> view s e else view s p.
Proof.
  intros Hf. rewrite view_upd_slot. case_decide; [subst p|done].
  unfold view, slot. destruct (heap s !! e) as [x|]; [|done]. simpl.
  unfold vmap. simpl. destruct (e_private x); simpl; [|done].
  by rewrite Hf.
Qed.

Lemma lru_wf_upd_slot_core s l e f :
  (∀ i, lei_lrunext (f i) = lei_lrunext i) →
  (∀ i, lei_lruprev (f i) = lei_lruprev i) →
  lru_wf s l → lru_wf (upd_slot e f s) l.
Proof.
  intros Hn Hp Hwf. eapply lru_wf_ext; [done..|].
  intros p _. by apply links_upd_slot_core.
Qed.

Lemma lru_wf_upd_cache s l g :
  (∀ c, c_lruhead (g c) = c_lruhead c) →
  (∀ c, c_lrutail (g c) = c_lrutail c) →
  lru_wf s l → lru_wf (upd_cache g s) l.
Proof.
  intros Hh Ht Hwf. eapply lru_wf_ext; [done|simpl; auto..|done].
Qed.

Lemma vmap_id_at s e g :
  (λ v, v.1.1) <$> (vmap g <$> view s e) = id_at s e.
Proof. rewrite view_id_at. by destruct (view s e). Qed.

Lemma vmap_name_at s e g :
  (λ v, v.1.2) <$> (vmap g <$> view s e) = name_at s e.
Proof. rewrite view_name_at. by destruct (view s e). Qed.

Lemma cache_delete_entry_internal_Done s l e :
  cache_wf s l → e ∈ l →
  ∃ s', cache_delete_entry_internal e s = Done 0 s' ∧
        cache_wf s' (lru_del e l) ∧
        (∀ p, view s' p =
                if decide (p = e)
                then vmap (core_state CACHE_ENTRY_DELETED) <$> view s e
                else view s p) ∧
        c_maxsize (cache s') = c_maxsize (cache s) ∧
        c_mutex (cache s') = c_mutex (cache s).
Proof.
  intros Hwf He.
  destruct (cache_wf_slot _ _ _ Hwf He) as [i Hi].
  destruct (slot_heap _ _ _ Hi) as (x & Hx & Hpx & Hid & Hnm).
  destruct (cache_wf_resident _ _ _ _ Hwf He Hx) as [Hdn Hidt].
  pose proof Hwf as [Hlru Hsz Hwdn Hwid Hlive Hdead Hcnt].
  set (s1 := upd_cache (with_dntree (delete (e_nname x) (c_dntree (cache s)))) s).
  set (s2 := upd_cache (with_idtree (delete (e_id x) (c_idtree (cache s)))) s1).
  set (s3 := lru_delete_state l e s2).
  set (s4 := upd_cache (with_cursize (c_cursize (cache s3) - 1)) s3).
  set (s5 := upd_slot e (with_state CACHE_ENTRY_DELETED) s4).
  assert (lru_wf s2 l) as Hlru2.
  { unfold s2, s1. do 2 (apply lru_wf_upd_cache; [done|done|]). done. }
  pose proof (lru_delete_state_view s2 l e) as Hv3.
  pose proof (lru_delete_state_index s2 l e) as (Hm3 & Hc3 & Hd3 & Hi3 & Hx3).
  pose proof (lru_delete_state_wf s2 l e Hlru2 He) as Hlru3.
  fold s3 in Hv3, Hm3, Hc3, Hd3, Hi3, Hx3, Hlru3.
  assert (is_Some (slot s4 e)) as Hs4.
  { change (slot s4 e) with (slot s3 e).
    apply (view_slot_is_Some s2 s3); [apply Hv3|].
    change (slot s2 e) with (slot s e). eauto. }
  assert (∀ p, view s5 p =
                if decide (p = e)
                then vmap (core_state CACHE_ENTRY_DELETED) <$> view s e
                else view s p) as Hv5.
  { intros p. unfold s5.
    rewrite (view_upd_slot_core _ _ _ (core_state CACHE_ENTRY_DELETED))
      by done.
    change (view s4) with (view s3). rewrite !Hv3. done. }
  exists s5. split; [|split; [|split; [done|split; [apply Hm3|apply Hx3]]]].
  { unfold cache_delete_entry_internal, avl_delete_dn, avl_delete_id.
    rewrite !bind_assoc. step (load_Done _ _ _ Hx).
    rewrite bind_assoc. step (get_cache_Done s). rewrite Hdn.
    rewrite !bind_assoc.
    step (set_cache_Done s
            (with_dntree (delete (e_nname x) (c_dntree (cache s))))).
    fold s1. rewrite bind_ret, !bind_assoc.
    step (load_Done s1 _ _ Hx). rewrite bind_assoc.
    step (get_cache_Done s1).
    change (c_idtree (cache s1)) with (c_idtree (cache s)). rewrite Hidt.
    rewrite !bind_assoc.
    step (set_cache_Done s1
            (with_idtree (delete (e_id x) (c_idtree (cache s))))).
    fold s2. rewrite bind_ret. cbn [negb Z.eqb].
    step (LRU_DELETE_Done s2 l e Hlru2 He). fold s3.
    step (get_cache_Done s3).
    step (set_cache_Done s3 (with_cursize (c_cursize (cache s3) - 1))).
    fold s4. step (set_LEI_Done s4 e (with_state CACHE_ENTRY_DELETED) Hs4).
    done. }
  assert (∀ p, p ≠ e → view s5 p = view s p) as Hne.
  { intros p Hp. by rewrite Hv5, decide_False. }
  split.
  - unfold s5. apply lru_wf_upd_slot_core; [done..|].
    unfold s4. apply lru_wf_upd_cache; done.
  - change (c_cursize (cache s5)) with (c_cursize (cache s3) - 1).
    rewrite Hc3. change (c_cursize (cache s2)) with (c_cursize (cache s)).
    rewrite Hsz, <- (length_lru_del e l) by (done || apply Hlru). lia.
  - intros k p.
    change (c_dntree (cache s5)) with (c_dntree (cache s3)). rewrite Hd3.
    change (c_dntree (cache s2))
      with (delete (e_nname x) (c_dntree (cache s))).
    rewrite lookup_delete_Some, elem_of_lru_del, Hwdn.
    split.
    + intros (Hk & Hp & Hn). assert (p ≠ e) as Hpe.
      { intros ->. rewrite Hnm in Hn. congruence. }
      by rewrite (same_view_name_at s s5) by (by apply Hne).
    + intros ((Hp & Hpe) & Hn).
      rewrite (same_view_name_at s s5) in Hn by (by apply Hne).
      split; [|done]. intros <-.
      assert (c_dntree (cache s) !! e_nname x = Some p) as Hq
          by (by apply Hwdn).
      congruence.
  - intros k p.
    change (c_idtree (cache s5)) with (c_idtree (cache s3)). rewrite Hi3.
    change (c_idtree (cache s2))
      with (delete (e_id x) (c_idtree (cache s))).
    rewrite lookup_delete_Some, elem_of_lru_del, Hwid.
    split.
    + intros (Hk & Hp & Hn). assert (p ≠ e) as Hpe.
      { intros ->. rewrite Hid in Hn. congruence. }
      by rewrite (same_view_id_at s s5) by (by apply Hne).
    + intros ((Hp & Hpe) & Hn).
      rewrite (same_view_id_at s s5) in Hn by (by apply Hne).
      split; [|done]. intros <-.
      assert (c_idtree (cache s) !! e_id x = Some p) as Hq
          by (by apply Hwid).
      congruence.
  - intros p [Hp Hpe]%elem_of_lru_del.
    rewrite (same_view_state_at s s5) by (by apply Hne). by apply Hlive.
  - intros p st Hst Hp. destruct (decide (p = e)) as [->|Hpe].
    + rewrite view_state_at, Hv5, decide_True in Hst by done.
      destruct (view s e) as [[[??][?|]]|]; simpl in Hst; congruence.
    + rewrite (same_view_state_at s s5) in Hst by (by apply Hne).
      apply (Hdead p st Hst). intros Hpl. apply Hp.
      by apply elem_of_lru_del.
  - apply (counts_typed_views s); [done|]. intros p. right. left.
    destruct (decide (p = e)) as [->|Hpe].
    + apply (refcnt_at_vmap s s5 e (core_state CACHE_ENTRY_DELETED));
        [done|]. by rewrite Hv5, decide_True.
    + apply same_view_refcnt_at. by apply Hne.
Qed.
End delete.

(** ** Moving an entry to the front, and evicting the tail *)

Section transfer.
Implicit Types (s : State) (e p q : positive) (l : list positive).

(** Well-formedness only reads the entries on the queue, the states
    of the private blocks off it, the indexes and the size. *)
Lemma cache_wf_transfer s s' l l' :
  cache_wf s l → lru_wf s' l' →
  (∀ p, p ∈ l' ↔ p ∈ l) → length l' = length l →
  (∀ p, p ∈ l → view s' p = view s p) →
  (∀ p st, p ∉ l → state_at s' p = Some st → st = CACHE_ENTRY_DELETED) →
  (∀ p, p ∉ l → refcnt_at s' p = None ∨ refcnt_at s' p = refcnt_at s p) →
  c_cursize (cache s') = c_cursize (cache s) →
  c_dntree (cache s') = c_dntree (cache s) →
  c_idtree (cache s') = c_idtree (cache s) →
  cache_wf s' l'.
Proof.
  intros [Hlru Hsz Hdn Hid Hlive Hdead Hcnt] Hlru' Hmem Hlen Hv Hd' Hn'
    Hc Hd Hi.
  split; [done|congruence|..].
  - intros k p. rewrite Hd, Hdn, Hmem. split.
    + intros [Hp Hn]. by rewrite (same_view_name_at s s') by auto.
    + intros [Hp Hn]. by rewrite (same_view_name_at s s') in Hn by auto.
  - intros k p. rewrite Hi, Hid, Hmem. split.
    + intros [Hp Hn]. by rewrite (same_view_id_at s s') by auto.
    + intros [Hp Hn]. by rewrite (same_view_id_at s s') in Hn by auto.
  - intros p Hp%Hmem. rewrite (same_view_state_at s s') by auto. auto.
  - intros p st Hst Hp. apply (Hd' p st); [|done]. by rewrite <- Hmem.
  - apply (counts_typed_views s); [done|]. intros p.
    destruct (decide (p ∈ l)) as [Hp|Hp].
    + right. left. by apply same_view_refcnt_at, Hv.
    + destruct (Hn' p Hp) as [?|?]; auto.
Qed.

Lemma view_clear_slot s e p :
  view (clear_slot e s) p =
    if decide (p = e) then (λ v, (v.1, None)) <$> view s e else view s p.
Proof.
  unfold view, clear_slot. simpl. rewrite lookup_alter.
  case_decide as H; [subst p; rewrite decide_True by done|
                     by rewrite decide_False by done].
  by destruct (heap s !! e) as [x|].
Qed.

Lemma view_free_entry s e p :
  view (free_entry e s) p = if decide (p = e) then None else view s p.
Proof.
  unfold view, free_entry. simpl. rewrite lookup_delete.
  case_decide as H; [subst p; by rewrite decide_True by done|
                     by rewrite decide_False by done].
Qed.

Lemma links_clear_slot s e p :
  links (clear_slot e s) p = if decide (p = e) then None else links s p.
Proof. unfold links. rewrite slot_clear_slot. by case_decide. Qed.

Lemma links_free_entry s e p :
  links (free_entry e s) p = if decide (p = e) then None else links s p.
Proof. unfold links. rewrite slot_free_entry. by case_decide. Qed.

Lemma state_at_None_view s p : view s p ≫= snd = None → state_at s p = None.
Proof. intros H. by rewrite view_state_at, H. Qed.

Lemma cache_wf_clear_slot s l e :
  cache_wf s l → e ∉ l → cache_wf (clear_slot e s) l.
Proof.
  intros Hwf He. eapply cache_wf_transfer; try done.
  - eapply lru_wf_ext; [apply Hwf|done..|].
    intros p Hp. rewrite links_clear_slot, decide_False; [done|].
    by intros ->.
  - intros p Hp. rewrite view_clear_slot, decide_False; [done|].
    by intros ->.
  - intros p st Hp. rewrite view_state_at, view_clear_slot.
    case_decide.
    + by destruct (view s e).
    + rewrite <- view_state_at. intros Hst. by eapply wf_dead.
  - intros p Hp. rewrite !view_refcnt_at, view_clear_slot.
    case_decide; [left; by destruct (view s e)|by right].
Qed.

Lemma cache_wf_free_entry s l e :
  cache_wf s l → e ∉ l → cache_wf (free_entry e s) l.
Proof.
  intros Hwf He. eapply cache_wf_transfer; try done.
  - eapply lru_wf_ext; [apply Hwf|done..|].
    intros p Hp. rewrite links_free_entry, decide_False; [done|].
    by intros ->.
  - intros p Hp. rewrite view_free_entry, decide_False; [done|].
    by intros ->.
  - intros p st Hp. rewrite view_state_at, view_free_entry.
    case_decide; [done|].
    rewrite <- view_state_at. intros Hst. by eapply wf_dead.
  - intros p Hp. rewrite !view_refcnt_at, view_free_entry.
    case_decide; [by left|by right].
Qed.

Lemma view_is_Some_heap s p : is_Some (view s p) ↔ is_Some (heap s !! p).
Proof. unfold view. by rewrite fmap_is_Some. Qed.

(** LRU_DELETE followed by LRU_ADD: the entry moves to the front. *)
Lemma lru_touch_Done s l e :
  cache_wf s l → e ∈ l →
  ∃ s', bind (LRU_DELETE e) (λ _, LRU_ADD e) s = Done tt s' ∧
        cache_wf s' (e :: lru_del e l) ∧
        same_view s s' ∧ same_index s s'.
Proof.
  intros Hwf He. pose proof (wf_lru _ _ Hwf) as Hlru.
  set (s1 := lru_delete_state l e s).
  pose proof (lru_delete_state_wf s l e Hlru He) as Hlru1.
  pose proof (lru_delete_state_view s l e) as Hv1.
  pose proof (lru_delete_state_index s l e) as Hi1.
  fold s1 in Hlru1, Hv1, Hi1.
  assert (e ∉ lru_del e l) as He1.
  { rewrite elem_of_lru_del. tauto. }
  assert (is_Some (slot s1 e)) as Hs1.
  { apply (view_slot_is_Some s s1); [apply Hv1|]. by eapply cache_wf_slot. }
  set (s2 := lru_add_state (lru_del e l) e s1).
  pose proof (lru_add_state_wf s1 _ e Hlru1 He1 Hs1) as Hlru2.
  pose proof (lru_add_state_view s1 (lru_del e l) e) as Hv2.
  pose proof (lru_add_state_index s1 (lru_del e l) e) as Hi2.
  fold s2 in Hlru2, Hv2, Hi2.
  assert (same_view s s2) as Hv.
  { intros p. by rewrite Hv2, Hv1. }
  destruct Hi1 as (?&?&?&?&?), Hi2 as (?&?&?&?&?).
  exists s2. split; [|split; [|split; [done|]]].
  - step (LRU_DELETE_Done s l e Hlru He). fold s1.
    by apply LRU_ADD_Done.
  - eapply cache_wf_transfer; [done|done|..|congruence|congruence|congruence].
    + intros p. rewrite elem_of_cons, elem_of_lru_del.
      destruct (decide (p = e)) as [->|]; naive_solver.
    + simpl. apply length_lru_del; [apply Hlru|done].
    + intros p _. apply Hv.
    + intros p st Hp. rewrite (same_view_state_at s s2) by apply Hv.
      intros Hst. by eapply wf_dead.
    + intros p _. right. apply same_view_refcnt_at, Hv.
  - repeat split; congruence.
Qed.

(** One round of the eviction loops: the internal delete, then the
    private block and the entry itself are released. *)
Lemma evict_one_Done s l e :
  cache_wf s l → e ∈ l →
  ∃ s', bind (cache_delete_entry_internal e)
          (λ _, bind (cache_entry_private_destroy e)
                  (λ _, entry_free e)) s = Done tt s' ∧
        cache_wf s' (lru_del e l) ∧
        (∀ p, view s' p = if decide (p = e) then None else view s p) ∧
        c_maxsize (cache s') = c_maxsize (cache s) ∧
        c_mutex (cache s') = c_mutex (cache s).
Proof.
  intros Hwf He.
  destruct (cache_delete_entry_internal_Done s l e Hwf He)
    as (s1 & Hs1 & Hwf1 & Hv1 & Hm1 & Hx1).
  assert (e ∉ lru_del e l) as He1.
  { rewrite elem_of_lru_del. tauto. }
  destruct (cache_wf_slot _ _ _ Hwf He) as [i Hi].
  assert (is_Some (slot s1 e)) as Hs1e.
  { rewrite <- (fmap_is_Some slot_core), view_slot_core, Hv1.
    rewrite decide_True by done.
    destruct (slot_heap _ _ _ Hi) as (x & Hx & Hpx & _).
    unfold view. rewrite Hx. simpl. rewrite Hpx. simpl. eauto. }
  assert (is_Some (heap (clear_slot e s1) !! e)) as Hh1.
  { apply view_is_Some_heap. rewrite view_clear_slot, decide_True by done.
    apply fmap_is_Some. apply view_is_Some_heap.
    destruct Hs1e as [j (x & Hx & _)%slot_Some]. eauto. }
  exists (free_entry e (clear_slot e s1)).
  split; [|split; [|split; [|done]]].
  - step Hs1. step (cache_entry_private_destroy_Done s1 e Hs1e).
    by apply entry_free_Done.
  - apply cache_wf_free_entry; [|done]. by apply cache_wf_clear_slot.
  - intros p. rewrite view_free_entry. case_decide; [done|].
    rewrite view_clear_slot, decide_False by done.
    by rewrite Hv1, decide_False.
Qed.
End transfer.

(** ** The eviction loops on the queue *)

(** An entry is in use when its reference count is not zero. *)
Definition inuse (s : State) (p : positive) : bool :=
  match refcnt_at s p with
  | Some n => negb (n =? 0)
  | None => false
  end.

(** What the first loop does to the queue: at most [n] times, an entry
    in use at the tail goes to the front. *)
Fixpoint requeue_list (pin : positive → bool) (n : nat) (l : list positive)
  : list positive :=
  match n with
  | O => l
  | S n' =>
      match last l with
      | Some t => if pin t then requeue_list pin n' (t :: lru_del t l) else l
      | None => l
      end
  end.

(** What the second loop does to the queue: while the cache is [over]
    its size and the tail is unused, the tail goes. *)
Fixpoint evict_list (pin : positive → bool) (over : nat) (l : list positive)
  : list positive :=
  match over with
  | O => l
  | S k =>
      match last l with
      | Some t => if pin t then l else evict_list pin k (lru_del t l)
      | None => l
      end
  end.

Definition make_room_list (pin : positive → bool) (maxsize : Z)
  (l : list positive) : list positive :=
  if maxsize <? Z.of_nat (length l) then
    evict_list pin (Z.to_nat (Z.of_nat (length l) - maxsize))
      (requeue_list pin 10 l)
  else l.

Section loops.
Implicit Types (s : State) (e p q : positive) (l : list positive).

Lemma requeue_list_ext f g n l :
  (∀ p, f p = g p) → requeue_list f n l = requeue_list g n l.
Proof.
  intros Hfg. revert l. induction n as [|n IH]; intros l; [done|].
  simpl. destruct (last l); [|done]. rewrite Hfg.
  destruct (g p); [apply IH|done].
Qed.

Lemma evict_list_ext f g n l :
  (∀ p, p ∈ l → f p = g p) → evict_list f n l = evict_list g n l.
Proof.
  revert l. induction n as [|n IH]; intros l Hfg; [done|].
  simpl. destruct (last l) as [t|] eqn:Et; [|done].
  rewrite Hfg by (by apply last_elem).
  destruct (g t); [done|]. apply IH.
  intros p [Hp _]%elem_of_lru_del. by apply Hfg.
Qed.

Lemma requeue_evict_ext f g m l :
  (∀ p, f p = g p) → make_room_list f m l = make_room_list g m l.
Proof.
  intros Hfg. unfold make_room_list. case_match; [|done].
  rewrite (requeue_list_ext f g) by done. by apply evict_list_ext.
Qed.

Lemma evict_list_elem pin n l p : p ∈ evict_list pin n l → p ∈ l.
Proof.
  revert l. induction n as [|n IH]; intros l; [done|].
  simpl. destruct (last l) as [t|]; [|done].
  destruct (pin t); [done|]. intros Hp%IH.
  by apply elem_of_lru_del in Hp as [? _].
Qed.

Lemma requeue_list_elem pin n l p : p ∈ requeue_list pin n l ↔ p ∈ l.
Proof.
  revert l. induction n as [|n IH]; intros l; [done|].
  simpl. destruct (last l) as [t|] eqn:Et; [|done].
  destruct (pin t); [|done]. rewrite IH, elem_of_cons, elem_of_lru_del.
  apply last_elem in Et. destruct (decide (p = t)) as [->|]; naive_solver.
Qed.

Lemma requeue_list_length pin n l :
  NoDup l → length (requeue_list pin n l) = length l.
Proof.
  revert l. induction n as [|n IH]; intros l Hl; [done|].
  simpl. destruct (last l) as [t|] eqn:Et; [|done].
  destruct (pin t); [|done]. apply last_elem in Et. rewrite IH.
  - simpl. by apply length_lru_del.
  - apply NoDup_cons. split; [|by apply NoDup_lru_del].
    rewrite elem_of_lru_del. tauto.
Qed.

Lemma inuse_same_view s s' p : view s' p = view s p → inuse s' p = inuse s p.
Proof. intros H. unfold inuse. by rewrite (same_view_refcnt_at s s'). Qed.

Lemma cache_wf_tail s l : cache_wf s l → c_lrutail (cache s) = last l.
Proof. by intros [(_ & _ & Ht & _) _ _ _ _ _ _]. Qed.

Lemma cache_wf_head s l : cache_wf s l → c_lruhead (cache s) = head l.
Proof. by intros [(_ & Hh & _ & _) _ _ _ _ _ _]. Qed.

Lemma cache_wf_NoDup s l : cache_wf s l → NoDup l.
Proof. by intros [(Hnd & _) _ _ _ _ _ _]. Qed.

Lemma inuse_slot s p i :
  slot s p = Some i → inuse s p = negb (lei_refcnt i =? 0).
Proof. intros Hi. unfold inuse. by rewrite (refcnt_at_slot _ _ _ Hi). Qed.

Lemma bind_round {A B C D} (m1 : M A) (m2 : M B) (m3 : M C) (k : C → M D) s :
  bind m1 (λ _, bind m2 (λ _, bind m3 k)) s =
  bind (bind m1 (λ _, bind m2 (λ _, m3))) k s.
Proof.
  unfold bind. destruct (m1 s) as [? s1| | |]; try done.
  by destruct (m2 s1).
Qed.

Lemma lru_requeue_inuse_Done n s l :
  cache_wf s l →
  ∃ s', lru_requeue_inuse n s = Done tt s' ∧
        cache_wf s' (requeue_list (inuse s) n l) ∧
        same_view s s' ∧ same_index s s'.
Proof.
  revert s l. induction n as [|n IH]; intros s l Hwf.
  - exists s. split; [|done]. simpl.
    step (get_cache_Done s). rewrite (cache_wf_tail _ _ Hwf).
    destruct (last l) as [t|] eqn:Et; [|done].
    destruct (cache_wf_slot _ _ _ Hwf (last_elem _ _ Et)) as [i Hi].
    step (LEI_Done _ _ _ Hi). by destruct (negb _).
  - simpl. destruct (last l) as [t|] eqn:Et.
    + pose proof (last_elem _ _ Et) as Htl.
      destruct (cache_wf_slot _ _ _ Hwf Htl) as [i Hi].
      rewrite (inuse_slot _ _ _ Hi).
      destruct (negb (lei_refcnt i =? 0)) eqn:Ei.
      * destruct (lru_touch_Done s l t Hwf Htl)
          as (s1 & Hs1 & Hwf1 & Hv1 & Hi1).
        destruct (IH s1 _ Hwf1) as (s2 & Hs2 & Hwf2 & Hv2 & Hi2).
        exists s2. split; [|split; [|split]].
        -- step (get_cache_Done s). rewrite (cache_wf_tail _ _ Hwf), Et.
           step (LEI_Done _ _ _ Hi). rewrite Ei.
           rewrite <- bind_assoc. by step Hs1.
        -- erewrite requeue_list_ext; [done|].
           intros p. symmetry. by apply inuse_same_view.
        -- intros p. by rewrite Hv2, Hv1.
        -- destruct Hi1 as (?&?&?&?&?), Hi2 as (?&?&?&?&?).
           repeat split; congruence.
      * exists s. split; [|done].
        step (get_cache_Done s). rewrite (cache_wf_tail _ _ Hwf), Et.
        step (LEI_Done _ _ _ Hi). by rewrite Ei.
    + exists s. split; [|done].
      step (get_cache_Done s). by rewrite (cache_wf_tail _ _ Hwf), Et.
Qed.

Lemma lru_evict_unused_Done fuel s l :
  cache_wf s l → (length l ≤ fuel)%nat →
  let l' := evict_list (inuse s)
              (Z.to_nat (c_cursize (cache s) - c_maxsize (cache s))) l in
  ∃ s', lru_evict_unused fuel s = Done tt s' ∧
        cache_wf s' l' ∧
        (∀ p, p ∈ l → p ∉ l' → view s' p = None) ∧
        (∀ p, (p ∈ l → p ∈ l') → view s' p = view s p) ∧
        c_maxsize (cache s') = c_maxsize (cache s) ∧
        c_mutex (cache s') = c_mutex (cache s).
Proof.
  revert s l. induction fuel as [|fuel IH]; intros s l Hwf Hfuel l'.
  - destruct l; [|simpl in Hfuel; lia].
    exists s. split; [|by destruct (Z.to_nat _)].
    simpl. step (get_cache_Done s). by rewrite (cache_wf_tail _ _ Hwf).
  - destruct (last l) as [t|] eqn:Et; last first.
    { apply last_None in Et. subst l. exists s.
      split; [|by destruct (Z.to_nat _)].
      simpl. step (get_cache_Done s). by rewrite (cache_wf_tail _ _ Hwf). }
    pose proof (last_elem _ _ Et) as Htl.
    destruct (cache_wf_slot _ _ _ Hwf Htl) as [i Hi].
    pose proof (inuse_slot _ _ _ Hi) as Hin.
    assert (lru_evict_unused (S fuel) s =
            if (lei_refcnt i =? 0) &&
               (c_maxsize (cache s) <? c_cursize (cache s))
            then bind (cache_delete_entry_internal t)
                   (λ _, bind (cache_entry_private_destroy t)
                           (λ _, bind (entry_free t)
                                   (λ _, lru_evict_unused fuel))) s
            else Done tt s) as ->.
    { simpl. step (get_cache_Done s). rewrite (cache_wf_tail _ _ Hwf), Et.
      step (LEI_Done _ _ _ Hi). by destruct (_ && _). }
    destruct (c_maxsize (cache s) <? c_cursize (cache s)) eqn:Eover;
      last first.
    { rewrite andb_false_r. exists s. split; [done|].
      apply Z.ltb_ge in Eover. subst l'.
      replace (Z.to_nat _) with O by lia. done. }
    apply Z.ltb_lt in Eover.
    destruct (Z.to_nat (c_cursize (cache s) - c_maxsize (cache s)))
      as [|k] eqn:Ek; [lia|].
    subst l'. simpl. rewrite Et, Hin.
    destruct (lei_refcnt i =? 0) eqn:Ei; simpl; [|by exists s].
    destruct (evict_one_Done s l t Hwf Htl)
      as (s1 & Hs1 & Hwf1 & Hv1 & Hm1 & Hx1).
    pose proof (wf_size _ _ Hwf) as Hsz.
    pose proof (wf_size _ _ Hwf1) as Hsz1.
    pose proof (length_lru_del t l (cache_wf_NoDup _ _ Hwf) Htl) as Hlen.
    destruct (IH s1 (lru_del t l) Hwf1 ltac:(lia))
      as (s2 & Hs2 & Hwf2 & Hgone & Hkept & Hm2 & Hx2).
    replace (Z.to_nat (c_cursize (cache s1) - c_maxsize (cache s1)))
      with k in * by lia.
    assert (evict_list (inuse s1) k (lru_del t l)
            = evict_list (inuse s) k (lru_del t l)) as Hext.
    { apply evict_list_ext. intros p [_ Hp]%elem_of_lru_del.
      apply inuse_same_view. by rewrite Hv1, decide_False. }
    rewrite Hext in *.
    exists s2. split; [|split; [done|split; [|split; [|split; congruence]]]].
    + rewrite bind_round. by step Hs1.
    + intros p Hp Hp'. destruct (decide (p = t)) as [->|Hpt].
      * rewrite Hkept; [by rewrite Hv1, decide_True|].
        rewrite elem_of_lru_del. tauto.
      * apply Hgone; [|done]. by apply elem_of_lru_del.
    + intros p Hp. assert (p ≠ t) as Hpt.
      { intros ->. apply evict_list_elem, elem_of_lru_del in Hp; tauto. }
      rewrite Hkept.
      * by rewrite Hv1, decide_False.
      * intros [Hpl _]%elem_of_lru_del. auto.
Qed.
End loops.

(** ** Making room, and [cache_add_entry_rw] *)

Definition attach_slot (e : positive) (i : EntryInfo) (s : State) : State :=
  mkState (alter (λ x, mkEntry (e_id x) (e_nname x) (Some i)) e (heap s))
    (cache s).

(** The lock a fresh private block holds once [cache_entry_rdwr_lock]
    has taken it for the inserting thread. *)
Definition fresh_lock (rw : bool) : rdwr :=
  if rw then Rdwr 0 true else Rdwr 1 false.

Section add.
Implicit Types (s : State) (e p q : positive) (l : list positive).

Lemma State_eq s s' : heap s = heap s' → cache s = cache s' → s = s'.
Proof. destruct s, s'. simpl. by intros -> ->. Qed.

Lemma Entry_eta x : mkEntry (e_id x) (e_nname x) (e_private x) = x.
Proof. by destruct x. Qed.

Lemma unlock_lock s :
  c_mutex (cache s) = false →
  upd_cache (with_mutex false) (upd_cache (with_mutex true) s) = s.
Proof.
  intros Hm. apply State_eq; [done|]. simpl. destruct (cache s).
  simpl in *. by subst.
Qed.

Lemma mutex_lock_Done s :
  c_mutex (cache s) = false →
  ldap_pvt_thread_mutex_lock s = Done tt (upd_cache (with_mutex true) s).
Proof.
  intros Hm. unfold ldap_pvt_thread_mutex_lock.
  step (get_cache_Done s). by rewrite Hm.
Qed.

Lemma mutex_unlock_Done s :
  ldap_pvt_thread_mutex_unlock s = Done tt (upd_cache (with_mutex false) s).
Proof. done. Qed.

Lemma cache_wf_length_heap s l : cache_wf s l → (length l ≤ size (heap s))%nat.
Proof.
  intros Hwf. rewrite <- size_dom. unfold size, set_size. simpl.
  apply submseteq_length, NoDup_submseteq; [by eapply cache_wf_NoDup|].
  intros p Hp. apply elem_of_elements, elem_of_dom.
  destruct (cache_wf_slot _ _ _ Hwf Hp) as [i (x & Hx & _)%slot_Some]. eauto.
Qed.

Lemma lru_make_room_Done s l :
  cache_wf s l →
  let l' := make_room_list (inuse s) (c_maxsize (cache s)) l in
  ∃ s', lru_make_room s = Done tt s' ∧
        cache_wf s' l' ∧
        (∀ p, p ∈ l → p ∉ l' → view s' p = None) ∧
        (∀ p, (p ∈ l → p ∈ l') → view s' p = view s p) ∧
        c_maxsize (cache s') = c_maxsize (cache s) ∧
        c_mutex (cache s') = c_mutex (cache s).
Proof.
  intros Hwf l'. unfold lru_make_room. step (get_cache_Done s).
  pose proof (wf_size _ _ Hwf) as Hsz. subst l'. unfold make_room_list.
  rewrite <- Hsz.
  destruct (c_maxsize (cache s) <? c_cursize (cache s)) eqn:Eover;
    [|by exists s].
  destruct (lru_requeue_inuse_Done 10 s l Hwf)
    as (s1 & Hs1 & Hwf1 & Hv1 & Hm1 & Hc1 & _ & _ & Hx1).
  step Hs1.
  pose proof (cache_wf_length_heap _ _ Hwf1) as Hlen.
  destruct (lru_evict_unused_Done (S (size (heap s1))) s1 _ Hwf1 ltac:(lia))
    as (s2 & Hs2 & Hwf2 & Hgone & Hkept & Hm2 & Hx2).
  rewrite Hm1, Hc1 in Hwf2, Hgone, Hkept.
  assert (evict_list (inuse s1)
            (Z.to_nat (c_cursize (cache s) - c_maxsize (cache s)))
            (requeue_list (inuse s) 10 l)
          = evict_list (inuse s)
              (Z.to_nat (c_cursize (cache s) - c_maxsize (cache s)))
              (requeue_list (inuse s) 10 l)) as Hext.
  { apply evict_list_ext. intros p _. by apply inuse_same_view. }
  rewrite Hext in *.
  exists s2. split; [done|]. split; [done|].
  split; [|split; [|split; congruence]].
  - intros p Hp Hp'. apply Hgone; [|done]. by apply requeue_list_elem.
  - intros p Hp. rewrite Hkept, Hv1; [done|].
    intros Hq%requeue_list_elem. auto.
Qed.

Lemma store_Done s e x y :
  heap s !! e = Some x →
  store e y s = Done tt (mkState (<[e := y]> (heap s)) (cache s)).
Proof. unfold store. by intros ->. Qed.

Lemma cache_entry_private_init_Done s e x :
  heap s !! e = Some x → e_private x = None →
  cache_entry_private_init 0 e s = Done 0 (attach_slot e calloc_EntryInfo s).
Proof.
  intros Hx Hp. unfold cache_entry_private_init.
  step (load_Done _ _ _ Hx). rewrite Hp.
  step (store_Done _ _ _
          (mkEntry (e_id x) (e_nname x) (Some calloc_EntryInfo)) Hx).
  simpl. unfold ret, attach_slot. do 2 f_equal.
  apply map_eq. intros p. rewrite lookup_alter, lookup_insert.
  case_decide; subst; [|done]. by rewrite Hx.
Qed.

Lemma cache_entry_private_init_fail s e x rc :
  heap s !! e = Some x → e_private x = None → rc ≠ 0 →
  cache_entry_private_init rc e s = Done 1 s.
Proof.
  intros Hx Hp Hrc. unfold cache_entry_private_init.
  step (load_Done _ _ _ Hx). rewrite Hp.
  step (store_Done _ _ _
          (mkEntry (e_id x) (e_nname x) (Some calloc_EntryInfo)) Hx).
  apply Z.eqb_neq in Hrc. rewrite Hrc. simpl negb.
  unfold bind, store. simpl. rewrite lookup_insert_eq. unfold ret.
  f_equal. apply State_eq; [|done]. simpl.
  rewrite insert_insert_eq. apply insert_id.
  rewrite Hx. f_equal. rewrite <- Hp. by destruct x.
Qed.

Lemma slot_attach_slot s e i p :
  slot (attach_slot e i s) p =
    if decide (p = e) then heap s !! e ≫= (λ _, Some i) else slot s p.
Proof.
  unfold slot, attach_slot. simpl. rewrite lookup_alter.
  case_decide as H; [subst p; rewrite decide_True by done|
                     by rewrite decide_False by done].
  by destruct (heap s !! e) as [x|].
Qed.

Lemma view_attach_slot s e i p :
  view (attach_slot e i s) p =
    if decide (p = e)
    then (λ v, (v.1, Some (slot_core i))) <$> view s e
    else view s p.
Proof.
  unfold view, attach_slot. simpl. rewrite lookup_alter.
  case_decide as H; [subst p; rewrite decide_True by done|
                     by rewrite decide_False by done].
  by destruct (heap s !! e) as [x|].
Qed.

Lemma destroy_attach s e x i :
  heap s !! e = Some x → e_private x = None →
  clear_slot e (attach_slot e i s) = s.
Proof.
  intros Hx Hp. apply State_eq; [|done]. simpl.
  apply map_eq. intros p. rewrite !lookup_alter.
  case_decide; [subst p|done]. rewrite Hx. simpl.
  rewrite decide_True by done. simpl. f_equal.
  rewrite <- Hp. by destruct x.
Qed.

(** The three ways in which [cache_add_entry_rw] gives up; each
    leaves the state as it found it. *)
Lemma cache_add_entry_rw_init_failure s e x rc rw :
  c_mutex (cache s) = false →
  heap s !! e = Some x → e_private x = None → rc ≠ 0 →
  cache_add_entry_rw rc e rw s = Done (-1) s.
Proof.
  intros Hm Hx Hp Hrc. unfold cache_add_entry_rw.
  step (mutex_lock_Done s Hm).
  set (sa := upd_cache (with_mutex true) s).
  step (load_Done sa _ _ Hx). rewrite Hp, bool_decide_eq_true_2 by done.
  step (cache_entry_private_init_fail sa e x rc Hx Hp Hrc).
  simpl. step (mutex_unlock_Done sa). unfold ret. subst sa.
  by rewrite unlock_lock.
Qed.

Lemma cache_add_entry_rw_dn_duplicate s e x d rw :
  c_mutex (cache s) = false →
  heap s !! e = Some x → e_private x = None →
  c_dntree (cache s) !! e_nname x = Some d →
  cache_add_entry_rw 0 e rw s = Done 1 s.
Proof.
  intros Hm Hx Hp Hd. unfold cache_add_entry_rw.
  step (mutex_lock_Done s Hm).
  set (sa := upd_cache (with_mutex true) s).
  step (load_Done sa _ _ Hx). rewrite Hp, bool_decide_eq_true_2 by done.
  step (cache_entry_private_init_Done sa e x Hx Hp).
  change (negb (0 =? 0)) with false. cbv iota. set (sb := attach_slot e calloc_EntryInfo sa).
  assert (heap sb !! e = Some (mkEntry (e_id x) (e_nname x)
                                 (Some calloc_EntryInfo))) as Hxb.
  { unfold sb, attach_slot. simpl. by rewrite lookup_alter_eq, Hx. }
  unfold avl_insert_dn. rewrite !bind_assoc.
  step (load_Done sb _ _ Hxb). rewrite bind_assoc.
  step (get_cache_Done sb). simpl e_nname.
  change (c_dntree (cache sb)) with (c_dntree (cache s)). rewrite Hd.
  rewrite bind_ret. change (negb (-1 =? 0)) with true. cbv iota.
  step (mutex_unlock_Done sb).
  assert (is_Some (slot (upd_cache (with_mutex false) sb) e)) as Hs.
  { rewrite slot_upd_cache. unfold slot. rewrite Hxb. simpl. eauto. }
  step (cache_entry_private_destroy_Done _ _ Hs). unfold ret. f_equal.
  apply State_eq.
  - change (heap (clear_slot e (attach_slot e calloc_EntryInfo s)) = heap s).
    by erewrite destroy_attach.
  - simpl. destruct (cache s). simpl in *. by subst.
Qed.

Lemma cache_add_entry_rw_id_duplicate s e x d rw :
  c_mutex (cache s) = false →
  heap s !! e = Some x → e_private x = None →
  c_dntree (cache s) !! e_nname x = None →
  c_idtree (cache s) !! e_id x = Some d →
  cache_add_entry_rw 0 e rw s = Done (-1) s.
Proof.
  intros Hm Hx Hp Hd Hi. unfold cache_add_entry_rw.
  step (mutex_lock_Done s Hm).
  set (sa := upd_cache (with_mutex true) s).
  step (load_Done sa _ _ Hx). rewrite Hp, bool_decide_eq_true_2 by done.
  step (cache_entry_private_init_Done sa e x Hx Hp).
  change (negb (0 =? 0)) with false. cbv iota. set (sb := attach_slot e calloc_EntryInfo sa).
  assert (heap sb !! e = Some (mkEntry (e_id x) (e_nname x)
                                 (Some calloc_EntryInfo))) as Hxb.
  { unfold sb, attach_slot. simpl. by rewrite lookup_alter_eq, Hx. }
  unfold avl_insert_dn. rewrite !bind_assoc.
  step (load_Done sb _ _ Hxb). rewrite bind_assoc.
  step (get_cache_Done sb). simpl e_nname.
  change (c_dntree (cache sb)) with (c_dntree (cache s)). rewrite Hd.
  rewrite bind_assoc.
  step (set_cache_Done sb
          (with_dntree (<[e_nname x := e]> (c_dntree (cache s))))).
  set (sc := upd_cache _ sb). rewrite bind_ret.
  change (negb (0 =? 0)) with false. cbv iota.
  unfold avl_insert_id. rewrite !bind_assoc.
  step (load_Done sc _ _ Hxb). rewrite bind_assoc.
  step (get_cache_Done sc). simpl e_id.
  change (c_idtree (cache sc)) with (c_idtree (cache s)). rewrite Hi.
  rewrite bind_ret. change (negb (-1 =? 0)) with true. cbv iota.
  unfold avl_delete_dn. rewrite !bind_assoc.
  step (load_Done sc _ _ Hxb). rewrite bind_assoc.
  step (get_cache_Done sc). simpl e_nname.
  change (c_dntree (cache sc))
    with (<[e_nname x := e]> (c_dntree (cache s))).
  rewrite lookup_insert_eq. rewrite bind_assoc.
  step (set_cache_Done sc
          (with_dntree (delete (e_nname x)
                          (<[e_nname x := e]> (c_dntree (cache s)))))).
  set (sd := upd_cache _ sc). rewrite bind_ret.
  assert (is_Some (slot sd e)) as Hs.
  { unfold slot. change (heap sd) with (heap sb). rewrite Hxb. simpl. eauto. }
  step (cache_entry_private_destroy_Done _ _ Hs).
  step (mutex_unlock_Done (clear_slot e sd)). unfold ret. f_equal.
  apply State_eq.
  - change (heap (clear_slot e (attach_slot e calloc_EntryInfo s)) = heap s).
    by erewrite destroy_attach.
  - simpl. rewrite delete_insert_eq, delete_id by done.
    destruct (cache s). simpl in *. by subst.
Qed.
End add.

Section add_success.
Implicit Types (s : State) (e p q : positive) (l : list positive).

Lemma cache_wf_mutex s l b :
  cache_wf s l → cache_wf (upd_cache (with_mutex b) s) l.
Proof.
  intros Hwf. eapply cache_wf_transfer; try done.
  - apply lru_wf_upd_cache; [done..|apply Hwf].
  - intros p st Hp Hst. by eapply wf_dead.
  - intros p _. by right.
Qed.

Lemma evict_list_pinned pin n l e :
  pin e = true → e ∈ l → e ∈ evict_list pin n l.
Proof.
  intros He. revert l. induction n as [|n IH]; intros l Hl; [done|].
  simpl. destruct (last l) as [t|] eqn:Et; [|done].
  destruct (pin t) eqn:Ept; [done|]. apply IH.
  apply elem_of_lru_del. split; [done|]. intros ->. congruence.
Qed.

Lemma make_room_list_pinned pin m l e :
  pin e = true → e ∈ l → e ∈ make_room_list pin m l.
Proof.
  intros He Hl. unfold make_room_list. case_match; [|done].
  apply evict_list_pinned; [done|]. by apply requeue_list_elem.
Qed.

Lemma make_room_list_elem pin m l p : p ∈ make_room_list pin m l → p ∈ l.
Proof.
  unfold make_room_list. case_match; [|done].
  intros Hp%evict_list_elem. by apply requeue_list_elem in Hp.
Qed.

(** The state in which [cache_add_entry_rw] reaches the test of
    [c_cursize] against [c_maxsize]. *)
Definition add_state (rw : bool) l e (x : Entry) s : State :=
  let sb := attach_slot e calloc_EntryInfo s in
  let sc := upd_cache
              (with_dntree (<[e_nname x := e]> (c_dntree (cache s)))) sb in
  let sd := upd_cache
              (with_idtree (<[e_id x := e]> (c_idtree (cache s)))) sc in
  let sg := upd_slot e (with_refcnt 1)
              (upd_slot e (with_state CACHE_ENTRY_CREATING)
                 (upd_slot e (with_rdwr (fresh_lock rw)) sd)) in
  let sh := lru_add_state l e sg in
  upd_cache (with_cursize (c_cursize (cache sh) + 1)) sh.

Lemma add_state_view rw l e x s p :
  heap s !! e = Some x → e_private x = None →
  view (add_state rw l e x s) p =
    if decide (p = e)
    then Some (e_id x, e_nname x,
               Some (fresh_lock rw, CACHE_ENTRY_CREATING, 1))
    else view s p.
Proof.
  intros Hx Hp. unfold add_state. rewrite view_upd_cache.
  rewrite lru_add_state_view.
  destruct (decide (p = e)) as [->|Hpe].
  - rewrite (view_upd_slot_core _ _ _ (core_refcnt 1)) by done.
    rewrite (view_upd_slot_core _ _ _ (core_state CACHE_ENTRY_CREATING))
      by done.
    rewrite (view_upd_slot_core _ _ _ (core_rdwr (fresh_lock rw))) by done.
    rewrite !view_upd_cache, !view_attach_slot.
    rewrite !decide_True by done.
    unfold view. rewrite Hx. done.
  - rewrite !view_upd_slot, !decide_False by done.
    by rewrite !view_upd_cache, view_attach_slot, decide_False.
Qed.

Lemma not_on_queue_without_slot s l e :
  cache_wf s l → slot s e = None → e ∉ l.
Proof.
  intros Hwf Hs He. destruct (cache_wf_slot _ _ _ Hwf He) as [i Hi].
  congruence.
Qed.

Lemma add_state_wf rw l e x s :
  cache_wf s l →
  heap s !! e = Some x → e_private x = None →
  c_dntree (cache s) !! e_nname x = None →
  c_idtree (cache s) !! e_id x = None →
  cache_wf (add_state rw l e x s) (e :: l).
Proof.
  intros Hwf Hx Hp Hdn Hid.
  assert (slot s e = None) as Hse by (unfold slot; by rewrite Hx).
  pose proof (not_on_queue_without_slot _ _ _ Hwf Hse) as He.
  pose proof (add_state_view rw l e x s) as Hv.
  assert (∀ p, p ≠ e → view (add_state rw l e x s) p = view s p) as Hne.
  { intros p Hpe. by rewrite Hv, decide_False. }
  assert (view (add_state rw l e x s) e
          = Some (e_id x, e_nname x,
                  Some (fresh_lock rw, CACHE_ENTRY_CREATING, 1))) as Hve.
  { by rewrite Hv, decide_True. }
  assert (name_at (add_state rw l e x s) e = Some (e_nname x)) as Hne_n.
  { by rewrite view_name_at, Hve. }
  assert (id_at (add_state rw l e x s) e = Some (e_id x)) as Hne_i.
  { by rewrite view_id_at, Hve. }
  assert (state_at (add_state rw l e x s) e = Some CACHE_ENTRY_CREATING)
    as Hne_s.
  { by rewrite view_state_at, Hve. }
  unfold add_state in *.
  set (sd := upd_cache (with_idtree _) (upd_cache (with_dntree _) _)) in *.
  set (sg := upd_slot e (with_refcnt 1) _) in *.
  assert (lru_wf sg l) as Hlru.
  { eapply lru_wf_ext; [apply Hwf|done..|].
    intros p Hpl. assert (p ≠ e) by (by intros ->).
    unfold sg. rewrite !links_upd_ne by done. unfold sd.
    rewrite !links_upd_cache. unfold links.
    by rewrite slot_attach_slot, decide_False. }
  assert (is_Some (slot sg e)) as Hsg.
  { unfold sg. rewrite !slot_upd_slot, !decide_True by done.
    rewrite !fmap_is_Some. unfold sd. rewrite !slot_upd_cache.
    rewrite slot_attach_slot, decide_True, Hx by done. simpl. eauto. }
  pose proof (lru_add_state_wf sg l e Hlru He Hsg) as Hlru'.
  pose proof (lru_add_state_index sg l e) as (Hm & Hc & Hd & Hi & Hmx).
  set (sh := lru_add_state l e sg) in *.
  destruct Hwf as [_ Hsz Hwdn Hwid Hlive Hdead Hcnt].
  split.
  - apply lru_wf_upd_cache; done.
  - simpl. rewrite Hc. change (c_cursize (cache sg)) with (c_cursize (cache s)).
    rewrite Hsz. lia.
  - intros k p. simpl c_dntree. rewrite Hd.
    change (c_dntree (cache sg))
      with (<[e_nname x := e]> (c_dntree (cache s))).
    rewrite lookup_insert_Some, elem_of_cons, Hwdn.
    destruct (decide (p = e)) as [->|Hpe].
    + rewrite Hne_n. naive_solver.
    + rewrite (same_view_name_at s (upd_cache _ sh) p) by (by apply Hne).
      split; [naive_solver|]. intros [[?|Hpl] Hn]; [done|].
      right. split; [|done]. intros <-.
      assert (c_dntree (cache s) !! e_nname x = Some p) by (by apply Hwdn).
      congruence.
  - intros k p. simpl c_idtree. rewrite Hi.
    change (c_idtree (cache sg))
      with (<[e_id x := e]> (c_idtree (cache s))).
    rewrite lookup_insert_Some, elem_of_cons, Hwid.
    destruct (decide (p = e)) as [->|Hpe].
    + rewrite Hne_i. naive_solver.
    + rewrite (same_view_id_at s (upd_cache _ sh) p) by (by apply Hne).
      split; [naive_solver|]. intros [[?|Hpl] Hn]; [done|].
      right. split; [|done]. intros <-.
      assert (c_idtree (cache s) !! e_id x = Some p) by (by apply Hwid).
      congruence.
  - intros p [->|Hpl]%elem_of_cons.
    + rewrite Hne_s. eexists. split; [done|]. by left.
    + assert (p ≠ e) by (by intros ->).
      rewrite (same_view_state_at s (upd_cache _ sh) p) by (by apply Hne).
      auto.
  - intros p st Hst [Hpe Hpl]%not_elem_of_cons.
    rewrite (same_view_state_at s (upd_cache _ sh) p) in Hst
      by (by apply Hne).
    eauto.
  - intros p n. destruct (decide (p = e)) as [->|Hpe].
    + rewrite view_refcnt_at, Hve. intros [= <-]. done.
    + rewrite (same_view_refcnt_at s (upd_cache _ sh) p) by (by apply Hne).
      apply Hcnt.
Qed.

Lemma cache_entry_rdwr_lock_fresh s e i rw :
  slot s e = Some i → lei_rdwr i = rdwr_unlocked →
  cache_entry_rdwr_lock e rw s
  = Done 0 (upd_slot e (with_rdwr (fresh_lock rw)) s).
Proof.
  intros Hi Hl. unfold cache_entry_rdwr_lock.
  step (LEI_Done _ _ _ Hi). rewrite Hl.
  destruct rw; simpl.
  - by step (set_LEI_Done s e (with_rdwr (fresh_lock true))
               (mk_is_Some _ _ Hi)).
  - by step (set_LEI_Done s e (with_rdwr (fresh_lock false))
               (mk_is_Some _ _ Hi)).
Qed.

Lemma add_state_run rw l e x s k :
  lru_wf s l → slot s e = None →
  heap s !! e = Some x → e_private x = None →
  c_dntree (cache s) !! e_nname x = None →
  c_idtree (cache s) !! e_id x = None →
  bind (cache_entry_private_init 0 e)
    (λ rc, if negb (rc =? 0)
           then bind ldap_pvt_thread_mutex_unlock (λ _, ret (-1))
           else
             bind (avl_insert_dn e)
               (λ rc, if negb (rc =? 0)
                      then bind ldap_pvt_thread_mutex_unlock
                             (λ _, bind (cache_entry_private_destroy e)
                                     (λ _, ret 1))
                      else
                        bind (avl_insert_id e)
                          (λ rc, if negb (rc =? 0)
                                 then bind (avl_delete_dn e)
                                        (λ _, bind (cache_entry_private_destroy e)
                                                (λ _, bind ldap_pvt_thread_mutex_unlock
                                                        (λ _, ret (-1))))
                                 else
                                   bind (cache_entry_rdwr_lock e rw)
                                     (λ _, bind (set_LEI e (with_state CACHE_ENTRY_CREATING))
                                             (λ _, bind (set_LEI e (with_refcnt 1))
                                                     (λ _, bind (LRU_ADD e)
                                                             (λ _, bind get_cache
                                                                     (λ c, bind (set_cache (with_cursize (c_cursize c + 1))) (λ _, k))))))))) s
  = k (add_state rw l e x s).
Proof.
  intros Hlru0 Hse Hx Hp Hdn Hid.
  step (cache_entry_private_init_Done s e x Hx Hp).
  change (negb (0 =? 0)) with false. cbv iota.
  set (sb := attach_slot e calloc_EntryInfo s).
  assert (heap sb !! e = Some (mkEntry (e_id x) (e_nname x)
                                 (Some calloc_EntryInfo))) as Hxb.
  { unfold sb, attach_slot. simpl. by rewrite lookup_alter_eq, Hx. }
  unfold avl_insert_dn. rewrite !bind_assoc.
  step (load_Done sb _ _ Hxb). rewrite bind_assoc.
  step (get_cache_Done sb). simpl e_nname.
  change (c_dntree (cache sb)) with (c_dntree (cache s)). rewrite Hdn.
  rewrite bind_assoc.
  step (set_cache_Done sb
          (with_dntree (<[e_nname x := e]> (c_dntree (cache s))))).
  set (sc := upd_cache _ sb). rewrite bind_ret.
  change (negb (0 =? 0)) with false. cbv iota.
  unfold avl_insert_id. rewrite !bind_assoc.
  step (load_Done sc _ _ Hxb). rewrite bind_assoc.
  step (get_cache_Done sc). simpl e_id.
  change (c_idtree (cache sc)) with (c_idtree (cache s)). rewrite Hid.
  rewrite bind_assoc.
  step (set_cache_Done sc
          (with_idtree (<[e_id x := e]> (c_idtree (cache s))))).
  set (sd := upd_cache _ sc). rewrite bind_ret.
  change (negb (0 =? 0)) with false. cbv iota.
  assert (slot sd e = Some calloc_EntryInfo) as Hsd.
  { unfold slot. change (heap sd) with (heap sb). by rewrite Hxb. }
  step (cache_entry_rdwr_lock_fresh sd e _ rw Hsd eq_refl).
  set (se := upd_slot e (with_rdwr _) sd).
  assert (is_Some (slot se e)) as Hsse.
  { unfold se. rewrite slot_upd_slot, decide_True, Hsd by done. eauto. }
  step (set_LEI_Done se e (with_state CACHE_ENTRY_CREATING) Hsse).
  set (sf := upd_slot e (with_state _) se).
  assert (is_Some (slot sf e)) as Hssf.
  { unfold sf. rewrite slot_upd_slot, decide_True by done.
    by apply fmap_is_Some. }
  step (set_LEI_Done sf e (with_refcnt 1) Hssf).
  set (sg := upd_slot e (with_refcnt 1) sf).
  assert (is_Some (slot sg e)) as Hssg.
  { unfold sg. rewrite slot_upd_slot, decide_True by done.
    by apply fmap_is_Some. }
  assert (e ∉ l) as He.
  { intros He. destruct (lru_wf_slot _ _ _ Hlru0 He). congruence. }
  assert (lru_wf sg l) as Hlru.
  { eapply lru_wf_ext; [apply Hlru0|done..|].
    intros p Hpl. assert (p ≠ e) by (by intros ->).
    unfold sg, sf, se. rewrite !links_upd_ne by done. unfold sd, sc.
    rewrite !links_upd_cache. unfold links, sb.
    by rewrite slot_attach_slot, decide_False. }
  step (LRU_ADD_Done sg l e Hlru He Hssg).
  step (get_cache_Done (lru_add_state l e sg)).
  step (set_cache_Done (lru_add_state l e sg)
          (with_cursize (c_cursize (cache (lru_add_state l e sg)) + 1))).
  done.
Qed.
End add_success.

Section add_done.
Implicit Types (s : State) (e p q : positive) (l : list positive).

(** Who is in use once [e] has been added with its first reference. *)
Definition pinned_with (e : positive) (s : State) (p : positive) : bool :=
  if decide (p = e) then true else inuse s p.

Lemma view_upd_cache_any s g : view (upd_cache g s) = view s.
Proof. done. Qed.

Lemma add_state_maxsize rw l e x s :
  c_maxsize (cache (add_state rw l e x s)) = c_maxsize (cache s).
Proof.
  unfold add_state. simpl.
  match goal with
  | |- c_maxsize (cache (lru_add_state ?l ?e ?s)) = _ =>
      destruct (lru_add_state_index s l e) as (-> & _)
  end.
  done.
Qed.

Lemma cache_add_entry_rw_Done s l e x rw :
  cache_inv s l →
  heap s !! e = Some x → e_private x = None →
  c_dntree (cache s) !! e_nname x = None →
  c_idtree (cache s) !! e_id x = None →
  let l' := make_room_list (pinned_with e s) (c_maxsize (cache s)) (e :: l) in
  ∃ s', cache_add_entry_rw 0 e rw s = Done 0 s' ∧
        cache_inv s' l' ∧ e ∈ l' ∧
        view s' e = Some (e_id x, e_nname x,
                          Some (fresh_lock rw, CACHE_ENTRY_CREATING, 1)) ∧
        (∀ p, p ∈ l → p ∉ l' → view s' p = None) ∧
        (∀ p, p ≠ e → (p ∈ l → p ∈ l') → view s' p = view s p) ∧
        c_maxsize (cache s') = c_maxsize (cache s).
Proof.
  intros [Hm Hwf] Hx Hp Hdn Hid l'.
  set (sa := upd_cache (with_mutex true) s).
  pose proof (cache_wf_mutex s l true Hwf) as Hwfa. fold sa in Hwfa.
  assert (slot sa e = None) as Hse by (unfold slot; simpl; by rewrite Hx).
  pose proof (add_state_wf rw l e x sa Hwfa Hx Hp Hdn Hid) as Hwf1.
  pose proof (λ p, add_state_view rw l e x sa p Hx Hp) as Hv1.
  set (s1 := add_state rw l e x sa) in *.
  assert (∀ p, inuse s1 p = pinned_with e s p) as Hpin.
  { intros p. unfold pinned_with. case_decide as Hpe.
    - subst p. unfold inuse. rewrite view_refcnt_at, Hv1, decide_True by done.
      done.
    - apply (inuse_same_view s s1). by rewrite Hv1, decide_False. }
  destruct (lru_make_room_Done s1 _ Hwf1)
    as (s2 & Hs2 & Hwf2 & Hgone & Hkept & Hm2 & Hx2).
  assert (c_maxsize (cache s1) = c_maxsize (cache s)) as Hm1
    by exact (add_state_maxsize rw l e x sa).
  rewrite Hm1 in Hwf2, Hgone, Hkept.
  rewrite (requeue_evict_ext (inuse s1) (pinned_with e s)) in Hwf2, Hgone, Hkept
    by done.
  fold l' in Hwf2, Hgone, Hkept.
  assert (e ∈ l') as Hel'.
  { apply make_room_list_pinned; [|left]. unfold pinned_with.
    by rewrite decide_True. }
  exists (upd_cache (with_mutex false) s2).
  split; [|split; [|split; [done|split; [|split; [|split]]]]].
  - unfold cache_add_entry_rw. step (mutex_lock_Done s Hm). fold sa.
    step (load_Done sa _ _ Hx). rewrite Hp, bool_decide_eq_true_2 by done.
    rewrite (add_state_run rw l e x sa); [|apply Hwfa|done..].
    fold s1. step Hs2. by step (mutex_unlock_Done s2).
  - split; [done|]. by apply cache_wf_mutex.
  - rewrite view_upd_cache_any, Hkept by done.
    by rewrite Hv1, decide_True.
  - intros p Hp1 Hp2. rewrite view_upd_cache_any. apply Hgone; [|done].
    by right.
  - intros p Hpe Hp1. rewrite view_upd_cache_any, Hkept.
    + by rewrite Hv1, decide_False.
    + intros [?|?]%elem_of_cons; [done|auto].
  - simpl. congruence.
Qed.
End add_done.

(** ** [cache_return_entry_rw] *)

Definition unlock_rdwr (rw : bool) (r : rdwr) : rdwr :=
  if rw then ldap_pvt_thread_rdwr_wunlock r
  else ldap_pvt_thread_rdwr_runlock r.

(** What returning an entry does to what the state says about it: the
    lock is released and the reference dropped; a creation that was not
    committed ends as a tombstone whose block is destroyed with the last
    reference (the entry stays allocated), a committed one becomes
    ready, and a tombstone goes away, entry and all, with its last
    reference. *)
Definition return_view (rw : bool) (v : Z * string * option (rdwr * Z * Z))
  : option (Z * string * option (rdwr * Z * Z)) :=
  match v.2 with
  | None => Some v
  | Some (r, st, n) =>
      let r' := unlock_rdwr rw r in
      let n' := int_wrap (n - 1) in
      if st =? CACHE_ENTRY_CREATING then
        if 0 <? n' then Some (v.1, Some (r', CACHE_ENTRY_DELETED, n'))
        else Some (v.1, None)
      else if st =? CACHE_ENTRY_COMMITTED then
        Some (v.1, Some (r', CACHE_ENTRY_READY, n'))
      else if st =? CACHE_ENTRY_DELETED then
        if 0 <? n' then Some (v.1, Some (r', st, n')) else None
      else Some (v.1, Some (r', st, n'))
  end.

Section return_entry.
Implicit Types (s : State) (e p q : positive) (l : list positive).

Lemma id_at_upd_slot s e f p : id_at (upd_slot e f s) p = id_at s p.
Proof.
  unfold id_at, upd_slot. simpl. rewrite lookup_alter.
  case_decide; [subst|done]. by destruct (heap s !! p).
Qed.

Lemma name_at_upd_slot s e f p : name_at (upd_slot e f s) p = name_at s p.
Proof.
  unfold name_at, upd_slot. simpl. rewrite lookup_alter.
  case_decide; [subst|done]. by destruct (heap s !! p).
Qed.

Lemma state_at_upd_slot s e f p :
  state_at (upd_slot e f s) p =
    if decide (p = e) then (λ i, lei_state (f i)) <$> slot s e
    else state_at s p.
Proof.
  unfold state_at. rewrite slot_upd_slot. case_decide; [|done].
  by destruct (slot s e).
Qed.

(** Assigning to a field of a private block keeps the cache
    well-formed as long as the links are left alone and the state
    stays on the side of live or dead where it was. *)
Lemma cache_wf_upd_slot s l e f :
  cache_wf s l →
  (∀ i, lei_lrunext (f i) = lei_lrunext i) →
  (∀ i, lei_lruprev (f i) = lei_lruprev i) →
  (∀ i, slot s e = Some i → INT_MIN ≤ lei_refcnt i ≤ INT_MAX →
        INT_MIN ≤ lei_refcnt (f i) ≤ INT_MAX) →
  (∀ i, slot s e = Some i →
        (live (lei_state i) → live (lei_state (f i))) ∧
        (lei_state i = CACHE_ENTRY_DELETED →
         lei_state (f i) = CACHE_ENTRY_DELETED)) →
  cache_wf (upd_slot e f s) l.
Proof.
  intros [Hlru Hsz Hdn Hid Hlive Hdead Hcnt] Hn Hp Hrc Hst.
  split; [by apply lru_wf_upd_slot_core|done|..].
  - intros k p. rewrite name_at_upd_slot. apply Hdn.
  - intros k p. rewrite id_at_upd_slot. apply Hid.
  - intros p Hpl. rewrite state_at_upd_slot. case_decide; [subst p|auto].
    destruct (Hlive e Hpl) as (st & Hse & Hl). unfold state_at in Hse.
    destruct (slot s e) as [i|] eqn:Ei; [|done]. injection Hse as <-.
    simpl. eexists. split; [done|]. by apply (Hst i).
  - intros p st. rewrite state_at_upd_slot. case_decide; [subst p|apply Hdead].
    destruct (slot s e) as [i|] eqn:Ei; [|done]. simpl. intros [= <-] Hpl.
    apply (Hst i eq_refl). apply (Hdead e); [|done].
    unfold state_at. by rewrite Ei.
  - intros p n. unfold refcnt_at. rewrite slot_upd_slot.
    case_decide; [subst p|apply Hcnt].
    destruct (slot s e) as [i|] eqn:Ei; [|done]. simpl. intros [= <-].
    apply (Hrc i eq_refl). apply (Hcnt e). unfold refcnt_at.
    by rewrite Ei.
Qed.

Lemma view_Some_slot s p i :
  slot s p = Some i →
  ∃ id nm, view s p = Some (id, nm, Some (slot_core i)) ∧
           id_at s p = Some id ∧ name_at s p = Some nm.
Proof.
  intros (x & Hx & Hpx & _)%slot_heap. exists (e_id x), (e_nname x).
  unfold view, id_at, name_at. rewrite Hx. simpl. by rewrite Hpx.
Qed.

Lemma cache_wf_live_on_queue s l e i :
  cache_wf s l → slot s e = Some i →
  lei_state i ≠ CACHE_ENTRY_DELETED → e ∈ l.
Proof.
  intros Hwf Hi Hst. destruct (decide (e ∈ l)) as [|Hn]; [done|].
  exfalso. apply Hst. eapply wf_dead; [done| |done].
  by apply state_at_slot.
Qed.

Lemma cache_wf_dead_off_queue s l e i :
  cache_wf s l → slot s e = Some i →
  lei_state i = CACHE_ENTRY_DELETED → e ∉ l.
Proof.
  intros Hwf Hi Hst He. destruct (wf_live _ _ Hwf e He) as (st & Hs & Hl).
  rewrite (state_at_slot _ _ _ Hi), Hst in Hs. injection Hs as <-.
  by destruct Hl as [|[|]].
Qed.

Lemma cache_entry_rdwr_unlock_Done s e i rw :
  slot s e = Some i →
  cache_entry_rdwr_unlock e rw s
  = Done 0 (upd_slot e (with_rdwr (unlock_rdwr rw (lei_rdwr i))) s).
Proof.
  intros Hi. unfold cache_entry_rdwr_unlock. step (LEI_Done _ _ _ Hi).
  by step (set_LEI_Done s e
             (with_rdwr (if rw then ldap_pvt_thread_rdwr_wunlock (lei_rdwr i)
                         else ldap_pvt_thread_rdwr_runlock (lei_rdwr i)))
             (mk_is_Some _ _ Hi)).
Qed.

Lemma slot_upd_slot_eq s e f i :
  slot s e = Some i → slot (upd_slot e f s) e = Some (f i).
Proof. intros Hi. by rewrite slot_upd_slot, decide_True, Hi. Qed.
End return_entry.

Section return_entry_done.
Implicit Types (s : State) (e p q : positive) (l : list positive).

Lemma view_core_slot s p id nm c :
  view s p = Some (id, nm, Some c) → ∃ j, slot s p = Some j ∧ slot_core j = c.
Proof.
  unfold view, slot. destruct (heap s !! p) as [x|]; [|done]. simpl.
  destruct (e_private x) as [j|]; [|done]. simpl. intros [= _ _ <-]. eauto.
Qed.

Lemma slot_core_inv j r st n :
  slot_core j = (r, st, n) →
  lei_rdwr j = r ∧ lei_state j = st ∧ lei_refcnt j = n.
Proof. unfold slot_core. by intros [= -> -> ->]. Qed.

Lemma cache_return_entry_rw_Done s l e i rw :
  cache_inv s l → slot s e = Some i →
  let l' := if lei_state i =? CACHE_ENTRY_CREATING then lru_del e l else l in
  ∃ s', cache_return_entry_rw e rw s = Done tt s' ∧
        cache_inv s' l' ∧
        (∀ p, view s' p =
                if decide (p = e) then view s e ≫= return_view rw
                else view s p) ∧
        c_maxsize (cache s') = c_maxsize (cache s).
Proof.
  intros [Hm Hwf] Hi l'.
  destruct (view_Some_slot _ _ _ Hi) as (id & nm & Hve & _).
  set (r' := unlock_rdwr rw (lei_rdwr i)).
  set (n' := int_wrap (lei_refcnt i - 1)).
  set (sa := upd_cache (with_mutex true) s).
  set (sb := upd_slot e (with_rdwr r') sa).
  set (sc := upd_slot e (with_refcnt n') sb).
  assert (slot sa e = Some i) as Hia by done.
  pose proof (slot_upd_slot_eq sa e (with_rdwr r') i Hia) as Hib.
  fold sb in Hib.
  pose proof (slot_upd_slot_eq sb e (with_refcnt n') _ Hib) as Hic.
  fold sc in Hic.
  pose proof (cache_wf_mutex s l true Hwf) as Hwfa. fold sa in Hwfa.
  assert (cache_wf sb l) as Hwfb.
  { apply cache_wf_upd_slot; [done..|]. intros j _. done. }
  assert (cache_wf sc l) as Hwfc.
  { apply cache_wf_upd_slot; [done|done|done| |].
    - intros j _ _. apply int_wrap_range.
    - intros j _. done. }
  assert (∀ p, view sc p =
               if decide (p = e)
               then Some (id, nm, Some (r', lei_state i, n'))
               else view s p) as Hvc.
  { intros p. unfold sc, sb.
    destruct (decide (p = e)) as [->|Hpe].
    - rewrite (view_upd_slot_core _ _ _ (core_refcnt n')) by done.
      rewrite (view_upd_slot_core _ _ _ (core_rdwr r')) by done.
      rewrite !decide_True by done. unfold sa.
      rewrite view_upd_cache_any, Hve. done.
    - by rewrite !view_upd_slot, !decide_False by done. }
  assert (∀ k, cache_return_entry_rw e rw s =
    bind (if lei_state i =? CACHE_ENTRY_CREATING
          then bind (cache_delete_entry_internal e) (λ _, ret false)
          else ret true) k sc →
    ∃ k', cache_return_entry_rw e rw s = k' sc) as _ by eauto.
  unfold cache_return_entry_rw.
  step (mutex_lock_Done s Hm). fold sa.
  step (LEI_Done sa e i Hia).
  step (cache_entry_rdwr_unlock_Done sa e i rw Hia). fold r' sb.
  step (LEI_Done sb e _ Hib). simpl lei_refcnt. fold n'.
  step (set_LEI_Done sb e (with_refcnt n') (mk_is_Some _ _ Hib)). fold sc.
  step (LEI_Done sc e _ Hic).
  change (lei_state (with_refcnt n' (with_rdwr r' i))) with (lei_state i).
  subst l'.
  destruct (lei_state i =? CACHE_ENTRY_CREATING) eqn:Ecr.
  - (* an aborted creation *)
    apply Z.eqb_eq in Ecr.
    assert (e ∈ l) as He.
    { apply (cache_wf_live_on_queue s l e i Hwf Hi). by rewrite Ecr. }
    destruct (cache_delete_entry_internal_Done sc l e Hwfc He)
      as (s1 & Hs1 & Hwf1 & Hv1 & Hm1 & Hx1).
    assert (view s1 e = Some (id, nm, Some (r', CACHE_ENTRY_DELETED, n')))
      as Hv1e.
    { by rewrite Hv1, decide_True, Hvc, decide_True. }
    destruct (view_core_slot _ _ _ _ _ Hv1e) as (j & Hj & Hcj).
    apply slot_core_inv in Hcj as (Hjr & Hjs & Hjn).
    rewrite bind_assoc. step Hs1. rewrite bind_ret.
    step (LEI_Done s1 e j Hj). rewrite Hjs.
    change (CACHE_ENTRY_DELETED =? CACHE_ENTRY_COMMITTED) with false.
    change (CACHE_ENTRY_DELETED =? CACHE_ENTRY_DELETED) with true.
    cbv iota.
    assert (e ∉ lru_del e l) as He'.
    { rewrite elem_of_lru_del. tauto. }
    destruct (0 <? n') eqn:En.
    + exists (upd_cache (with_mutex false) s1).
      split; [done|]. split; [|split].
      * split; [done|]. by apply cache_wf_mutex.
      * intros p. rewrite view_upd_cache_any, Hv1.
        case_decide; [subst p|by rewrite Hvc, decide_False].
        rewrite Hvc, decide_True, Hve by done. simpl.
        unfold return_view. simpl. rewrite Ecr.
        change (CACHE_ENTRY_CREATING =? CACHE_ENTRY_CREATING) with true.
        cbv iota. fold n'. by rewrite En.
      * simpl. by rewrite Hm1.
    + exists (upd_cache (with_mutex false) (clear_slot e s1)).
      split; [|split; [|split]].
      * step (cache_entry_private_destroy_Done s1 e (mk_is_Some _ _ Hj)).
        rewrite bind_ret. done.
      * split; [done|]. apply cache_wf_mutex.
        by apply cache_wf_clear_slot.
      * intros p. rewrite view_upd_cache_any, view_clear_slot.
        case_decide; [subst p|by rewrite Hv1, decide_False, Hvc, decide_False].
        rewrite Hv1e, Hve. simpl.
        unfold return_view. simpl. rewrite Ecr.
        change (CACHE_ENTRY_CREATING =? CACHE_ENTRY_CREATING) with true.
        cbv iota. fold n'. by rewrite En.
      * simpl. by rewrite Hm1.
  - rewrite bind_ret. step (LEI_Done sc e _ Hic).
    change (lei_state (with_refcnt n' (with_rdwr r' i))) with (lei_state i).
    destruct (lei_state i =? CACHE_ENTRY_COMMITTED) eqn:Eco.
    + (* a committed creation becomes ready *)
      apply Z.eqb_eq in Eco. cbv iota.
      assert (e ∈ l) as He.
      { apply (cache_wf_live_on_queue s l e i Hwf Hi). by rewrite Eco. }
      step (set_LEI_Done sc e (with_state CACHE_ENTRY_READY)
              (mk_is_Some _ _ Hic)).
      exists (upd_cache (with_mutex false)
                (upd_slot e (with_state CACHE_ENTRY_READY) sc)).
      split; [done|]. split; [|split].
      * split; [done|]. apply cache_wf_mutex.
        apply cache_wf_upd_slot; [done..|]. intros j Hj.
        rewrite Hic in Hj. injection Hj as <-.
        change (lei_state (with_refcnt n' (with_rdwr r' i)))
          with (lei_state i).
        rewrite Eco. split; [intros _; right; by left|done].
      * intros p. rewrite view_upd_cache_any.
        destruct (decide (p = e)) as [->|Hpe].
        -- rewrite (view_upd_slot_core _ _ _ (core_state CACHE_ENTRY_READY))
             by done.
           rewrite decide_True, Hvc, decide_True, Hve by done. simpl.
           unfold return_view. simpl. rewrite Ecr, Eco. done.
        -- rewrite view_upd_slot, decide_False by done.
           by rewrite Hvc, decide_False.
      * done.
    + destruct (lei_state i =? CACHE_ENTRY_DELETED) eqn:Ede.
      * (* a tombstone *)
        apply Z.eqb_eq in Ede. cbv iota.
        pose proof (cache_wf_dead_off_queue _ _ _ _ Hwf Hi Ede) as He.
        destruct (0 <? n') eqn:En; cbv iota.
        -- exists (upd_cache (with_mutex false) sc).
           split; [done|]. split; [|split; [|done]].
           ++ split; [done|]. by apply cache_wf_mutex.
           ++ intros p. rewrite view_upd_cache_any, Hvc.
              case_decide; [|done]. rewrite Hve. simpl.
              unfold return_view. simpl. rewrite Ecr, Eco, Ede. fold n'.
              by rewrite En.
        -- step (cache_entry_private_destroy_Done sc e (mk_is_Some _ _ Hic)).
           assert (is_Some (heap (clear_slot e sc) !! e)) as Hh.
           { apply view_is_Some_heap.
             rewrite view_clear_slot, decide_True, Hvc, decide_True by done.
             simpl. eauto. }
           step (entry_free_Done _ _ Hh).
           exists (upd_cache (with_mutex false)
                     (free_entry e (clear_slot e sc))).
           split; [done|]. split; [|split; [|done]].
           ++ split; [done|]. apply cache_wf_mutex.
              apply cache_wf_free_entry; [|done].
              by apply cache_wf_clear_slot.
           ++ intros p. rewrite view_upd_cache_any, view_free_entry.
              case_decide; [subst p|].
              ** rewrite Hve. simpl.
                 unfold return_view. simpl. rewrite Ecr, Eco, Ede. fold n'.
                 by rewrite En.
              ** rewrite view_clear_slot, decide_False by done.
                 by rewrite Hvc, decide_False.
      * (* ready: nothing more *)
        cbv iota. exists (upd_cache (with_mutex false) sc).
        split; [done|]. split; [|split; [|done]].
        -- split; [done|]. by apply cache_wf_mutex.
        -- intros p. rewrite view_upd_cache_any, Hvc.
           case_decide; [|done]. rewrite Hve. simpl.
           unfold return_view. simpl. by rewrite Ecr, Eco, Ede.
Qed.
End return_entry_done.

(** ** Commit, delete, the lookups, release-all and the host *)

(** The result of the try-lock of [cache_entry_rdwr_trylock]. *)
Definition try_rdwr (rw : bool) (r : rdwr) : Z * rdwr :=
  if rw then ldap_pvt_thread_rdwr_wtrylock r
  else ldap_pvt_thread_rdwr_rtrylock r.

Section other_ops.
Implicit Types (s : State) (e p q : positive) (l : list positive).

Lemma cache_entry_commit_Done s l e i :
  cache_inv s l → slot s e = Some i →
  lei_state i = CACHE_ENTRY_CREATING →
  let s' := upd_slot e (with_state CACHE_ENTRY_COMMITTED) s in
  cache_entry_commit e s = Done tt s' ∧ cache_inv s' l ∧
  (∀ p, view s' p =
          if decide (p = e)
          then vmap (core_state CACHE_ENTRY_COMMITTED) <$> view s e
          else view s p).
Proof.
  intros [Hm Hwf] Hi Hst s'. split; [|split].
  - unfold cache_entry_commit. step (LEI_Done _ _ _ Hi). rewrite Hst.
    change (negb (CACHE_ENTRY_CREATING =? CACHE_ENTRY_CREATING)) with false.
    cbv iota. by apply set_LEI_Done.
  - split; [done|]. apply cache_wf_upd_slot; [done..|].
    intros j Hj. rewrite Hi in Hj. injection Hj as <-. rewrite Hst.
    split; [intros _; right; by right|done].
  - intros p. by apply view_upd_slot_core.
Qed.

Lemma cache_delete_entry_Done s l e :
  cache_inv s l → e ∈ l →
  ∃ s', cache_delete_entry e s = Done 0 s' ∧
        cache_inv s' (lru_del e l) ∧
        (∀ p, view s' p =
                if decide (p = e)
                then vmap (core_state CACHE_ENTRY_DELETED) <$> view s e
                else view s p) ∧
        c_maxsize (cache s') = c_maxsize (cache s).
Proof.
  intros [Hm Hwf] He.
  set (sa := upd_cache (with_mutex true) s).
  pose proof (cache_wf_mutex s l true Hwf) as Hwfa. fold sa in Hwfa.
  destruct (cache_wf_slot _ _ _ Hwfa He) as [i Hi].
  destruct (cache_delete_entry_internal_Done sa l e Hwfa He)
    as (s1 & Hs1 & Hwf1 & Hv1 & Hm1 & Hx1).
  exists (upd_cache (with_mutex false) s1).
  split; [|split; [|split]].
  - unfold cache_delete_entry. step (mutex_lock_Done s Hm). fold sa.
    step (LEI_Done sa e i Hi). step Hs1.
    by step (mutex_unlock_Done s1).
  - split; [done|]. by apply cache_wf_mutex.
  - intros p. by rewrite view_upd_cache_any, Hv1.
  - simpl. by rewrite Hm1.
Qed.

Lemma avl_find_id_Done s id :
  avl_find_id id s = Done (c_idtree (cache s) !! id) s.
Proof. done. Qed.

Lemma avl_find_dn_Done s ndn :
  avl_find_dn ndn s = Done (c_dntree (cache s) !! ndn) s.
Proof. done. Qed.

Lemma cache_find_entry_id_pass_absent s id rw :
  c_mutex (cache s) = false → c_idtree (cache s) !! id = None →
  cache_find_entry_id_pass id rw s = Done (Return None) s.
Proof.
  intros Hm Hid. unfold cache_find_entry_id_pass.
  step (mutex_lock_Done s Hm). set (sa := upd_cache _ s).
  step (avl_find_id_Done sa id).
  change (c_idtree (cache sa)) with (c_idtree (cache s)). rewrite Hid. step (mutex_unlock_Done sa).
  unfold ret, sa. by rewrite unlock_lock.
Qed.

Lemma cache_find_entry_id_pass_not_ready s id rw ep i :
  c_mutex (cache s) = false → c_idtree (cache s) !! id = Some ep →
  slot s ep = Some i →
  lei_state i ≠ CACHE_ENTRY_READY → lei_state i ≠ CACHE_ENTRY_UNDEFINED →
  cache_find_entry_id_pass id rw s = Done TryAgain s.
Proof.
  intros Hm Hid Hi Hr Hu. unfold cache_find_entry_id_pass.
  step (mutex_lock_Done s Hm). set (sa := upd_cache _ s).
  step (avl_find_id_Done sa id). change (c_idtree (cache sa)) with (c_idtree (cache s)). rewrite Hid.
  step (LEI_Done sa ep i Hi).
  apply Z.eqb_neq in Hr, Hu. rewrite Hr, Hu. change (negb false) with true. cbv iota.
  step (mutex_unlock_Done sa). unfold ret, sa. by rewrite unlock_lock.
Qed.

Lemma upd_slot_same s e f i :
  slot s e = Some i → f i = i → upd_slot e f s = s.
Proof.
  intros (x & Hx & Hp)%slot_Some Hf. apply State_eq; [|done]. simpl.
  apply alter_id. intros y Hy. rewrite Hx in Hy. injection Hy as <-.
  rewrite Hp. simpl. rewrite Hf, <- Hp. by destruct x.
Qed.

Lemma cache_entry_rdwr_trylock_Done s e i rw :
  slot s e = Some i →
  cache_entry_rdwr_trylock e rw s
  = Done (try_rdwr rw (lei_rdwr i)).1
      (upd_slot e (with_rdwr (try_rdwr rw (lei_rdwr i)).2) s).
Proof.
  intros Hi. unfold cache_entry_rdwr_trylock. step (LEI_Done _ _ _ Hi).
  by step (set_LEI_Done s e (with_rdwr (try_rdwr rw (lei_rdwr i)).2)
             (mk_is_Some _ _ Hi)).
Qed.

Lemma try_rdwr_busy rw r :
  (try_rdwr rw r).1 = LDAP_PVT_THREAD_EBUSY → (try_rdwr rw r).2 = r.
Proof.
  unfold try_rdwr, ldap_pvt_thread_rdwr_wtrylock,
    ldap_pvt_thread_rdwr_rtrylock.
  destruct rw.
  - by destruct (ldap_pvt_thread_rdwr_wlock r).
  - by destruct (ldap_pvt_thread_rdwr_rlock r).
Qed.

Lemma cache_find_entry_id_pass_busy s id rw ep i :
  c_mutex (cache s) = false → c_idtree (cache s) !! id = Some ep →
  slot s ep = Some i → lei_state i = CACHE_ENTRY_READY →
  (try_rdwr rw (lei_rdwr i)).1 = LDAP_PVT_THREAD_EBUSY →
  cache_find_entry_id_pass id rw s = Done TryAgain s.
Proof.
  intros Hm Hid Hi Hr Hb. unfold cache_find_entry_id_pass.
  step (mutex_lock_Done s Hm). set (sa := upd_cache _ s).
  step (avl_find_id_Done sa id). change (c_idtree (cache sa)) with (c_idtree (cache s)). rewrite Hid.
  step (LEI_Done sa ep i Hi). rewrite Hr.
  change (negb (CACHE_ENTRY_READY =? CACHE_ENTRY_READY)) with false.
  cbv iota. step (cache_entry_rdwr_trylock_Done sa ep i rw Hi).
  rewrite Hb. change (LDAP_PVT_THREAD_EBUSY =? LDAP_PVT_THREAD_EBUSY) with true.
  cbv iota. rewrite (try_rdwr_busy _ _ Hb).
  rewrite (upd_slot_same sa ep _ i Hi) by (by destruct i).
  step (mutex_unlock_Done sa). unfold ret, sa. by rewrite unlock_lock.
Qed.

Lemma cache_find_entry_id_pass_found s l id rw ep i :
  cache_inv s l → c_idtree (cache s) !! id = Some ep →
  slot s ep = Some i → lei_state i = CACHE_ENTRY_READY →
  (try_rdwr rw (lei_rdwr i)).1 ≠ LDAP_PVT_THREAD_EBUSY →
  ∃ s', cache_find_entry_id_pass id rw s = Done (Return (Some ep)) s' ∧
        cache_inv s' (ep :: lru_del ep l) ∧
        (∀ p, view s' p =
                if decide (p = ep)
                then vmap (λ _, ((try_rdwr rw (lei_rdwr i)).2,
                                 CACHE_ENTRY_READY,
                                 int_wrap (lei_refcnt i + 1)))
                       <$> view s ep
                else view s p) ∧
        c_maxsize (cache s') = c_maxsize (cache s).
Proof.
  intros [Hm Hwf] Hid Hi Hr Hb.
  assert (ep ∈ l) as He by (by apply (wf_id _ _ Hwf) in Hid as [? _]).
  set (sa := upd_cache (with_mutex true) s).
  set (sb := upd_slot ep (with_rdwr (try_rdwr rw (lei_rdwr i)).2) sa).
  pose proof (cache_wf_mutex s l true Hwf) as Hwfa. fold sa in Hwfa.
  assert (cache_wf sb l) as Hwfb.
  { apply cache_wf_upd_slot; [done..|]. by intros j _. }
  assert (slot sb ep = Some (with_rdwr (try_rdwr rw (lei_rdwr i)).2 i))
    as Hib by (by apply slot_upd_slot_eq).
  destruct (lru_touch_Done sb l ep Hwfb He)
    as (s1 & Hs1 & Hwf1 & Hv1 & Hm1 & Hc1 & Hd1 & Hi1 & Hx1).
  destruct (view_Some_slot _ _ _ Hib) as (id' & nm & Hve & _).
  rewrite <- Hv1 in Hve.
  destruct (view_core_slot _ _ _ _ _ Hve) as (j & Hj & Hcj).
  apply slot_core_inv in Hcj as (Hjr & Hjs & Hjn). simpl in Hjn.
  set (s2 := upd_slot ep (with_refcnt (int_wrap (lei_refcnt i + 1))) s1).
  exists (upd_cache (with_mutex false) s2).
  split; [|split; [|split]].
  - unfold cache_find_entry_id_pass.
    step (mutex_lock_Done s Hm). fold sa.
    step (avl_find_id_Done sa id). change (c_idtree (cache sa)) with (c_idtree (cache s)). rewrite Hid.
    step (LEI_Done sa ep i Hi). rewrite Hr.
    change (negb (CACHE_ENTRY_READY =? CACHE_ENTRY_READY)) with false.
    cbv iota. step (cache_entry_rdwr_trylock_Done sa ep i rw Hi). fold sb.
    apply Z.eqb_neq in Hb. rewrite Hb. rewrite <- bind_assoc. step Hs1.
    step (LEI_Done s1 ep j Hj). rewrite Hjn.
    step (set_LEI_Done s1 ep (with_refcnt (int_wrap (lei_refcnt i + 1)))
            (mk_is_Some _ _ Hj)).
    fold s2. by step (mutex_unlock_Done s2).
  - split; [done|]. apply cache_wf_mutex.
    apply cache_wf_upd_slot; [done|done|done| |by intros k _].
    intros k _ _. apply int_wrap_range.
  - intros p. rewrite view_upd_cache_any. unfold s2.
    destruct (decide (p = ep)) as [->|Hpe].
    + rewrite (view_upd_slot_core _ _ _
                 (core_refcnt (int_wrap (lei_refcnt i + 1)))) by done.
      rewrite decide_True, Hve by done.
      destruct (view_Some_slot _ _ _ Hi) as (id2 & nm2 & Hve2 & _).
      rewrite Hve2. simpl. unfold vmap. simpl.
      assert (view sb ep = Some (id', nm,
                Some (slot_core (with_rdwr (try_rdwr rw (lei_rdwr i)).2 i))))
        as Hvb by (by rewrite <- Hv1).
      unfold sb in Hvb.
      rewrite (view_upd_slot_core _ _ _
                 (core_rdwr (try_rdwr rw (lei_rdwr i)).2)) in Hvb by done.
      rewrite decide_True in Hvb by done. unfold sa in Hvb.
      rewrite view_upd_cache_any, Hve2 in Hvb.
      unfold vmap, core_rdwr, slot_core in Hvb. simpl in Hvb.
      injection Hvb as <- <-. unfold core_refcnt, slot_core. simpl.
      by rewrite Hr.
    + rewrite view_upd_slot, decide_False by done. rewrite Hv1.
      unfold sb. by rewrite view_upd_slot, decide_False by done.
  - simpl. rewrite Hm1. done.
Qed.

Lemma cache_find_entry_ndn2id_pass_absent s ndn :
  c_mutex (cache s) = false → c_dntree (cache s) !! ndn = None →
  cache_find_entry_ndn2id_pass ndn s = Done (Return NOID) s.
Proof.
  intros Hm Hid. unfold cache_find_entry_ndn2id_pass.
  step (mutex_lock_Done s Hm). set (sa := upd_cache _ s).
  step (avl_find_dn_Done sa ndn).
  change (c_dntree (cache sa)) with (c_dntree (cache s)). rewrite Hid. step (mutex_unlock_Done sa).
  unfold ret, sa. by rewrite unlock_lock.
Qed.

Lemma cache_find_entry_ndn2id_pass_not_ready s ndn ep i :
  c_mutex (cache s) = false → c_dntree (cache s) !! ndn = Some ep →
  slot s ep = Some i →
  lei_state i ≠ CACHE_ENTRY_READY → lei_state i ≠ CACHE_ENTRY_UNDEFINED →
  cache_find_entry_ndn2id_pass ndn s = Done TryAgain s.
Proof.
  intros Hm Hid Hi Hr Hu. unfold cache_find_entry_ndn2id_pass.
  step (mutex_lock_Done s Hm). set (sa := upd_cache _ s).
  step (avl_find_dn_Done sa ndn). change (c_dntree (cache sa)) with (c_dntree (cache s)). rewrite Hid.
  step (LEI_Done sa ep i Hi).
  destruct (slot_heap _ _ _ Hi) as (x & Hx & _).
  step (load_Done sa ep x Hx).
  apply Z.eqb_neq in Hr, Hu. rewrite Hr, Hu. change (negb false) with true. cbv iota.
  step (mutex_unlock_Done sa). unfold ret, sa. by rewrite unlock_lock.
Qed.

Lemma cache_find_entry_ndn2id_pass_found s l ndn ep i :
  cache_inv s l → c_dntree (cache s) !! ndn = Some ep →
  slot s ep = Some i → lei_state i = CACHE_ENTRY_READY →
  ∃ s' id, cache_find_entry_ndn2id_pass ndn s = Done (Return id) s' ∧
           id_at s ep = Some id ∧
           cache_inv s' (ep :: lru_del ep l) ∧
           same_view s s' ∧
           c_maxsize (cache s') = c_maxsize (cache s).
Proof.
  intros [Hm Hwf] Hid Hi Hr.
  assert (ep ∈ l) as He by (by apply (wf_dn _ _ Hwf) in Hid as [? _]).
  set (sa := upd_cache (with_mutex true) s).
  pose proof (cache_wf_mutex s l true Hwf) as Hwfa. fold sa in Hwfa.
  destruct (lru_touch_Done sa l ep Hwfa He)
    as (s1 & Hs1 & Hwf1 & Hv1 & Hm1 & Hc1 & Hd1 & Hi1 & Hx1).
  destruct (slot_heap _ _ _ Hi) as (x & Hx & _ & Hidx & _).
  exists (upd_cache (with_mutex false) s1), (e_id x).
  split; [|split; [done|split; [|split]]].
  - unfold cache_find_entry_ndn2id_pass.
    step (mutex_lock_Done s Hm). fold sa.
    step (avl_find_dn_Done sa ndn). change (c_dntree (cache sa)) with (c_dntree (cache s)). rewrite Hid.
    step (LEI_Done sa ep i Hi). step (load_Done sa ep x Hx). rewrite Hr.
    change (negb (CACHE_ENTRY_READY =? CACHE_ENTRY_READY)) with false.
    cbv iota. rewrite <- bind_assoc. step Hs1.
    by step (mutex_unlock_Done s1).
  - split; [done|]. by apply cache_wf_mutex.
  - intros p. by rewrite view_upd_cache_any, Hv1.
  - simpl. by rewrite Hm1.
Qed.

Lemma host_new_entry_Done s l e id ndn :
  cache_inv s l → heap s !! e = None →
  let s' := mkState (<[e := mkEntry id ndn None]> (heap s)) (cache s) in
  host_new_entry e id ndn s = Done tt s' ∧ cache_inv s' l ∧
  (∀ p, view s' p = if decide (p = e) then Some (id, ndn, None)
                    else view s p).
Proof.
  intros [Hm Hwf] He s'.
  assert (∀ p, view s' p = if decide (p = e) then Some (id, ndn, None)
                           else view s p) as Hv.
  { intros p. unfold view, s'. simpl. rewrite lookup_insert.
    destruct (decide (e = p)) as [->|Hpe].
    - by rewrite decide_True.
    - by rewrite decide_False by done. }
  assert (e ∉ l) as Hel.
  { apply (not_on_queue_without_slot s l e Hwf). unfold slot. by rewrite He. }
  split; [|split; [|done]].
  - unfold host_new_entry. by rewrite He.
  - split; [done|]. eapply cache_wf_transfer; try done.
    + eapply lru_wf_ext; [apply Hwf|done..|].
      intros p Hp. unfold links, slot, s'. simpl.
      rewrite lookup_insert_ne; [done|]. by intros ->.
    + intros p Hp. rewrite Hv, decide_False; [done|]. by intros ->.
    + intros p st Hp. rewrite view_state_at, Hv. case_decide; [done|].
      rewrite <- view_state_at. intros Hst. by eapply wf_dead.
    + intros p Hp. rewrite !view_refcnt_at, Hv.
      case_decide; [by left|by right].
Qed.

Lemma cache_release_all_loop_Done fuel s l :
  cache_wf s l → (length l ≤ fuel)%nat →
  let l' := evict_list (inuse s) (length l) l in
  ∃ s', cache_release_all_loop fuel s = Done tt s' ∧
        cache_wf s' l' ∧
        (∀ p, p ∈ l → p ∉ l' → view s' p = None) ∧
        (∀ p, (p ∈ l → p ∈ l') → view s' p = view s p) ∧
        c_maxsize (cache s') = c_maxsize (cache s) ∧
        c_mutex (cache s') = c_mutex (cache s).
Proof.
  revert s l. induction fuel as [|fuel IH]; intros s l Hwf Hfuel l'.
  - destruct l; [|simpl in Hfuel; lia].
    exists s. split; [|done].
    simpl. step (get_cache_Done s). by rewrite (cache_wf_tail _ _ Hwf).
  - destruct (last l) as [t|] eqn:Et; last first.
    { apply last_None in Et. subst l. exists s. split; [|done].
      simpl. step (get_cache_Done s). by rewrite (cache_wf_tail _ _ Hwf). }
    pose proof (last_elem _ _ Et) as Htl.
    destruct (cache_wf_slot _ _ _ Hwf Htl) as [i Hi].
    pose proof (inuse_slot _ _ _ Hi) as Hin.
    assert (cache_release_all_loop (S fuel) s =
            if lei_refcnt i =? 0
            then bind (cache_delete_entry_internal t)
                   (λ _, bind (cache_entry_private_destroy t)
                           (λ _, bind (entry_free t)
                                   (λ _, cache_release_all_loop fuel))) s
            else Done tt s) as ->.
    { simpl. step (get_cache_Done s). rewrite (cache_wf_tail _ _ Hwf), Et.
      step (LEI_Done _ _ _ Hi). by destruct (_ =? _). }
    assert (∃ k, length l = S k) as [k Hlen0].
    { destruct l; [done|]. simpl. eauto. }
    subst l'. rewrite Hlen0. simpl. rewrite Et, Hin.
    destruct (lei_refcnt i =? 0) eqn:Ei; simpl; [|by exists s].
    destruct (evict_one_Done s l t Hwf Htl)
      as (s1 & Hs1 & Hwf1 & Hv1 & Hm1 & Hx1).
    pose proof (length_lru_del t l (cache_wf_NoDup _ _ Hwf) Htl) as Hlen.
    destruct (IH s1 (lru_del t l) Hwf1 ltac:(lia))
      as (s2 & Hs2 & Hwf2 & Hgone & Hkept & Hm2 & Hx2).
    replace (length (lru_del t l)) with k in * by lia.
    assert (evict_list (inuse s1) k (lru_del t l)
            = evict_list (inuse s) k (lru_del t l)) as Hext.
    { apply evict_list_ext. intros p [_ Hp]%elem_of_lru_del.
      apply inuse_same_view. by rewrite Hv1, decide_False. }
    rewrite Hext in *.
    exists s2. split; [|split; [done|split; [|split; [|split; congruence]]]].
    + rewrite bind_round. by step Hs1.
    + intros p Hp Hp'. destruct (decide (p = t)) as [->|Hpt].
      * rewrite Hkept; [by rewrite Hv1, decide_True|].
        rewrite elem_of_lru_del. tauto.
      * apply Hgone; [|done]. by apply elem_of_lru_del.
    + intros p Hp. assert (p ≠ t) as Hpt.
      { intros ->. apply evict_list_elem, elem_of_lru_del in Hp; tauto. }
      rewrite Hkept.
      * by rewrite Hv1, decide_False.
      * intros [Hpl _]%elem_of_lru_del. auto.
Qed.

Lemma cache_release_all_Done s l :
  cache_inv s l →
  let l' := evict_list (inuse s) (length l) l in
  ∃ s', cache_release_all s = Done tt s' ∧
        cache_inv s' l' ∧
        (∀ p, p ∈ l → p ∉ l' → view s' p = None) ∧
        (∀ p, (p ∈ l → p ∈ l') → view s' p = view s p) ∧
        c_maxsize (cache s') = c_maxsize (cache s).
Proof.
  intros [Hm Hwf] l'.
  set (sa := upd_cache (with_mutex true) s).
  pose proof (cache_wf_mutex s l true Hwf) as Hwfa. fold sa in Hwfa.
  pose proof (cache_wf_length_heap _ _ Hwfa) as Hlen.
  destruct (cache_release_all_loop_Done (S (size (heap sa))) sa l Hwfa
              ltac:(lia))
    as (s1 & Hs1 & Hwf1 & Hgone & Hkept & Hm1 & Hx1).
  exists (upd_cache (with_mutex false) s1).
  split; [|split; [|split; [|split]]].
  - unfold cache_release_all. step (mutex_lock_Done s Hm). fold sa.
    rewrite (bind_Done
               (λ s, cache_release_all_loop (S (size (heap s))) s)
               _ sa tt s1 Hs1).
    done.
  - split; [done|]. by apply cache_wf_mutex.
  - intros p. rewrite view_upd_cache_any. apply Hgone.
  - intros p. rewrite view_upd_cache_any. apply Hkept.
  - simpl. by rewrite Hm1.
Qed.
End other_ops.

(** ** Sequences of calls

    Every routine of the cache runs from taking the mutex to releasing
    it, so what concurrent callers can do to the cache is a sequence of
    such sections.  A lookup that has to try again appears as several
    passes, with the calls of the other threads between them.
    [NewEntry] is the host allocating an entry that it will hand to the
    cache. *)
Inductive call : Type :=
| Insert (init_rc : Z) (e : positive) (rw : bool)
| LookupId (id : Z) (rw : bool)
| LookupName (ndn : string)
| Commit (e : positive)
| Release (e : positive) (rw : bool)
| Delete (e : positive)
| Drain
| NewEntry (e : positive) (id : Z) (ndn : string).

Definition exec (c : call) : M unit :=
  match c with
  | Insert rc e rw => bind (cache_add_entry_rw rc e rw) (λ _, ret tt)
  | LookupId id rw => bind (cache_find_entry_id_pass id rw) (λ _, ret tt)
  | LookupName ndn => bind (cache_find_entry_ndn2id_pass ndn) (λ _, ret tt)
  | Commit e => cache_entry_commit e
  | Release e rw => cache_return_entry_rw e rw
  | Delete e => bind (cache_delete_entry e) (λ _, ret tt)
  | Drain => cache_release_all
  | NewEntry e id ndn => host_new_entry e id ndn
  end.

Fixpoint exec_all (cs : list call) : M unit :=
  match cs with
  | [] => ret tt
  | c :: cs' => bind (exec c) (λ _, exec_all cs')
  end.

(** The state in which a cache starts. *)
Definition cache_start (maxsize : Z) : State := mkState ∅ (cache_open maxsize).

(** Membership in the indexes. *)
Definition in_dntree (s : State) (p : positive) : Prop :=
  ∃ k, c_dntree (cache s) !! k = Some p.
Definition in_idtree (s : State) (p : positive) : Prop :=
  ∃ k, c_idtree (cache s) !! k = Some p.

(** The invariant the specification states: the two indexes and the
    LRU queue hold the same entries, and [c_cursize] is the length of
    the queue. *)
Definition membership_inv (s : State) : Prop :=
  ∃ l, lru_wf s l ∧
       (∀ p, in_dntree s p ↔ in_idtree s p) ∧
       (∀ p, in_idtree s p ↔ p ∈ l) ∧
       c_cursize (cache s) = Z.of_nat (length l).

(** [cache_delete_entry] is meant for an entry that is in the cache. *)
Definition call_pre (c : call) (s : State) : Prop :=
  match c with
  | Delete e => in_idtree s e
  | _ => True
  end.

(** Every call of the sequence meets [call_pre] in the state it is
    made in. *)
Fixpoint well_used (cs : list call) (s : State) : Prop :=
  match cs with
  | [] => True
  | c :: cs' =>
      call_pre c s ∧
      match exec c s with
      | Done _ s' => well_used cs' s'
      | _ => True
      end
  end.

Section traces.
Implicit Types (s : State) (e p q : positive) (l : list positive).

Lemma cache_wf_in_dntree s l p : cache_wf s l → in_dntree s p ↔ p ∈ l.
Proof.
  intros Hwf. split.
  - intros [k Hk]. by apply (wf_dn _ _ Hwf) in Hk as [? _].
  - intros Hp. destruct (cache_wf_slot _ _ _ Hwf Hp) as [i Hi].
    destruct (slot_heap _ _ _ Hi) as (x & Hx & _).
    exists (e_nname x). by apply (cache_wf_resident s l p x).
Qed.

Lemma cache_wf_in_idtree s l p : cache_wf s l → in_idtree s p ↔ p ∈ l.
Proof.
  intros Hwf. split.
  - intros [k Hk]. by apply (wf_id _ _ Hwf) in Hk as [? _].
  - intros Hp. destruct (cache_wf_slot _ _ _ Hwf Hp) as [i Hi].
    destruct (slot_heap _ _ _ Hi) as (x & Hx & _).
    exists (e_id x). by apply (cache_wf_resident s l p x).
Qed.

Lemma cache_inv_membership s l : cache_inv s l → membership_inv s.
Proof.
  intros [_ Hwf]. exists l. split; [apply Hwf|]. split; [|split].
  - intros p. by rewrite cache_wf_in_dntree, cache_wf_in_idtree.
  - intros p. by apply cache_wf_in_idtree.
  - apply Hwf.
Qed.

Lemma cache_start_inv maxsize : cache_inv (cache_start maxsize) [].
Proof.
  split; [done|]. split.
  - split; [constructor|]. split; [done|]. split; [done|].
    by intros p ?%elem_of_nil.
  - done.
  - intros k p. unfold cache_start. simpl. rewrite lookup_empty.
    split; [done|]. by intros [?%elem_of_nil _].
  - intros k p. unfold cache_start. simpl. rewrite lookup_empty.
    split; [done|]. by intros [?%elem_of_nil _].
  - by intros p ?%elem_of_nil.
  - intros p st. unfold state_at, slot, cache_start. simpl.
    by rewrite lookup_empty.
  - intros p n. unfold refcnt_at, slot, cache_start. simpl.
    by rewrite lookup_empty.
Qed.

(** The outcomes of [cache_add_entry_rw]: either it gives up and the
    state is as before, or the entry was new to both indexes. *)
Lemma cache_add_entry_rw_cases s rc e rw r s' :
  c_mutex (cache s) = false →
  cache_add_entry_rw rc e rw s = Done r s' →
  (r ≠ 0 ∧ s' = s) ∨
  (rc = 0 ∧ ∃ x, heap s !! e = Some x ∧ e_private x = None ∧
                 c_dntree (cache s) !! e_nname x = None ∧
                 c_idtree (cache s) !! e_id x = None).
Proof.
  intros Hm Hrun.
  destruct (heap s !! e) as [x|] eqn:Hx; last first.
  { exfalso. unfold cache_add_entry_rw in Hrun.
    revert Hrun. step (mutex_lock_Done s Hm).
    unfold bind, load. simpl. by rewrite Hx. }
  destruct (e_private x) as [i|] eqn:Hp.
  { exfalso. unfold cache_add_entry_rw in Hrun.
    revert Hrun. step (mutex_lock_Done s Hm).
    step (load_Done (upd_cache (with_mutex true) s) e x Hx).
    rewrite Hp. by rewrite bool_decide_eq_false_2. }
  destruct (decide (rc = 0)) as [->|Hrc]; last first.
  { rewrite (cache_add_entry_rw_init_failure s e x rc rw) in Hrun by done.
    injection Hrun as <- <-. by left. }
  destruct (c_dntree (cache s) !! e_nname x) as [d|] eqn:Hd.
  { rewrite (cache_add_entry_rw_dn_duplicate s e x d rw) in Hrun by done.
    injection Hrun as <- <-. by left. }
  destruct (c_idtree (cache s) !! e_id x) as [d|] eqn:Hi.
  { rewrite (cache_add_entry_rw_id_duplicate s e x d rw) in Hrun by done.
    injection Hrun as <- <-. by left. }
  right. split; [done|]. by exists x.
Qed.

Lemma bind_ret_tt_inv {A} (m : M A) s s' :
  bind m (λ _, ret tt) s = Done tt s' → ∃ a, m s = Done a s'.
Proof.
  unfold bind, ret. destruct (m s) as [a s1| | |]; [|done..].
  intros [= <-]. eauto.
Qed.

(** One call from a state that satisfies the invariant leads to a
    state that satisfies it, and leaves alone every private block off
    the queue other than the one it is a release of. *)
Lemma exec_step c s l s' :
  cache_inv s l → call_pre c s → exec c s = Done tt s' →
  ∃ l', cache_inv s' l' ∧
        ∀ p, p ∉ l → is_Some (slot s p) → (∀ rw, c ≠ Release p rw) →
             view s' p = view s p.
Proof.
  intros Hinv Hpre Hrun. pose proof Hinv as [Hm Hwf].
  destruct c as [rc e rw|id rw|ndn|e|e rw|e| |e id ndn]; simpl in Hrun.
  - apply bind_ret_tt_inv in Hrun as [r Hrun].
    destruct (cache_add_entry_rw_cases _ _ _ _ _ _ Hm Hrun)
      as [[_ ->]|(-> & x & Hx & Hp & Hd & Hi)]; [eauto|].
    destruct (cache_add_entry_rw_Done s l e x rw Hinv Hx Hp Hd Hi)
      as (s1 & Hs1 & Hinv1 & _ & _ & _ & Hkept & _).
    rewrite Hs1 in Hrun. injection Hrun as _ <-.
    eexists. split; [done|]. intros p Hp1 [j Hj] _. apply Hkept; [|done].
    intros ->. unfold slot in Hj. rewrite Hx in Hj. simpl in Hj. congruence.
  - apply bind_ret_tt_inv in Hrun as [r Hrun].
    destruct (c_idtree (cache s) !! id) as [ep|] eqn:Hid; last first.
    { rewrite cache_find_entry_id_pass_absent in Hrun by done.
      injection Hrun as _ <-. eauto. }
    assert (ep ∈ l) as He by (by apply (wf_id _ _ Hwf) in Hid as [? _]).
    destruct (cache_wf_slot _ _ _ Hwf He) as [i Hi].
    destruct (wf_live _ _ Hwf ep He) as (st & Hst & Hlive).
    rewrite (state_at_slot _ _ _ Hi) in Hst. injection Hst as <-.
    destruct (decide (lei_state i = CACHE_ENTRY_READY)) as [Hr|Hr];
      last first.
    { rewrite (cache_find_entry_id_pass_not_ready s id rw ep i) in Hrun;
        [injection Hrun as _ <-; eauto|done..|].
      intros Hu. rewrite Hu in Hlive. by destruct Hlive as [|[|]]. }
    destruct (decide ((try_rdwr rw (lei_rdwr i)).1 = LDAP_PVT_THREAD_EBUSY))
      as [Hb|Hb].
    { rewrite (cache_find_entry_id_pass_busy s id rw ep i) in Hrun by done.
      injection Hrun as _ <-. eauto. }
    destruct (cache_find_entry_id_pass_found s l id rw ep i
                Hinv Hid Hi Hr Hb) as (s1 & Hs1 & Hinv1 & Hv1 & _).
    rewrite Hs1 in Hrun. injection Hrun as _ <-.
    eexists. split; [done|]. intros p Hp1 _ _.
    rewrite Hv1, decide_False; [done|]. by intros ->.
  - apply bind_ret_tt_inv in Hrun as [r Hrun].
    destruct (c_dntree (cache s) !! ndn) as [ep|] eqn:Hid; last first.
    { rewrite cache_find_entry_ndn2id_pass_absent in Hrun by done.
      injection Hrun as _ <-. eauto. }
    assert (ep ∈ l) as He by (by apply (wf_dn _ _ Hwf) in Hid as [? _]).
    destruct (cache_wf_slot _ _ _ Hwf He) as [i Hi].
    destruct (wf_live _ _ Hwf ep He) as (st & Hst & Hlive).
    rewrite (state_at_slot _ _ _ Hi) in Hst. injection Hst as <-.
    destruct (decide (lei_state i = CACHE_ENTRY_READY)) as [Hr|Hr];
      last first.
    { rewrite (cache_find_entry_ndn2id_pass_not_ready s ndn ep i) in Hrun;
        [injection Hrun as _ <-; eauto|done..|].
      intros Hu. rewrite Hu in Hlive. by destruct Hlive as [|[|]]. }
    destruct (cache_find_entry_ndn2id_pass_found s l ndn ep i
                Hinv Hid Hi Hr) as (s1 & id & Hs1 & _ & Hinv1 & Hv1 & _).
    rewrite Hs1 in Hrun. injection Hrun as _ <-.
    eexists. split; [done|]. intros p _ _ _. apply Hv1.
  - destruct (slot s e) as [i|] eqn:Hi; last first.
    { unfold cache_entry_commit, bind in Hrun.
      by rewrite (LEI_None _ _ Hi) in Hrun. }
    destruct (decide (lei_state i = CACHE_ENTRY_CREATING)) as [Hc|Hc].
    + destruct (cache_entry_commit_Done s l e i Hinv Hi Hc)
        as (Hs1 & Hinv1 & Hv1).
      rewrite Hs1 in Hrun. injection Hrun as <-.
      eexists. split; [done|]. intros p Hp1 _ _.
      rewrite Hv1, decide_False; [done|]. intros ->. apply Hp1.
      apply (cache_wf_live_on_queue s l e i Hwf Hi). by rewrite Hc.
    + unfold cache_entry_commit in Hrun. revert Hrun.
      step (LEI_Done _ _ _ Hi). apply Z.eqb_neq in Hc. by rewrite Hc.
  - destruct (slot s e) as [i|] eqn:Hi; last first.
    { unfold cache_return_entry_rw in Hrun. revert Hrun.
      step (mutex_lock_Done s Hm). unfold bind.
      by rewrite (LEI_None (upd_cache _ s) e Hi). }
    destruct (cache_return_entry_rw_Done s l e i rw Hinv Hi)
      as (s1 & Hs1 & Hinv1 & Hv1 & _).
    rewrite Hs1 in Hrun. injection Hrun as <-.
    eexists. split; [done|]. intros p _ _ Hne.
    rewrite Hv1, decide_False; [done|]. intros ->. by apply (Hne rw).
  - apply bind_ret_tt_inv in Hrun as [r Hrun].
    assert (e ∈ l) as He by (by apply (cache_wf_in_idtree s l e Hwf)).
    destruct (cache_delete_entry_Done s l e Hinv He)
      as (s1 & Hs1 & Hinv1 & Hv1 & _).
    rewrite Hs1 in Hrun. injection Hrun as _ <-.
    eexists. split; [done|]. intros p Hp1 _ _.
    rewrite Hv1, decide_False; [done|]. by intros ->.
  - destruct (cache_release_all_Done s l Hinv)
      as (s1 & Hs1 & Hinv1 & _ & Hkept & _).
    rewrite Hs1 in Hrun. injection Hrun as <-.
    eexists. split; [done|]. intros p Hp1 _ _. by apply Hkept.
  - destruct (heap s !! e) as [x|] eqn:Hx.
    { unfold host_new_entry in Hrun. by rewrite Hx in Hrun. }
    destruct (host_new_entry_Done s l e id ndn Hinv Hx)
      as (Hs1 & Hinv1 & Hv1).
    rewrite Hs1 in Hrun. injection Hrun as <-.
    eexists. split; [done|]. intros p _ [j Hj] _.
    rewrite Hv1, decide_False; [done|]. intros ->.
    unfold slot in Hj. rewrite Hx in Hj. done.
Qed.

Lemma exec_cache_inv c s l s' :
  cache_inv s l → call_pre c s → exec c s = Done tt s' →
  ∃ l', cache_inv s' l'.
Proof.
  intros Hinv Hpre Hrun.
  destruct (exec_step c s l s' Hinv Hpre Hrun) as (l' & Hinv' & _). eauto.
Qed.

Lemma exec_all_cache_inv cs s l s' :
  cache_inv s l → well_used cs s → exec_all cs s = Done tt s' →
  ∃ l', cache_inv s' l'.
Proof.
  revert s l. induction cs as [|c cs IH]; intros s l Hinv Hok Hrun.
  - injection Hrun as <-. eauto.
  - simpl in Hrun, Hok. destruct Hok as [Hpre Hok].
    unfold bind in Hrun. destruct (exec c s) as [[] s1| | |] eqn:Hc;
      [|done..].
    destruct (exec_cache_inv c s l s1 Hinv Hpre Hc) as [l1 Hinv1].
    by apply (IH s1 l1).
Qed.
End traces.

(** ** The membership invariant (claim C1) *)

(** A caller looks entry 1 up, deletes it, and -- still holding it --
    deletes it once more after another thread has inserted entry 2 under
    the same name. *)
Definition twice_deleted : list call :=
  [NewEntry 1 1 "a"; NewEntry 2 2 "a";
   Insert 0 1 true; Commit 1; Release 1 true;
   LookupId 1 true; Delete 1;
   Insert 0 2 true; Delete 1].

(** C1, counterexample.  The claim quantifies over every sequence of
    public operations.  In [twice_deleted] the second delete of entry 1
    finds the name of entry 1 in the name index (it is entry 2's node),
    removes it, and fails on the id index: entry 2 is left in the id
    index and on the LRU queue but not in the name index. *)
Lemma membership_broken_by_second_delete :
  ∃ s, exec_all twice_deleted (cache_start 4) = Done tt s ∧
       ¬ membership_inv s.
Proof.
  assert (∃ s, exec_all twice_deleted (cache_start 4) = Done tt s ∧
               c_dntree (cache s) = ∅ ∧
               c_idtree (cache s) !! 2 = Some 2%positive)
    as (s & Hs & Hdn & Hid).
  { eexists. split; [vm_compute; reflexivity|]. split; vm_compute; reflexivity. }
  exists s. split; [done|].
  intros (l & _ & Hsame & _ & _).
  assert (in_dntree s 2) as [k Hk] by (apply Hsame; by exists 2).
  by rewrite Hdn, lookup_empty in Hk.
Qed.

(** C1 (as amended): for every sequence of public operations in which
    delete is only called on an entry that is in the cache (in the id
    index), at every point between two operations an entry is in the
    name index iff it is in the id index iff it is on the LRU queue, and
    c_cursize is the length of the LRU queue. *)
Theorem membership_inv_preserved (maxsize : Z) (cs : list call) (s : State) :
  well_used cs (cache_start maxsize) →
  exec_all cs (cache_start maxsize) = Done tt s →
  membership_inv s.
Proof.
  intros Hok Hrun.
  destruct (exec_all_cache_inv cs _ [] s (cache_start_inv maxsize) Hok Hrun)
    as [l Hinv].
  by eapply cache_inv_membership.
Qed.

(** Insert, commit, release, look up and delete once. *)
Definition once_deleted : list call :=
  [NewEntry 1 1 "a"; NewEntry 2 2 "a";
   Insert 0 1 true; Commit 1; Release 1 true;
   LookupId 1 true; Delete 1; Insert 0 2 true].

Lemma membership_inv_preserved_witness :
  ∃ s, exec_all once_deleted (cache_start 4) = Done tt s ∧ membership_inv s.
Proof.
  eexists. split; [vm_compute; reflexivity|].
  apply (membership_inv_preserved 4 once_deleted).
  - vm_compute. repeat split. by exists 1.
  - vm_compute. reflexivity.
Defined.

(** ** Duplicates (claim C2) *)

(** Entry 1 is resident under the name "a"; entry 2 has the same id and
    another name. *)
Definition one_resident : list call :=
  [NewEntry 1 1 "a"; NewEntry 2 1 "b";
   Insert 0 1 true; Commit 1; Release 1 true].

(** C2, counterexample.  The claim says that an insert whose id is
    resident returns the Duplicate outcome (1).  With the id resident
    and the name not, [cache_add_entry_rw] returns -1. *)
Lemma insert_with_resident_id_returns_error :
  ∃ s x, exec_all one_resident (cache_start 4) = Done tt s ∧
         heap s !! 2%positive = Some x ∧
         is_Some (c_idtree (cache s) !! e_id x) ∧
         cache_add_entry_rw 0 2 true s = Done (-1) s ∧
         cache_add_entry_rw 0 2 true s ≠ Done 1 s.
Proof.
  eexists. exists (mkEntry 1 "b" None).
  split; [vm_compute; reflexivity|].
  split; [vm_compute; reflexivity|].
  split; [exists 1%positive; vm_compute; reflexivity|].
  assert (∀ s : State, cache_add_entry_rw 0 2 true s = Done (-1) s →
                       cache_add_entry_rw 0 2 true s ≠ Done 1 s) as Hne.
  { intros s ->. discriminate. }
  split; [|apply Hne]; vm_compute; reflexivity.
Qed.

(** C2 (as amended): when the private block of the entry has been set
    up, an insert whose name is resident returns 1 (Duplicate), and an
    insert whose name is not resident but whose id is returns -1
    (Error); in both cases the cache state (both indexes, LRU queue,
    c_cursize) is unchanged and the private block is not attached
    (e_private is NULL on return). *)
Theorem insert_duplicate (s : State) (e : positive) (x : Entry) (rw : bool) :
  c_mutex (cache s) = false →
  heap s !! e = Some x → e_private x = None →
  is_Some (c_dntree (cache s) !! e_nname x) ∨
  is_Some (c_idtree (cache s) !! e_id x) →
  cache_add_entry_rw 0 e rw s
  = Done (if c_dntree (cache s) !! e_nname x is Some _ then 1 else -1) s ∧
  slot s e = None.
Proof.
  intros Hm Hx Hp Hdup. split; [|unfold slot; by rewrite Hx].
  destruct (c_dntree (cache s) !! e_nname x) as [d|] eqn:Hd.
  - by eapply cache_add_entry_rw_dn_duplicate.
  - destruct Hdup as [[? [=]]|[d Hi]].
    by eapply cache_add_entry_rw_id_duplicate.
Qed.

(** A cache in which the name "a" is taken by entry 1, and an entry 2
    of that name that is not in the cache. *)
Definition name_taken : State :=
  mkState {[1%positive := mkEntry 1 "a" None; 2%positive := mkEntry 2 "a" None]}
    (mkCache 4 0 {["a" := 1%positive]} ∅ None None false).

Lemma insert_duplicate_witness :
  cache_add_entry_rw 0 2 true name_taken = Done 1 name_taken ∧
  slot name_taken 2 = None.
Proof.
  change (Done 1 name_taken)
    with (Done (if c_dntree (cache name_taken)
                     !! e_nname (mkEntry 2 "a" None) is Some _
                then 1 else -1) name_taken).
  apply (insert_duplicate name_taken 2 (mkEntry 2 "a" None) true).
  - reflexivity.
  - vm_compute. reflexivity.
  - reflexivity.
  - left. exists 1%positive. vm_compute. reflexivity.
Defined.

(** ** The failing internal delete (claim C10) *)

(** C10: the internal delete is not atomic on failure.  When the key of
    the entry is found in exactly one of the two indexes, that index
    loses the node, the result is the error code -1, and the LRU queue,
    c_cursize and the state of the entry are as before; and a state that
    satisfies the invariant can be taken by such a failing delete to one
    that does not. *)
Theorem failing_internal_delete_is_not_atomic :
  (∀ s e x d,
      heap s !! e = Some x →
      c_dntree (cache s) !! e_nname x = Some d →
      c_idtree (cache s) !! e_id x = None →
      cache_delete_entry_internal e s
      = Done (-1)
          (upd_cache (with_dntree (delete (e_nname x) (c_dntree (cache s)))) s)) ∧
  (∀ s e x d,
      heap s !! e = Some x →
      c_dntree (cache s) !! e_nname x = None →
      c_idtree (cache s) !! e_id x = Some d →
      cache_delete_entry_internal e s
      = Done (-1)
          (upd_cache (with_idtree (delete (e_id x) (c_idtree (cache s)))) s)) ∧
  (∃ s l e s',
      cache_inv s l ∧
      cache_delete_entry_internal e s = Done (-1) s' ∧
      ¬ membership_inv s').
Proof.
  split; [|split].
  - intros s e x d Hx Hd Hi.
    unfold cache_delete_entry_internal, avl_delete_dn, avl_delete_id.
    rewrite !bind_assoc. step (load_Done _ _ _ Hx).
    rewrite bind_assoc. step (get_cache_Done s). rewrite Hd.
    rewrite !bind_assoc.
    step (set_cache_Done s
            (with_dntree (delete (e_nname x) (c_dntree (cache s))))).
    set (s1 := upd_cache _ s). rewrite bind_ret, !bind_assoc.
    step (load_Done s1 _ _ Hx). rewrite bind_assoc.
    step (get_cache_Done s1).
    change (c_idtree (cache s1)) with (c_idtree (cache s)). rewrite Hi.
    by rewrite bind_ret.
  - intros s e x d Hx Hd Hi.
    unfold cache_delete_entry_internal, avl_delete_dn, avl_delete_id.
    rewrite !bind_assoc. step (load_Done _ _ _ Hx).
    rewrite bind_assoc. step (get_cache_Done s). rewrite Hd.
    rewrite bind_ret, !bind_assoc.
    step (load_Done s _ _ Hx). rewrite bind_assoc.
    step (get_cache_Done s). rewrite Hi. rewrite !bind_assoc.
    step (set_cache_Done s
            (with_idtree (delete (e_id x) (c_idtree (cache s))))).
    by rewrite bind_ret.
  - assert (∃ s, exec_all once_deleted (cache_start 4) = Done tt s ∧
                 well_used once_deleted (cache_start 4) ∧
                 ∃ s', cache_delete_entry_internal 1 s = Done (-1) s' ∧
                       c_dntree (cache s') = ∅ ∧
                       c_idtree (cache s') !! 2 = Some 2%positive)
      as (s & Hs & Hok & s' & Hs' & Hdn & Hid).
    { eexists. split; [vm_compute; reflexivity|]. split.
      - vm_compute. repeat split. by exists 1.
      - eexists. split; [vm_compute; reflexivity|].
        split; vm_compute; reflexivity. }
    destruct (exec_all_cache_inv once_deleted _ [] s
                (cache_start_inv 4) Hok Hs) as [l Hinv].
    exists s, l, 1%positive, s'. split; [done|]. split; [done|].
    intros (l' & _ & Hsame & _ & _).
    assert (in_dntree s' 2) as [k Hk] by (apply Hsame; by exists 2).
    by rewrite Hdn, lookup_empty in Hk.
Qed.

(** Entry 1 is not in the cache; its name is the key of entry 2. *)
Definition name_of_another : State :=
  mkState {[1%positive := mkEntry 1 "a" None]}
    (mkCache 4 1 {["a" := 2%positive]} ∅ None None true).

Lemma failing_internal_delete_is_not_atomic_witness :
  cache_delete_entry_internal 1 name_of_another
  = Done (-1)
      (upd_cache
         (with_dntree (delete "a" (c_dntree (cache name_of_another))))
         name_of_another).
Proof.
  destruct failing_internal_delete_is_not_atomic as [H _].
  apply (H name_of_another 1%positive (mkEntry 1 "a" None) 2%positive).
  - vm_compute. reflexivity.
  - vm_compute. reflexivity.
  - vm_compute. reflexivity.
Defined.

(** ** The round trip (claim C3) *)

Section round_trip.
Implicit Types (s : State) (e p q : positive) (l : list positive).

Lemma id_at_view s p id nm c : view s p = Some (id, nm, c) → id_at s p = Some id.
Proof. intros H. by rewrite view_id_at, H. Qed.
Lemma name_at_view s p id nm c :
  view s p = Some (id, nm, c) → name_at s p = Some nm.
Proof. intros H. by rewrite view_name_at, H. Qed.
Lemma state_at_view s p id nm r st n :
  view s p = Some (id, nm, Some (r, st, n)) → state_at s p = Some st.
Proof. intros H. by rewrite view_state_at, H. Qed.
Lemma refcnt_at_view s p id nm r st n :
  view s p = Some (id, nm, Some (r, st, n)) → refcnt_at s p = Some n.
Proof. intros H. by rewrite view_refcnt_at, H. Qed.
Lemma rdwr_at_view s p id nm r st n :
  view s p = Some (id, nm, Some (r, st, n)) → rdwr_at s p = Some r.
Proof. intros H. by rewrite view_rdwr_at, H. Qed.

Lemma view_slot_fields s p id nm r st n :
  view s p = Some (id, nm, Some (r, st, n)) →
  ∃ j, slot s p = Some j ∧ lei_rdwr j = r ∧ lei_state j = st ∧
       lei_refcnt j = n.
Proof.
  intros (j & Hj & Hc)%view_core_slot. exists j. split; [done|].
  by apply slot_core_inv.
Qed.

Lemma cache_find_entry_id_Return yield fuel id rw s r s' :
  cache_find_entry_id_pass id rw s = Done (Return r) s' →
  cache_find_entry_id yield (S fuel) id rw s = Done r s'.
Proof. intros H. simpl. by step H. Qed.

Lemma cache_find_entry_id_TryAgain yield fuel id rw s s' :
  cache_find_entry_id_pass id rw s = Done TryAgain s' →
  cache_find_entry_id yield (S fuel) id rw s
  = bind yield (λ _, cache_find_entry_id yield fuel id rw) s'.
Proof. intros H. simpl. by step H. Qed.

Lemma cache_find_entry_ndn2id_Return yield fuel ndn s r s' :
  cache_find_entry_ndn2id_pass ndn s = Done (Return r) s' →
  cache_find_entry_ndn2id yield (S fuel) ndn s = Done r s'.
Proof. intros H. simpl. by step H. Qed.
End round_trip.

(** C3: round trip.  For an entry that is not resident (neither its
    name nor its id is in the cache), insert in write mode, commit,
    release in write mode and a lookup of its id in read mode return a
    handle to that very entry, with its id and name as inserted; the
    release of the committed entry has made it Ready. *)
Theorem insert_commit_release_lookup
  (s : State) (l : list positive) (e : positive) (x : Entry)
  (yield : M unit) (fuel : nat) :
  cache_inv s l →
  heap s !! e = Some x → e_private x = None →
  c_dntree (cache s) !! e_nname x = None →
  c_idtree (cache s) !! e_id x = None →
  ∃ s1 s2 s3 s4,
    cache_add_entry_rw 0 e true s = Done 0 s1 ∧
    cache_entry_commit e s1 = Done tt s2 ∧
    cache_return_entry_rw e true s2 = Done tt s3 ∧
    state_at s3 e = Some CACHE_ENTRY_READY ∧
    cache_find_entry_id yield (S fuel) (e_id x) false s3 = Done (Some e) s4 ∧
    id_at s4 e = Some (e_id x) ∧ name_at s4 e = Some (e_nname x) ∧
    refcnt_at s4 e = Some 1.
Proof.
  intros Hinv Hx Hp Hd Hi.
  destruct (cache_add_entry_rw_Done s l e x true Hinv Hx Hp Hd Hi)
    as (s1 & Hs1 & Hinv1 & Hel & Hv1 & _).
  set (l1 := make_room_list _ _ _) in *.
  destruct (view_slot_fields _ _ _ _ _ _ _ Hv1) as (j1 & Hj1 & _ & Hst1 & _).
  destruct (cache_entry_commit_Done s1 l1 e j1 Hinv1 Hj1 Hst1)
    as (Hs2 & Hinv2 & Hv2).
  set (s2 := upd_slot e (with_state CACHE_ENTRY_COMMITTED) s1) in *.
  specialize (Hv2 e). rewrite decide_True, Hv1 in Hv2 by done.
  simpl in Hv2. unfold vmap, core_state in Hv2. simpl in Hv2.
  destruct (view_slot_fields _ _ _ _ _ _ _ Hv2) as (j2 & Hj2 & _ & Hst2 & _).
  destruct (cache_return_entry_rw_Done s2 l1 e j2 true Hinv2 Hj2)
    as (s3 & Hs3 & Hinv3 & Hv3 & _).
  rewrite Hst2 in Hinv3.
  change (CACHE_ENTRY_COMMITTED =? CACHE_ENTRY_CREATING) with false in Hinv3.
  cbv iota in Hinv3.
  specialize (Hv3 e). rewrite decide_True, Hv2 in Hv3 by done.
  simpl in Hv3. unfold return_view in Hv3. simpl in Hv3.
  change (fresh_lock true) with (Rdwr 0 true) in Hv3.
  change (unlock_rdwr true (Rdwr 0 true)) with (Rdwr 0 false) in Hv3.
  change (1 - 1) with 0 in Hv3.
  destruct (view_slot_fields _ _ _ _ _ _ _ Hv3)
    as (j3 & Hj3 & Hr3 & Hst3 & Hn3).
  assert (c_idtree (cache s3) !! e_id x = Some e) as Hid3.
  { apply (wf_id _ _ (proj2 Hinv3)). split; [done|].
    by eapply id_at_view. }
  assert ((try_rdwr false (lei_rdwr j3)).1 ≠ LDAP_PVT_THREAD_EBUSY) as Hfree.
  { by rewrite Hr3. }
  destruct (cache_find_entry_id_pass_found s3 l1 (e_id x) false e j3
              Hinv3 Hid3 Hj3 Hst3 Hfree) as (s4 & Hs4 & _ & Hv4 & _).
  specialize (Hv4 e). rewrite decide_True, Hv3 in Hv4 by done.
  simpl in Hv4. unfold vmap in Hv4. simpl in Hv4. rewrite Hn3 in Hv4.
  exists s1, s2, s3, s4.
  split; [done|]. split; [done|]. split; [done|].
  split; [by eapply state_at_view|].
  split; [by apply cache_find_entry_id_Return|].
  split; [by eapply id_at_view|]. split; [by eapply name_at_view|].
  by eapply refcnt_at_view.
Qed.

(** A new entry and an empty cache. *)
Definition one_new_entry : State :=
  mkState {[1%positive := mkEntry 1 "a" None]} (cache_open 4).

Lemma one_new_entry_inv : cache_inv one_new_entry [].
Proof.
  destruct (host_new_entry_Done (cache_start 4) [] 1 1 "a"
              (cache_start_inv 4) eq_refl) as (_ & H & _).
  exact H.
Qed.

Lemma insert_commit_release_lookup_witness :
  ∃ s1 s2 s3 s4,
    cache_add_entry_rw 0 1 true one_new_entry = Done 0 s1 ∧
    cache_entry_commit 1 s1 = Done tt s2 ∧
    cache_return_entry_rw 1 true s2 = Done tt s3 ∧
    state_at s3 1 = Some CACHE_ENTRY_READY ∧
    cache_find_entry_id (ret tt) 1 1 false s3 = Done (Some 1%positive) s4 ∧
    id_at s4 1 = Some 1 ∧ name_at s4 1 = Some "a" ∧
    refcnt_at s4 1 = Some 1.
Proof.
  apply (insert_commit_release_lookup one_new_entry [] 1
           (mkEntry 1 "a" None) (ret tt) 0).
  - exact one_new_entry_inv.
  - vm_compute. reflexivity.
  - reflexivity.
  - vm_compute. reflexivity.
  - vm_compute. reflexivity.
Defined.

(** ** A successful insert (claims C4 and C9) *)

Section insert_success.
Implicit Types (s : State) (e p q : positive) (l : list positive).

Lemma evict_list_stop pin over l :
  NoDup l →
  let l' := evict_list pin over l in
  (length l' + over = length l)%nat ∨
  (∃ t, last l' = Some t ∧ pin t = true) ∨ l' = [].
Proof.
  revert l. induction over as [|k IH]; intros l Hl; simpl.
  - left. lia.
  - destruct (last l) as [t|] eqn:Et.
    + destruct (pin t) eqn:Ept.
      * right. left. eauto.
      * destruct (IH (lru_del t l) (NoDup_lru_del _ _ Hl))
          as [Hlen|Hrest]; [|by right].
        left. pose proof (length_lru_del t l Hl (last_elem _ _ Et)). lia.
    + right. right. by apply last_None in Et.
Qed.

Lemma evict_list_length pin over l :
  NoDup l → (length (evict_list pin over l) ≤ length l)%nat ∧
            (length l ≤ length (evict_list pin over l) + over)%nat.
Proof.
  revert l. induction over as [|k IH]; intros l Hl; simpl; [lia|].
  destruct (last l) as [t|] eqn:Et; [|lia].
  destruct (pin t); [lia|].
  pose proof (length_lru_del t l Hl (last_elem _ _ Et)).
  destruct (IH (lru_del t l) (NoDup_lru_del _ _ Hl)). lia.
Qed.

Lemma requeue_list_NoDup pin n l : NoDup l → NoDup (requeue_list pin n l).
Proof.
  revert l. induction n as [|n IH]; intros l Hl; [done|]. simpl.
  destruct (last l) as [t|] eqn:Et; [|done].
  destruct (pin t); [|done]. apply IH, NoDup_cons.
  split; [|by apply NoDup_lru_del]. rewrite elem_of_lru_del. tauto.
Qed.

(** The first loop stops at once at a tail that is not in use, and
    turns in place on a queue of one entry. *)
Lemma requeue_list_tail_unused pin n l :
  (∀ t, last l = Some t → pin t = false) → requeue_list pin n l = l.
Proof.
  intros Ht. destruct n as [|n]; [done|]. simpl.
  destruct (last l) as [t|]; [|done]. by rewrite (Ht t).
Qed.

Lemma requeue_list_single pin n e : requeue_list pin n [e] = [e].
Proof.
  induction n as [|n IH]; [done|]. simpl. destruct (pin e); [|done].
  by rewrite lru_del_cons_eq.
Qed.

(** The second loop never takes the head of the queue when that entry
    is in use. *)
Lemma evict_list_head pin n l h :
  NoDup l → head l = Some h → pin h = true →
  head (evict_list pin n l) = Some h.
Proof.
  revert l. induction n as [|n IH]; intros l Hl Hh Hp; [done|]. simpl.
  destruct (last l) as [t|] eqn:Et; [|done].
  destruct (pin t) eqn:Ept; [done|].
  apply IH; [by apply NoDup_lru_del| |done].
  rewrite head_lru_del, decide_False by (done || congruence). done.
Qed.

(** The entry at the head after the first loop is in use, when the one
    before the loop was. *)
Lemma requeue_list_head_pinned pin n l :
  (∃ h, head l = Some h ∧ pin h = true) →
  ∃ h, head (requeue_list pin n l) = Some h ∧ pin h = true.
Proof.
  revert l. induction n as [|n IH]; intros l Hh; [done|]. simpl.
  destruct (last l) as [t|] eqn:Et; [|done].
  destruct (pin t) eqn:Ept; [|done]. apply IH. eauto.
Qed.

(** When the loops are done the cache is within its size, or the
    entry at the tail is in use, or nothing is left. *)
Lemma make_room_list_stop pin m l :
  NoDup l →
  let l' := make_room_list pin m l in
  Z.of_nat (length l') ≤ m ∨
  (∃ t, last l' = Some t ∧ pin t = true) ∨ l' = [].
Proof.
  intros Hl. unfold make_room_list.
  destruct (m <? Z.of_nat (length l)) eqn:Hm; cbv zeta iota.
  - apply Z.ltb_lt in Hm.
    pose proof (requeue_list_length pin 10 l Hl) as Hlen.
    pose proof (requeue_list_NoDup pin 10 l Hl) as Hnd.
    destruct (evict_list_stop pin (Z.to_nat (Z.of_nat (length l) - m))
                (requeue_list pin 10 l) Hnd) as [Hstop|Hrest]; [|by right].
    left. lia.
  - left. by apply Z.ltb_ge in Hm.
Qed.
End insert_success.

(** Three entries, the first two inserted and still held by their
    inserters, in a cache of size 1. *)
Definition two_held : list call :=
  [NewEntry 1 1 "a"; NewEntry 2 2 "b"; NewEntry 3 3 "c";
   Insert 0 1 true; Insert 0 2 true].

(** C4, counterexample.  The claim puts a successfully inserted entry
    at the head of the LRU queue.  With the cache over its size, the
    first eviction loop moves the entries in use at the tail in front
    of it: after the third insert the head is entry 1. *)
Lemma inserted_entry_not_at_head :
  ∃ s s', exec_all two_held (cache_start 1) = Done tt s ∧
          cache_add_entry_rw 0 3 true s = Done 0 s' ∧
          c_lruhead (cache s') = Some 1%positive ∧
          c_lruhead (cache s') ≠ Some 3%positive.
Proof.
  assert (∀ h : option positive, h = Some 1%positive → h ≠ Some 3%positive)
    as Hne by (by intros h ->).
  eexists. eexists. split; [vm_compute; reflexivity|].
  split; [vm_compute; reflexivity|].
  split; [|apply Hne]; vm_compute; reflexivity.
Qed.

(** A cache of size 1 holds entry 1, Ready and unused; entry 2 is new. *)
Definition full_with_unused_tail : State :=
  Eval vm_compute in
    match exec_all [NewEntry 1 1 "a"; NewEntry 2 2 "b"; Insert 0 1 true;
                    Commit 1; Release 1 true] (cache_start 1) with
    | Done _ s => s
    | _ => cache_start 1
    end.

Lemma full_with_unused_tail_inv :
  cache_inv full_with_unused_tail [1%positive].
Proof.
  assert (∃ l, cache_inv full_with_unused_tail l) as [l Hinv].
  { eapply (exec_all_cache_inv
              [NewEntry 1 1 "a"; NewEntry 2 2 "b"; Insert 0 1 true;
               Commit 1; Release 1 true] _ [] _ (cache_start_inv 1)).
    - vm_compute. tauto.
    - vm_compute. reflexivity. }
  replace [1%positive] with l; [done|].
  destruct Hinv as [_ Hwf]. pose proof (wf_size _ _ Hwf) as Hsz.
  pose proof (cache_wf_head _ _ Hwf) as Hh.
  destruct l as [|a [|b l]]; simpl in *; try done; try lia.
  by injection Hh as <-.
Qed.

(** C4 (as amended): for every successful insert (result 0), on return
    the entry is in both indexes under its own name and id and on the
    LRU queue, its private block is in state Creating with reference
    count 1, and its lock is held in the requested mode by the caller
    alone.  The entry is at the head of the queue whenever the insert
    did not take c_cursize above c_maxsize or the entry that was at the
    tail of the queue is not in use; otherwise the head is where the
    first eviction loop leaves it, which moves entries in use from the
    tail to the front, 10 at most. *)
Theorem insert_success
  (s : State) (l : list positive) (rc : Z) (e : positive) (rw : bool)
  (s' : State) :
  cache_inv s l →
  cache_add_entry_rw rc e rw s = Done 0 s' →
  ∃ l' x,
    heap s !! e = Some x ∧ cache_inv s' l' ∧
    c_dntree (cache s') !! e_nname x = Some e ∧
    c_idtree (cache s') !! e_id x = Some e ∧
    e ∈ l' ∧
    (c_cursize (cache s) < c_maxsize (cache s) ∨
     (∀ t, last l = Some t → inuse s t = false) →
     c_lruhead (cache s') = Some e) ∧
    c_lruhead (cache s')
    = head (if c_maxsize (cache s) <? c_cursize (cache s) + 1
            then requeue_list (pinned_with e s) 10 (e :: l)
            else e :: l) ∧
    state_at s' e = Some CACHE_ENTRY_CREATING ∧
    refcnt_at s' e = Some 1 ∧
    rdwr_at s' e = Some (fresh_lock rw).
Proof.
  intros Hinv Hrun. pose proof Hinv as [Hm Hwf].
  destruct (cache_add_entry_rw_cases _ _ _ _ _ _ (proj1 Hinv) Hrun)
    as [[? _]|(-> & x & Hx & Hp & Hd & Hi)]; [done|].
  destruct (cache_add_entry_rw_Done s l e x rw Hinv Hx Hp Hd Hi)
    as (s1 & Hs1 & Hinv1 & Hel & Hv1 & _).
  rewrite Hs1 in Hrun. injection Hrun as <-.
  set (l1 := make_room_list _ _ _) in *.
  assert (e ∉ l) as He.
  { apply (not_on_queue_without_slot s l e Hwf). unfold slot.
    by rewrite Hx. }
  assert (NoDup (e :: l)) as Hnd.
  { apply NoDup_cons. split; [done|]. by eapply cache_wf_NoDup. }
  assert (pinned_with e s e = true) as Hpe.
  { unfold pinned_with. by rewrite decide_True. }
  pose proof (wf_size _ _ Hwf) as Hsz.
  assert (c_lruhead (cache s1)
          = head (if c_maxsize (cache s) <? c_cursize (cache s) + 1
                  then requeue_list (pinned_with e s) 10 (e :: l)
                  else e :: l)) as Hhead.
  { rewrite (cache_wf_head _ _ (proj2 Hinv1)).
    unfold l1, make_room_list.
    replace (Z.of_nat (length (e :: l))) with (c_cursize (cache s) + 1)
      by (simpl length; lia).
    destruct (c_maxsize (cache s) <? c_cursize (cache s) + 1); [|done].
    destruct (requeue_list_head_pinned (pinned_with e s) 10 (e :: l))
      as (h & Hh & Hph); [by exists e|].
    rewrite Hh. apply evict_list_head; [|done..].
    by apply requeue_list_NoDup. }
  exists l1, x. split; [done|]. split; [done|].
  split; [|split; [|split; [done|split; [|split; [done|split; [|split]]]]]].
  - apply (wf_dn _ _ (proj2 Hinv1)). split; [done|]. by eapply name_at_view.
  - apply (wf_id _ _ (proj2 Hinv1)). split; [done|]. by eapply id_at_view.
  - intros Hcase. rewrite Hhead.
    destruct (c_maxsize (cache s) <? c_cursize (cache s) + 1) eqn:Eo;
      [|done].
    destruct Hcase as [Hroom|Htail]; [apply Z.ltb_lt in Eo; lia|].
    destruct l as [|a l0]; [by rewrite requeue_list_single|].
    rewrite requeue_list_tail_unused; [done|].
    intros t. rewrite last_cons_cons. intros Ht.
    unfold pinned_with. rewrite decide_False; [by apply Htail|].
    intros ->. apply He. by apply last_elem.
  - by eapply state_at_view.
  - by eapply refcnt_at_view.
  - by eapply rdwr_at_view.
Qed.

Lemma insert_success_witness :
  ∃ s' l' x,
    cache_add_entry_rw 0 2 false full_with_unused_tail = Done 0 s' ∧
    heap full_with_unused_tail !! 2%positive = Some x ∧ cache_inv s' l' ∧
    2%positive ∈ l' ∧
    c_lruhead (cache s') = Some 2%positive ∧
    state_at s' 2 = Some CACHE_ENTRY_CREATING ∧
    refcnt_at s' 2 = Some 1 ∧
    rdwr_at s' 2 = Some (fresh_lock false).
Proof.
  eexists.
  assert (∀ (s' : State) (P : list positive → Entry → Prop),
            cache_add_entry_rw 0 2 false full_with_unused_tail = Done 0 s' →
            (∃ l' x, P l' x) →
            ∃ l' x, cache_add_entry_rw 0 2 false full_with_unused_tail
                    = Done 0 s' ∧ P l' x) as Hpack.
  { intros s' P H (l' & x & HP). eauto. }
  apply Hpack; [vm_compute; reflexivity|].
  destruct (insert_success full_with_unused_tail [1%positive] 0 2 false _
              full_with_unused_tail_inv ltac:(vm_compute; reflexivity))
    as (l' & x & Hx & Hinv' & _ & _ & Hel & Hhead & _ & Hst & Hn & Hr).
  exists l', x. split; [exact Hx|]. split; [exact Hinv'|].
  split; [exact Hel|]. split.
  - apply Hhead. right. intros t Ht. vm_compute in Ht.
    injection Ht as <-. vm_compute. reflexivity.
  - split; [exact Hst|]. split; [exact Hn|exact Hr].
Defined.

(** ** The size bound (claim C9) *)

(** The number of entries of the queue [l] whose reference count is
    positive. *)
Definition held (s : State) (p : positive) : bool :=
  match refcnt_at s p with
  | Some n => 0 <? n
  | None => false
  end.

Definition pinned_count (s : State) (l : list positive) : nat :=
  length (filter (λ p, held s p = true) l).

(** Two entries are inserted into a cache of size 1 while both are
    held, then committed and released. *)
Definition two_released : list call :=
  [NewEntry 1 1 "a"; NewEntry 2 2 "b";
   Insert 0 1 true; Insert 0 2 true;
   Commit 1; Commit 2; Release 1 true; Release 2 true].

(** C9, counterexample.  The claim bounds c_cursize by c_maxsize plus
    the number of pinned entries after any operation.  A release does
    not evict: after [two_released] the queue holds two entries, none of
    them is referenced, and c_maxsize is 1. *)
Lemma eviction_bound_broken_by_release :
  ∃ s, exec_all two_released (cache_start 1) = Done tt s ∧
       lru_wf s [2%positive; 1%positive] ∧
       ¬ (c_cursize (cache s)
          ≤ c_maxsize (cache s)
            + Z.of_nat (pinned_count s [2%positive; 1%positive])).
Proof.
  assert (∃ s, exec_all two_released (cache_start 1) = Done tt s ∧
               c_lruhead (cache s) = Some 2%positive ∧
               c_lrutail (cache s) = Some 1%positive ∧
               links s 2 = Some (Some 1%positive, None) ∧
               links s 1 = Some (None, Some 2%positive) ∧
               c_cursize (cache s) = 2 ∧ c_maxsize (cache s) = 1 ∧
               held s 2 = false ∧ held s 1 = false)
    as (s & Hs & Hh & Ht & Hl2 & Hl1 & Hc & Hm & Hp2 & Hp1).
  { eexists. split; [vm_compute; reflexivity|].
    repeat split; vm_compute; reflexivity. }
  exists s. split; [done|]. split.
  - split; [|split; [done|split; [done|]]].
    + apply NoDup_cons. split; [by intros ?%list_elem_of_singleton|].
      apply NoDup_singleton.
    + intros p Hp. apply elem_of_cons in Hp as [->|Hp]; [exact Hl2|].
      apply list_elem_of_singleton in Hp as ->. exact Hl1.
  - unfold pinned_count. rewrite filter_cons, decide_False by (by rewrite Hp2).
    rewrite filter_cons, decide_False by (by rewrite Hp1).
    rewrite Hc, Hm. simpl. lia.
Qed.

(** C9 (as amended): eviction runs in insert only.  After a successful
    insert returns, c_cursize is at most c_maxsize or the entry at the
    tail of the LRU queue is in use (its reference count is not zero). *)
Theorem size_bound_after_insert
  (s : State) (l : list positive) (rc : Z) (e : positive) (rw : bool)
  (s' : State) :
  cache_inv s l →
  cache_add_entry_rw rc e rw s = Done 0 s' →
  ∃ l', cache_inv s' l' ∧
        (c_cursize (cache s') ≤ c_maxsize (cache s') ∨
         ∃ t, c_lrutail (cache s') = Some t ∧ inuse s' t = true).
Proof.
  intros Hinv Hrun.
  destruct (cache_add_entry_rw_cases _ _ _ _ _ _ (proj1 Hinv) Hrun)
    as [[? _]|(-> & x & Hx & Hp & Hd & Hi)]; [done|].
  destruct (cache_add_entry_rw_Done s l e x rw Hinv Hx Hp Hd Hi)
    as (s1 & Hs1 & Hinv1 & Hel & Hv1 & _ & Hkept & Hm1).
  rewrite Hs1 in Hrun. injection Hrun as <-.
  set (l1 := make_room_list _ _ _) in *.
  exists l1. split; [done|].
  assert (NoDup (e :: l)) as Hnd.
  { apply NoDup_cons. split; [|by eapply cache_wf_NoDup, Hinv].
    apply (not_on_queue_without_slot s l e (proj2 Hinv)).
    unfold slot. by rewrite Hx. }
  destruct (make_room_list_stop (pinned_with e s) (c_maxsize (cache s))
              (e :: l) Hnd) as [Hle|[(t & Ht & Hpin)|Hnil]].
  - left. rewrite (wf_size _ _ (proj2 Hinv1)), Hm1. exact Hle.
  - right. exists t. fold l1 in Ht.
    rewrite (cache_wf_tail _ _ (proj2 Hinv1)). split; [done|].
    rewrite <- Hpin. unfold pinned_with.
    destruct (decide (t = e)) as [->|Hte].
    + unfold inuse. by rewrite (refcnt_at_view _ _ _ _ _ _ _ Hv1).
    + apply inuse_same_view. apply Hkept; [done|].
      intros _. by apply last_elem.
  - fold l1 in Hnil. rewrite Hnil in Hel. by apply elem_of_nil in Hel.
Qed.

Lemma size_bound_after_insert_witness :
  ∃ s' l', cache_add_entry_rw 0 1 true one_new_entry = Done 0 s' ∧
           cache_inv s' l' ∧
           (c_cursize (cache s') ≤ c_maxsize (cache s') ∨
            ∃ t, c_lrutail (cache s') = Some t ∧ inuse s' t = true).
Proof.
  eexists.
  assert (∀ (s' : State) (P : list positive → Prop),
            cache_add_entry_rw 0 1 true one_new_entry = Done 0 s' →
            (∃ l', P l') →
            ∃ l', cache_add_entry_rw 0 1 true one_new_entry = Done 0 s' ∧ P l')
    as Hpack.
  { intros s' P H (l' & HP). eauto. }
  apply Hpack; [vm_compute; reflexivity|].
  apply (size_bound_after_insert one_new_entry [] 0 1 true).
  - exact one_new_entry_inv.
  - vm_compute. reflexivity.
Defined.

(** ** Lookup by id (claim C5) *)

(** Entry 1 is Ready and its reference count is INT_MAX. *)
Definition count_at_int_max : State :=
  mkState
    {[1%positive :=
        mkEntry 1 "a"
          (Some (mkEntryInfo (Rdwr 0 false) CACHE_ENTRY_READY INT_MAX
                   None None))]}
    (mkCache 4 1 {["a" := 1%positive]} {[1 := 1%positive]}
       (Some 1%positive) (Some 1%positive) false).

(** C5, counterexample.  The claim has every successful lookup
    increment the reference count by exactly 1.  The count is a C int
    that no routine bounds: the lookup of an entry whose count is
    INT_MAX, in a state that satisfies the invariant of the cache,
    leaves the count at INT_MIN. *)
Lemma lookup_id_wraps_at_int_max :
  cache_inv count_at_int_max [1%positive] ∧
  refcnt_at count_at_int_max 1 = Some INT_MAX ∧
  ∃ s', cache_find_entry_id (ret tt) 1 1 false count_at_int_max
        = Done (Some 1%positive) s' ∧
        refcnt_at s' 1 = Some INT_MIN ∧
        refcnt_at s' 1 ≠ Some (INT_MAX + 1).
Proof.
  split; [|split; [reflexivity|]].
  - split; [reflexivity|]. split.
    + split; [apply NoDup_singleton|]. split; [done|]. split; [done|].
      intros p ->%list_elem_of_singleton. reflexivity.
    + reflexivity.
    + intros k p. simpl c_dntree. rewrite lookup_singleton_Some.
      rewrite list_elem_of_singleton. split.
      * intros [<- <-]. split; reflexivity.
      * intros [-> Hk]. vm_compute in Hk. by injection Hk as <-.
    + intros k p. simpl c_idtree. rewrite lookup_singleton_Some.
      rewrite list_elem_of_singleton. split.
      * intros [<- <-]. split; reflexivity.
      * intros [-> Hk]. vm_compute in Hk. by injection Hk as <-.
    + intros p ->%list_elem_of_singleton. exists CACHE_ENTRY_READY.
      split; [reflexivity|]. right. by left.
    + intros p st Hst Hp. exfalso. apply Hp. apply list_elem_of_singleton.
      unfold state_at, slot, count_at_int_max in Hst. simpl in Hst.
      destruct (decide (p = 1%positive)) as [|Hne]; [done|].
      by rewrite lookup_singleton_ne in Hst.
    + intros p n Hn.
      unfold refcnt_at, slot, count_at_int_max in Hn. simpl in Hn.
      destruct (decide (p = 1%positive)) as [->|Hne].
      * rewrite lookup_singleton_eq in Hn. simpl in Hn. injection Hn as <-.
        done.
      * by rewrite lookup_singleton_ne in Hn.
  - eexists. split; [vm_compute; reflexivity|].
    split; [vm_compute; reflexivity|]. vm_compute. discriminate.
Qed.

(** C5 (as amended): a lookup by id returns NULL when the id is not in
    the id index.  When the id index gives an entry that is Ready and
    whose try-lock does not report busy, the entry is moved to the head
    of the LRU queue, its reference count is incremented in its C int -
    it grows by exactly 1 from every value below INT_MAX, and from
    INT_MAX it wraps around to INT_MIN -, the lock is taken, and the
    entry is returned.  When the entry is not Ready or the
    try-lock is busy, the pass ends with the mutex released and the
    state as it was, and the lookup yields and starts again from the
    index search. *)
Theorem lookup_id_behaviour
  (s : State) (l : list positive) (id : Z) (rw : bool)
  (yield : M unit) (fuel : nat) :
  cache_inv s l →
  (c_idtree (cache s) !! id = None →
   cache_find_entry_id yield (S fuel) id rw s = Done None s) ∧
  (∀ ep i,
     c_idtree (cache s) !! id = Some ep → slot s ep = Some i →
     (lei_state i = CACHE_ENTRY_READY →
      (try_rdwr rw (lei_rdwr i)).1 ≠ LDAP_PVT_THREAD_EBUSY →
      ∃ s', cache_find_entry_id yield (S fuel) id rw s = Done (Some ep) s' ∧
            cache_inv s' (ep :: lru_del ep l) ∧
            c_lruhead (cache s') = Some ep ∧
            refcnt_at s' ep = Some (int_wrap (lei_refcnt i + 1)) ∧
            (lei_refcnt i < INT_MAX →
             refcnt_at s' ep = Some (lei_refcnt i + 1)) ∧
            (lei_refcnt i = INT_MAX → refcnt_at s' ep = Some INT_MIN) ∧
            rdwr_at s' ep = Some (try_rdwr rw (lei_rdwr i)).2 ∧
            state_at s' ep = Some CACHE_ENTRY_READY ∧
            (∀ p, p ≠ ep → view s' p = view s p)) ∧
     (lei_state i ≠ CACHE_ENTRY_READY ∨
      (try_rdwr rw (lei_rdwr i)).1 = LDAP_PVT_THREAD_EBUSY →
      cache_find_entry_id_pass id rw s = Done TryAgain s ∧
      c_mutex (cache s) = false ∧
      cache_find_entry_id yield (S fuel) id rw s
      = bind yield (λ _, cache_find_entry_id yield fuel id rw) s)).
Proof.
  intros Hinv. pose proof Hinv as [Hm Hwf]. split.
  - intros Hid. apply cache_find_entry_id_Return.
    by apply cache_find_entry_id_pass_absent.
  - intros ep i Hid Hi. split.
    + intros Hr Hb.
      destruct (cache_find_entry_id_pass_found s l id rw ep i
                  Hinv Hid Hi Hr Hb) as (s' & Hs' & Hinv' & Hv' & _).
      destruct (view_Some_slot _ _ _ Hi) as (id' & nm & Hve & _).
      pose proof (Hv' ep) as Hvep. rewrite decide_True, Hve in Hvep by done.
      simpl in Hvep. unfold vmap in Hvep. simpl in Hvep.
      exists s'. split; [by apply cache_find_entry_id_Return|].
      split; [done|]. split; [by rewrite (cache_wf_head _ _ (proj2 Hinv'))|].
      assert (refcnt_at s' ep = Some (int_wrap (lei_refcnt i + 1))) as Hn
        by (by eapply refcnt_at_view).
      split; [done|]. split.
      { intros Hlt. rewrite Hn, int_wrap_id; [done|].
        pose proof (wf_count _ _ Hwf ep _ (refcnt_at_slot _ _ _ Hi)).
        lia. }
      split; [by intros Hmax; rewrite Hn, Hmax|].
      split; [by eapply rdwr_at_view|].
      split; [by eapply state_at_view|].
      intros p Hp. by rewrite Hv', decide_False.
    + intros Hretry.
      assert (cache_find_entry_id_pass id rw s = Done TryAgain s) as Hpass.
      { destruct (decide (lei_state i = CACHE_ENTRY_READY)) as [Hr|Hr].
        - destruct Hretry as [?|Hb]; [done|].
          by eapply cache_find_entry_id_pass_busy.
        - eapply cache_find_entry_id_pass_not_ready; [done..|].
          assert (ep ∈ l) as He by (by apply (wf_id _ _ Hwf) in Hid as [? _]).
          destruct (wf_live _ _ Hwf ep He) as (st & Hst & Hlive).
          rewrite (state_at_slot _ _ _ Hi) in Hst. injection Hst as <-.
          intros Hu. rewrite Hu in Hlive. by destruct Hlive as [|[|]]. }
      split; [done|]. split; [done|].
      by apply cache_find_entry_id_TryAgain.
Qed.

(** Entry 1 has been inserted, committed and released: it is Ready and
    nobody holds it. *)
Definition one_ready : State :=
  mkState
    {[1%positive :=
        mkEntry 1 "a"
          (Some (mkEntryInfo (Rdwr 0 false) CACHE_ENTRY_READY 0 None None))]}
    (mkCache 4 1 {["a" := 1%positive]} {[1 := 1%positive]}
       (Some 1%positive) (Some 1%positive) false).

Lemma one_ready_reached :
  exec_all [NewEntry 1 1 "a"; Insert 0 1 true; Commit 1; Release 1 true]
    (cache_start 4) = Done tt one_ready.
Proof. vm_compute. reflexivity. Qed.

Lemma one_ready_inv : ∃ l, cache_inv one_ready l.
Proof.
  eapply (exec_all_cache_inv _ _ [] _ (cache_start_inv 4));
    [|apply one_ready_reached].
  vm_compute. tauto.
Qed.

Lemma one_ready_queue l : cache_inv one_ready l → l = [1%positive].
Proof.
  intros [_ Hwf]. pose proof (wf_size _ _ Hwf) as Hsz.
  pose proof (cache_wf_head _ _ Hwf) as Hh.
  destruct l as [|a [|b l]]; simpl in *; try done; try lia.
  by injection Hh as <-.
Qed.

Lemma lookup_id_behaviour_witness :
  ∃ s', cache_find_entry_id (ret tt) 1 1 false one_ready
        = Done (Some 1%positive) s' ∧
        refcnt_at s' 1 = Some 1.
Proof.
  destruct one_ready_inv as [l Hinv].
  destruct (lookup_id_behaviour one_ready l 1 false (ret tt) 0 Hinv)
    as [_ H].
  destruct (H 1%positive
              (mkEntryInfo (Rdwr 0 false) CACHE_ENTRY_READY 0 None None))
    as [Hfound _].
  - vm_compute. reflexivity.
  - vm_compute. reflexivity.
  - destruct Hfound as (s' & Hs' & _ & _ & _ & Hn & _).
    + reflexivity.
    + vm_compute. discriminate.
    + exists s'. split; [exact Hs'|]. apply Hn. reflexivity.
Defined.

(** ** Aborted creations and deletes (claims C6 and C7) *)

(** The state in which [cache_return_entry_rw] tests [lei_state]: the
    mutex is taken, the lock of the entry released and its reference
    count decremented. *)
Definition return_entered (e : positive) (i : EntryInfo) (rw : bool)
  (s : State) : State :=
  upd_slot e (with_refcnt (int_wrap (lei_refcnt i - 1)))
    (upd_slot e (with_rdwr (unlock_rdwr rw (lei_rdwr i)))
       (upd_cache (with_mutex true) s)).

Section detached.
Implicit Types (s : State) (e p q : positive) (l : list positive).

(** Once an entry is off the queue, its keys are free in both
    indexes. *)
Lemma detached_keys_absent s s' l e x :
  cache_wf s l → cache_wf s' (lru_del e l) → e ∈ l →
  heap s !! e = Some x →
  (∀ p, p ≠ e → view s' p = view s p) →
  c_dntree (cache s') !! e_nname x = None ∧
  c_idtree (cache s') !! e_id x = None.
Proof.
  intros Hwf Hwf' He Hx Hv.
  destruct (cache_wf_resident s l e x Hwf He Hx) as [Hdn Hid].
  split.
  - destruct (c_dntree (cache s') !! e_nname x) as [p|] eqn:Hp; [|done].
    apply (wf_dn _ _ Hwf') in Hp as [[Hpl Hpe]%elem_of_lru_del Hn].
    rewrite (same_view_name_at s s' p) in Hn by auto.
    assert (c_dntree (cache s) !! e_nname x = Some p) by (by apply Hwf).
    congruence.
  - destruct (c_idtree (cache s') !! e_id x) as [p|] eqn:Hp; [|done].
    apply (wf_id _ _ Hwf') in Hp as [[Hpl Hpe]%elem_of_lru_del Hn].
    rewrite (same_view_id_at s s' p) in Hn by auto.
    assert (c_idtree (cache s) !! e_id x = Some p) by (by apply Hwf).
    congruence.
Qed.

Lemma not_in_dntree_off_queue s l e : cache_wf s l → e ∉ l → ¬ in_dntree s e.
Proof. intros Hwf He Hin. by apply (cache_wf_in_dntree s l e Hwf) in Hin. Qed.

Lemma not_in_idtree_off_queue s l e : cache_wf s l → e ∉ l → ¬ in_idtree s e.
Proof. intros Hwf He Hin. by apply (cache_wf_in_idtree s l e Hwf) in Hin. Qed.

(** The return of an entry in state CREATING goes through the
    internal delete: [s1] is the state in which the state of the
    entry is tested, [s2] the one the internal delete leaves. *)
Lemma cache_return_entry_rw_creating s l e i rw :
  cache_inv s l → slot s e = Some i →
  lei_state i = CACHE_ENTRY_CREATING →
  ∃ s2, cache_delete_entry_internal e (return_entered e i rw s)
        = Done 0 s2 ∧
        state_at s2 e = Some CACHE_ENTRY_DELETED ∧
        cache_return_entry_rw e rw s
        = Done tt (upd_cache (with_mutex false)
                     (if 0 <? int_wrap (lei_refcnt i - 1) then s2
                      else clear_slot e s2)).
Proof.
  intros [Hm Hwf] Hi Hst. unfold return_entered.
  set (r' := unlock_rdwr rw (lei_rdwr i)).
  set (n' := int_wrap (lei_refcnt i - 1)).
  set (sa := upd_cache (with_mutex true) s).
  set (sb := upd_slot e (with_rdwr r') sa).
  set (sc := upd_slot e (with_refcnt n') sb).
  assert (slot sa e = Some i) as Hia by done.
  pose proof (slot_upd_slot_eq sa e (with_rdwr r') i Hia) as Hib.
  fold sb in Hib.
  pose proof (slot_upd_slot_eq sb e (with_refcnt n') _ Hib) as Hic.
  fold sc in Hic.
  pose proof (cache_wf_mutex s l true Hwf) as Hwfa. fold sa in Hwfa.
  assert (cache_wf sb l) as Hwfb.
  { apply cache_wf_upd_slot; [done..|]. intros j _. done. }
  assert (cache_wf sc l) as Hwfc.
  { apply cache_wf_upd_slot; [done|done|done| |].
    - intros j _ _. apply int_wrap_range.
    - intros j _. done. }
  assert (e ∈ l) as He.
  { apply (cache_wf_live_on_queue s l e i Hwf Hi). by rewrite Hst. }
  destruct (cache_delete_entry_internal_Done sc l e Hwfc He)
    as (s2 & Hs2 & Hwf2 & Hv2 & _).
  destruct (view_Some_slot _ _ _ Hic) as (id & nm & Hvc & _).
  assert (view s2 e = Some (id, nm, Some (r', CACHE_ENTRY_DELETED, n')))
    as Hv2e.
  { by rewrite Hv2, decide_True, Hvc. }
  destruct (view_slot_fields _ _ _ _ _ _ _ Hv2e) as (j & Hj & _ & Hjs & _).
  exists s2. split; [done|]. split; [by eapply state_at_view|].
  unfold cache_return_entry_rw.
  step (mutex_lock_Done s Hm). fold sa.
  step (LEI_Done sa e i Hia).
  step (cache_entry_rdwr_unlock_Done sa e i rw Hia). fold r' sb.
  step (LEI_Done sb e _ Hib). simpl lei_refcnt. fold n'.
  step (set_LEI_Done sb e (with_refcnt n') (mk_is_Some _ _ Hib)). fold sc.
  step (LEI_Done sc e _ Hic).
  change (lei_state (with_refcnt n' (with_rdwr r' i))) with (lei_state i).
  rewrite Hst.
  change (CACHE_ENTRY_CREATING =? CACHE_ENTRY_CREATING) with true.
  cbv iota. rewrite bind_assoc. step Hs2. rewrite bind_ret.
  step (LEI_Done s2 e j Hj). rewrite Hjs.
  change (CACHE_ENTRY_DELETED =? CACHE_ENTRY_COMMITTED) with false.
  change (CACHE_ENTRY_DELETED =? CACHE_ENTRY_DELETED) with true.
  cbv iota. destruct (0 <? n'); [done|].
  step (cache_entry_private_destroy_Done s2 e (mk_is_Some _ _ Hj)).
  by rewrite bind_ret.
Qed.
End detached.

(** C6: an entry that is released while in state Creating (no commit)
    goes through the internal delete -- it leaves both indexes and the
    LRU queue, c_cursize drops by one, the state becomes Deleted -- and
    is not freed: the entry stays allocated (the private block is
    destroyed when this was the last reference, the count being
    decremented in its C int); afterwards a lookup of
    its id returns NULL and a lookup of its name returns NOID. *)
Theorem release_of_uncommitted_entry
  (s : State) (l : list positive) (e : positive) (x : Entry)
  (i : EntryInfo) (rw rw' : bool) (yield : M unit) (fuel : nat) :
  cache_inv s l →
  heap s !! e = Some x → e_private x = Some i →
  lei_state i = CACHE_ENTRY_CREATING →
  ∃ s2 s',
    cache_delete_entry_internal e (return_entered e i rw s) = Done 0 s2 ∧
    state_at s2 e = Some CACHE_ENTRY_DELETED ∧
    cache_return_entry_rw e rw s = Done tt s' ∧
    s' = upd_cache (with_mutex false)
           (if 0 <? int_wrap (lei_refcnt i - 1) then s2
            else clear_slot e s2) ∧
    cache_inv s' (lru_del e l) ∧ e ∈ l ∧ e ∉ lru_del e l ∧
    ¬ in_dntree s' e ∧ ¬ in_idtree s' e ∧
    c_cursize (cache s') = c_cursize (cache s) - 1 ∧
    state_at s' e = (if 0 <? int_wrap (lei_refcnt i - 1)
                     then Some CACHE_ENTRY_DELETED else None) ∧
    id_at s' e = Some (e_id x) ∧ name_at s' e = Some (e_nname x) ∧
    cache_find_entry_id yield (S fuel) (e_id x) rw' s' = Done None s' ∧
    cache_find_entry_ndn2id yield (S fuel) (e_nname x) s' = Done NOID s' ∧
    (INT_MIN < lei_refcnt i →
     s' = upd_cache (with_mutex false)
            (if 0 <? lei_refcnt i - 1 then s2 else clear_slot e s2) ∧
     state_at s' e = (if 0 <? lei_refcnt i - 1
                      then Some CACHE_ENTRY_DELETED else None)).
Proof.
  intros Hinv Hx Hp Hst.
  assert (slot s e = Some i) as Hi by (unfold slot; by rewrite Hx).
  destruct (cache_return_entry_rw_creating s l e i rw Hinv Hi Hst)
    as (s2 & Hs2 & Hst2 & Hrun).
  destruct (cache_return_entry_rw_Done s l e i rw Hinv Hi)
    as (s' & Hs' & Hinv' & Hv' & _).
  rewrite Hst in Hinv'.
  change (CACHE_ENTRY_CREATING =? CACHE_ENTRY_CREATING) with true in Hinv'.
  cbv iota in Hinv'.
  assert (e ∈ l) as He.
  { apply (cache_wf_live_on_queue s l e i (proj2 Hinv) Hi). by rewrite Hst. }
  assert (e ∉ lru_del e l) as He' by (rewrite elem_of_lru_del; tauto).
  assert (view s e = Some (e_id x, e_nname x, Some (slot_core i))) as Hve.
  { unfold view. rewrite Hx. simpl. by rewrite Hp. }
  assert (view s' e =
          if 0 <? int_wrap (lei_refcnt i - 1)
          then Some (e_id x, e_nname x,
                     Some (unlock_rdwr rw (lei_rdwr i), CACHE_ENTRY_DELETED,
                           int_wrap (lei_refcnt i - 1)))
          else Some (e_id x, e_nname x, None)) as Hve'.
  { rewrite Hv', decide_True, Hve by done. simpl. unfold return_view. simpl.
    rewrite Hst.
    by change (CACHE_ENTRY_CREATING =? CACHE_ENTRY_CREATING) with true. }
  destruct (detached_keys_absent s s' l e x (proj2 Hinv) (proj2 Hinv') He Hx)
    as [Hdn Hid].
  { intros p Hpe. by rewrite Hv', decide_False. }
  exists s2, s'. split; [exact Hs2|]. split; [done|]. split; [done|].
  split; [congruence|]. split; [done|]. split; [done|]. split; [done|].
  split; [by eapply not_in_dntree_off_queue; [apply Hinv'|]|].
  split; [by eapply not_in_idtree_off_queue; [apply Hinv'|]|].
  split.
  { rewrite (wf_size _ _ (proj2 Hinv')), (wf_size _ _ (proj2 Hinv)).
    pose proof (length_lru_del e l (cache_wf_NoDup _ _ (proj2 Hinv)) He).
    lia. }
  assert (state_at s' e = (if 0 <? int_wrap (lei_refcnt i - 1)
                           then Some CACHE_ENTRY_DELETED else None)) as Hst'.
  { rewrite view_state_at, Hve'.
    by destruct (0 <? int_wrap (lei_refcnt i - 1)). }
  split; [done|]. split.
  { rewrite view_id_at, Hve'.
    by destruct (0 <? int_wrap (lei_refcnt i - 1)). }
  split.
  { rewrite view_name_at, Hve'.
    by destruct (0 <? int_wrap (lei_refcnt i - 1)). }
  split.
  { apply cache_find_entry_id_Return.
    apply cache_find_entry_id_pass_absent; [apply Hinv'|done]. }
  split.
  { apply cache_find_entry_ndn2id_Return.
    apply cache_find_entry_ndn2id_pass_absent; [apply Hinv'|done]. }
  intros Hlow.
  pose proof (wf_count _ _ (proj2 Hinv) e _ (refcnt_at_slot _ _ _ Hi)) as Hn.
  rewrite <- (int_wrap_id (lei_refcnt i - 1)) by lia.
  split; [congruence|done].
Qed.

(** Entry 2 has just been inserted in write mode. *)
Definition one_creating : State :=
  mkState
    {[2%positive :=
        mkEntry 2 "b"
          (Some (mkEntryInfo (Rdwr 0 true) CACHE_ENTRY_CREATING 1 None None))]}
    (mkCache 4 1 {["b" := 2%positive]} {[2 := 2%positive]}
       (Some 2%positive) (Some 2%positive) false).

Lemma one_creating_reached :
  exec_all [NewEntry 2 2 "b"; Insert 0 2 true] (cache_start 4)
  = Done tt one_creating.
Proof. vm_compute. reflexivity. Qed.

Lemma one_creating_inv : ∃ l, cache_inv one_creating l.
Proof.
  eapply (exec_all_cache_inv _ _ [] _ (cache_start_inv 4));
    [|apply one_creating_reached].
  vm_compute. tauto.
Qed.

Lemma release_of_uncommitted_entry_witness :
  ∃ s', cache_return_entry_rw 2 true one_creating = Done tt s' ∧
        c_cursize (cache s') = 0 ∧
        cache_find_entry_id (ret tt) 1 2 false s' = Done None s' ∧
        cache_find_entry_ndn2id (ret tt) 1 "b" s' = Done NOID s'.
Proof.
  destruct one_creating_inv as [l Hinv].
  destruct (release_of_uncommitted_entry one_creating l 2
              (mkEntry 2 "b"
                 (Some (mkEntryInfo (Rdwr 0 true) CACHE_ENTRY_CREATING 1
                          None None)))
              (mkEntryInfo (Rdwr 0 true) CACHE_ENTRY_CREATING 1 None None)
              true false (ret tt) 0 Hinv)
    as (s2 & s' & _ & _ & Hrun & _ & _ & _ & _ & _ & _ & Hc & _ & _ & _
        & Hid & Hdn & _).
  - vm_compute. reflexivity.
  - reflexivity.
  - reflexivity.
  - exists s'. split; [exact Hrun|]. split; [exact Hc|].
    split; [exact Hid|exact Hdn].
Defined.

(** A deleted entry that is still referenced: its private block is in
    state Deleted with reference count [n]. *)
Definition tombstone (s : State) (e : positive) (n : Z) : Prop :=
  state_at s e = Some CACHE_ENTRY_DELETED ∧ refcnt_at s e = Some n.

(** How many of the calls are returns of [e]. *)
Fixpoint releases_of (e : positive) (cs : list call) : nat :=
  match cs with
  | [] => O
  | Release e' _ :: cs' =>
      if decide (e' = e) then S (releases_of e cs') else releases_of e cs'
  | _ :: cs' => releases_of e cs'
  end.

Section tombstones.
Implicit Types (s t : State) (e p q : positive) (l : list positive).

Lemma tombstone_slot s e n :
  tombstone s e n →
  ∃ i, slot s e = Some i ∧ lei_state i = CACHE_ENTRY_DELETED ∧
       lei_refcnt i = n.
Proof.
  intros [Hst Hn]. unfold state_at, refcnt_at in *.
  destruct (slot s e) as [i|]; [|done]. exists i.
  injection Hst as ->. injection Hn as ->. done.
Qed.

Lemma tombstone_off_queue s l e n : cache_inv s l → tombstone s e n → e ∉ l.
Proof.
  intros [_ Hwf] (i & Hi & Hst & _)%tombstone_slot.
  by eapply cache_wf_dead_off_queue.
Qed.

Lemma tombstone_same_view s s' e n :
  view s' e = view s e → tombstone s e n → tombstone s' e n.
Proof.
  intros Hv [Hst Hn]. split.
  - by rewrite (same_view_state_at s s').
  - by rewrite (same_view_refcnt_at s s').
Qed.

(** A pass of the lookup by id only returns entries of the queue. *)
Lemma cache_find_entry_id_pass_member s l id rw ep s' :
  cache_inv s l →
  cache_find_entry_id_pass id rw s = Done (Return (Some ep)) s' → ep ∈ l.
Proof.
  intros Hinv Hrun. pose proof Hinv as [Hm Hwf].
  destruct (c_idtree (cache s) !! id) as [p|] eqn:Hid; last first.
  { by rewrite cache_find_entry_id_pass_absent in Hrun. }
  assert (p ∈ l) as He by (by apply (wf_id _ _ Hwf) in Hid as [? _]).
  destruct (cache_wf_slot _ _ _ Hwf He) as [i Hi].
  destruct (wf_live _ _ Hwf p He) as (st & Hst & Hlive).
  rewrite (state_at_slot _ _ _ Hi) in Hst. injection Hst as <-.
  destruct (decide (lei_state i = CACHE_ENTRY_READY)) as [Hr|Hr]; last first.
  { rewrite (cache_find_entry_id_pass_not_ready s id rw p i) in Hrun;
      [done|done..|].
    intros Hu. rewrite Hu in Hlive. by destruct Hlive as [|[|]]. }
  destruct (decide ((try_rdwr rw (lei_rdwr i)).1 = LDAP_PVT_THREAD_EBUSY))
    as [Hb|Hb].
  { by rewrite (cache_find_entry_id_pass_busy s id rw p i) in Hrun. }
  destruct (cache_find_entry_id_pass_found s l id rw p i Hinv Hid Hi Hr Hb)
    as (s1 & Hs1 & _).
  rewrite Hs1 in Hrun. by injection Hrun as <- _.
Qed.

(** Returning a tombstone: it stays one while references remain, and
    goes away, entry and all, with the last one. *)
Lemma cache_return_entry_rw_tombstone s l e n rw :
  cache_inv s l → tombstone s e n → 0 < n →
  ∃ s', cache_return_entry_rw e rw s = Done tt s' ∧
        cache_inv s' l ∧
        (∀ p, p ≠ e → view s' p = view s p) ∧
        if 0 <? n - 1
        then tombstone s' e (n - 1) ∧ is_Some (heap s' !! e)
        else heap s' !! e = None.
Proof.
  intros Hinv Ht Hpos.
  destruct (tombstone_slot _ _ _ Ht) as (i & Hi & Hst & Hn).
  assert (int_wrap (n - 1) = n - 1) as Hw.
  { pose proof (wf_count _ _ (proj2 Hinv) e n (proj2 Ht)).
    apply int_wrap_id. unfold INT_MIN, INT_MAX in *. lia. }
  destruct (cache_return_entry_rw_Done s l e i rw Hinv Hi)
    as (s' & Hs' & Hinv' & Hv' & _).
  rewrite Hst in Hinv'.
  change (CACHE_ENTRY_DELETED =? CACHE_ENTRY_CREATING) with false in Hinv'.
  cbv iota in Hinv'.
  exists s'. split; [done|]. split; [done|].
  split; [intros p Hp; by rewrite Hv', decide_False|].
  destruct (view_Some_slot _ _ _ Hi) as (id & nm & Hve & _).
  pose proof (Hv' e) as Hvee. rewrite decide_True, Hve in Hvee by done.
  simpl in Hvee. unfold return_view in Hvee. simpl in Hvee.
  rewrite Hst, Hn, Hw in Hvee.
  change (CACHE_ENTRY_DELETED =? CACHE_ENTRY_CREATING) with false in Hvee.
  change (CACHE_ENTRY_DELETED =? CACHE_ENTRY_COMMITTED) with false in Hvee.
  change (CACHE_ENTRY_DELETED =? CACHE_ENTRY_DELETED) with true in Hvee.
  cbv iota in Hvee.
  destruct (0 <? n - 1).
  - split.
    + split; [by eapply state_at_view|by eapply refcnt_at_view].
    + apply view_is_Some_heap. rewrite Hvee. eauto.
  - by apply view_heap_None.
Qed.

(** A tombstone lasts through every sequence of calls that returns it
    fewer times than it is referenced. *)
Lemma tombstone_lasts cs s l e n s' :
  cache_inv s l → tombstone s e n →
  well_used cs s → exec_all cs s = Done tt s' →
  Z.of_nat (releases_of e cs) < n →
  ∃ l', cache_inv s' l' ∧
        tombstone s' e (n - Z.of_nat (releases_of e cs)) ∧
        id_at s' e = id_at s e ∧ name_at s' e = name_at s e.
Proof.
  revert s l n. induction cs as [|c cs IH]; intros s l n Hinv Ht Hok Hrun Hk.
  - injection Hrun as <-. simpl. rewrite Z.sub_0_r. eauto.
  - simpl in Hrun, Hok. destruct Hok as [Hpre Hok].
    unfold bind in Hrun. destruct (exec c s) as [[] s1| | |] eqn:Hc;
      [|done..].
    assert ((∃ rw, c = Release e rw) ∨ ¬ (∃ rw, c = Release e rw))
      as [[rw ->]|Hnr].
    { destruct c as [| | | |p rw| | |];
        try (right; by intros [? [=]]).
      destruct (decide (p = e)) as [->|Hpe]; [left; eauto|].
      right. by intros [? [= ?]]. }
    + simpl in Hk. rewrite decide_True in Hk by done.
      simpl releases_of. rewrite decide_True by done.
      destruct (cache_return_entry_rw_tombstone s l e n rw Hinv Ht
                  ltac:(lia)) as (s2 & Hs2 & Hinv2 & Hv2 & Hn2).
      simpl in Hc. rewrite Hs2 in Hc. injection Hc as <-.
      replace (0 <? n - 1) with true in Hn2 by (symmetry; apply Z.ltb_lt; lia).
      destruct Hn2 as [Ht2 Hh2].
      destruct (IH s2 l (n - 1) Hinv2 Ht2 Hok Hrun ltac:(lia))
        as (l' & Hinv' & Ht' & Hid' & Hnm').
      exists l'. split; [done|].
      replace (n - Z.of_nat (S (releases_of e cs)))
        with (n - 1 - Z.of_nat (releases_of e cs)) by lia.
      split; [done|].
      destruct (tombstone_slot _ _ _ Ht) as (i & Hi & Hst & Hn).
      destruct (cache_return_entry_rw_Done s l e i rw Hinv Hi)
        as (s3 & Hs3 & _ & Hv3 & _).
      rewrite Hs2 in Hs3. injection Hs3 as <-.
      destruct (view_Some_slot _ _ _ Hi) as (id & nm & Hve & Hide & Hnme).
      pose proof (Hv3 e) as Hvee.
      rewrite decide_True, Hve in Hvee by done.
      simpl in Hvee. unfold return_view in Hvee. simpl in Hvee.
      rewrite Hst, Hn in Hvee.
      rewrite (int_wrap_id (n - 1)) in Hvee.
      2:{ pose proof (wf_count _ _ (proj2 Hinv) e n (proj2 Ht)).
          unfold INT_MIN, INT_MAX in *. lia. }
      change (CACHE_ENTRY_DELETED =? CACHE_ENTRY_CREATING) with false in Hvee.
      change (CACHE_ENTRY_DELETED =? CACHE_ENTRY_COMMITTED) with false in Hvee.
      change (CACHE_ENTRY_DELETED =? CACHE_ENTRY_DELETED) with true in Hvee.
      cbv iota in Hvee.
      replace (0 <? n - 1) with true in Hvee
        by (symmetry; apply Z.ltb_lt; lia).
      rewrite Hid', Hnm', Hide, Hnme.
      split; [by eapply id_at_view|by eapply name_at_view].
    + assert (releases_of e (c :: cs) = releases_of e cs) as Hsame.
      { destruct c; try done. simpl. rewrite decide_False; [done|].
        intros ->. apply Hnr. eauto. }
      rewrite Hsame in *.
      destruct (exec_step c s l s1 Hinv Hpre Hc) as (l1 & Hinv1 & Hkeep).
      assert (view s1 e = view s e) as Hv1.
      { apply Hkeep.
        - by eapply tombstone_off_queue.
        - destruct (tombstone_slot _ _ _ Ht) as (i & Hi & _). eauto.
        - intros rw ->. apply Hnr. eauto. }
      destruct (IH s1 l1 n Hinv1 (tombstone_same_view _ _ _ _ Hv1 Ht)
                  Hok Hrun Hk) as (l' & Hinv' & Ht' & Hid' & Hnm').
      exists l'. split; [done|]. split; [done|].
      rewrite Hid', Hnm'.
      by rewrite (same_view_id_at s s1), (same_view_name_at s s1).
Qed.
End tombstones.

(** C7: the delete of a resident entry that a caller holds takes it out
    of both indexes and off the LRU queue, decrements c_cursize and sets
    its state to Deleted.  The borrows stay valid: the entry keeps its
    private block, its reference count and its lock, and it remains so,
    allocated and never returned by a lookup, through every later
    sequence of calls that returns it fewer times than it is
    referenced; the return that takes the reference count to zero
    destroys the block and frees the entry. *)
Theorem delete_of_resident_entry
  (s : State) (l : list positive) (e : positive) (x : Entry) (i : EntryInfo) :
  cache_inv s l → e ∈ l →
  heap s !! e = Some x → e_private x = Some i →
  ∃ s',
    cache_delete_entry e s = Done 0 s' ∧
    cache_inv s' (lru_del e l) ∧ e ∉ lru_del e l ∧
    ¬ in_dntree s' e ∧ ¬ in_idtree s' e ∧
    c_dntree (cache s') !! e_nname x = None ∧
    c_idtree (cache s') !! e_id x = None ∧
    c_cursize (cache s') = c_cursize (cache s) - 1 ∧
    tombstone s' e (lei_refcnt i) ∧
    rdwr_at s' e = Some (lei_rdwr i) ∧
    id_at s' e = Some (e_id x) ∧ name_at s' e = Some (e_nname x) ∧
    (∀ cs t,
       well_used cs s' → exec_all cs s' = Done tt t →
       Z.of_nat (releases_of e cs) < lei_refcnt i →
       ∃ lt, cache_inv t lt ∧ e ∉ lt ∧
             tombstone t e (lei_refcnt i - Z.of_nat (releases_of e cs)) ∧
             id_at t e = Some (e_id x) ∧ name_at t e = Some (e_nname x) ∧
             (∀ id rw r t',
                cache_find_entry_id_pass id rw t = Done r t' →
                r ≠ Return (Some e)) ∧
             (lei_refcnt i - Z.of_nat (releases_of e cs) = 1 →
              ∀ rw, ∃ t', cache_return_entry_rw e rw t = Done tt t' ∧
                          heap t' !! e = None)).
Proof.
  intros Hinv He Hx Hp.
  assert (slot s e = Some i) as Hi by (unfold slot; by rewrite Hx).
  destruct (cache_delete_entry_Done s l e Hinv He)
    as (s' & Hs' & Hinv' & Hv' & _).
  assert (e ∉ lru_del e l) as He' by (rewrite elem_of_lru_del; tauto).
  assert (view s e = Some (e_id x, e_nname x, Some (slot_core i))) as Hve.
  { unfold view. rewrite Hx. simpl. by rewrite Hp. }
  assert (view s' e = Some (e_id x, e_nname x,
                            Some (lei_rdwr i, CACHE_ENTRY_DELETED,
                                  lei_refcnt i))) as Hve'.
  { by rewrite Hv', decide_True, Hve. }
  destruct (detached_keys_absent s s' l e x (proj2 Hinv) (proj2 Hinv') He Hx)
    as [Hdn Hid].
  { intros p Hpe. by rewrite Hv', decide_False. }
  assert (tombstone s' e (lei_refcnt i)) as Ht.
  { split; [by eapply state_at_view|by eapply refcnt_at_view]. }
  exists s'. split; [done|]. split; [done|]. split; [done|].
  split; [by eapply not_in_dntree_off_queue; [apply Hinv'|]|].
  split; [by eapply not_in_idtree_off_queue; [apply Hinv'|]|].
  split; [done|]. split; [done|].
  split.
  { rewrite (wf_size _ _ (proj2 Hinv')), (wf_size _ _ (proj2 Hinv)).
    pose proof (length_lru_del e l (cache_wf_NoDup _ _ (proj2 Hinv)) He).
    lia. }
  split; [done|]. split; [by eapply rdwr_at_view|].
  split; [by eapply id_at_view|]. split; [by eapply name_at_view|].
  intros cs t Hok Hrun Hk.
  destruct (tombstone_lasts cs s' _ e _ t Hinv' Ht Hok Hrun Hk)
    as (lt & Hinvt & Htt & Hidt & Hnmt).
  pose proof (tombstone_off_queue _ _ _ _ Hinvt Htt) as Het.
  exists lt. split; [done|]. split; [done|]. split; [done|].
  split; [rewrite Hidt; by eapply id_at_view|].
  split; [rewrite Hnmt; by eapply name_at_view|].
  split.
  - intros id rw r t' Hpass ->.
    by apply (cache_find_entry_id_pass_member t lt id rw e t' Hinvt) in Hpass.
  - intros Hone rw. rewrite Hone in Htt.
    destruct (cache_return_entry_rw_tombstone t lt e 1 rw Hinvt Htt
                ltac:(lia)) as (t' & Ht' & _ & _ & Hfree).
    exists t'. split; [done|]. exact Hfree.
Qed.

(** Entry 5 is Ready and held by one reader. *)
Definition one_borrowed : State :=
  mkState
    {[5%positive :=
        mkEntry 5 "e"
          (Some (mkEntryInfo (Rdwr 1 false) CACHE_ENTRY_READY 1 None None))]}
    (mkCache 4 1 {["e" := 5%positive]} {[5 := 5%positive]}
       (Some 5%positive) (Some 5%positive) false).

Lemma one_borrowed_reached :
  exec_all [NewEntry 5 5 "e"; Insert 0 5 true; Commit 5; Release 5 true;
            LookupId 5 false] (cache_start 4)
  = Done tt one_borrowed.
Proof. vm_compute. reflexivity. Qed.

Lemma one_borrowed_inv : cache_inv one_borrowed [5%positive].
Proof.
  assert (∃ l, cache_inv one_borrowed l) as [l Hinv].
  { eapply (exec_all_cache_inv _ _ [] _ (cache_start_inv 4));
      [|apply one_borrowed_reached].
    vm_compute. tauto. }
  replace [5%positive] with l; [done|].
  destruct Hinv as [_ Hwf]. pose proof (wf_size _ _ Hwf) as Hsz.
  pose proof (cache_wf_head _ _ Hwf) as Hh.
  destruct l as [|a [|b l]]; simpl in *; try done; try lia.
  by injection Hh as <-.
Qed.

Lemma delete_of_resident_entry_witness :
  ∃ s', cache_delete_entry 5 one_borrowed = Done 0 s' ∧
        tombstone s' 5 1 ∧
        ∃ t', cache_return_entry_rw 5 false s' = Done tt t' ∧
              heap t' !! 5%positive = None.
Proof.
  destruct (delete_of_resident_entry one_borrowed [5%positive] 5
              (mkEntry 5 "e"
                 (Some (mkEntryInfo (Rdwr 1 false) CACHE_ENTRY_READY 1
                          None None)))
              (mkEntryInfo (Rdwr 1 false) CACHE_ENTRY_READY 1 None None)
              one_borrowed_inv)
    as (s' & Hrun & _ & _ & _ & _ & _ & _ & _ & Ht & _ & _ & _ & Hlater).
  - apply list_elem_of_singleton. reflexivity.
  - vm_compute. reflexivity.
  - reflexivity.
  - exists s'. split; [exact Hrun|]. split; [exact Ht|].
    destruct (Hlater [] s' I eq_refl) as (lt & _ & _ & _ & _ & _ & _ & Hlast).
    + simpl. lia.
    + apply (Hlast eq_refl false).
Defined.

(** ** The two phases of the eviction *)

(** [splices pin k l l']: [k] times over, the entry at the tail of the
    queue is in use and goes to the front. *)
Inductive splices (pin : positive → bool)
  : nat → list positive → list positive → Prop :=
| splices_done l : splices pin O l l
| splices_step k l t l' :
    last l = Some t → pin t = true →
    splices pin k (t :: lru_del t l) l' → splices pin (S k) l l'.

(** [evictions pin j l l']: [j] times over, the entry at the tail of
    the queue is unused and leaves the queue. *)
Inductive evictions (pin : positive → bool)
  : nat → list positive → list positive → Prop :=
| evictions_done l : evictions pin O l l
| evictions_step j l t l' :
    last l = Some t → pin t = false →
    evictions pin j (lru_del t l) l' → evictions pin (S j) l l'.

(** One round of the first loop (cache.c:410-419): the entry at the
    tail is in use; LRU_DELETE then LRU_ADD take it to the head. *)
Definition splice_round (s : State) (t : positive) (s' : State) : Prop :=
  c_lrutail (cache s) = Some t ∧ inuse s t = true ∧
  ∃ s1, LRU_DELETE t s = Done tt s1 ∧ LRU_ADD t s1 = Done tt s' ∧
        c_lruhead (cache s') = Some t.

(** One round of the second loop (cache.c:427-436): the cache is over
    its size and the entry at the tail is unused; the internal delete
    takes it out of the queue and of both indexes, its private block is
    destroyed while the entry itself is still allocated, then the entry
    is released. *)
Definition evict_round (s : State) (t : positive) (s' : State) : Prop :=
  c_lrutail (cache s) = Some t ∧ inuse s t = false ∧
  c_maxsize (cache s) < c_cursize (cache s) ∧
  ∃ s1 s2,
    cache_delete_entry_internal t s = Done 0 s1 ∧
    c_cursize (cache s1) = c_cursize (cache s) - 1 ∧
    ¬ in_dntree s1 t ∧ ¬ in_idtree s1 t ∧ is_Some (slot s1 t) ∧
    cache_entry_private_destroy t s1 = Done 0 s2 ∧
    slot s2 t = None ∧ is_Some (heap s2 !! t) ∧
    entry_free t s2 = Done tt s' ∧ heap s' !! t = None.

(** [rounds R n s s']: [n] rounds of [R], one after the other, lead
    from [s] to [s']. *)
Inductive rounds (R : State → positive → State → Prop)
  : nat → State → State → Prop :=
| rounds_done s : rounds R O s s
| rounds_step n s t s1 s' :
    R s t s1 → rounds R n s1 s' → rounds R (S n) s s'.

(** Entry 1 is held by its inserter; entry 2 has been released; entry
    3 is about to be inserted.  The cache has room for two entries. *)
Definition one_held_one_idle : list call :=
  [NewEntry 1 1 "a"; NewEntry 2 2 "b"; NewEntry 3 3 "c";
   Insert 0 1 true; Insert 0 2 true; Commit 2; Release 2 true].

Definition full_before_third : State :=
  Eval vm_compute in
    match exec_all one_held_one_idle (cache_start 2) with
    | Done _ s => s
    | _ => cache_start 2
    end.

Section phases.
Implicit Types (s : State) (p t : positive) (l : list positive)
  (pin : positive → bool).

Lemma requeue_list_splices pin n l :
  ∃ k, (k ≤ n)%nat ∧ splices pin k l (requeue_list pin n l) ∧
       (k = n ∨ ∀ t, last (requeue_list pin n l) = Some t → pin t = false).
Proof.
  revert l. induction n as [|n IH]; intros l.
  { exists O. split; [done|]. split; [constructor|by left]. }
  simpl. destruct (last l) as [t|] eqn:Et.
  - destruct (pin t) eqn:Ep.
    + destruct (IH (t :: lru_del t l)) as (k & Hk & Hs & Hstop).
      exists (S k). split; [lia|]. split; [by econstructor|].
      destruct Hstop as [->|Hstop]; [by left|by right].
    + exists O. split; [lia|]. split; [constructor|].
      right. intros t'. rewrite Et. by intros [= <-].
  - exists O. split; [lia|]. split; [constructor|].
    right. intros t'. by rewrite Et.
Qed.

Lemma evict_list_evictions pin n l :
  ∃ j, (j ≤ n)%nat ∧ evictions pin j l (evict_list pin n l) ∧
       (j = n ∨ ∀ t, last (evict_list pin n l) = Some t → pin t = true).
Proof.
  revert l. induction n as [|n IH]; intros l.
  { exists O. split; [done|]. split; [constructor|by left]. }
  simpl. destruct (last l) as [t|] eqn:Et.
  - destruct (pin t) eqn:Ep.
    + exists O. split; [lia|]. split; [constructor|].
      right. intros t'. rewrite Et. by intros [= <-].
    + destruct (IH (lru_del t l)) as (j & Hj & Hs & Hstop).
      exists (S j). split; [lia|]. split; [by econstructor|].
      destruct Hstop as [->|Hstop]; [by left|by right].
  - exists O. split; [lia|]. split; [constructor|].
    right. intros t'. by rewrite Et.
Qed.

Lemma evictions_length pin j l l' :
  NoDup l → evictions pin j l l' → (length l' + j = length l)%nat.
Proof.
  intros Hl Hev. induction Hev as [l|j l t l' Et Hp Hev IH]; [lia|].
  apply last_elem in Et.
  pose proof (length_lru_del t l Hl Et).
  specialize (IH (NoDup_lru_del _ _ Hl)). lia.
Qed.

Lemma splices_NoDup pin k l l' : NoDup l → splices pin k l l' → NoDup l'.
Proof.
  intros Hl Hsp. induction Hsp as [l|k l t l' Et Hp Hsp IH]; [done|].
  apply IH. apply NoDup_cons. split; [|by apply NoDup_lru_del].
  rewrite elem_of_lru_del. tauto.
Qed.

Lemma splices_length pin k l l' :
  NoDup l → splices pin k l l' → length l' = length l.
Proof.
  intros Hl Hsp. induction Hsp as [l|k l t l' Et Hp Hsp IH]; [done|].
  apply last_elem in Et. rewrite IH.
  - simpl. by apply length_lru_del.
  - apply NoDup_cons. split; [|by apply NoDup_lru_del].
    rewrite elem_of_lru_del. tauto.
Qed.


Lemma splices_ext f g k l l' :
  (∀ p, f p = g p) → splices f k l l' → splices g k l l'.
Proof.
  intros Hfg Hsp. induction Hsp as [l|k l t l' Et Hp Hsp IH]; [constructor|].
  econstructor; [done| |done]. by rewrite <- Hfg.
Qed.

Lemma evictions_ext f g j l l' :
  (∀ p, f p = g p) → evictions f j l l' → evictions g j l l'.
Proof.
  intros Hfg Hev. induction Hev as [l|j l t l' Et Hp Hev IH]; [constructor|].
  econstructor; [done| |done]. by rewrite <- Hfg.
Qed.

Lemma cache_entry_private_destroy_cache e s r s' :
  cache_entry_private_destroy e s = Done r s' → cache s' = cache s.
Proof.
  unfold cache_entry_private_destroy, bind, load, store, ret. intros H.
  repeat case_match; by simplify_eq.
Qed.

Lemma entry_free_cache e s r s' :
  entry_free e s = Done r s' → cache s' = cache s.
Proof.
  unfold entry_free, bind, load. intros H.
  repeat case_match; by simplify_eq.
Qed.

Lemma rounds_evict_cursize j s s' :
  rounds evict_round j s s' →
  c_cursize (cache s') = c_cursize (cache s) - Z.of_nat j.
Proof.
  intros Hr. induction Hr as [s|j s t s1 s' Hr Hrs IH]; [lia|].
  destruct Hr
    as (_ & _ & _ & sd & sp & _ & Hcur & _ & _ & _ & Hp & _ & _ & Hf & _).
  apply cache_entry_private_destroy_cache in Hp.
  apply entry_free_cache in Hf. rewrite Hf, Hp in IH. lia.
Qed.

Lemma splice_round_Done s l t :
  cache_wf s l → last l = Some t → inuse s t = true →
  ∃ s', splice_round s t s' ∧
        bind (LRU_DELETE t) (λ _, LRU_ADD t) s = Done tt s' ∧
        cache_wf s' (t :: lru_del t l) ∧ same_view s s'.
Proof.
  intros Hwf Et Hin. pose proof (last_elem _ _ Et) as Htl.
  destruct (lru_touch_Done s l t Hwf Htl) as (s' & Hs' & Hwf' & Hv' & _).
  exists s'. split; [|done]. split; [by rewrite (cache_wf_tail _ _ Hwf)|].
  split; [done|]. exists (lru_delete_state l t s).
  pose proof (LRU_DELETE_Done s l t (wf_lru _ _ Hwf) Htl) as Hd.
  split; [done|]. split; [|by rewrite (cache_wf_head _ _ Hwf')].
  unfold bind in Hs'. by rewrite Hd in Hs'.
Qed.

Lemma evict_round_Done s l t :
  cache_wf s l → last l = Some t → inuse s t = false →
  c_maxsize (cache s) < c_cursize (cache s) →
  ∃ s', evict_round s t s' ∧
        bind (cache_delete_entry_internal t)
          (λ _, bind (cache_entry_private_destroy t)
                  (λ _, entry_free t)) s = Done tt s'.
Proof.
  intros Hwf Et Hin Hover. pose proof (last_elem _ _ Et) as Htl.
  destruct (cache_delete_entry_internal_Done s l t Hwf Htl)
    as (s1 & Hs1 & Hwf1 & Hv1 & _).
  assert (t ∉ lru_del t l) as Ht1 by (rewrite elem_of_lru_del; tauto).
  destruct (cache_wf_slot _ _ _ Hwf Htl) as [i Hi].
  assert (is_Some (slot s1 t)) as Hs1t.
  { rewrite <- (fmap_is_Some slot_core), view_slot_core, Hv1.
    rewrite decide_True by done.
    destruct (slot_heap _ _ _ Hi) as (x & Hx & Hpx & _).
    unfold view. rewrite Hx. simpl. rewrite Hpx. simpl. eauto. }
  assert (is_Some (heap (clear_slot t s1) !! t)) as Hh1.
  { apply view_is_Some_heap. rewrite view_clear_slot, decide_True by done.
    apply fmap_is_Some. apply view_is_Some_heap.
    destruct Hs1t as [j (x & Hx & _)%slot_Some]. eauto. }
  pose proof (cache_entry_private_destroy_Done s1 t Hs1t) as Hs2.
  pose proof (entry_free_Done _ t Hh1) as Hs3.
  exists (free_entry t (clear_slot t s1)). split.
  - split; [by rewrite (cache_wf_tail _ _ Hwf)|]. split; [done|].
    split; [done|]. exists s1, (clear_slot t s1).
    split; [done|]. split.
    { pose proof (wf_size _ _ Hwf) as Hsz.
      pose proof (wf_size _ _ Hwf1) as Hsz1.
      pose proof (length_lru_del t l (cache_wf_NoDup _ _ Hwf) Htl). lia. }
    split; [by rewrite (cache_wf_in_dntree _ _ _ Hwf1)|].
    split; [by rewrite (cache_wf_in_idtree _ _ _ Hwf1)|].
    split; [done|]. split; [done|].
    split; [by rewrite slot_clear_slot, decide_True|].
    split; [done|]. split; [done|].
    apply view_heap_None. by rewrite view_free_entry, decide_True.
  - step Hs1. by step Hs2.
Qed.

Lemma lru_requeue_inuse_rounds n s l :
  cache_wf s l →
  ∃ k s', (k ≤ n)%nat ∧ lru_requeue_inuse n s = Done tt s' ∧
          rounds splice_round k s s' ∧
          splices (inuse s) k l (requeue_list (inuse s) n l) ∧
          (k = n ∨
           ∀ t, last (requeue_list (inuse s) n l) = Some t → inuse s t = false).
Proof.
  revert s l. induction n as [|n IH]; intros s l Hwf.
  - exists O, s. split; [done|].
    split; [|split; [constructor|split; [constructor|by left]]].
    simpl. step (get_cache_Done s). rewrite (cache_wf_tail _ _ Hwf).
    destruct (last l) as [t|] eqn:Et; [|done].
    destruct (cache_wf_slot _ _ _ Hwf (last_elem _ _ Et)) as [i Hi].
    step (LEI_Done _ _ _ Hi). by destruct (negb _).
  - simpl. destruct (last l) as [t|] eqn:Et.
    + pose proof (last_elem _ _ Et) as Htl.
      destruct (cache_wf_slot _ _ _ Hwf Htl) as [i Hi].
      pose proof (inuse_slot _ _ _ Hi) as Hin.
      destruct (inuse s t) eqn:Ein.
      * destruct (splice_round_Done s l t Hwf Et Ein)
          as (s1 & Hr1 & Hs1 & Hwf1 & Hv1).
        destruct (IH s1 _ Hwf1) as (k & s2 & Hk & Hs2 & Hr2 & Hsp & Hstop).
        assert (∀ p, inuse s1 p = inuse s p) as Hext.
        { intros p. by apply inuse_same_view. }
        rewrite (requeue_list_ext (inuse s1) (inuse s)) in Hsp, Hstop by done.
        exists (S k), s2. split; [lia|]. split; [|split; [|split]].
        -- step (get_cache_Done s). rewrite (cache_wf_tail _ _ Hwf), Et.
           step (LEI_Done _ _ _ Hi). rewrite <- Hin.
           rewrite <- bind_assoc. by step Hs1.
        -- by econstructor.
        -- econstructor; [done..|]. by apply (splices_ext (inuse s1)).
        -- destruct Hstop as [->|Hstop]; [by left|right].
           intros t' Ht'. rewrite <- Hext. by apply Hstop.
      * exists O, s. split; [lia|].
        split; [|split; [constructor|split; [constructor|]]].
        -- step (get_cache_Done s). rewrite (cache_wf_tail _ _ Hwf), Et.
           step (LEI_Done _ _ _ Hi). by rewrite <- Hin.
        -- right. intros t'. rewrite Et. by intros [= <-].
    + exists O, s. split; [lia|].
      split; [|split; [constructor|split; [constructor|]]].
      * step (get_cache_Done s). by rewrite (cache_wf_tail _ _ Hwf), Et.
      * right. intros t'. by rewrite Et.
Qed.

Lemma lru_evict_unused_rounds fuel s l :
  cache_wf s l → (length l ≤ fuel)%nat →
  let over := Z.to_nat (c_cursize (cache s) - c_maxsize (cache s)) in
  ∃ j s', (j ≤ over)%nat ∧ lru_evict_unused fuel s = Done tt s' ∧
          rounds evict_round j s s' ∧
          evictions (inuse s) j l (evict_list (inuse s) over l) ∧
          (j = over ∨
           ∀ t, last (evict_list (inuse s) over l) = Some t →
                inuse s t = true).
Proof.
  revert s l. induction fuel as [|fuel IH]; intros s l Hwf Hfuel over.
  - destruct l; [|simpl in Hfuel; lia].
    exists O, s. split; [lia|]. split.
    { simpl. step (get_cache_Done s). by rewrite (cache_wf_tail _ _ Hwf). }
    split; [constructor|]. destruct over; (split; [constructor|by right]).
  - destruct (last l) as [t|] eqn:Et; last first.
    { apply last_None in Et. subst l. exists O, s. split; [lia|]. split.
      { simpl. step (get_cache_Done s). by rewrite (cache_wf_tail _ _ Hwf). }
      split; [constructor|]. destruct over; (split; [constructor|by right]). }
    pose proof (last_elem _ _ Et) as Htl.
    destruct (cache_wf_slot _ _ _ Hwf Htl) as [i Hi].
    pose proof (inuse_slot _ _ _ Hi) as Hin.
    assert (lru_evict_unused (S fuel) s =
            if (lei_refcnt i =? 0) &&
               (c_maxsize (cache s) <? c_cursize (cache s))
            then bind (cache_delete_entry_internal t)
                   (λ _, bind (cache_entry_private_destroy t)
                           (λ _, bind (entry_free t)
                                   (λ _, lru_evict_unused fuel))) s
            else Done tt s) as ->.
    { simpl. step (get_cache_Done s). rewrite (cache_wf_tail _ _ Hwf), Et.
      step (LEI_Done _ _ _ Hi). by destruct (_ && _). }
    destruct (c_maxsize (cache s) <? c_cursize (cache s)) eqn:Eover;
      last first.
    { rewrite andb_false_r. exists O, s. split; [lia|]. split; [done|].
      apply Z.ltb_ge in Eover. subst over.
      replace (Z.to_nat _) with O by lia.
      split; [constructor|split; [constructor|by left]]. }
    apply Z.ltb_lt in Eover.
    destruct over as [|k] eqn:Ek; [lia|].
    simpl. rewrite Et.
    destruct (inuse s t) eqn:Ein.
    { replace (lei_refcnt i =? 0) with false
        by (by destruct (lei_refcnt i =? 0)).
      exists O, s. split; [lia|]. split; [done|].
      split; [constructor|split; [constructor|]].
      right. intros t'. rewrite Et. by intros [= <-]. }
    replace (lei_refcnt i =? 0) with true
      by (by destruct (lei_refcnt i =? 0)).
    simpl.
    destruct (evict_one_Done s l t Hwf Htl)
      as (s1 & Hs1 & Hwf1 & Hv1 & Hm1 & Hx1).
    destruct (evict_round_Done s l t Hwf Et Ein Eover) as (s1' & Hr1 & Hs1').
    rewrite Hs1 in Hs1'. injection Hs1' as <-.
    pose proof (wf_size _ _ Hwf) as Hsz.
    pose proof (wf_size _ _ Hwf1) as Hsz1.
    pose proof (length_lru_del t l (cache_wf_NoDup _ _ Hwf) Htl) as Hlen.
    destruct (IH s1 (lru_del t l) Hwf1 ltac:(lia))
      as (j & s2 & Hj & Hs2 & Hr2 & Hev & Hstop).
    replace (Z.to_nat (c_cursize (cache s1) - c_maxsize (cache s1)))
      with k in * by lia.
    assert (∀ p, inuse s1 p = inuse s p) as Hext.
    { intros p. destruct (decide (p = t)) as [->|Hpt].
      - rewrite Ein. unfold inuse. rewrite view_refcnt_at, Hv1.
        by rewrite decide_True.
      - apply inuse_same_view. by rewrite Hv1, decide_False. }
    rewrite (evict_list_ext (inuse s1) (inuse s)) in Hev, Hstop by done.
    exists (S j), s2. split; [lia|]. split; [|split; [|split]].
    + rewrite bind_round. by step Hs1.
    + by econstructor.
    + econstructor; [done..|]. by apply (evictions_ext (inuse s1)).
    + destruct Hstop as [->|Hstop]; [by left|right].
      intros t' Ht'. rewrite <- Hext. by apply Hstop.
Qed.

Lemma full_before_third_reached :
  exec_all one_held_one_idle (cache_start 2) = Done tt full_before_third.
Proof. vm_compute. reflexivity. Qed.

Lemma full_before_third_inv :
  cache_inv full_before_third [2%positive; 1%positive].
Proof.
  assert (∃ l, cache_inv full_before_third l) as [l [Hm Hwf]].
  { eapply (exec_all_cache_inv _ _ [] _ (cache_start_inv 2));
      [|apply full_before_third_reached].
    vm_compute. tauto. }
  replace [2%positive; 1%positive] with l; [done|].
  pose proof (wf_size _ _ Hwf) as Hsz.
  pose proof (cache_wf_head _ _ Hwf) as Hh.
  pose proof (cache_wf_tail _ _ Hwf) as Ht.
  destruct l as [|a [|b [|c l]]]; simpl in *; try done; try lia.
  by injection Hh as <-; injection Ht as <-.
Qed.
End phases.

(** C8: the eviction of the insertion path.  An insertion that
    succeeds reaches the test of c_cursize against c_maxsize in the
    state [s0], in which the new entry is at the head of the LRU queue
    and c_cursize is one higher than before; it then runs the two loops
    from [s0], releases the mutex and returns 0.  When c_cursize does
    not exceed c_maxsize in [s0] the loops change nothing.  When it
    does, phase A runs [k] rounds, [k] at most 10: in each one the
    entry at the tail of the queue is in use (reference count not zero)
    and LRU_DELETE then LRU_ADD take it to the head; it stops after 10
    rounds or at a tail that is not in use.  Phase B then runs [j]
    rounds: in each one c_cursize exceeds c_maxsize and the entry at
    the tail is unused; the internal delete takes it out of the queue
    and of both indexes and lowers c_cursize by one, its private block
    is destroyed (the entry, still allocated, has no slot any more) and
    the entry is released (it is no longer allocated); it stops when
    c_cursize has come down to c_maxsize or the tail is in use.  The
    entries that stay are as they were in [s0]. *)
Theorem eviction_phases (s : State) (l : list positive) (e : positive)
    (x : Entry) (rw : bool) :
  cache_inv s l →
  heap s !! e = Some x → e_private x = None →
  c_dntree (cache s) !! e_nname x = None →
  c_idtree (cache s) !! e_id x = None →
  ∃ s0 s',
    s0 = add_state rw l e x (upd_cache (with_mutex true) s) ∧
    cache_wf s0 (e :: l) ∧
    c_cursize (cache s0) = c_cursize (cache s) + 1 ∧
    c_maxsize (cache s0) = c_maxsize (cache s) ∧
    cache_add_entry_rw 0 e rw s =
      bind lru_make_room
        (λ _, bind ldap_pvt_thread_mutex_unlock (λ _, ret 0)) s0 ∧
    lru_make_room s0 = Done tt s' ∧
    cache_add_entry_rw 0 e rw s = Done 0 (upd_cache (with_mutex false) s') ∧
    (c_cursize (cache s0) ≤ c_maxsize (cache s0) → s' = s0) ∧
    (c_maxsize (cache s0) < c_cursize (cache s0) →
     ∃ sa k j l1 l2,
       (k ≤ 10)%nat ∧ rounds splice_round k s0 sa ∧
       splices (inuse s0) k (e :: l) l1 ∧ cache_wf sa l1 ∧
       (k = 10%nat ∨ ∀ t, last l1 = Some t → inuse s0 t = false) ∧
       rounds evict_round j sa s' ∧
       evictions (inuse s0) j l1 l2 ∧ cache_wf s' l2 ∧
       (c_cursize (cache s') = c_maxsize (cache s') ∨
        ∀ t, last l2 = Some t → inuse s0 t = true) ∧
       c_cursize (cache s') = c_cursize (cache s0) - Z.of_nat j ∧
       c_maxsize (cache s') = c_maxsize (cache s0) ∧
       c_maxsize (cache s') ≤ c_cursize (cache s') ∧
       (∀ p, p ∈ e :: l → p ∉ l2 →
             heap s' !! p = None ∧ ¬ in_dntree s' p ∧ ¬ in_idtree s' p) ∧
       (∀ p, p ∈ l2 → p ∈ e :: l ∧ view s' p = view s0 p)).
Proof.
  intros [Hm Hwf] Hx Hp Hdn Hid.
  set (sa := upd_cache (with_mutex true) s).
  pose proof (cache_wf_mutex s l true Hwf) as Hwfa. fold sa in Hwfa.
  assert (slot sa e = None) as Hse by (unfold slot; simpl; by rewrite Hx).
  pose proof (add_state_wf rw l e x sa Hwfa Hx Hp Hdn Hid) as Hwf0.
  pose proof (add_state_maxsize rw l e x sa) as Hm0.
  set (s0 := add_state rw l e x sa) in *.
  pose proof (wf_size _ _ Hwf) as Hsz.
  pose proof (wf_size _ _ Hwf0) as Hsz0.
  change (length (e :: l)) with (S (length l)) in Hsz0.
  assert (cache_add_entry_rw 0 e rw s =
          bind lru_make_room
            (λ _, bind ldap_pvt_thread_mutex_unlock (λ _, ret 0)) s0) as Hrun.
  { unfold cache_add_entry_rw. step (mutex_lock_Done s Hm). fold sa.
    step (load_Done sa _ _ Hx). rewrite Hp, bool_decide_eq_true_2 by done.
    rewrite (add_state_run rw l e x sa); [|apply Hwfa|done..]. done. }
  destruct (lru_make_room_Done s0 _ Hwf0)
    as (s' & Hs' & Hwf' & Hgone & Hkept & Hm' & _).
  exists s0, s'. split; [done|]. split; [done|].
  split; [change (c_cursize (cache sa)) with (c_cursize (cache s)) in *; lia|].
  split; [done|]. split; [done|]. split; [done|]. split.
  { rewrite Hrun. step Hs'. by step (mutex_unlock_Done s'). }
  split.
  { intros Hle.
    assert (lru_make_room s0 = Done tt s0) as Hid0.
    { unfold lru_make_room. step (get_cache_Done s0).
      by replace (c_maxsize (cache s0) <? c_cursize (cache s0)) with false
        by (symmetry; apply Z.ltb_ge; lia). }
    rewrite Hs' in Hid0. by injection Hid0. }
  intros Hover.
  pose proof (cache_wf_NoDup _ _ Hwf0) as Hnd.
  destruct (lru_requeue_inuse_rounds 10 s0 _ Hwf0)
    as (k & s1 & Hk & Hs1 & Hr1 & Hsp & Hstop1).
  destruct (lru_requeue_inuse_Done 10 s0 _ Hwf0)
    as (s1' & Hs1' & Hwf1 & Hv1 & Hm1 & Hc1 & _).
  rewrite Hs1 in Hs1'. injection Hs1' as <-.
  pose proof (cache_wf_length_heap _ _ Hwf1) as Hlen.
  destruct (lru_evict_unused_rounds (S (size (heap s1))) s1 _ Hwf1 ltac:(lia))
    as (j & s2 & Hj & Hs2 & Hr2 & Hev & Hstop2).
  assert (lru_make_room s0 = Done tt s2) as Hs2'.
  { unfold lru_make_room. step (get_cache_Done s0).
    rewrite (proj2 (Z.ltb_lt _ _) Hover). by step Hs1. }
  rewrite Hs' in Hs2'. injection Hs2' as <-.
  rewrite Hm1, Hc1 in Hj, Hev, Hstop2.
  assert (∀ p, inuse s1 p = inuse s0 p) as Hext.
  { intros p. by apply inuse_same_view. }
  rewrite (evict_list_ext (inuse s1) (inuse s0)) in Hev, Hstop2 by done.
  apply (evictions_ext _ (inuse s0)) in Hev; [|done].
  unfold make_room_list in Hwf', Hgone, Hkept.
  rewrite <- (wf_size _ _ Hwf0) in Hwf', Hgone, Hkept.
  replace (c_maxsize (cache s0) <? c_cursize (cache s0)) with true
    in Hwf', Hgone, Hkept by (symmetry; apply Z.ltb_lt; lia).
  set (over := Z.to_nat (c_cursize (cache s0) - c_maxsize (cache s0))) in *.
  set (l1 := requeue_list (inuse s0) 10 (e :: l)) in *.
  set (l2 := evict_list (inuse s0) over l1) in *.
  pose proof (rounds_evict_cursize _ _ _ Hr2) as Hcur. rewrite Hc1 in Hcur.
  exists s1, k, j, l1, l2.
  split; [done|]. split; [done|]. split; [done|]. split; [done|].
  split; [done|]. split; [done|]. split; [done|]. split; [done|]. split.
  { destruct Hstop2 as [->|Hstop2]; [left; lia|right].
    intros t Ht. rewrite <- Hext. by apply Hstop2. }
  split; [done|]. split; [done|]. split; [lia|]. split.
  - intros p Hpl Hp2. split; [by apply view_heap_None, Hgone|].
    by rewrite (cache_wf_in_dntree _ _ _ Hwf'), (cache_wf_in_idtree _ _ _ Hwf').
  - intros p Hp2. assert (p ∈ e :: l) as Hpl.
    { apply (requeue_list_elem (inuse s0) 10).
      by apply (evict_list_elem (inuse s0) over l1). }
    split; [done|]. by apply Hkept.
Qed.

Lemma eviction_phases_witness :
  ∃ s0 s' sa k j,
    s0 = add_state true [2%positive; 1%positive] 3
           (mkEntry 3 "c" None)
           (upd_cache (with_mutex true) full_before_third) ∧
    cache_add_entry_rw 0 3 true full_before_third
    = Done 0 (upd_cache (with_mutex false) s') ∧
    (k ≤ 10)%nat ∧ rounds splice_round k s0 sa ∧
    rounds evict_round j sa s' ∧
    c_cursize (cache s') = c_cursize (cache s0) - Z.of_nat j ∧
    c_maxsize (cache s') ≤ c_cursize (cache s').
Proof.
  destruct (eviction_phases full_before_third [2%positive; 1%positive] 3
              (mkEntry 3 "c" None) true full_before_third_inv)
    as (s0 & s' & Hs0 & _ & _ & _ & _ & _ & Hrun & _ & Hover);
    [vm_compute; reflexivity..|].
  destruct Hover
    as (sa & k & j & l1 & l2 & Hk & Hr1 & _ & _ & _ & Hr2 & _ & _ & _
        & Hcur & _ & Hle & _).
  { rewrite Hs0. vm_compute. reflexivity. }
  exists s0, s', sa, k, j. repeat split; assumption.
Defined.

(** * Further properties of the routines *)

(** ** Example states *)

(** Entry 7 has been inserted, committed and released: it is Ready and
    nobody holds it. *)
Definition one_settled : State :=
  Eval vm_compute in
    match exec_all [NewEntry 7 70 "g"; Insert 0 7 true; Commit 7;
                    Release 7 true] (cache_start 4) with
    | Done _ s => s
    | _ => cache_start 4
    end.

(** Entry 7 has been inserted and is held by its creator, who has not
    committed it. *)
Definition one_pending : State :=
  Eval vm_compute in
    match exec_all [NewEntry 7 70 "g"; Insert 0 7 true] (cache_start 4) with
    | Done _ s => s
    | _ => cache_start 4
    end.

(** Entry 7 is Ready and unused at the tail, entry 8 is held by its
    creator at the head. *)
Definition two_resident : State :=
  Eval vm_compute in
    match exec_all [NewEntry 7 70 "g"; NewEntry 8 80 "h";
                    Insert 0 7 true; Commit 7; Release 7 true;
                    Insert 0 8 false] (cache_start 4) with
    | Done _ s => s
    | _ => cache_start 4
    end.

Section examples.
Implicit Types (s : State) (e p q : positive) (l : list positive).

Lemma reached_cache_inv m cs s :
  well_used cs (cache_start m) →
  exec_all cs (cache_start m) = Done tt s → ∃ l, cache_inv s l.
Proof.
  intros Hok Hrun.
  by eapply (exec_all_cache_inv _ _ [] _ (cache_start_inv m)).
Qed.

Lemma queue_of_one s l a :
  cache_wf s l → c_cursize (cache s) = 1 →
  c_lruhead (cache s) = Some a → l = [a].
Proof.
  intros Hwf Hsz Hh. rewrite (wf_size _ _ Hwf) in Hsz.
  rewrite (cache_wf_head _ _ Hwf) in Hh.
  destruct l as [|b [|c l]]; simpl in *; try done; try lia.
  by injection Hh as ->.
Qed.

Lemma queue_of_two s l a b :
  cache_wf s l → c_cursize (cache s) = 2 →
  c_lruhead (cache s) = Some a → c_lrutail (cache s) = Some b → l = [a; b].
Proof.
  intros Hwf Hsz Hh Ht. rewrite (wf_size _ _ Hwf) in Hsz.
  rewrite (cache_wf_head _ _ Hwf) in Hh.
  rewrite (cache_wf_tail _ _ Hwf) in Ht.
  destruct l as [|a' [|b' [|c l]]]; simpl in *; try done; try lia.
  by injection Hh as ->; injection Ht as ->.
Qed.

Lemma one_settled_inv : cache_inv one_settled [7%positive].
Proof.
  destruct (reached_cache_inv 4
              [NewEntry 7 70 "g"; Insert 0 7 true; Commit 7; Release 7 true]
              one_settled) as [l Hinv].
  - vm_compute. tauto.
  - vm_compute. reflexivity.
  - by rewrite <- (queue_of_one _ l 7 (proj2 Hinv)).
Qed.

Lemma one_pending_inv : cache_inv one_pending [7%positive].
Proof.
  destruct (reached_cache_inv 4 [NewEntry 7 70 "g"; Insert 0 7 true]
              one_pending) as [l Hinv].
  - vm_compute. tauto.
  - vm_compute. reflexivity.
  - by rewrite <- (queue_of_one _ l 7 (proj2 Hinv)).
Qed.

Lemma two_resident_inv : cache_inv two_resident [8%positive; 7%positive].
Proof.
  destruct (reached_cache_inv 4
              [NewEntry 7 70 "g"; NewEntry 8 80 "h";
               Insert 0 7 true; Commit 7; Release 7 true; Insert 0 8 false]
              two_resident) as [l Hinv].
  - vm_compute. tauto.
  - vm_compute. reflexivity.
  - by rewrite <- (queue_of_two _ l 8 7 (proj2 Hinv)).
Qed.
End examples.

(** ** The lookups *)

Section lookups.
Implicit Types (s : State) (e p q : positive) (l : list positive).

Lemma cache_find_entry_ndn2id_TryAgain yield fuel ndn s s' :
  cache_find_entry_ndn2id_pass ndn s = Done TryAgain s' →
  cache_find_entry_ndn2id yield (S fuel) ndn s
  = bind yield (λ _, cache_find_entry_ndn2id yield fuel ndn) s'.
Proof. intros H. simpl. by step H. Qed.

(** An entry that an index gives is on the queue, and never in the
    state Undefined. *)
Lemma indexed_entry_live s l ep i :
  cache_wf s l → ep ∈ l → slot s ep = Some i →
  lei_state i ≠ CACHE_ENTRY_UNDEFINED ∧ lei_state i ≠ CACHE_ENTRY_DELETED.
Proof.
  intros Hwf He Hi.
  destruct (wf_live _ _ Hwf ep He) as (st & Hst & Hlive).
  rewrite (state_at_slot _ _ _ Hi) in Hst. injection Hst as <-.
  split; intros Hu; rewrite Hu in Hlive; by destruct Hlive as [|[|]].
Qed.

(** Releasing the lock that a try-lock has just taken gives the lock
    back as it was. *)
Lemma unlock_try_rdwr rw r :
  (try_rdwr rw r).1 ≠ LDAP_PVT_THREAD_EBUSY →
  unlock_rdwr rw (try_rdwr rw r).2 = r.
Proof.
  unfold try_rdwr, unlock_rdwr, ldap_pvt_thread_rdwr_wtrylock,
    ldap_pvt_thread_rdwr_rtrylock, ldap_pvt_thread_rdwr_wlock,
    ldap_pvt_thread_rdwr_rlock, ldap_pvt_thread_rdwr_wunlock,
    ldap_pvt_thread_rdwr_runlock.
  destruct r as [n w], rw, w; simpl; try done.
  by destruct n.
Qed.
End lookups.

(** X1: the lookup by name.  A name that is not in the name index
    gives NOID and changes nothing.  When the index gives an entry that
    is Ready, the lookup returns the id of that entry and moves the
    entry to the head of the LRU queue; no reference is taken and no
    lock: what the state says about every entry is as before.  When the
    entry is not Ready the pass ends with the state as it was and the
    lookup yields and starts again. *)
Theorem lookup_name_behaviour
  (s : State) (l : list positive) (ndn : string)
  (yield : M unit) (fuel : nat) :
  cache_inv s l →
  (c_dntree (cache s) !! ndn = None →
   cache_find_entry_ndn2id yield (S fuel) ndn s = Done NOID s) ∧
  (∀ ep i,
     c_dntree (cache s) !! ndn = Some ep → slot s ep = Some i →
     (lei_state i = CACHE_ENTRY_READY →
      ∃ s' id,
        cache_find_entry_ndn2id yield (S fuel) ndn s = Done id s' ∧
        id_at s ep = Some id ∧
        cache_inv s' (ep :: lru_del ep l) ∧
        c_lruhead (cache s') = Some ep ∧
        same_view s s') ∧
     (lei_state i ≠ CACHE_ENTRY_READY →
      cache_find_entry_ndn2id_pass ndn s = Done TryAgain s ∧
      cache_find_entry_ndn2id yield (S fuel) ndn s
      = bind yield (λ _, cache_find_entry_ndn2id yield fuel ndn) s)).
Proof.
  intros Hinv. pose proof Hinv as [Hm Hwf]. split.
  - intros Hdn. apply cache_find_entry_ndn2id_Return.
    by apply cache_find_entry_ndn2id_pass_absent.
  - intros ep i Hdn Hi. split.
    + intros Hr.
      destruct (cache_find_entry_ndn2id_pass_found s l ndn ep i
                  Hinv Hdn Hi Hr) as (s' & id & Hs' & Hid & Hinv' & Hv' & _).
      exists s', id. split; [by apply cache_find_entry_ndn2id_Return|].
      split; [done|]. split; [done|].
      split; [by rewrite (cache_wf_head _ _ (proj2 Hinv'))|done].
    + intros Hr.
      assert (ep ∈ l) as He by (by apply (wf_dn _ _ Hwf) in Hdn as [? _]).
      destruct (indexed_entry_live s l ep i Hwf He Hi) as [Hu _].
      assert (cache_find_entry_ndn2id_pass ndn s = Done TryAgain s) as Hpass
        by (by eapply cache_find_entry_ndn2id_pass_not_ready).
      split; [done|]. by apply cache_find_entry_ndn2id_TryAgain.
Qed.

Lemma lookup_name_behaviour_witness :
  ∃ s' id,
    cache_find_entry_ndn2id (ret tt) 1 "g" one_settled = Done id s' ∧
    id_at one_settled 7 = Some id ∧
    cache_inv s' [7%positive] ∧
    c_lruhead (cache s') = Some 7%positive ∧
    same_view one_settled s'.
Proof.
  destruct (lookup_name_behaviour one_settled [7%positive] "g" (ret tt) 0
              one_settled_inv) as [_ H].
  destruct (H 7%positive
              (mkEntryInfo (Rdwr 0 false) CACHE_ENTRY_READY 0 None None))
    as [Hfound _].
  - vm_compute. reflexivity.
  - vm_compute. reflexivity.
  - apply Hfound. reflexivity.
Defined.

Section borrows.
Implicit Types (s : State) (e p q : positive) (l : list positive).

(** Two states whose queues hold the same entries, with the same names
    and identifiers, have the same indexes and the same size. *)
Lemma cache_wf_same_index s s' l l' :
  cache_wf s l → cache_wf s' l' →
  (∀ p, p ∈ l' ↔ p ∈ l) →
  (∀ p, p ∈ l → id_at s' p = id_at s p ∧ name_at s' p = name_at s p) →
  c_dntree (cache s') = c_dntree (cache s) ∧
  c_idtree (cache s') = c_idtree (cache s) ∧
  c_cursize (cache s') = c_cursize (cache s).
Proof.
  intros Hwf Hwf' Hl Hkeys. split; [|split].
  - apply map_eq. intros k. apply option_eq. intros p.
    rewrite (wf_dn _ _ Hwf'), (wf_dn _ _ Hwf), Hl.
    split; intros [Hp Hn]; (split; [done|]);
      destruct (Hkeys p Hp) as [_ Hk]; congruence.
  - apply map_eq. intros k. apply option_eq. intros p.
    rewrite (wf_id _ _ Hwf'), (wf_id _ _ Hwf), Hl.
    split; intros [Hp Hn]; (split; [done|]);
      destruct (Hkeys p Hp) as [Hk _]; congruence.
  - rewrite (wf_size _ _ Hwf'), (wf_size _ _ Hwf). f_equal.
    apply Permutation_length, NoDup_Permutation;
      [by eapply cache_wf_NoDup..|done].
Qed.

Lemma elem_of_touch e l p : e ∈ l → p ∈ e :: lru_del e l ↔ p ∈ l.
Proof.
  intros He. rewrite elem_of_cons, elem_of_lru_del.
  destruct (decide (p = e)) as [->|]; naive_solver.
Qed.
End borrows.

(** X2: a lookup does not return while the entry it finds is not Ready
    or its lock is busy.  When the other threads do nothing between the
    passes, no number of passes is enough, for the lookup by id and for
    the lookup by name alike: the lookup waits for the thread that
    holds the entry. *)
Theorem lookup_waits_while_not_ready
  (s : State) (l : list positive) (ep : positive) (i : EntryInfo)
  (fuel : nat) :
  cache_inv s l → slot s ep = Some i →
  (∀ id rw,
     c_idtree (cache s) !! id = Some ep →
     lei_state i ≠ CACHE_ENTRY_READY ∨
     (try_rdwr rw (lei_rdwr i)).1 = LDAP_PVT_THREAD_EBUSY →
     cache_find_entry_id (ret tt) fuel id rw s = OutOfFuel) ∧
  (∀ ndn,
     c_dntree (cache s) !! ndn = Some ep →
     lei_state i ≠ CACHE_ENTRY_READY →
     cache_find_entry_ndn2id (ret tt) fuel ndn s = OutOfFuel).
Proof.
  intros Hinv Hi. pose proof Hinv as [Hm Hwf]. split.
  - intros id rw Hid Hwait.
    assert (ep ∈ l) as He by (by apply (wf_id _ _ Hwf) in Hid as [? _]).
    destruct (indexed_entry_live s l ep i Hwf He Hi) as [Hu _].
    assert (cache_find_entry_id_pass id rw s = Done TryAgain s) as Hpass.
    { destruct (decide (lei_state i = CACHE_ENTRY_READY)) as [Hr|Hr].
      - destruct Hwait as [?|Hb]; [done|].
        by eapply cache_find_entry_id_pass_busy.
      - by eapply cache_find_entry_id_pass_not_ready. }
    induction fuel as [|fuel IH]; [done|].
    by rewrite (cache_find_entry_id_TryAgain _ _ _ _ _ _ Hpass).
  - intros ndn Hdn Hr.
    assert (ep ∈ l) as He by (by apply (wf_dn _ _ Hwf) in Hdn as [? _]).
    destruct (indexed_entry_live s l ep i Hwf He Hi) as [Hu _].
    assert (cache_find_entry_ndn2id_pass ndn s = Done TryAgain s) as Hpass
      by (by eapply cache_find_entry_ndn2id_pass_not_ready).
    induction fuel as [|fuel IH]; [done|].
    by rewrite (cache_find_entry_ndn2id_TryAgain _ _ _ _ _ Hpass).
Qed.

Lemma lookup_waits_while_not_ready_witness :
  cache_find_entry_id (ret tt) 5 70 false one_pending = OutOfFuel ∧
  cache_find_entry_ndn2id (ret tt) 5 "g" one_pending = OutOfFuel.
Proof.
  destruct (lookup_waits_while_not_ready one_pending [7%positive] 7
              (mkEntryInfo (Rdwr 0 true) CACHE_ENTRY_CREATING 1 None None)
              5 one_pending_inv) as [Hid Hdn].
  - vm_compute. reflexivity.
  - split.
    + apply Hid; [vm_compute; reflexivity|]. left. vm_compute. discriminate.
    + apply Hdn; [vm_compute; reflexivity|]. vm_compute. discriminate.
Defined.

(** X3: a lookup that finds the entry still in creation returns it once
    its creator has committed and returned it.  The first pass gives
    up; with the commit and the return made during the yield, the
    second pass finds the entry Ready, takes the lock and a reference,
    and returns it. *)
Theorem lookup_returns_after_commit
  (s : State) (l : list positive) (id : Z) (rw rw' : bool)
  (ep : positive) (i : EntryInfo) (fuel : nat) :
  cache_inv s l →
  c_idtree (cache s) !! id = Some ep → slot s ep = Some i →
  lei_state i = CACHE_ENTRY_CREATING →
  (try_rdwr rw' (unlock_rdwr rw (lei_rdwr i))).1 ≠ LDAP_PVT_THREAD_EBUSY →
  ∃ s',
    cache_find_entry_id
      (bind (cache_entry_commit ep) (λ _, cache_return_entry_rw ep rw))
      (S (S fuel)) id rw' s = Done (Some ep) s' ∧
    cache_inv s' (ep :: lru_del ep l) ∧
    state_at s' ep = Some CACHE_ENTRY_READY ∧
    refcnt_at s' ep = Some (lei_refcnt i - 1 + 1) ∧
    rdwr_at s' ep
    = Some (try_rdwr rw' (unlock_rdwr rw (lei_rdwr i))).2 ∧
    (∀ p, p ≠ ep → view s' p = view s p).
Proof.
  intros Hinv Hid Hi Hc Hfree. pose proof Hinv as [Hm Hwf].
  assert (ep ∈ l) as He by (by apply (wf_id _ _ Hwf) in Hid as [? _]).
  assert (cache_find_entry_id_pass id rw' s = Done TryAgain s) as Hpass.
  { eapply cache_find_entry_id_pass_not_ready; [done..| |];
      rewrite Hc; discriminate. }
  rewrite (cache_find_entry_id_TryAgain _ _ _ _ _ _ Hpass).
  destruct (cache_entry_commit_Done s l ep i Hinv Hi Hc)
    as (Hs1 & Hinv1 & Hv1).
  set (s1 := upd_slot ep (with_state CACHE_ENTRY_COMMITTED) s) in *.
  rewrite bind_assoc. step Hs1.
  destruct (view_Some_slot _ _ _ Hi) as (id' & nm & Hve & Hide & _).
  assert (id' = id) as ->.
  { apply (wf_id _ _ Hwf) in Hid as [_ Hid]. congruence. }
  assert (view s1 ep
          = Some (id, nm, Some (lei_rdwr i, CACHE_ENTRY_COMMITTED,
                                lei_refcnt i))) as Hve1.
  { by rewrite Hv1, decide_True, Hve. }
  destruct (view_slot_fields _ _ _ _ _ _ _ Hve1)
    as (i1 & Hi1 & Hr1 & Hst1 & Hn1).
  destruct (cache_return_entry_rw_Done s1 l ep i1 rw Hinv1 Hi1)
    as (s2 & Hs2 & Hinv2 & Hv2 & _).
  rewrite Hst1 in Hinv2.
  change (CACHE_ENTRY_COMMITTED =? CACHE_ENTRY_CREATING) with false in Hinv2.
  cbv iota in Hinv2.
  step Hs2.
  assert (view s2 ep
          = Some (id, nm, Some (unlock_rdwr rw (lei_rdwr i),
                                CACHE_ENTRY_READY,
                                int_wrap (lei_refcnt i - 1))))
    as Hve2.
  { by rewrite Hv2, decide_True, Hve1. }
  destruct (view_slot_fields _ _ _ _ _ _ _ Hve2)
    as (i2 & Hi2 & Hr2 & Hst2 & Hn2).
  assert (c_idtree (cache s2) !! id = Some ep) as Hid2.
  { apply (wf_id _ _ (proj2 Hinv2)). split; [done|].
    by eapply id_at_view. }
  destruct (cache_find_entry_id_pass_found s2 l id rw' ep i2 Hinv2 Hid2 Hi2
              Hst2) as (s3 & Hs3 & Hinv3 & Hv3 & _).
  { by rewrite Hr2. }
  exists s3. split; [by apply cache_find_entry_id_Return|].
  split; [done|].
  pose proof (Hv3 ep) as Hve3. rewrite decide_True, Hve2 in Hve3 by done.
  simpl in Hve3. unfold vmap in Hve3. simpl in Hve3.
  rewrite Hr2, Hn2 in Hve3.
  split; [by eapply state_at_view|]. split.
  { pose proof (wf_count _ _ Hwf ep _ (refcnt_at_slot _ _ _ Hi)) as Hn.
    replace (lei_refcnt i - 1 + 1)
      with (int_wrap (int_wrap (lei_refcnt i - 1) + 1))
      by (rewrite int_wrap_pred_succ by done; lia).
    by eapply refcnt_at_view. }
  split; [by eapply rdwr_at_view|].
  intros p Hp. by rewrite Hv3, decide_False, Hv2, decide_False, Hv1,
    decide_False.
Qed.

Lemma lookup_returns_after_commit_witness :
  ∃ s',
    cache_find_entry_id
      (bind (cache_entry_commit 7) (λ _, cache_return_entry_rw 7 true))
      2 70 false one_pending = Done (Some 7%positive) s' ∧
    state_at s' 7 = Some CACHE_ENTRY_READY ∧
    refcnt_at s' 7 = Some 1.
Proof.
  destruct (lookup_returns_after_commit one_pending [7%positive] 70
              true false 7
              (mkEntryInfo (Rdwr 0 true) CACHE_ENTRY_CREATING 1 None None)
              0 one_pending_inv)
    as (s' & Hs' & _ & Hst & Hn & _).
  - vm_compute. reflexivity.
  - vm_compute. reflexivity.
  - reflexivity.
  - vm_compute. discriminate.
  - exists s'. split; [exact Hs'|]. split; [exact Hst|exact Hn].
Defined.

(** X4: a lookup by id followed by the return of the entry, in the
    same mode, is a round trip: the reference count, the lock and the
    state of every entry, both indexes and c_cursize are as before the
    lookup; only the place of the entry in the LRU queue has changed,
    it is at the head. *)
Theorem lookup_then_return
  (s : State) (l : list positive) (id : Z) (rw : bool)
  (ep : positive) (i : EntryInfo) (yield : M unit) (fuel : nat) :
  cache_inv s l →
  c_idtree (cache s) !! id = Some ep → slot s ep = Some i →
  lei_state i = CACHE_ENTRY_READY →
  (try_rdwr rw (lei_rdwr i)).1 ≠ LDAP_PVT_THREAD_EBUSY →
  ∃ s1 s2,
    cache_find_entry_id yield (S fuel) id rw s = Done (Some ep) s1 ∧
    cache_return_entry_rw ep rw s1 = Done tt s2 ∧
    cache_inv s2 (ep :: lru_del ep l) ∧
    c_lruhead (cache s2) = Some ep ∧
    same_view s s2 ∧
    c_dntree (cache s2) = c_dntree (cache s) ∧
    c_idtree (cache s2) = c_idtree (cache s) ∧
    c_cursize (cache s2) = c_cursize (cache s).
Proof.
  intros Hinv Hid Hi Hr Hb. pose proof Hinv as [Hm Hwf].
  assert (ep ∈ l) as He by (by apply (wf_id _ _ Hwf) in Hid as [? _]).
  destruct (cache_find_entry_id_pass_found s l id rw ep i Hinv Hid Hi Hr Hb)
    as (s1 & Hs1 & Hinv1 & Hv1 & _).
  destruct (view_Some_slot _ _ _ Hi) as (id' & nm & Hve & _).
  assert (view s1 ep
          = Some (id', nm, Some ((try_rdwr rw (lei_rdwr i)).2,
                                 CACHE_ENTRY_READY,
                                 int_wrap (lei_refcnt i + 1))))
    as Hve1.
  { by rewrite Hv1, decide_True, Hve. }
  destruct (view_slot_fields _ _ _ _ _ _ _ Hve1)
    as (i1 & Hi1 & Hr1 & Hst1 & Hn1).
  destruct (cache_return_entry_rw_Done s1 _ ep i1 rw Hinv1 Hi1)
    as (s2 & Hs2 & Hinv2 & Hv2 & _).
  rewrite Hst1 in Hinv2.
  change (CACHE_ENTRY_READY =? CACHE_ENTRY_CREATING) with false in Hinv2.
  cbv iota in Hinv2.
  assert (same_view s s2) as Hsame.
  { intros p. rewrite Hv2. destruct (decide (p = ep)) as [->|Hp].
    - rewrite Hve1, Hve. simpl. unfold return_view. simpl.
      change (CACHE_ENTRY_READY =? CACHE_ENTRY_CREATING) with false.
      change (CACHE_ENTRY_READY =? CACHE_ENTRY_COMMITTED) with false.
      change (CACHE_ENTRY_READY =? CACHE_ENTRY_DELETED) with false.
      cbv iota. rewrite unlock_try_rdwr by done.
      unfold slot_core. rewrite Hr. do 4 f_equal.
      apply int_wrap_succ_pred.
      exact (wf_count _ _ Hwf ep _ (refcnt_at_slot _ _ _ Hi)).
    - by rewrite Hv1, decide_False. }
  destruct (cache_wf_same_index s s2 l (ep :: lru_del ep l) Hwf
              (proj2 Hinv2)) as (Hdn2 & Hid2 & Hsz2).
  { intros p. by apply elem_of_touch. }
  { intros p _.
    split; [apply same_view_id_at|apply same_view_name_at]; apply Hsame. }
  exists s1, s2. split; [by apply cache_find_entry_id_Return|].
  split; [done|]. split; [done|].
  split; [by rewrite (cache_wf_head _ _ (proj2 Hinv2))|done].
Qed.

Lemma lookup_then_return_witness :
  ∃ s1 s2,
    cache_find_entry_id (ret tt) 1 70 true one_settled
    = Done (Some 7%positive) s1 ∧
    cache_return_entry_rw 7 true s1 = Done tt s2 ∧
    same_view one_settled s2 ∧
    c_cursize (cache s2) = c_cursize (cache one_settled).
Proof.
  destruct (lookup_then_return one_settled [7%positive] 70 true 7
              (mkEntryInfo (Rdwr 0 false) CACHE_ENTRY_READY 0 None None)
              (ret tt) 0 one_settled_inv)
    as (s1 & s2 & H1 & H2 & _ & _ & Hv & _ & _ & Hsz).
  - vm_compute. reflexivity.
  - vm_compute. reflexivity.
  - reflexivity.
  - vm_compute. discriminate.
  - exists s1, s2. split; [exact H1|]. split; [exact H2|].
    split; [exact Hv|exact Hsz].
Defined.

(** Entry 7 has been inserted and committed; its creator still holds
    it, with the lock taken for writing. *)
Definition one_committed : State :=
  Eval vm_compute in
    match exec_all [NewEntry 7 70 "g"; Insert 0 7 true; Commit 7]
            (cache_start 4) with
    | Done _ s => s
    | _ => cache_start 4
    end.

(** The lock is held in the mode [rw]: by a writer, or by one reader
    at least. *)
Definition held_rdwr (rw : bool) (r : rdwr) : Prop :=
  if rw then rw_writer r = true else (0 < rw_readers r)%nat.

(** What a release in the mode [rw] makes of a lock: the writer is
    gone, or there is one reader fewer. *)
Definition released_rdwr (rw : bool) (r r' : rdwr) : Prop :=
  if rw then rw_writer r' = false ∧ rw_readers r' = rw_readers r
  else rw_writer r' = rw_writer r ∧ S (rw_readers r') = rw_readers r.

Lemma one_committed_inv : cache_inv one_committed [7%positive].
Proof.
  destruct (reached_cache_inv 4
              [NewEntry 7 70 "g"; Insert 0 7 true; Commit 7]
              one_committed) as [l Hinv].
  - vm_compute. tauto.
  - vm_compute. reflexivity.
  - by rewrite <- (queue_of_one _ l 7 (proj2 Hinv)).
Qed.

Lemma unlock_rdwr_released rw r :
  held_rdwr rw r → released_rdwr rw r (unlock_rdwr rw r).
Proof.
  unfold held_rdwr, released_rdwr, unlock_rdwr,
    ldap_pvt_thread_rdwr_wunlock, ldap_pvt_thread_rdwr_runlock.
  destruct rw; simpl; [done|]. intros Hr. split; [done|lia].
Qed.

(** X5: returning an entry that is Ready or Committed, whose lock the
    caller holds in the mode it gives, never takes it out of the cache,
    whatever its reference count becomes: the entry stays on the LRU
    queue where it was and in both indexes, it is Ready afterwards, its
    lock is released in the given mode (the writer is gone, or there is
    one reader fewer) and its reference count is decremented in its C
    int - it is one less unless it was INT_MIN -; the other entries are
    as they were. *)
Theorem return_of_settled_entry
  (s : State) (l : list positive) (e : positive) (i : EntryInfo)
  (rw : bool) :
  cache_inv s l → slot s e = Some i →
  lei_state i = CACHE_ENTRY_READY ∨ lei_state i = CACHE_ENTRY_COMMITTED →
  held_rdwr rw (lei_rdwr i) →
  ∃ s' r',
    cache_return_entry_rw e rw s = Done tt s' ∧
    cache_inv s' l ∧ e ∈ l ∧
    state_at s' e = Some CACHE_ENTRY_READY ∧
    refcnt_at s' e = Some (int_wrap (lei_refcnt i - 1)) ∧
    (INT_MIN < lei_refcnt i → refcnt_at s' e = Some (lei_refcnt i - 1)) ∧
    rdwr_at s' e = Some r' ∧ released_rdwr rw (lei_rdwr i) r' ∧
    id_at s' e = id_at s e ∧ name_at s' e = name_at s e ∧
    (∀ p, p ≠ e → view s' p = view s p) ∧
    c_dntree (cache s') = c_dntree (cache s) ∧
    c_idtree (cache s') = c_idtree (cache s) ∧
    c_cursize (cache s') = c_cursize (cache s).
Proof.
  intros Hinv Hi Hst Hheld. pose proof Hinv as [Hm Hwf].
  assert (e ∈ l) as He.
  { apply (cache_wf_live_on_queue s l e i Hwf Hi).
    destruct Hst as [-> | ->]; discriminate. }
  destruct (cache_return_entry_rw_Done s l e i rw Hinv Hi)
    as (s' & Hs' & Hinv' & Hv' & _).
  assert ((lei_state i =? CACHE_ENTRY_CREATING) = false) as Hnc
    by (by destruct Hst as [-> | ->]).
  rewrite Hnc in Hinv'.
  destruct (view_Some_slot _ _ _ Hi) as (id & nm & Hve & Hide & Hnme).
  assert (view s' e
          = Some (id, nm, Some (unlock_rdwr rw (lei_rdwr i),
                                CACHE_ENTRY_READY,
                                int_wrap (lei_refcnt i - 1))))
    as Hve'.
  { rewrite Hv', decide_True, Hve by done. simpl. unfold return_view.
    simpl. by destruct Hst as [-> | ->]. }
  assert (∀ p, p ∈ l → id_at s' p = id_at s p ∧ name_at s' p = name_at s p)
    as Hkeys.
  { intros p _. destruct (decide (p = e)) as [->|Hp].
    - rewrite Hide, Hnme. split; [by eapply id_at_view|by eapply name_at_view].
    - split; [apply same_view_id_at|apply same_view_name_at];
        by rewrite Hv', decide_False. }
  pose proof (wf_count _ _ Hwf e _ (refcnt_at_slot _ _ _ Hi)) as Hn.
  exists s', (unlock_rdwr rw (lei_rdwr i)).
  split; [done|]. split; [done|]. split; [done|].
  split; [by eapply state_at_view|]. split; [by eapply refcnt_at_view|].
  split.
  { intros Hlow. rewrite <- (int_wrap_id (lei_refcnt i - 1)) by lia.
    by eapply refcnt_at_view. }
  split; [by eapply rdwr_at_view|].
  split; [by apply unlock_rdwr_released|].
  split; [by apply Hkeys|]. split; [by apply Hkeys|].
  split; [intros p Hp; by rewrite Hv', decide_False|].
  by apply (cache_wf_same_index s s' l l Hwf (proj2 Hinv')).
Qed.

Lemma return_of_settled_entry_witness :
  ∃ s',
    cache_return_entry_rw 7 true one_committed = Done tt s' ∧
    cache_inv s' [7%positive] ∧
    state_at s' 7 = Some CACHE_ENTRY_READY ∧
    refcnt_at s' 7 = Some 0 ∧
    rdwr_at s' 7 = Some (Rdwr 0 false).
Proof.
  destruct (return_of_settled_entry one_committed [7%positive] 7
              (mkEntryInfo (Rdwr 0 true) CACHE_ENTRY_COMMITTED 1 None None)
              true one_committed_inv)
    as (s' & r' & Hs' & Hinv' & _ & Hst & _ & Hn & Hr & Hrel & _).
  - vm_compute. reflexivity.
  - right. reflexivity.
  - reflexivity.
  - exists s'. split; [exact Hs'|]. split; [exact Hinv'|].
    split; [exact Hst|]. split; [exact (Hn eq_refl)|].
    destruct r' as [n w]. destruct Hrel as [Hw Hrd]. simpl in Hw, Hrd.
    rewrite Hr, Hw, Hrd. reflexivity.
Defined.

(** ** [cache_update_entry] *)

(** The state in which [cache_update_entry] starts its eviction: [e] is
    in both indexes, in state Creating and at the head of the queue. *)
Definition update_state (l : list positive) (e : positive) (x : Entry)
  (s : State) : State :=
  let sc := upd_cache
              (with_dntree (<[e_nname x := e]> (c_dntree (cache s)))) s in
  let sd := upd_cache
              (with_idtree (<[e_id x := e]> (c_idtree (cache s)))) sc in
  let sf := upd_slot e (with_state CACHE_ENTRY_CREATING) sd in
  let sh := lru_add_state l e sf in
  upd_cache (with_cursize (c_cursize (cache sh) + 1)) sh.

Section update.
Implicit Types (s : State) (e p q : positive) (l : list positive).

Lemma update_state_view l e x s p :
  view (update_state l e x s) p =
    if decide (p = e)
    then vmap (core_state CACHE_ENTRY_CREATING) <$> view s e
    else view s p.
Proof.
  unfold update_state. rewrite view_upd_cache, lru_add_state_view.
  by rewrite (view_upd_slot_core _ _ _ (core_state CACHE_ENTRY_CREATING)).
Qed.

Lemma update_state_maxsize l e x s :
  c_maxsize (cache (update_state l e x s)) = c_maxsize (cache s).
Proof.
  unfold update_state. simpl.
  match goal with
  | |- c_maxsize (cache (lru_add_state ?l ?e ?s)) = _ =>
      destruct (lru_add_state_index s l e) as (-> & _)
  end.
  done.
Qed.

(** An entry whose name is in nobody's name is not on the queue. *)
Lemma free_name_off_queue s l e x :
  cache_wf s l → heap s !! e = Some x →
  c_dntree (cache s) !! e_nname x = None → e ∉ l.
Proof.
  intros Hwf Hx Hdn He.
  destruct (cache_wf_resident s l e x Hwf He Hx) as [Hd _]. congruence.
Qed.

Lemma update_state_wf l e x i s :
  cache_wf s l →
  heap s !! e = Some x → e_private x = Some i →
  c_dntree (cache s) !! e_nname x = None →
  c_idtree (cache s) !! e_id x = None →
  cache_wf (update_state l e x s) (e :: l).
Proof.
  intros Hwf Hx Hp Hdn Hid.
  assert (slot s e = Some i) as Hse by (unfold slot; by rewrite Hx).
  pose proof (free_name_off_queue _ _ _ _ Hwf Hx Hdn) as He.
  pose proof (update_state_view l e x s) as Hv.
  assert (∀ p, p ≠ e → view (update_state l e x s) p = view s p) as Hne.
  { intros p Hpe. by rewrite Hv, decide_False. }
  assert (view (update_state l e x s) e
          = Some (e_id x, e_nname x,
                  Some (lei_rdwr i, CACHE_ENTRY_CREATING, lei_refcnt i)))
    as Hve.
  { rewrite Hv, decide_True by done. unfold view. rewrite Hx. simpl.
    by rewrite Hp. }
  assert (name_at (update_state l e x s) e = Some (e_nname x)) as Hne_n.
  { by rewrite view_name_at, Hve. }
  assert (id_at (update_state l e x s) e = Some (e_id x)) as Hne_i.
  { by rewrite view_id_at, Hve. }
  assert (state_at (update_state l e x s) e = Some CACHE_ENTRY_CREATING)
    as Hne_s.
  { by rewrite view_state_at, Hve. }
  unfold update_state in *.
  set (sd := upd_cache (with_idtree _) (upd_cache (with_dntree _) _)) in *.
  set (sf := upd_slot e (with_state CACHE_ENTRY_CREATING) _) in *.
  assert (lru_wf sf l) as Hlru.
  { eapply lru_wf_ext; [apply Hwf|done..|].
    intros p Hpl. assert (p ≠ e) by (by intros ->).
    unfold sf. rewrite !links_upd_ne by done. unfold sd.
    by rewrite !links_upd_cache. }
  assert (is_Some (slot sf e)) as Hsf.
  { unfold sf. rewrite !slot_upd_slot, !decide_True by done.
    rewrite !fmap_is_Some. unfold sd. rewrite !slot_upd_cache. eauto. }
  pose proof (lru_add_state_wf sf l e Hlru He Hsf) as Hlru'.
  pose proof (lru_add_state_index sf l e) as (Hm & Hc & Hd & Hi & Hmx).
  set (sh := lru_add_state l e sf) in *.
  destruct Hwf as [_ Hsz Hwdn Hwid Hlive Hdead Hcnt].
  split.
  - apply lru_wf_upd_cache; done.
  - simpl. rewrite Hc. change (c_cursize (cache sf)) with (c_cursize (cache s)).
    rewrite Hsz. lia.
  - intros k p. simpl c_dntree. rewrite Hd.
    change (c_dntree (cache sf))
      with (<[e_nname x := e]> (c_dntree (cache s))).
    rewrite lookup_insert_Some, elem_of_cons, Hwdn.
    destruct (decide (p = e)) as [->|Hpe].
    + rewrite Hne_n. naive_solver.
    + rewrite (same_view_name_at s (upd_cache _ sh) p) by (by apply Hne).
      split; [naive_solver|]. intros [[?|Hpl] Hn]; [done|].
      right. split; [|done]. intros <-.
      assert (c_dntree (cache s) !! e_nname x = Some p) by (by apply Hwdn).
      congruence.
  - intros k p. simpl c_idtree. rewrite Hi.
    change (c_idtree (cache sf))
      with (<[e_id x := e]> (c_idtree (cache s))).
    rewrite lookup_insert_Some, elem_of_cons, Hwid.
    destruct (decide (p = e)) as [->|Hpe].
    + rewrite Hne_i. naive_solver.
    + rewrite (same_view_id_at s (upd_cache _ sh) p) by (by apply Hne).
      split; [naive_solver|]. intros [[?|Hpl] Hn]; [done|].
      right. split; [|done]. intros <-.
      assert (c_idtree (cache s) !! e_id x = Some p) by (by apply Hwid).
      congruence.
  - intros p [->|Hpl]%elem_of_cons.
    + rewrite Hne_s. eexists. split; [done|]. by left.
    + assert (p ≠ e) by (by intros ->).
      rewrite (same_view_state_at s (upd_cache _ sh) p) by (by apply Hne).
      auto.
  - intros p st Hst [Hpe Hpl]%not_elem_of_cons.
    rewrite (same_view_state_at s (upd_cache _ sh) p) in Hst
      by (by apply Hne).
    eauto.
  - intros p n. destruct (decide (p = e)) as [->|Hpe].
    + rewrite view_refcnt_at, Hve. intros [= <-].
      apply (Hcnt e). by apply refcnt_at_slot.
    + rewrite (same_view_refcnt_at s (upd_cache _ sh) p) by (by apply Hne).
      apply Hcnt.
Qed.

Lemma cache_update_entry_Done s l e x i :
  cache_inv s l →
  heap s !! e = Some x → e_private x = Some i →
  c_dntree (cache s) !! e_nname x = None →
  c_idtree (cache s) !! e_id x = None →
  let l' := make_room_list (inuse s) (c_maxsize (cache s)) (e :: l) in
  ∃ s', cache_update_entry e s = Done 0 s' ∧
        cache_inv s' l' ∧
        (∀ p, p ∈ e :: l → p ∉ l' → view s' p = None) ∧
        (∀ p, (p ∈ e :: l → p ∈ l') →
              view s' p =
                if decide (p = e)
                then Some (e_id x, e_nname x,
                           Some (lei_rdwr i, CACHE_ENTRY_CREATING,
                                 lei_refcnt i))
                else view s p) ∧
        c_maxsize (cache s') = c_maxsize (cache s).
Proof.
  intros [Hm Hwf] Hx Hp Hdn Hid l'.
  set (sa := upd_cache (with_mutex true) s).
  pose proof (cache_wf_mutex s l true Hwf) as Hwfa. fold sa in Hwfa.
  assert (slot sa e = Some i) as Hse by (unfold slot; simpl; by rewrite Hx).
  pose proof (free_name_off_queue _ _ _ _ Hwf Hx Hdn) as He.
  pose proof (update_state_wf l e x i sa Hwfa Hx Hp Hdn Hid) as Hwf1.
  pose proof (update_state_view l e x sa) as Hv1.
  assert (view s e = Some (e_id x, e_nname x, Some (slot_core i))) as Hve.
  { unfold view. rewrite Hx. simpl. by rewrite Hp. }
  set (s1 := update_state l e x sa) in *.
  assert (∀ p, inuse s1 p = inuse s p) as Hpin.
  { intros p. unfold inuse. rewrite !view_refcnt_at, Hv1.
    case_decide as Hpe; [|done]. subst p.
    change (view sa e) with (view s e). by rewrite Hve. }
  destruct (lru_make_room_Done s1 _ Hwf1)
    as (s2 & Hs2 & Hwf2 & Hgone & Hkept & Hm2 & Hx2).
  assert (c_maxsize (cache s1) = c_maxsize (cache s)) as Hm1
    by exact (update_state_maxsize l e x sa).
  rewrite Hm1 in Hwf2, Hgone, Hkept.
  rewrite (requeue_evict_ext (inuse s1) (inuse s)) in Hwf2, Hgone, Hkept
    by done.
  fold l' in Hwf2, Hgone, Hkept.
  exists (upd_cache (with_mutex false) s2).
  split; [|split; [|split; [|split]]].
  - unfold cache_update_entry. step (mutex_lock_Done s Hm). fold sa.
    step (LEI_Done _ _ _ Hse).
    unfold avl_insert_dn. rewrite !bind_assoc.
    step (load_Done sa _ _ Hx). rewrite bind_assoc.
    step (get_cache_Done sa).
    change (c_dntree (cache sa)) with (c_dntree (cache s)). rewrite Hdn.
    rewrite bind_assoc.
    step (set_cache_Done sa
            (with_dntree (<[e_nname x := e]> (c_dntree (cache s))))).
    set (sc := upd_cache _ sa). rewrite bind_ret.
    change (negb (0 =? 0)) with false. cbv iota.
    unfold avl_insert_id. rewrite !bind_assoc.
    step (load_Done sc _ _ Hx). rewrite bind_assoc.
    step (get_cache_Done sc).
    change (c_idtree (cache sc)) with (c_idtree (cache s)). rewrite Hid.
    rewrite bind_assoc.
    step (set_cache_Done sc
            (with_idtree (<[e_id x := e]> (c_idtree (cache s))))).
    set (sd := upd_cache _ sc). rewrite bind_ret.
    change (negb (0 =? 0)) with false. cbv iota.
    assert (is_Some (slot sd e)) as Hsd by (exists i; exact Hse).
    step (set_LEI_Done sd e (with_state CACHE_ENTRY_CREATING) Hsd).
    set (sf := upd_slot e (with_state _) sd).
    assert (is_Some (slot sf e)) as Hsf.
    { unfold sf. rewrite slot_upd_slot, decide_True by done.
      by apply fmap_is_Some. }
    assert (lru_wf sf l) as Hlru.
    { eapply lru_wf_ext; [apply Hwfa|done..|].
      intros p Hpl. assert (p ≠ e) by (by intros ->).
      unfold sf. by rewrite !links_upd_ne by done. }
    step (LRU_ADD_Done sf l e Hlru He Hsf).
    step (get_cache_Done (lru_add_state l e sf)).
    step (set_cache_Done (lru_add_state l e sf)
            (with_cursize (c_cursize (cache (lru_add_state l e sf)) + 1))).
    change (upd_cache _ (lru_add_state l e sf)) with s1.
    step Hs2. by step (mutex_unlock_Done s2).
  - split; [done|]. by apply cache_wf_mutex.
  - intros p Hp1 Hp2. rewrite view_upd_cache_any. by apply Hgone.
  - intros p Hp1. rewrite view_upd_cache_any, Hkept by done.
    rewrite Hv1. case_decide; [|done].
    change (view sa e) with (view s e). by rewrite Hve.
  - simpl. congruence.
Qed.

Lemma make_room_list_fits pin m l :
  Z.of_nat (length l) ≤ m → make_room_list pin m l = l.
Proof.
  intros Hle. unfold make_room_list.
  by replace (m <? Z.of_nat (length l)) with false
    by (symmetry; apply Z.ltb_ge; lia).
Qed.
End update.

(** X6: [cache_update_entry] refuses an entry whose keys are taken.
    When the name of the entry is in the name index the result is 1;
    when the name is free and the identifier is in the id index the
    name is taken out again and the result is -1.  In both cases the
    cache and the entry are as they were; unlike the insertion, the
    private block of the entry is kept.  In particular an entry that is
    in the cache cannot be put in a second time. *)
Theorem update_entry_duplicate
  (s : State) (e : positive) (x : Entry) (i : EntryInfo) :
  c_mutex (cache s) = false →
  heap s !! e = Some x → e_private x = Some i →
  (is_Some (c_dntree (cache s) !! e_nname x) →
   cache_update_entry e s = Done 1 s) ∧
  (c_dntree (cache s) !! e_nname x = None →
   is_Some (c_idtree (cache s) !! e_id x) →
   cache_update_entry e s = Done (-1) s) ∧
  (∀ l, cache_wf s l → e ∈ l → cache_update_entry e s = Done 1 s).
Proof.
  intros Hm Hx Hp.
  set (sa := upd_cache (with_mutex true) s).
  assert (slot sa e = Some i) as Hse by (unfold slot; simpl; by rewrite Hx).
  assert (is_Some (c_dntree (cache s) !! e_nname x) →
          cache_update_entry e s = Done 1 s) as Hdup.
  { intros [d Hd]. unfold cache_update_entry.
    step (mutex_lock_Done s Hm). fold sa.
    step (LEI_Done _ _ _ Hse).
    unfold avl_insert_dn. rewrite !bind_assoc.
    step (load_Done sa _ _ Hx). rewrite bind_assoc.
    step (get_cache_Done sa).
    change (c_dntree (cache sa)) with (c_dntree (cache s)). rewrite Hd.
    rewrite bind_ret. change (negb (-1 =? 0)) with true. cbv iota.
    step (mutex_unlock_Done sa). unfold ret. f_equal.
    by apply unlock_lock. }
  split; [done|]. split.
  - intros Hd [d Hi]. unfold cache_update_entry.
    step (mutex_lock_Done s Hm). fold sa.
    step (LEI_Done _ _ _ Hse).
    unfold avl_insert_dn. rewrite !bind_assoc.
    step (load_Done sa _ _ Hx). rewrite bind_assoc.
    step (get_cache_Done sa).
    change (c_dntree (cache sa)) with (c_dntree (cache s)). rewrite Hd.
    rewrite bind_assoc.
    step (set_cache_Done sa
            (with_dntree (<[e_nname x := e]> (c_dntree (cache s))))).
    set (sc := upd_cache _ sa). rewrite bind_ret.
    change (negb (0 =? 0)) with false. cbv iota.
    unfold avl_insert_id. rewrite !bind_assoc.
    step (load_Done sc _ _ Hx). rewrite bind_assoc.
    step (get_cache_Done sc).
    change (c_idtree (cache sc)) with (c_idtree (cache s)). rewrite Hi.
    rewrite bind_ret. change (negb (-1 =? 0)) with true. cbv iota.
    unfold avl_delete_dn. rewrite !bind_assoc.
    step (load_Done sc _ _ Hx). rewrite bind_assoc.
    step (get_cache_Done sc).
    change (c_dntree (cache sc))
      with (<[e_nname x := e]> (c_dntree (cache s))).
    rewrite lookup_insert_eq. rewrite bind_assoc.
    step (set_cache_Done sc
            (with_dntree (delete (e_nname x)
                            (<[e_nname x := e]> (c_dntree (cache s)))))).
    set (sd := upd_cache _ sc). rewrite bind_ret.
    step (mutex_unlock_Done sd). unfold ret. f_equal.
    apply State_eq; [done|]. simpl.
    rewrite delete_insert_eq, delete_id by done.
    destruct (cache s). simpl in *. by subst.
  - intros l Hwf He. apply Hdup.
    destruct (cache_wf_resident s l e x Hwf He Hx) as [Hd _]. eauto.
Qed.

Lemma update_entry_duplicate_witness :
  cache_update_entry 7 one_settled = Done 1 one_settled.
Proof.
  destruct (update_entry_duplicate one_settled 7
              (mkEntry 70 "g"
                 (Some (mkEntryInfo (Rdwr 0 false) CACHE_ENTRY_READY 0
                          None None)))
              (mkEntryInfo (Rdwr 0 false) CACHE_ENTRY_READY 0 None None))
    as (Hdup & _ & _).
  - reflexivity.
  - vm_compute. reflexivity.
  - reflexivity.
  - apply Hdup. vm_compute. eauto.
Defined.

(** X7: [cache_update_entry] of an entry that has a private block and
    whose name and identifier are free (a deleted entry that its caller
    still holds) returns 0.  The entry was off the queue, in state
    Deleted; it is put at the head of the queue, in both indexes and in
    state Creating, with its reference count and its lock as they were,
    and the eviction of the insertion path is run with c_cursize one
    higher.  An entry that is referenced comes through the eviction,
    and when the cache had room the queue is just the old one behind
    the entry. *)
Theorem update_entry_success
  (s : State) (l : list positive) (e : positive) (x : Entry)
  (i : EntryInfo) :
  cache_inv s l →
  heap s !! e = Some x → e_private x = Some i →
  c_dntree (cache s) !! e_nname x = None →
  c_idtree (cache s) !! e_id x = None →
  let l' := make_room_list (inuse s) (c_maxsize (cache s)) (e :: l) in
  ∃ s',
    cache_update_entry e s = Done 0 s' ∧
    e ∉ l ∧ state_at s e = Some CACHE_ENTRY_DELETED ∧
    cache_inv s' l' ∧
    (e ∈ l' →
     view s' e = Some (e_id x, e_nname x,
                       Some (lei_rdwr i, CACHE_ENTRY_CREATING,
                             lei_refcnt i)) ∧
     c_dntree (cache s') !! e_nname x = Some e ∧
     c_idtree (cache s') !! e_id x = Some e) ∧
    (lei_refcnt i ≠ 0 → e ∈ l') ∧
    (c_cursize (cache s) < c_maxsize (cache s) → l' = e :: l) ∧
    (∀ p, p ≠ e → (p ∈ l → p ∈ l') → view s' p = view s p) ∧
    (∀ p, p ∈ e :: l → p ∉ l' → heap s' !! p = None).
Proof.
  intros Hinv Hx Hp Hdn Hid l'. pose proof Hinv as [Hm Hwf].
  destruct (cache_update_entry_Done s l e x i Hinv Hx Hp Hdn Hid)
    as (s' & Hs' & Hinv' & Hgone & Hkept & _).
  fold l' in Hinv', Hgone, Hkept.
  assert (slot s e = Some i) as Hse by (unfold slot; by rewrite Hx).
  pose proof (free_name_off_queue _ _ _ _ Hwf Hx Hdn) as He.
  exists s'. split; [done|]. split; [done|]. split.
  { rewrite (state_at_slot _ _ _ Hse). f_equal.
    apply (wf_dead _ _ Hwf e); [|done]. by apply state_at_slot. }
  split; [done|]. split.
  { intros Hel. pose proof (Hkept e (λ _, Hel)) as Hve.
    rewrite decide_True in Hve by done. split; [done|].
    destruct (view_slot_fields _ _ _ _ _ _ _ Hve) as (j & Hj & _).
    destruct (slot_heap _ _ _ Hj) as (y & Hy & _).
    destruct (cache_wf_resident s' l' e y (proj2 Hinv') Hel Hy) as [Hd Hi].
    apply id_at_view in Hve as Hide. apply name_at_view in Hve as Hnme.
    unfold id_at, name_at in Hide, Hnme. rewrite Hy in Hide, Hnme.
    injection Hide as <-. injection Hnme as <-. done. }
  split.
  { intros Hn. apply make_room_list_pinned; [|left].
    unfold inuse. rewrite (refcnt_at_slot _ _ _ Hse).
    by apply negb_true_iff, Z.eqb_neq. }
  split.
  { intros Hroom. apply make_room_list_fits. simpl.
    rewrite (wf_size _ _ Hwf) in Hroom. lia. }
  split.
  { intros p Hpe Hpl. rewrite Hkept, decide_False; [done..|].
    intros [?|?]%elem_of_cons; [done|auto]. }
  intros p Hp1 Hp2. by apply view_heap_None, Hgone.
Qed.

(** Entry 7 has been looked up and then deleted: it is a tombstone that
    its caller still holds. *)
Definition one_tombstone : State :=
  Eval vm_compute in
    match exec_all [NewEntry 7 70 "g"; Insert 0 7 true; Commit 7;
                    Release 7 true; LookupId 70 true; Delete 7]
            (cache_start 4) with
    | Done _ s => s
    | _ => cache_start 4
    end.

Lemma one_tombstone_inv : cache_inv one_tombstone [].
Proof.
  destruct (reached_cache_inv 4
              [NewEntry 7 70 "g"; Insert 0 7 true; Commit 7;
               Release 7 true; LookupId 70 true; Delete 7]
              one_tombstone) as [l Hinv].
  - vm_compute. repeat split. exists 70. vm_compute. reflexivity.
  - vm_compute. reflexivity.
  - pose proof (wf_size _ _ (proj2 Hinv)) as Hsz.
    destruct l; [done|]. vm_compute in Hsz. lia.
Qed.

Lemma update_entry_success_witness :
  ∃ s',
    cache_update_entry 7 one_tombstone = Done 0 s' ∧
    cache_inv s' [7%positive] ∧
    view s' 7 = Some (70, "g", Some (Rdwr 0 true, CACHE_ENTRY_CREATING, 1)).
Proof.
  destruct (update_entry_success one_tombstone [] 7
              (mkEntry 70 "g"
                 (Some (mkEntryInfo (Rdwr 0 true) CACHE_ENTRY_DELETED 1
                          None None)))
              (mkEntryInfo (Rdwr 0 true) CACHE_ENTRY_DELETED 1 None None)
              one_tombstone_inv)
    as (s' & Hs' & _ & _ & Hinv' & Hin & _).
  - vm_compute. reflexivity.
  - reflexivity.
  - vm_compute. reflexivity.
  - vm_compute. reflexivity.
  - exists s'. split; [exact Hs'|]. split; [exact Hinv'|].
    apply Hin. apply list_elem_of_singleton. reflexivity.
Defined.

Section update_after_delete.
Implicit Types (s : State) (e p q : positive) (l : list positive).

Lemma view_heap_entry s p id nm c :
  view s p = Some (id, nm, Some c) →
  ∃ y j, heap s !! p = Some y ∧ e_private y = Some j ∧
         e_id y = id ∧ e_nname y = nm ∧ slot_core j = c.
Proof.
  unfold view. destruct (heap s !! p) as [y|]; [|done]. simpl.
  destruct (e_private y) as [j|] eqn:Ej; [|done]. simpl.
  intros [= <- <- <-]. eauto 10.
Qed.
End update_after_delete.

(** X8: [cache_update_entry] undoes [cache_delete_entry].  For an entry
    of a cache that is not over its size, the delete followed by the
    update both return 0 and leave both indexes and c_cursize as they
    were before the delete; the entry is back on the queue, at its
    head, with its reference count and its lock, in state Creating, and
    the other entries have not changed. *)
Theorem delete_then_update
  (s : State) (l : list positive) (e : positive) (x : Entry)
  (i : EntryInfo) :
  cache_inv s l → e ∈ l →
  heap s !! e = Some x → e_private x = Some i →
  c_cursize (cache s) ≤ c_maxsize (cache s) →
  ∃ s1 s2,
    cache_delete_entry e s = Done 0 s1 ∧
    cache_update_entry e s1 = Done 0 s2 ∧
    cache_inv s2 (e :: lru_del e l) ∧
    view s2 e = Some (e_id x, e_nname x,
                      Some (lei_rdwr i, CACHE_ENTRY_CREATING,
                            lei_refcnt i)) ∧
    (∀ p, p ≠ e → view s2 p = view s p) ∧
    c_dntree (cache s2) = c_dntree (cache s) ∧
    c_idtree (cache s2) = c_idtree (cache s) ∧
    c_cursize (cache s2) = c_cursize (cache s).
Proof.
  intros Hinv He Hx Hp Hroom. pose proof Hinv as [Hm Hwf].
  destruct (cache_delete_entry_Done s l e Hinv He)
    as (s1 & Hs1 & Hinv1 & Hv1 & Hm1).
  assert (view s e = Some (e_id x, e_nname x, Some (slot_core i))) as Hve.
  { unfold view. rewrite Hx. simpl. by rewrite Hp. }
  assert (view s1 e = Some (e_id x, e_nname x,
                            Some (lei_rdwr i, CACHE_ENTRY_DELETED,
                                  lei_refcnt i))) as Hve1.
  { by rewrite Hv1, decide_True, Hve. }
  destruct (view_heap_entry _ _ _ _ _ Hve1)
    as (y & j & Hy & Hj & Hidy & Hnmy & Hcj).
  apply slot_core_inv in Hcj as (Hrj & Hstj & Hnj).
  destruct (detached_keys_absent s s1 l e x Hwf (proj2 Hinv1) He Hx)
    as [Hdn Hid].
  { intros p Hpe. by rewrite Hv1, decide_False. }
  rewrite <- Hnmy in Hdn. rewrite <- Hidy in Hid.
  destruct (cache_update_entry_Done s1 (lru_del e l) e y j Hinv1 Hy Hj
              Hdn Hid) as (s2 & Hs2 & Hinv2 & _ & Hkept & _).
  pose proof (cache_wf_NoDup _ _ Hwf) as Hnd.
  pose proof (length_lru_del e l Hnd He) as Hlen.
  assert (Z.of_nat (length (e :: lru_del e l)) ≤ c_maxsize (cache s1))
    as Hfit.
  { rewrite Hm1. simpl length. rewrite Hlen.
    by rewrite <- (wf_size _ _ Hwf). }
  rewrite (make_room_list_fits _ _ _ Hfit) in Hinv2, Hkept.
  assert (∀ p, view s2 p =
               if decide (p = e)
               then Some (e_id x, e_nname x,
                          Some (lei_rdwr i, CACHE_ENTRY_CREATING,
                                lei_refcnt i))
               else view s p) as Hv2.
  { intros p. rewrite Hkept by done. case_decide.
    - by rewrite Hidy, Hnmy, Hrj, Hnj.
    - by rewrite Hv1, decide_False. }
  destruct (cache_wf_same_index s s2 l (e :: lru_del e l) Hwf (proj2 Hinv2))
    as (Hd2 & Hi2 & Hc2).
  { intros p. by apply elem_of_touch. }
  { intros p _. rewrite !view_id_at, !view_name_at, Hv2.
    case_decide; [subst p; by rewrite Hve|done]. }
  exists s1, s2. split; [done|]. split; [done|]. split; [done|].
  split; [by rewrite Hv2, decide_True|].
  split; [intros p Hpe; by rewrite Hv2, decide_False|done].
Qed.

Lemma delete_then_update_witness :
  ∃ s1 s2,
    cache_delete_entry 7 one_settled = Done 0 s1 ∧
    cache_update_entry 7 s1 = Done 0 s2 ∧
    cache_inv s2 [7%positive] ∧
    c_cursize (cache s2) = c_cursize (cache one_settled).
Proof.
  destruct (delete_then_update one_settled [7%positive] 7
              (mkEntry 70 "g"
                 (Some (mkEntryInfo (Rdwr 0 false) CACHE_ENTRY_READY 0
                          None None)))
              (mkEntryInfo (Rdwr 0 false) CACHE_ENTRY_READY 0 None None)
              one_settled_inv)
    as (s1 & s2 & H1 & H2 & Hinv2 & _ & _ & _ & _ & Hsz).
  - apply list_elem_of_singleton. reflexivity.
  - vm_compute. reflexivity.
  - reflexivity.
  - vm_compute. discriminate.
  - exists s1, s2. split; [exact H1|]. split; [exact H2|].
    split; [exact Hinv2|exact Hsz].
Defined.

(** ** [cache_release_all] *)

Section drain.
Implicit Types (s : State) (e p q : positive) (l : list positive)
  (pin : positive → bool).

(** With enough rounds the second kind of loop removes the longest
    unused stretch at the tail of the queue. *)
Lemma evict_list_all pin n l :
  NoDup l → (length l ≤ n)%nat →
  ∃ gone, l = evict_list pin n l ++ gone ∧
          (∀ p, p ∈ gone → pin p = false) ∧
          (∀ t, last (evict_list pin n l) = Some t → pin t = true).
Proof.
  revert l. induction n as [|n IH]; intros l Hnd Hlen.
  { destruct l; [|simpl in Hlen; lia]. exists []. split; [done|].
    split; [by intros p ?%elem_of_nil|done]. }
  simpl. destruct (last l) as [t|] eqn:Et; last first.
  { apply last_None in Et as ->. exists []. split; [done|].
    split; [by intros p ?%elem_of_nil|done]. }
  destruct (pin t) eqn:Ep.
  { exists []. rewrite app_nil_r. split; [done|].
    split; [by intros p ?%elem_of_nil|]. intros t'. rewrite Et.
    by intros [= <-]. }
  apply last_Some in Et as [l0 ->].
  rewrite lru_del_snoc by done.
  apply NoDup_app in Hnd as (Hnd0 & _ & _).
  rewrite length_app in Hlen. simpl in Hlen.
  destruct (IH l0 Hnd0 ltac:(lia)) as (gone & Hl0 & Hgone & Hlast).
  exists (gone ++ [t]). split; [|split; [|done]].
  - rewrite app_assoc. by rewrite <- Hl0.
  - intros p [?|Hp%list_elem_of_singleton]%elem_of_app; [auto|by subst].
Qed.
End drain.

(** X9: [cache_release_all] removes entries from the tail of the LRU
    queue for as long as the tail is unused.  The queue splits into the
    entries that stay and the stretch at its tail that goes: every
    entry that goes was unused and is freed, the last entry that stays
    is in use, and the entries that stay are as they were.  When no
    entry is in use the cache ends empty: no queue, both indexes empty
    and c_cursize 0. *)
Theorem release_all_behaviour (s : State) (l : list positive) :
  cache_inv s l →
  ∃ s' kept gone,
    cache_release_all s = Done tt s' ∧
    l = kept ++ gone ∧
    (∀ p, p ∈ gone → inuse s p = false ∧ heap s' !! p = None) ∧
    (∀ t, last kept = Some t → inuse s t = true) ∧
    cache_inv s' kept ∧
    (∀ p, p ∉ gone → view s' p = view s p) ∧
    ((∀ p, p ∈ l → inuse s p = false) →
     kept = [] ∧ c_cursize (cache s') = 0 ∧
     c_dntree (cache s') = ∅ ∧ c_idtree (cache s') = ∅ ∧
     c_lruhead (cache s') = None ∧ c_lrutail (cache s') = None).
Proof.
  intros Hinv. pose proof Hinv as [Hm Hwf].
  pose proof (cache_wf_NoDup _ _ Hwf) as Hnd.
  destruct (cache_release_all_Done s l Hinv)
    as (s' & Hs' & Hinv' & Hgone & Hkept & _).
  destruct (evict_list_all (inuse s) (length l) l Hnd (le_n _))
    as (gone & Hl & Hunused & Hlast).
  set (kept := evict_list (inuse s) (length l) l) in *.
  assert (∀ p, p ∈ gone → p ∈ l ∧ p ∉ kept) as Hsplit.
  { intros p Hp. split; [rewrite Hl, elem_of_app; by right|].
    intros Hk. rewrite Hl in Hnd. apply NoDup_app in Hnd as (_ & Hd & _).
    by apply (Hd p). }
  exists s', kept, gone. split; [done|]. split; [done|]. split.
  { intros p Hp. split; [by apply Hunused|].
    destruct (Hsplit p Hp). by apply view_heap_None, Hgone. }
  split; [done|]. split; [done|]. split.
  { intros p Hp. apply Hkept. rewrite Hl, elem_of_app. tauto. }
  intros Hidle.
  assert (kept = []) as Hnil.
  { destruct (last kept) as [t|] eqn:Et; [|by apply last_None].
    assert (t ∈ l) as Ht.
    { rewrite Hl, elem_of_app. left. by apply last_elem. }
    specialize (Hlast t eq_refl). by rewrite (Hidle t Ht) in Hlast. }
  rewrite Hnil in Hinv'. destruct Hinv' as [_ Hwf'].
  split; [done|]. split; [by rewrite (wf_size _ _ Hwf')|].
  split; [|split; [|split]].
  - apply map_eq. intros k. rewrite lookup_empty. apply option_eq.
    intros p. rewrite (wf_dn _ _ Hwf'). split; [|done].
    by intros [?%elem_of_nil _].
  - apply map_eq. intros k. rewrite lookup_empty. apply option_eq.
    intros p. rewrite (wf_id _ _ Hwf'). split; [|done].
    by intros [?%elem_of_nil _].
  - by rewrite (cache_wf_head _ _ Hwf').
  - by rewrite (cache_wf_tail _ _ Hwf').
Qed.

Lemma release_all_behaviour_witness :
  ∃ s' kept gone,
    cache_release_all two_resident = Done tt s' ∧
    [8%positive; 7%positive] = kept ++ gone ∧
    (∀ p, p ∈ gone → inuse two_resident p = false ∧ heap s' !! p = None) ∧
    (∀ t, last kept = Some t → inuse two_resident t = true) ∧
    cache_inv s' kept.
Proof.
  destruct (release_all_behaviour two_resident [8%positive; 7%positive]
              two_resident_inv)
    as (s' & kept & gone & H1 & H2 & H3 & H4 & H5 & _).
  exists s', kept, gone. split; [exact H1|]. split; [exact H2|].
  split; [exact H3|]. split; [exact H4|exact H5].
Defined.

(** ** [cache_delete_entry] on an entry that is not in the cache *)

Section delete_absent.
Implicit Types (s : State) (e p q : positive) (l : list positive).

Lemma cache_delete_entry_absent s e x i :
  c_mutex (cache s) = false →
  heap s !! e = Some x → e_private x = Some i →
  c_dntree (cache s) !! e_nname x = None →
  c_idtree (cache s) !! e_id x = None →
  cache_delete_entry e s = Done (-1) s.
Proof.
  intros Hm Hx Hp Hdn Hid. unfold cache_delete_entry.
  step (mutex_lock_Done s Hm). set (sa := upd_cache (with_mutex true) s).
  assert (slot sa e = Some i) as Hse by (unfold slot; simpl; by rewrite Hx).
  step (LEI_Done _ _ _ Hse).
  unfold cache_delete_entry_internal, avl_delete_dn, avl_delete_id.
  rewrite !bind_assoc.
  step (load_Done sa _ _ Hx). rewrite bind_assoc.
  step (get_cache_Done sa).
  change (c_dntree (cache sa)) with (c_dntree (cache s)). rewrite Hdn.
  rewrite bind_ret. rewrite !bind_assoc.
  step (load_Done sa _ _ Hx). rewrite bind_assoc.
  step (get_cache_Done sa).
  change (c_idtree (cache sa)) with (c_idtree (cache s)). rewrite Hid.
  rewrite bind_ret. change (negb (-1 =? 0)) with true. cbv iota.
  rewrite bind_ret.
  step (mutex_unlock_Done sa). unfold ret. f_equal. by apply unlock_lock.
Qed.
End delete_absent.

(** X10: a second [cache_delete_entry] of the same entry fails.  The
    delete of an entry of the cache returns 0; the entry keeps its
    private block, so it can be handed to [cache_delete_entry] again,
    and as long as nobody has taken its name or its identifier that
    second call returns -1 and changes nothing. *)
Theorem delete_twice
  (s : State) (l : list positive) (e : positive) :
  cache_inv s l → e ∈ l →
  ∃ s1,
    cache_delete_entry e s = Done 0 s1 ∧
    cache_inv s1 (lru_del e l) ∧
    cache_delete_entry e s1 = Done (-1) s1.
Proof.
  intros Hinv He. pose proof Hinv as [Hm Hwf].
  destruct (cache_delete_entry_Done s l e Hinv He)
    as (s1 & Hs1 & Hinv1 & Hv1 & _).
  destruct (cache_wf_slot _ _ _ Hwf He) as [i Hi].
  destruct (slot_heap _ _ _ Hi) as (x & Hx & Hp & _).
  assert (view s1 e = Some (e_id x, e_nname x,
                            Some (lei_rdwr i, CACHE_ENTRY_DELETED,
                                  lei_refcnt i))) as Hve1.
  { rewrite Hv1, decide_True by done. unfold view. rewrite Hx. simpl.
    by rewrite Hp. }
  destruct (view_heap_entry _ _ _ _ _ Hve1)
    as (y & j & Hy & Hj & Hidy & Hnmy & _).
  destruct (detached_keys_absent s s1 l e x Hwf (proj2 Hinv1) He Hx)
    as [Hdn Hid].
  { intros p Hpe. by rewrite Hv1, decide_False. }
  rewrite <- Hnmy in Hdn. rewrite <- Hidy in Hid.
  exists s1. split; [done|]. split; [done|].
  by apply (cache_delete_entry_absent s1 e y j (proj1 Hinv1)).
Qed.

Lemma delete_twice_witness :
  ∃ s1,
    cache_delete_entry 7 one_settled = Done 0 s1 ∧
    cache_inv s1 [] ∧
    cache_delete_entry 7 s1 = Done (-1) s1.
Proof.
  apply (delete_twice one_settled [7%positive] 7 one_settled_inv).
  apply list_elem_of_singleton. reflexivity.
Defined.

(** ** The LRU macros *)

(** X11: LRU_DELETE unlinks one entry of the queue.  The neighbours
    of the entry, or the head and tail pointers of the cache where it
    has none, are joined: the links thread the queue without the entry,
    in the same order.  Nothing else is written: the indexes, the sizes
    and what the state says about every entry are as before, and the
    link fields of the entry itself still hold its former
    neighbours. *)
Theorem LRU_DELETE_unlinks (s : State) (l : list positive) (e : positive) :
  lru_wf s l → e ∈ l →
  ∃ s',
    LRU_DELETE e s = Done tt s' ∧
    lru_wf s' (lru_del e l) ∧
    same_view s s' ∧ same_index s s' ∧
    links s' e = Some (succ_in l e, pred_in l e).
Proof.
  intros Hwf He. exists (lru_delete_state l e s).
  split; [by apply LRU_DELETE_Done|].
  split; [by apply lru_delete_state_wf|].
  split; [apply lru_delete_state_view|].
  split; [apply lru_delete_state_index|].
  pose proof Hwf as (Hnd & _ & _ & Hl).
  unfold lru_delete_state.
  destruct (succ_in l e) as [n|] eqn:En, (pred_in l e) as [p|] eqn:Ep.
  - rewrite !links_upd_ne, Hl, En, Ep; [done..| |].
    + intros ->. by eapply pred_in_not_self.
    + intros ->. by eapply succ_in_not_self.
  - rewrite links_upd_ne, links_upd_cache, Hl, En, Ep; [done..|].
    intros ->. by eapply succ_in_not_self.
  - rewrite links_upd_cache, links_upd_ne, Hl, En, Ep; [done..|].
    intros ->. by eapply pred_in_not_self.
  - by rewrite !links_upd_cache, Hl, En, Ep.
Qed.

Lemma LRU_DELETE_unlinks_witness :
  ∃ s',
    LRU_DELETE 7 two_resident = Done tt s' ∧
    lru_wf s' [8%positive] ∧
    same_view two_resident s' ∧ same_index two_resident s' ∧
    links s' 7 = Some (None, Some 8%positive).
Proof.
  apply (LRU_DELETE_unlinks two_resident [8%positive; 7%positive] 7).
  - apply two_resident_inv.
  - apply elem_of_cons. right. apply list_elem_of_singleton. reflexivity.
Defined.

(** X12: LRU_ADD puts an entry that is not on the queue at its head,
    and LRU_DELETE takes it off again: after the two the links thread
    the queue that was there before, from the same head to the same
    tail, and the indexes, the sizes and what the state says about
    every entry have not changed. *)
Theorem LRU_ADD_then_LRU_DELETE
  (s : State) (l : list positive) (e : positive) :
  lru_wf s l → e ∉ l → is_Some (slot s e) →
  ∃ s1 s2,
    LRU_ADD e s = Done tt s1 ∧
    lru_wf s1 (e :: l) ∧ c_lruhead (cache s1) = Some e ∧
    LRU_DELETE e s1 = Done tt s2 ∧
    lru_wf s2 l ∧
    c_lruhead (cache s2) = c_lruhead (cache s) ∧
    c_lrutail (cache s2) = c_lrutail (cache s) ∧
    same_view s s2 ∧ same_index s s2.
Proof.
  intros Hwf He Hs.
  pose proof (lru_add_state_wf s l e Hwf He Hs) as Hwf1.
  set (s1 := lru_add_state l e s) in *.
  assert (e ∈ e :: l) as He1 by left.
  pose proof (lru_delete_state_wf s1 (e :: l) e Hwf1 He1) as Hwf2.
  rewrite lru_del_cons_eq, lru_del_notin in Hwf2 by done.
  exists s1, (lru_delete_state (e :: l) e s1).
  split; [by apply LRU_ADD_Done|]. split; [done|].
  split; [by destruct Hwf1 as (_ & -> & _)|].
  split; [by apply LRU_DELETE_Done|]. split; [done|].
  destruct Hwf as (_ & Hh & Ht & _). destruct Hwf2 as (_ & Hh2 & Ht2 & _).
  split; [congruence|]. split; [congruence|]. split.
  - intros p. by rewrite lru_delete_state_view, (lru_add_state_view s l e).
  - destruct (lru_add_state_index s l e) as (A1 & A2 & A3 & A4 & A5).
    destruct (lru_delete_state_index s1 (e :: l) e)
      as (B1 & B2 & B3 & B4 & B5).
    unfold same_index. fold s1 in A1, A2, A3, A4, A5.
    rewrite B1, B2, B3, B4, B5. done.
Qed.

Lemma LRU_ADD_then_LRU_DELETE_witness :
  ∃ s1 s2,
    LRU_ADD 7 one_tombstone = Done tt s1 ∧
    lru_wf s1 [7%positive] ∧ c_lruhead (cache s1) = Some 7%positive ∧
    LRU_DELETE 7 s1 = Done tt s2 ∧
    lru_wf s2 [] ∧
    c_lruhead (cache s2) = c_lruhead (cache one_tombstone) ∧
    c_lrutail (cache s2) = c_lrutail (cache one_tombstone) ∧
    same_view one_tombstone s2 ∧ same_index one_tombstone s2.
Proof.
  apply (LRU_ADD_then_LRU_DELETE one_tombstone [] 7).
  - apply one_tombstone_inv.
  - apply not_elem_of_nil.
  - vm_compute. eauto.
Defined.

(** ** What holds in every state the cache reaches *)

(** X13: no two entries of the cache share a name or an identifier.
    In every state reached from an empty cache by a sequence of calls
    (with the deletes made on entries of the cache), two entries of the
    LRU queue with the same identifier, or with the same name, are the
    same entry. *)
Theorem resident_keys_unique
  (maxsize : Z) (cs : list call) (s : State) :
  well_used cs (cache_start maxsize) →
  exec_all cs (cache_start maxsize) = Done tt s →
  ∃ l, lru_wf s l ∧
       ∀ p q, p ∈ l → q ∈ l →
              id_at s p = id_at s q ∨ name_at s p = name_at s q → p = q.
Proof.
  intros Hok Hrun.
  destruct (reached_cache_inv maxsize cs s Hok Hrun) as (l & _ & Hwf).
  exists l. split; [apply Hwf|]. intros p q Hp Hq Hsame.
  destruct (cache_wf_slot _ _ _ Hwf Hp) as [i Hi].
  destruct (slot_heap _ _ _ Hi) as (x & Hx & _ & Hidp & Hnmp).
  destruct (cache_wf_resident s l p x Hwf Hp Hx) as [Hdn Hid].
  destruct Hsame as [Hsame|Hsame].
  - rewrite Hidp in Hsame.
    assert (c_idtree (cache s) !! e_id x = Some q) as Hid'
      by (by apply (wf_id _ _ Hwf)).
    congruence.
  - rewrite Hnmp in Hsame.
    assert (c_dntree (cache s) !! e_nname x = Some q) as Hdn'
      by (by apply (wf_dn _ _ Hwf)).
    congruence.
Qed.

Lemma resident_keys_unique_witness :
  ∃ l, lru_wf two_resident l ∧
       ∀ p q, p ∈ l → q ∈ l →
              id_at two_resident p = id_at two_resident q ∨
              name_at two_resident p = name_at two_resident q → p = q.
Proof.
  apply (resident_keys_unique 4
           [NewEntry 7 70 "g"; NewEntry 8 80 "h";
            Insert 0 7 true; Commit 7; Release 7 true; Insert 0 8 false]).
  - vm_compute. tauto.
  - vm_compute. reflexivity.
Defined.

(** X14: the states of the entries follow the queue.  In every state
    reached from an empty cache by a sequence of calls in which delete
    is only called on an entry that is in the cache (present in the id
    index), the cache mutex is free between the calls, every entry on
    the LRU queue has a private block in state
    Creating, Ready or Committed, and every private block off the queue
    is in state Deleted; no block is ever in the state Undefined, so
    the assertion of the lookups on the state cannot fail. *)
Theorem entry_states_follow_queue
  (maxsize : Z) (cs : list call) (s : State) :
  well_used cs (cache_start maxsize) →
  exec_all cs (cache_start maxsize) = Done tt s →
  ∃ l, lru_wf s l ∧
       c_mutex (cache s) = false ∧
       (∀ p, p ∈ l →
             ∃ st, state_at s p = Some st ∧
                   (st = CACHE_ENTRY_CREATING ∨ st = CACHE_ENTRY_READY ∨
                    st = CACHE_ENTRY_COMMITTED)) ∧
       (∀ p st, p ∉ l → state_at s p = Some st →
                st = CACHE_ENTRY_DELETED) ∧
       (∀ p, state_at s p ≠ Some CACHE_ENTRY_UNDEFINED).
Proof.
  intros Hok Hrun.
  destruct (reached_cache_inv maxsize cs s Hok Hrun) as (l & Hm & Hwf).
  exists l. split; [apply Hwf|]. split; [done|].
  split; [apply (wf_live _ _ Hwf)|].
  split; [intros p st Hp Hst; by apply (wf_dead _ _ Hwf p)|].
  intros p Hst. destruct (decide (p ∈ l)) as [Hp|Hp].
  - destruct (wf_live _ _ Hwf p Hp) as (st & Hst' & Hlive).
    rewrite Hst in Hst'. injection Hst' as <-.
    by destruct Hlive as [|[|]].
  - by pose proof (wf_dead _ _ Hwf p _ Hst Hp).
Qed.

Lemma entry_states_follow_queue_witness :
  ∃ l, lru_wf one_tombstone l ∧
       c_mutex (cache one_tombstone) = false ∧
       (∀ p, p ∈ l →
             ∃ st, state_at one_tombstone p = Some st ∧
                   (st = CACHE_ENTRY_CREATING ∨ st = CACHE_ENTRY_READY ∨
                    st = CACHE_ENTRY_COMMITTED)) ∧
       (∀ p st, p ∉ l → state_at one_tombstone p = Some st →
                st = CACHE_ENTRY_DELETED) ∧
       (∀ p, state_at one_tombstone p ≠ Some CACHE_ENTRY_UNDEFINED).
Proof.
  apply (entry_states_follow_queue 4
           [NewEntry 7 70 "g"; Insert 0 7 true; Commit 7;
            Release 7 true; LookupId 70 true; Delete 7]).
  - vm_compute. repeat split. exists 70. vm_compute. reflexivity.
  - vm_compute. reflexivity.
Defined.

(** ** What an insertion does to the other entries *)

(** A cache of size 2 that is full, entry 8 held by its creator and
    entry 7 unused, and a new entry 9 of the host. *)
Definition two_and_a_new_one : State :=
  Eval vm_compute in
    match exec_all [NewEntry 7 70 "g"; NewEntry 8 80 "h"; NewEntry 9 90 "i";
                    Insert 0 7 true; Commit 7; Release 7 true;
                    Insert 0 8 false] (cache_start 2) with
    | Done _ s => s
    | _ => cache_start 2
    end.

Lemma two_and_a_new_one_inv :
  cache_inv two_and_a_new_one [8%positive; 7%positive].
Proof.
  destruct (reached_cache_inv 2
              [NewEntry 7 70 "g"; NewEntry 8 80 "h"; NewEntry 9 90 "i";
               Insert 0 7 true; Commit 7; Release 7 true; Insert 0 8 false]
              two_and_a_new_one) as [l Hinv].
  - vm_compute. tauto.
  - vm_compute. reflexivity.
  - by rewrite <- (queue_of_two _ l 8 7 (proj2 Hinv)).
Qed.

(** X15: an insertion only evicts entries that nobody uses, and no
    more of them than it takes to get back to c_maxsize.  After a
    successful [cache_add_entry_rw] every entry that was in the cache
    is either still there, exactly as it was, or its reference count
    was zero and it has been freed; and c_cursize has not gone below
    the smaller of c_maxsize and what it became with the new entry. *)
Theorem insert_spares_entries_in_use
  (s : State) (l : list positive) (rc : Z) (e : positive) (rw : bool)
  (s' : State) :
  cache_inv s l →
  cache_add_entry_rw rc e rw s = Done 0 s' →
  ∃ l',
    cache_inv s' l' ∧
    (∀ p, p ∈ l →
          (p ∈ l' ∧ view s' p = view s p) ∨
          (p ∉ l' ∧ inuse s p = false ∧ heap s' !! p = None)) ∧
    Z.min (c_cursize (cache s) + 1) (c_maxsize (cache s))
    ≤ c_cursize (cache s').
Proof.
  intros Hinv Hrun. pose proof Hinv as [Hm Hwf].
  destruct (cache_add_entry_rw_cases _ _ _ _ _ _ Hm Hrun)
    as [[? _]|(-> & x & Hx & Hp & Hd & Hi)]; [done|].
  destruct (cache_add_entry_rw_Done s l e x rw Hinv Hx Hp Hd Hi)
    as (s1 & Hs1 & Hinv1 & Hel & Hv1 & Hgone & Hkept & Hm1).
  rewrite Hs1 in Hrun. injection Hrun as <-.
  set (l1 := make_room_list _ _ _) in *.
  assert (e ∉ l) as He.
  { apply (not_on_queue_without_slot s l e Hwf). unfold slot.
    by rewrite Hx. }
  exists l1. split; [done|]. split.
  - intros p Hp1. assert (p ≠ e) as Hpe by (by intros ->).
    destruct (decide (p ∈ l1)) as [Hin|Hout].
    + left. split; [done|]. by apply Hkept.
    + right. split; [done|]. split; [|by apply view_heap_None, Hgone].
      destruct (inuse s p) eqn:Ep; [|done]. exfalso. apply Hout.
      apply make_room_list_pinned; [|by right].
      unfold pinned_with. by rewrite decide_False.
  - rewrite (wf_size _ _ (proj2 Hinv1)), (wf_size _ _ Hwf).
    assert (NoDup (e :: l)) as Hnd.
    { apply NoDup_cons. split; [done|]. by eapply cache_wf_NoDup. }
    unfold l1, make_room_list.
    destruct (c_maxsize (cache s) <? Z.of_nat (length (e :: l))) eqn:Eo.
    + apply Z.ltb_lt in Eo.
      pose proof (requeue_list_length (pinned_with e s) 10 (e :: l) Hnd)
        as Hlen.
      assert (NoDup (requeue_list (pinned_with e s) 10 (e :: l))) as Hnd'.
      { destruct (requeue_list_splices (pinned_with e s) 10 (e :: l))
          as (k & _ & Hsp & _).
        by eapply splices_NoDup. }
      destruct (evict_list_length (pinned_with e s)
                  (Z.to_nat (Z.of_nat (length (e :: l))
                             - c_maxsize (cache s)))
                  _ Hnd') as [_ Hlow].
      rewrite Hlen in Hlow. lia.
    + apply Z.ltb_ge in Eo. simpl length in *. lia.
Qed.

Lemma insert_spares_entries_in_use_witness :
  ∃ s' l',
    cache_add_entry_rw 0 9 true two_and_a_new_one = Done 0 s' ∧
    cache_inv s' l' ∧
    (∀ p, p ∈ [8%positive; 7%positive] →
          (p ∈ l' ∧ view s' p = view two_and_a_new_one p) ∨
          (p ∉ l' ∧ inuse two_and_a_new_one p = false ∧
           heap s' !! p = None)).
Proof.
  eexists.
  assert (∀ (s' : State) (P : list positive → Prop),
            cache_add_entry_rw 0 9 true two_and_a_new_one = Done 0 s' →
            (∃ l', P l') →
            ∃ l', cache_add_entry_rw 0 9 true two_and_a_new_one = Done 0 s'
                  ∧ P l')
    as Hpack.
  { intros s' P H (l' & HP). eauto. }
  apply Hpack; [vm_compute; reflexivity|].
  destruct (insert_spares_entries_in_use two_and_a_new_one
              [8%positive; 7%positive] 0 9 true _
              two_and_a_new_one_inv ltac:(vm_compute; reflexivity))
    as (l' & Hinv' & Hold & _).
  exists l'. split; [exact Hinv'|exact Hold].
Defined.

(** ** The private block *)

(** X16: [cache_entry_private_init] followed by
    [cache_entry_private_destroy] leaves the entry as it was, without a
    private block; the block that the first sets up is unlocked, in the
    state Undefined, with no reference and no links.  When the
    initialisation of the lock fails, [cache_entry_private_init]
    returns 1 with the block taken off again, and the insertion returns
    -1 with the cache mutex released and nothing changed. *)
Theorem private_block_set_up_and_taken_down
  (s : State) (e : positive) (x : Entry) :
  heap s !! e = Some x → e_private x = None →
  (∃ s1, cache_entry_private_init 0 e s = Done 0 s1 ∧
         slot s1 e = Some (mkEntryInfo rdwr_unlocked CACHE_ENTRY_UNDEFINED 0
                             None None) ∧
         cache_entry_private_destroy e s1 = Done 0 s) ∧
  (∀ rc, rc ≠ 0 →
         cache_entry_private_init rc e s = Done 1 s ∧
         (c_mutex (cache s) = false →
          ∀ rw, cache_add_entry_rw rc e rw s = Done (-1) s)) ∧
  cache_entry_private_destroy e s = Fault.
Proof.
  intros Hx Hp. split; [|split].
  - exists (attach_slot e calloc_EntryInfo s).
    split; [by apply (cache_entry_private_init_Done s e x)|].
    assert (slot (attach_slot e calloc_EntryInfo s) e
            = Some calloc_EntryInfo) as Hs.
    { by rewrite slot_attach_slot, decide_True, Hx. }
    split; [done|].
    rewrite cache_entry_private_destroy_Done by (by rewrite Hs).
    f_equal. by apply (destroy_attach s e x).
  - intros rc Hrc. split; [by apply (cache_entry_private_init_fail s e x)|].
    intros Hm rw. by apply cache_add_entry_rw_init_failure with x.
  - unfold cache_entry_private_destroy. step (load_Done _ _ _ Hx).
    by rewrite Hp.
Qed.

Lemma private_block_set_up_and_taken_down_witness :
  cache_add_entry_rw 1 7 false
    (mkState {[7%positive := mkEntry 70 "g" None]} (cache_open 4))
  = Done (-1) (mkState {[7%positive := mkEntry 70 "g" None]} (cache_open 4)).
Proof.
  destruct (private_block_set_up_and_taken_down
              (mkState {[7%positive := mkEntry 70 "g" None]} (cache_open 4))
              7 (mkEntry 70 "g" None)) as (_ & Hfail & _).
  - vm_compute. reflexivity.
  - reflexivity.
  - destruct (Hfail 1) as [_ Hadd]; [discriminate|].
    apply Hadd. reflexivity.
Defined.

(** X17: [cache_entry_commit] is for an entry in creation, once.  On an
    entry in state Creating it sets the state to Committed and touches
    nothing else, the cache mutex included; on an entry in any other
    state, or without a private block, its assertion fails.  So a
    second commit of the same entry fails. *)
Theorem commit_once
  (s : State) (e : positive) :
  (∀ i, slot s e = Some i →
        if lei_state i =? CACHE_ENTRY_CREATING
        then ∃ s', cache_entry_commit e s = Done tt s' ∧
                   cache s' = cache s ∧
                   (∀ p, view s' p =
                           if decide (p = e)
                           then vmap (core_state CACHE_ENTRY_COMMITTED)
                                  <$> view s e
                           else view s p) ∧
                   links s' e = links s e ∧
                   cache_entry_commit e s' = Fault
        else cache_entry_commit e s = Fault) ∧
  (slot s e = None → cache_entry_commit e s = Fault).
Proof.
  split.
  - intros i Hi. unfold cache_entry_commit. step (LEI_Done _ _ _ Hi).
    destruct (lei_state i =? CACHE_ENTRY_CREATING) eqn:Ec; [|done].
    simpl negb. cbv iota.
    exists (upd_slot e (with_state CACHE_ENTRY_COMMITTED) s).
    split; [by apply set_LEI_Done|]. split; [done|]. split.
    { intros p.
      by rewrite (view_upd_slot_core _ _ _
                    (core_state CACHE_ENTRY_COMMITTED)). }
    split.
    { unfold links. rewrite slot_upd_slot, decide_True, Hi by done. done. }
    assert (slot (upd_slot e (with_state CACHE_ENTRY_COMMITTED) s) e
            = Some (with_state CACHE_ENTRY_COMMITTED i)) as Hi'.
    { by rewrite slot_upd_slot, decide_True, Hi. }
    by step (LEI_Done _ _ _ Hi').
  - intros Hn. unfold cache_entry_commit, bind. by rewrite (LEI_None _ _ Hn).
Qed.

Lemma commit_once_witness :
  ∃ s', cache_entry_commit 7 one_pending = Done tt s' ∧
        cache_entry_commit 7 s' = Fault.
Proof.
  destruct (commit_once one_pending 7) as [Hc _].
  destruct (Hc (mkEntryInfo (Rdwr 0 true) CACHE_ENTRY_CREATING 1 None None))
    as (s' & Hs' & _ & _ & _ & Hf).
  - vm_compute. reflexivity.
  - exists s'. split; [exact Hs'|exact Hf].
Defined.

(** ** References keep entries alive *)

Section references.
Implicit Types (s : State) (e p q : positive) (l : list positive).

Lemma refcnt_at_Some_slot s p n :
  refcnt_at s p = Some n → ∃ i, slot s p = Some i ∧ lei_refcnt i = n.
Proof.
  unfold refcnt_at. destruct (slot s p) as [i|]; [|done].
  intros [= <-]. eauto.
Qed.

Lemma inuse_refcnt s p n : refcnt_at s p = Some n → n ≠ 0 → inuse s p = true.
Proof.
  intros Hn Hz. unfold inuse. rewrite Hn.
  by apply negb_true_iff, Z.eqb_neq.
Qed.

(** What a routine leaves alone when it writes only links, states and
    the cache record: who is allocated, under which identifier and
    name, and the reference counts. *)
Definition same_keys (s s' : State) : Prop :=
  ∀ p, id_at s' p = id_at s p ∧ name_at s' p = name_at s p ∧
       refcnt_at s' p = refcnt_at s p.

Definition keeps {A} (m : M A) : Prop :=
  ∀ s a s', m s = Done a s' → same_keys s s'.

Lemma same_keys_refl s : same_keys s s.
Proof. by intros p. Qed.

Lemma same_keys_trans s1 s2 s3 :
  same_keys s1 s2 → same_keys s2 s3 → same_keys s1 s3.
Proof.
  intros H12 H23 p. destruct (H12 p) as (? & ? & ?), (H23 p) as (? & ? & ?).
  repeat split; congruence.
Qed.

Lemma keeps_ret {A} (a : A) : keeps (ret a).
Proof. intros s b s' [= _ <-]. apply same_keys_refl. Qed.

Lemma keeps_bind {A B} (m : M A) (k : A → M B) :
  keeps m → (∀ a, keeps (k a)) → keeps (bind m k).
Proof.
  intros Hm Hk s b s' Hrun. unfold bind in Hrun.
  destruct (m s) as [a s1| | |] eqn:Em; [|done..].
  eapply same_keys_trans; [by eapply Hm|by eapply Hk].
Qed.

Lemma keeps_get_cache : keeps get_cache.
Proof. intros s b s' [= _ <-]. apply same_keys_refl. Qed.

Lemma keeps_set_cache g : keeps (set_cache g).
Proof.
  intros s b s' Hrun. unfold set_cache in Hrun. injection Hrun as _ <-.
  by intros p.
Qed.

Lemma keeps_load e : keeps (load e).
Proof.
  intros s b s' Hrun. unfold load in Hrun.
  destruct (heap s !! e); [|done]. injection Hrun as _ <-.
  apply same_keys_refl.
Qed.

Lemma keeps_LEI e : keeps (LEI e).
Proof.
  apply keeps_bind; [apply keeps_load|]. intros x.
  destruct (e_private x); [apply keeps_ret|done].
Qed.

Lemma keeps_set_LEI e f :
  (∀ i, lei_refcnt (f i) = lei_refcnt i) → keeps (set_LEI e f).
Proof.
  intros Hf s b s' Hrun. unfold set_LEI, bind, load, store in Hrun.
  destruct (heap s !! e) as [x|] eqn:Ex; [|done].
  destruct (e_private x) as [i|] eqn:Ei; [|done].
  rewrite Ex in Hrun. injection Hrun as _ <-. intros p.
  unfold id_at, name_at, refcnt_at, slot. simpl.
  destruct (decide (p = e)) as [->|Hp].
  - rewrite lookup_insert_eq, Ex. simpl. by rewrite Ei, Hf.
  - by rewrite lookup_insert_ne.
Qed.

Lemma keeps_LRU_DELETE e : keeps (LRU_DELETE e).
Proof.
  unfold LRU_DELETE.
  apply keeps_bind; [apply keeps_LEI|]. intros i.
  apply keeps_bind.
  { destruct (lei_lruprev i);
      [by apply keeps_set_LEI|apply keeps_set_cache]. }
  intros _. apply keeps_bind; [apply keeps_LEI|]. intros j.
  destruct (lei_lrunext j); [by apply keeps_set_LEI|apply keeps_set_cache].
Qed.

Lemma keeps_cache_delete_entry_internal e :
  keeps (cache_delete_entry_internal e).
Proof.
  unfold cache_delete_entry_internal, avl_delete_dn, avl_delete_id.
  apply keeps_bind.
  { apply keeps_bind; [apply keeps_load|]. intros x.
    apply keeps_bind; [apply keeps_get_cache|]. intros c.
    destruct (c_dntree c !! e_nname x); [|apply keeps_ret].
    apply keeps_bind; [apply keeps_set_cache|]. intros _. apply keeps_ret. }
  intros d. apply keeps_bind.
  { apply keeps_bind; [apply keeps_load|]. intros x.
    apply keeps_bind; [apply keeps_get_cache|]. intros c.
    destruct (c_idtree c !! e_id x); [|apply keeps_ret].
    apply keeps_bind; [apply keeps_set_cache|]. intros _. apply keeps_ret. }
  intros d'. destruct (negb _); [apply keeps_ret|].
  apply keeps_bind; [apply keeps_LRU_DELETE|]. intros _.
  apply keeps_bind; [apply keeps_get_cache|]. intros c.
  apply keeps_bind; [apply keeps_set_cache|]. intros _.
  apply keeps_bind; [by apply keeps_set_LEI|]. intros _. apply keeps_ret.
Qed.

(** [cache_delete_entry], whatever entry it is given and whatever it
    returns, frees nothing and touches no identifier, name or
    reference count. *)
Lemma keeps_cache_delete_entry e : keeps (cache_delete_entry e).
Proof.
  unfold cache_delete_entry, ldap_pvt_thread_mutex_lock,
    ldap_pvt_thread_mutex_unlock.
  apply keeps_bind.
  { apply keeps_bind; [apply keeps_get_cache|]. intros c.
    destruct (c_mutex c); [done|apply keeps_set_cache]. }
  intros _. apply keeps_bind; [apply keeps_LEI|]. intros _.
  apply keeps_bind; [apply keeps_cache_delete_entry_internal|]. intros rc.
  apply keeps_bind; [apply keeps_set_cache|]. intros _. apply keeps_ret.
Qed.
End references.

(** X18: a reference keeps an entry alive.  Whatever one call does -
    an insertion with its eviction, a lookup pass, a commit, the return
    or the delete of any entry, be it in the cache or not,
    [cache_release_all] - an entry whose reference count is not zero is
    still allocated afterwards, with the same identifier and name and
    with its private block, unless the call is a return of that very
    entry; its reference count is the same, or, when the call is a
    lookup by id that found it, incremented in its C int: one higher
    unless it was INT_MAX. *)
Theorem reference_keeps_entry_alive
  (c : call) (s : State) (l : list positive) (s' : State)
  (p : positive) (n : Z) :
  cache_inv s l → exec c s = Done tt s' →
  refcnt_at s p = Some n → n ≠ 0 →
  (∀ rw, c ≠ Release p rw) →
  id_at s' p = id_at s p ∧ name_at s' p = name_at s p ∧
  (refcnt_at s' p = Some n ∨
   (∃ id rw, c = LookupId id rw) ∧
   refcnt_at s' p = Some (int_wrap (n + 1)) ∧
   (n < INT_MAX → refcnt_at s' p = Some (n + 1))).
Proof.
  intros Hinv Hrun Hn Hz Hne. pose proof Hinv as [Hm Hwf].
  destruct (refcnt_at_Some_slot _ _ _ Hn) as (ip & Hip & Hnp).
  pose proof (inuse_refcnt _ _ _ Hn Hz) as Hpin.
  assert (∀ s1, view s1 p = view s p →
                id_at s1 p = id_at s p ∧ name_at s1 p = name_at s p ∧
                (refcnt_at s1 p = Some n ∨
                 (∃ id rw, c = LookupId id rw) ∧
                 refcnt_at s1 p = Some (int_wrap (n + 1)) ∧
                 (n < INT_MAX → refcnt_at s1 p = Some (n + 1)))) as Hsame.
  { intros s1 Hv. split; [by apply same_view_id_at|].
    split; [by apply same_view_name_at|]. left.
    by rewrite (same_view_refcnt_at s s1). }
  assert (∀ s1 g, (∀ c, (g c).2 = c.2) →
                  view s1 p = vmap g <$> view s p →
                  id_at s1 p = id_at s p ∧ name_at s1 p = name_at s p ∧
                  (refcnt_at s1 p = Some n ∨
                   (∃ id rw, c = LookupId id rw) ∧
                   refcnt_at s1 p = Some (int_wrap (n + 1)) ∧
                   (n < INT_MAX → refcnt_at s1 p = Some (n + 1))))
    as Hstate.
  { intros s1 g Hg Hv. split; [|split; [|left]].
    - rewrite !view_id_at, Hv. by destruct (view s p) as [[[??]?]|].
    - rewrite !view_name_at, Hv. by destruct (view s p) as [[[??]?]|].
    - by rewrite (refcnt_at_vmap s s1 p g Hg Hv). }
  destruct c as [rc e rw|id rw|ndn|e|e rw|e| |e id ndn]; simpl in Hrun.
  - apply bind_ret_tt_inv in Hrun as [r Hrun].
    destruct (cache_add_entry_rw_cases _ _ _ _ _ _ Hm Hrun)
      as [[_ ->]|(-> & x & Hx & Hp & Hd & Hi)]; [by apply Hsame|].
    destruct (cache_add_entry_rw_Done s l e x rw Hinv Hx Hp Hd Hi)
      as (s1 & Hs1 & Hinv1 & _ & _ & _ & Hkept & _).
    rewrite Hs1 in Hrun. injection Hrun as _ <-.
    assert (p ≠ e) as Hpe.
    { intros ->. unfold slot in Hip. rewrite Hx in Hip. simpl in Hip.
      congruence. }
    apply Hsame, Hkept; [done|]. intros Hpl.
    apply make_room_list_pinned; [|by right].
    unfold pinned_with. by rewrite decide_False.
  - apply bind_ret_tt_inv in Hrun as [r Hrun].
    destruct (c_idtree (cache s) !! id) as [ep|] eqn:Hid; last first.
    { rewrite cache_find_entry_id_pass_absent in Hrun by done.
      injection Hrun as _ <-. by apply Hsame. }
    assert (ep ∈ l) as He by (by apply (wf_id _ _ Hwf) in Hid as [? _]).
    destruct (cache_wf_slot _ _ _ Hwf He) as [i Hi].
    destruct (indexed_entry_live s l ep i Hwf He Hi) as [Hu _].
    destruct (decide (lei_state i = CACHE_ENTRY_READY)) as [Hr|Hr];
      last first.
    { rewrite (cache_find_entry_id_pass_not_ready s id rw ep i) in Hrun
        by done.
      injection Hrun as _ <-. by apply Hsame. }
    destruct (decide ((try_rdwr rw (lei_rdwr i)).1 = LDAP_PVT_THREAD_EBUSY))
      as [Hb|Hb].
    { rewrite (cache_find_entry_id_pass_busy s id rw ep i) in Hrun by done.
      injection Hrun as _ <-. by apply Hsame. }
    destruct (cache_find_entry_id_pass_found s l id rw ep i
                Hinv Hid Hi Hr Hb) as (s1 & Hs1 & Hinv1 & Hv1 & _).
    rewrite Hs1 in Hrun. injection Hrun as _ <-.
    destruct (decide (p = ep)) as [->|Hpe]; last first.
    { apply Hsame. by rewrite Hv1, decide_False. }
    pose proof (Hv1 ep) as Hve. rewrite decide_True in Hve by done.
    assert (i = ip) as -> by congruence.
    destruct (view_Some_slot _ _ _ Hi) as (id' & nm & Hvs & Hide & Hnme).
    rewrite Hvs in Hve. simpl in Hve. unfold vmap in Hve. simpl in Hve.
    split; [rewrite Hide; by eapply id_at_view|].
    split; [rewrite Hnme; by eapply name_at_view|].
    assert (refcnt_at s1 ep = Some (int_wrap (n + 1))) as Hn1.
    { rewrite <- Hnp. by eapply refcnt_at_view. }
    right. split; [eauto|]. split; [done|]. intros Hlt.
    pose proof (wf_count _ _ Hwf ep _ Hn) as Hrange.
    by rewrite Hn1, int_wrap_id by lia.
  - apply bind_ret_tt_inv in Hrun as [r Hrun].
    destruct (c_dntree (cache s) !! ndn) as [ep|] eqn:Hid; last first.
    { rewrite cache_find_entry_ndn2id_pass_absent in Hrun by done.
      injection Hrun as _ <-. by apply Hsame. }
    assert (ep ∈ l) as He by (by apply (wf_dn _ _ Hwf) in Hid as [? _]).
    destruct (cache_wf_slot _ _ _ Hwf He) as [i Hi].
    destruct (indexed_entry_live s l ep i Hwf He Hi) as [Hu _].
    destruct (decide (lei_state i = CACHE_ENTRY_READY)) as [Hr|Hr];
      last first.
    { rewrite (cache_find_entry_ndn2id_pass_not_ready s ndn ep i) in Hrun
        by done.
      injection Hrun as _ <-. by apply Hsame. }
    destruct (cache_find_entry_ndn2id_pass_found s l ndn ep i
                Hinv Hid Hi Hr) as (s1 & id & Hs1 & _ & Hinv1 & Hv1 & _).
    rewrite Hs1 in Hrun. injection Hrun as _ <-. apply Hsame, Hv1.
  - destruct (slot s e) as [i|] eqn:Hi; last first.
    { unfold cache_entry_commit, bind in Hrun.
      by rewrite (LEI_None _ _ Hi) in Hrun. }
    destruct (decide (lei_state i = CACHE_ENTRY_CREATING)) as [Hc|Hc].
    + destruct (cache_entry_commit_Done s l e i Hinv Hi Hc)
        as (Hs1 & Hinv1 & Hv1).
      rewrite Hs1 in Hrun. injection Hrun as <-.
      specialize (Hv1 p). case_decide; [subst p|by apply Hsame].
      by apply (Hstate _ (core_state CACHE_ENTRY_COMMITTED)).
    + unfold cache_entry_commit in Hrun. revert Hrun.
      step (LEI_Done _ _ _ Hi). apply Z.eqb_neq in Hc. by rewrite Hc.
  - destruct (slot s e) as [i|] eqn:Hi; last first.
    { unfold cache_return_entry_rw in Hrun. revert Hrun.
      step (mutex_lock_Done s Hm). unfold bind.
      by rewrite (LEI_None (upd_cache _ s) e Hi). }
    destruct (cache_return_entry_rw_Done s l e i rw Hinv Hi)
      as (s1 & Hs1 & Hinv1 & Hv1 & _).
    rewrite Hs1 in Hrun. injection Hrun as <-.
    apply Hsame. rewrite Hv1, decide_False; [done|].
    intros ->. by apply (Hne rw).
  - apply bind_ret_tt_inv in Hrun as [r Hrun].
    destruct (keeps_cache_delete_entry e _ _ _ Hrun p) as (Hi' & Hn' & Hr').
    split; [done|]. split; [done|]. left. by rewrite Hr'.
  - destruct (cache_release_all_Done s l Hinv)
      as (s1 & Hs1 & Hinv1 & _ & Hkept & _).
    rewrite Hs1 in Hrun. injection Hrun as <-.
    apply Hsame, Hkept. intros Hpl. by apply evict_list_pinned.
  - destruct (heap s !! e) as [x|] eqn:Hx.
    { unfold host_new_entry in Hrun. by rewrite Hx in Hrun. }
    destruct (host_new_entry_Done s l e id ndn Hinv Hx)
      as (Hs1 & Hinv1 & Hv1).
    rewrite Hs1 in Hrun. injection Hrun as <-.
    apply Hsame. rewrite Hv1, decide_False; [done|]. intros ->.
    unfold slot in Hip. by rewrite Hx in Hip.
Qed.

Lemma reference_keeps_entry_alive_witness :
  ∃ s',
    exec Drain two_resident = Done tt s' ∧
    id_at s' 8 = id_at two_resident 8 ∧
    name_at s' 8 = name_at two_resident 8 ∧
    refcnt_at s' 8 = Some 1.
Proof.
  assert (∃ s', exec Drain two_resident = Done tt s') as [s' Hs'].
  { eexists. vm_compute. reflexivity. }
  exists s'. split; [exact Hs'|].
  destruct (reference_keeps_entry_alive Drain two_resident
              [8%positive; 7%positive] s' 8 1 two_resident_inv Hs')
    as (Hid & Hnm & [Hn|[(id & rw & Hc) _]]).
  - vm_compute. reflexivity.
  - discriminate.
  - discriminate.
  - split; [exact Hid|]. split; [exact Hnm|exact Hn].
  - discriminate Hc.
Defined.

(** X19: a lookup pass cannot fail.  From a state that satisfies the
    invariant of the cache, one pass of either lookup always ends: not
    in a failed assertion, not waiting for the mutex.  It gives up with
    the state as it was, or returns with the cache in a state that
    satisfies the invariant; the entry that a lookup by id returns is
    an entry of the cache in state Ready. *)
Theorem lookup_pass_cannot_fail
  (s : State) (l : list positive) :
  cache_inv s l →
  (∀ id rw,
     cache_find_entry_id_pass id rw s = Done TryAgain s ∨
     cache_find_entry_id_pass id rw s = Done (Return None) s ∨
     ∃ ep s', cache_find_entry_id_pass id rw s = Done (Return (Some ep)) s' ∧
              cache_inv s' (ep :: lru_del ep l) ∧ ep ∈ l ∧
              id_at s' ep = Some id ∧
              state_at s' ep = Some CACHE_ENTRY_READY) ∧
  (∀ ndn,
     cache_find_entry_ndn2id_pass ndn s = Done TryAgain s ∨
     cache_find_entry_ndn2id_pass ndn s = Done (Return NOID) s ∨
     ∃ ep id s', cache_find_entry_ndn2id_pass ndn s = Done (Return id) s' ∧
                 cache_inv s' (ep :: lru_del ep l) ∧ ep ∈ l ∧
                 id_at s ep = Some id ∧ name_at s ep = Some ndn).
Proof.
  intros Hinv. pose proof Hinv as [Hm Hwf]. split.
  - intros id rw.
    destruct (c_idtree (cache s) !! id) as [ep|] eqn:Hid; last first.
    { right. left. by apply cache_find_entry_id_pass_absent. }
    pose proof Hid as [He Hide]%(wf_id _ _ Hwf).
    destruct (cache_wf_slot _ _ _ Hwf He) as [i Hi].
    destruct (indexed_entry_live s l ep i Hwf He Hi) as [Hu _].
    destruct (decide (lei_state i = CACHE_ENTRY_READY)) as [Hr|Hr];
      last first.
    { left. by eapply cache_find_entry_id_pass_not_ready. }
    destruct (decide ((try_rdwr rw (lei_rdwr i)).1 = LDAP_PVT_THREAD_EBUSY))
      as [Hb|Hb].
    { left. by eapply cache_find_entry_id_pass_busy. }
    destruct (cache_find_entry_id_pass_found s l id rw ep i
                Hinv Hid Hi Hr Hb) as (s1 & Hs1 & Hinv1 & Hv1 & _).
    right. right. exists ep, s1. split; [done|]. split; [done|].
    split; [done|].
    destruct (view_Some_slot _ _ _ Hi) as (id' & nm & Hve & Hide' & _).
    pose proof (Hv1 ep) as Hve1. rewrite decide_True, Hve in Hve1 by done.
    simpl in Hve1. unfold vmap in Hve1. simpl in Hve1.
    split; [|by eapply state_at_view].
    rewrite (id_at_view _ _ _ _ _ Hve1). congruence.
  - intros ndn.
    destruct (c_dntree (cache s) !! ndn) as [ep|] eqn:Hdn; last first.
    { right. left. by apply cache_find_entry_ndn2id_pass_absent. }
    pose proof Hdn as [He Hnme]%(wf_dn _ _ Hwf).
    destruct (cache_wf_slot _ _ _ Hwf He) as [i Hi].
    destruct (indexed_entry_live s l ep i Hwf He Hi) as [Hu _].
    destruct (decide (lei_state i = CACHE_ENTRY_READY)) as [Hr|Hr];
      last first.
    { left. by eapply cache_find_entry_ndn2id_pass_not_ready. }
    destruct (cache_find_entry_ndn2id_pass_found s l ndn ep i
                Hinv Hdn Hi Hr) as (s1 & id & Hs1 & Hid & Hinv1 & _).
    right. right. by exists ep, id, s1.
Qed.

Lemma lookup_pass_cannot_fail_witness :
  cache_find_entry_id_pass 70 false one_pending = Done TryAgain one_pending ∨
  cache_find_entry_id_pass 70 false one_pending
  = Done (Return None) one_pending ∨
  ∃ ep s', cache_find_entry_id_pass 70 false one_pending
           = Done (Return (Some ep)) s' ∧
           cache_inv s' (ep :: lru_del ep [7%positive]) ∧
           ep ∈ [7%positive] ∧
           id_at s' ep = Some 70 ∧
           state_at s' ep = Some CACHE_ENTRY_READY.
Proof.
  apply (lookup_pass_cannot_fail one_pending [7%positive] one_pending_inv).
Defined.

(** X20: the eviction of [cache_update_entry] stops where the one of
    the insertion does.  After a successful update c_cursize is at most
    c_maxsize, or the entry at the tail of the LRU queue is in use, or
    the update has emptied the queue (which it can only do by evicting
    the entry it was given, when nobody holds it). *)
Theorem size_bound_after_update
  (s : State) (l : list positive) (e : positive) (x : Entry)
  (i : EntryInfo) :
  cache_inv s l →
  heap s !! e = Some x → e_private x = Some i →
  c_dntree (cache s) !! e_nname x = None →
  c_idtree (cache s) !! e_id x = None →
  ∃ s' l',
    cache_update_entry e s = Done 0 s' ∧ cache_inv s' l' ∧
    (c_cursize (cache s') ≤ c_maxsize (cache s') ∨
     (∃ t, c_lrutail (cache s') = Some t ∧ inuse s' t = true) ∨
     (l' = [] ∧ lei_refcnt i = 0 ∧ heap s' !! e = None)).
Proof.
  intros Hinv Hx Hp Hdn Hid. pose proof Hinv as [Hm Hwf].
  destruct (cache_update_entry_Done s l e x i Hinv Hx Hp Hdn Hid)
    as (s' & Hs' & Hinv' & Hgone & Hkept & Hm').
  set (l' := make_room_list _ _ _) in *.
  exists s', l'. split; [done|]. split; [done|].
  assert (slot s e = Some i) as Hse by (unfold slot; by rewrite Hx).
  pose proof (free_name_off_queue _ _ _ _ Hwf Hx Hdn) as He.
  assert (NoDup (e :: l)) as Hnd.
  { apply NoDup_cons. split; [done|]. by eapply cache_wf_NoDup. }
  destruct (make_room_list_stop (inuse s) (c_maxsize (cache s)) (e :: l) Hnd)
    as [Hle|[(t & Ht & Hpin)|Hnil]].
  - left. by rewrite (wf_size _ _ (proj2 Hinv')), Hm'.
  - right. left. exists t.
    rewrite (cache_wf_tail _ _ (proj2 Hinv')). split; [done|].
    rewrite <- Hpin. apply last_elem in Ht.
    pose proof (Hkept t (λ _, Ht)) as Hvt. unfold inuse.
    rewrite !view_refcnt_at, Hvt. case_decide; [subst t|done].
    unfold view. rewrite Hx. simpl. by rewrite Hp.
  - right. right. split; [done|].
    assert (e ∉ l') as Hout
      by (unfold l'; rewrite Hnil; apply not_elem_of_nil).
    split.
    + destruct (decide (lei_refcnt i = 0)) as [|Hn]; [done|].
      exfalso. apply Hout. apply make_room_list_pinned; [|left].
      unfold inuse. rewrite (refcnt_at_slot _ _ _ Hse).
      by apply negb_true_iff, Z.eqb_neq.
    + apply view_heap_None, Hgone; [left|done].
Qed.

Lemma size_bound_after_update_witness :
  ∃ s' l',
    cache_update_entry 7 one_tombstone = Done 0 s' ∧ cache_inv s' l' ∧
    (c_cursize (cache s') ≤ c_maxsize (cache s') ∨
     (∃ t, c_lrutail (cache s') = Some t ∧ inuse s' t = true) ∨
     (l' = [] ∧ 1 = 0 ∧ heap s' !! 7%positive = None)).
Proof.
  apply (size_bound_after_update one_tombstone [] 7
           (mkEntry 70 "g"
              (Some (mkEntryInfo (Rdwr 0 true) CACHE_ENTRY_DELETED 1
                       None None)))
           (mkEntryInfo (Rdwr 0 true) CACHE_ENTRY_DELETED 1 None None)
           one_tombstone_inv).
  - vm_compute. reflexivity.
  - reflexivity.
  - vm_compute. reflexivity.
  - vm_compute. reflexivity.
Defined.
